(** * The generator lowering pass of [src/compiler/generator.ts]

    A shallow embedding of [createCodeGenerator]: the opcode recorder, the
    label allocator, the block-scope stack and the switch-body assembler
    ([buildFunctionBody]), followed by the properties of the specification
    that are checked against it.

    Conventions of the embedding.
    - JavaScript numbers that the pass stores (labels, offsets, counters)
      are [Z]; positions in a Rocq list are [nat].
    - A JavaScript value that may be [undefined] is an [option].
    - Sparse arrays ([labels], [labelNumbers]) are lists of optional slots,
      a hole being [None].
    - Block scopes are objects shared by the live stack and by the event
      log and mutated after they were logged; they live in a store and are
      named by reference.
    - [Debug.assert] failing, or reading a field of [undefined], aborts the
      call: the recorder runs in a state-and-failure monad. *)

From Stdlib Require Import ZArith Lia Bool Ascii String DecimalString.
From Stdlib Require DecimalZ DecimalPos.
From stdpp Require Import base tactics option list strings.

Set Warnings "-register-all".
Open Scope string_scope.
Open Scope list_scope.
Open Scope Z_scope.

(** ** JavaScript values and tree nodes *)

(** [TextRange] of [types.ts]; [None] is [undefined]. *)
Definition TextRange : Type := (Z * Z)%type.
Definition Location : Type := option TextRange.

(** Modelled from the spec: [types.ts] is absent. Of [SyntaxKind] only the
    members that [emitNode] tells apart are kept; every other kind of the
    input tree is [OtherKind]. *)
Inductive SyntaxKind : Type :=
| Block | FunctionBlock | TryBlock | CatchBlock | FinallyBlock
| CaseClause | DefaultClause
| OtherKind.

(** Values as the untyped [any] arguments of [emit] carry them, and the
    nodes they may hold.
    - [SourceNode kind statement text statements] is a node of the input
      tree; [statement] is the answer of the absent predicate [isStatement]
      on it, and [statements] its children when it is block-like.
    - [GeneratedNode text content location] is what
      [factory.createGeneratedNode] builds: a template and its substitution
      map.
    - [GeneratedLabel label location] is what [factory.createGeneratedLabel]
      builds: a reference to a label, resolved through [labelNumbers] when
      the tree is printed.
    - [ExpressionStatement expression location] is what
      [factory.createExpressionStatement] builds. *)
Inductive Value : Type :=
| VUndefined
| VNull
| VBoolean (b : bool)
| VNumber (n : Z)
| VString (s : string)
| VNode (node : Node)
| VArray (items : list Value)
| VObject (fields : list (string * Value))
with Node : Type :=
| SourceNode (kind : SyntaxKind) (statement : bool) (text : string)
             (statements : list Node)
| GeneratedNode (text : string) (content : Value) (location : Location)
| GeneratedLabel (label : Value) (location : Location)
| ExpressionStatement (expression : Value) (location : Location).

(** JavaScript truthiness, as [if (x)] and [!x] use it. *)
Definition truthy (v : Value) : bool :=
  match v with
  | VUndefined | VNull => false
  | VBoolean b => b
  | VNumber n => negb (n =? 0)
  | VString s => negb (String.eqb s EmptyString)
  | VNode _ | VArray _ | VObject _ => true
  end.

Definition ofLabel (label : option Z) : Value :=
  match label with Some l => VNumber l | None => VUndefined end.

(** [isStatement(node)] and [node.kind === SyntaxKind.GeneratedNode]. *)
Definition isStatement (v : Value) : bool :=
  match v with
  | VNode (SourceNode _ statement _ _) => statement
  | VNode (ExpressionStatement _ _) => true
  | _ => false
  end.

Definition isGeneratedNode (v : Value) : bool :=
  match v with
  | VNode (GeneratedNode _ _ _) => true
  | _ => false
  end.

(** ** Enumerations of the source *)

Inductive BlockAction : Type := Open | Close.

Inductive BlockKind : Type :=
| Exception | ScriptBreak | Break | ScriptContinue | Continue.

Inductive ExceptionBlockState : Type := Try | Catch | Finally | Done.

(** The numeric value of the enum member, which [<] compares. *)
Definition stateRank (s : ExceptionBlockState) : Z :=
  match s with Try => 0 | Catch => 1 | Finally => 2 | Done => 3 end.

(** Modelled from the spec: [OpCode] is declared in the absent [types.ts];
    these are the nine members that [writeOperation] dispatches on. *)
Inductive OpCode : Type :=
| Statement | Assign | OpBreak | BrTrue | BrFalse
| Yield | Return | Throw | Endfinally.

#[global] Instance BlockAction_eq_dec : EqDecision BlockAction.
Proof. solve_decision. Defined.
#[global] Instance BlockKind_eq_dec : EqDecision BlockKind.
Proof. solve_decision. Defined.
#[global] Instance ExceptionBlockState_eq_dec : EqDecision ExceptionBlockState.
Proof. solve_decision. Defined.
#[global] Instance OpCode_eq_dec : EqDecision OpCode.
Proof. solve_decision. Defined.

(** ** Block scopes

    One record stands for the object literals of [ExceptionBlock],
    [BreakBlock] and [ContinueBlock]: a field that the literal does not set
    is [None], which is what reading it yields in the source. [labelSymbol]
    is the field that [beginScriptBreakBlock] writes. *)
Record BlockScope : Type := mkBlock {
  kind : BlockKind;
  state : option ExceptionBlockState;
  startLabel : option Z;
  catchVariable : option Value;
  catchLabel : option Z;
  finallyLabel : option Z;
  endLabel : option Z;
  breakLabel : option Z;
  labelText : option string;
  labelSymbol : option string;
  continueLabel : option Z
}.

Abbreviation BlockRef := nat (only parsing).

Definition emptyBlock (k : BlockKind) : BlockScope :=
  mkBlock k None None None None None None None None None None.

(** ** The state of one generator *)

Record ParameterDeclaration : Type := mkParameter {
  parameterName : Value;
  parameterLocation : Location;
  parameterFlags : option Z
}.

Record State : Type := mkState {
  (* locations *)
  relatedLocation : Location;
  locationStack : list Location;
  (* locals/hoisted variables/hoisted functions *)
  nextLocalId : Z;
  parameters : list ParameterDeclaration;
  locals : list Node;
  namedLocals : list Node;
  functions : list Value;
  (* blocks *)
  store : list BlockScope;
  blocks : list (option BlockRef);
  blockStack : list BlockRef;
  blockActions : list BlockAction;
  blockOffsets : list Z;
  hasProtectedRegions : bool;
  (* labels *)
  nextLabelId : Z;
  labelNumbers : list (option Z);
  labels : list (option Z);
  (* operations *)
  operations : list OpCode;
  operationArguments : list (list Value);
  operationLocations : list Location
}.

(** Assignments to one variable of the closure. *)
Definition set_relatedLocation (v : Location) (g : State) : State :=
  mkState v (locationStack g) (nextLocalId g) (parameters g) (locals g)
    (namedLocals g) (functions g) (store g) (blocks g) (blockStack g)
    (blockActions g) (blockOffsets g) (hasProtectedRegions g)
    (nextLabelId g) (labelNumbers g) (labels g) (operations g)
    (operationArguments g) (operationLocations g).
Definition set_locationStack (v : list Location) (g : State) : State :=
  mkState (relatedLocation g) v (nextLocalId g) (parameters g) (locals g)
    (namedLocals g) (functions g) (store g) (blocks g) (blockStack g)
    (blockActions g) (blockOffsets g) (hasProtectedRegions g)
    (nextLabelId g) (labelNumbers g) (labels g) (operations g)
    (operationArguments g) (operationLocations g).
Definition set_nextLocalId (v : Z) (g : State) : State :=
  mkState (relatedLocation g) (locationStack g) v (parameters g) (locals g)
    (namedLocals g) (functions g) (store g) (blocks g) (blockStack g)
    (blockActions g) (blockOffsets g) (hasProtectedRegions g)
    (nextLabelId g) (labelNumbers g) (labels g) (operations g)
    (operationArguments g) (operationLocations g).
Definition set_parameters (v : list ParameterDeclaration) (g : State) : State :=
  mkState (relatedLocation g) (locationStack g) (nextLocalId g) v (locals g)
    (namedLocals g) (functions g) (store g) (blocks g) (blockStack g)
    (blockActions g) (blockOffsets g) (hasProtectedRegions g)
    (nextLabelId g) (labelNumbers g) (labels g) (operations g)
    (operationArguments g) (operationLocations g).
Definition set_locals (v : list Node) (g : State) : State :=
  mkState (relatedLocation g) (locationStack g) (nextLocalId g)
    (parameters g) v (namedLocals g) (functions g) (store g) (blocks g)
    (blockStack g) (blockActions g) (blockOffsets g) (hasProtectedRegions g)
    (nextLabelId g) (labelNumbers g) (labels g) (operations g)
    (operationArguments g) (operationLocations g).
Definition set_namedLocals (v : list Node) (g : State) : State :=
  mkState (relatedLocation g) (locationStack g) (nextLocalId g)
    (parameters g) (locals g) v (functions g) (store g) (blocks g)
    (blockStack g) (blockActions g) (blockOffsets g) (hasProtectedRegions g)
    (nextLabelId g) (labelNumbers g) (labels g) (operations g)
    (operationArguments g) (operationLocations g).
Definition set_functions (v : list Value) (g : State) : State :=
  mkState (relatedLocation g) (locationStack g) (nextLocalId g)
    (parameters g) (locals g) (namedLocals g) v (store g) (blocks g)
    (blockStack g) (blockActions g) (blockOffsets g) (hasProtectedRegions g)
    (nextLabelId g) (labelNumbers g) (labels g) (operations g)
    (operationArguments g) (operationLocations g).
Definition set_store (v : list BlockScope) (g : State) : State :=
  mkState (relatedLocation g) (locationStack g) (nextLocalId g)
    (parameters g) (locals g) (namedLocals g) (functions g) v (blocks g)
    (blockStack g) (blockActions g) (blockOffsets g) (hasProtectedRegions g)
    (nextLabelId g) (labelNumbers g) (labels g) (operations g)
    (operationArguments g) (operationLocations g).
Definition set_blocks (v : list (option BlockRef)) (g : State) : State :=
  mkState (relatedLocation g) (locationStack g) (nextLocalId g)
    (parameters g) (locals g) (namedLocals g) (functions g) (store g) v
    (blockStack g) (blockActions g) (blockOffsets g) (hasProtectedRegions g)
    (nextLabelId g) (labelNumbers g) (labels g) (operations g)
    (operationArguments g) (operationLocations g).
Definition set_blockStack (v : list BlockRef) (g : State) : State :=
  mkState (relatedLocation g) (locationStack g) (nextLocalId g)
    (parameters g) (locals g) (namedLocals g) (functions g) (store g)
    (blocks g) v (blockActions g) (blockOffsets g) (hasProtectedRegions g)
    (nextLabelId g) (labelNumbers g) (labels g) (operations g)
    (operationArguments g) (operationLocations g).
Definition set_blockActions (v : list BlockAction) (g : State) : State :=
  mkState (relatedLocation g) (locationStack g) (nextLocalId g)
    (parameters g) (locals g) (namedLocals g) (functions g) (store g)
    (blocks g) (blockStack g) v (blockOffsets g) (hasProtectedRegions g)
    (nextLabelId g) (labelNumbers g) (labels g) (operations g)
    (operationArguments g) (operationLocations g).
Definition set_blockOffsets (v : list Z) (g : State) : State :=
  mkState (relatedLocation g) (locationStack g) (nextLocalId g)
    (parameters g) (locals g) (namedLocals g) (functions g) (store g)
    (blocks g) (blockStack g) (blockActions g) v (hasProtectedRegions g)
    (nextLabelId g) (labelNumbers g) (labels g) (operations g)
    (operationArguments g) (operationLocations g).
Definition set_hasProtectedRegions (v : bool) (g : State) : State :=
  mkState (relatedLocation g) (locationStack g) (nextLocalId g)
    (parameters g) (locals g) (namedLocals g) (functions g) (store g)
    (blocks g) (blockStack g) (blockActions g) (blockOffsets g) v
    (nextLabelId g) (labelNumbers g) (labels g) (operations g)
    (operationArguments g) (operationLocations g).
Definition set_nextLabelId (v : Z) (g : State) : State :=
  mkState (relatedLocation g) (locationStack g) (nextLocalId g)
    (parameters g) (locals g) (namedLocals g) (functions g) (store g)
    (blocks g) (blockStack g) (blockActions g) (blockOffsets g)
    (hasProtectedRegions g) v (labelNumbers g) (labels g) (operations g)
    (operationArguments g) (operationLocations g).
Definition set_labelNumbers (v : list (option Z)) (g : State) : State :=
  mkState (relatedLocation g) (locationStack g) (nextLocalId g)
    (parameters g) (locals g) (namedLocals g) (functions g) (store g)
    (blocks g) (blockStack g) (blockActions g) (blockOffsets g)
    (hasProtectedRegions g) (nextLabelId g) v (labels g) (operations g)
    (operationArguments g) (operationLocations g).
Definition set_labels (v : list (option Z)) (g : State) : State :=
  mkState (relatedLocation g) (locationStack g) (nextLocalId g)
    (parameters g) (locals g) (namedLocals g) (functions g) (store g)
    (blocks g) (blockStack g) (blockActions g) (blockOffsets g)
    (hasProtectedRegions g) (nextLabelId g) (labelNumbers g) v
    (operations g) (operationArguments g) (operationLocations g).
Definition set_operations (v : list OpCode) (g : State) : State :=
  mkState (relatedLocation g) (locationStack g) (nextLocalId g)
    (parameters g) (locals g) (namedLocals g) (functions g) (store g)
    (blocks g) (blockStack g) (blockActions g) (blockOffsets g)
    (hasProtectedRegions g) (nextLabelId g) (labelNumbers g) (labels g) v
    (operationArguments g) (operationLocations g).
Definition set_operationArguments (v : list (list Value)) (g : State) : State :=
  mkState (relatedLocation g) (locationStack g) (nextLocalId g)
    (parameters g) (locals g) (namedLocals g) (functions g) (store g)
    (blocks g) (blockStack g) (blockActions g) (blockOffsets g)
    (hasProtectedRegions g) (nextLabelId g) (labelNumbers g) (labels g)
    (operations g) v (operationLocations g).
Definition set_operationLocations (v : list Location) (g : State) : State :=
  mkState (relatedLocation g) (locationStack g) (nextLocalId g)
    (parameters g) (locals g) (namedLocals g) (functions g) (store g)
    (blocks g) (blockStack g) (blockActions g) (blockOffsets g)
    (hasProtectedRegions g) (nextLabelId g) (labelNumbers g) (labels g)
    (operations g) (operationArguments g) v.

Definition set_blockState (v : option ExceptionBlockState) (b : BlockScope)
  : BlockScope :=
  mkBlock (kind b) v (startLabel b) (catchVariable b) (catchLabel b)
    (finallyLabel b) (endLabel b) (breakLabel b) (labelText b)
    (labelSymbol b) (continueLabel b).
Definition set_catchVariable (v : option Value) (b : BlockScope)
  : BlockScope :=
  mkBlock (kind b) (state b) (startLabel b) v (catchLabel b)
    (finallyLabel b) (endLabel b) (breakLabel b) (labelText b)
    (labelSymbol b) (continueLabel b).
Definition set_catchLabel (v : option Z) (b : BlockScope) : BlockScope :=
  mkBlock (kind b) (state b) (startLabel b) (catchVariable b) v
    (finallyLabel b) (endLabel b) (breakLabel b) (labelText b)
    (labelSymbol b) (continueLabel b).
Definition set_finallyLabel (v : option Z) (b : BlockScope) : BlockScope :=
  mkBlock (kind b) (state b) (startLabel b) (catchVariable b) (catchLabel b)
    v (endLabel b) (breakLabel b) (labelText b)
    (labelSymbol b) (continueLabel b).

(** ** Sparse arrays

    [a[i] = v] on a JavaScript array: inside the array the slot is
    overwritten, beyond its end the array grows and the slots in between
    are holes. A negative [i] names an ordinary property, which no loop
    over [0 .. a.length - 1] visits: the elements are unchanged. So does,
    in JavaScript, an [i] of [2^32 - 1] or more; the list grows for it all
    the same, so that the slots below [2^32 - 1] are those of the source
    array, and a statement about the slot of a label is exact for the
    labels below that bound. *)
Definition array_set {A : Type} (a : list (option A)) (i : Z) (v : A)
  : list (option A) :=
  if i <? 0 then a
  else
    let n := Z.to_nat i in
    if (n <? length a)%nat then <[n := Some v]> a
    else a ++ replicate (n - length a)%nat None ++ [Some v].

Definition array_get {A : Type} (a : list (option A)) (i : Z) : option A :=
  if i <? 0 then None else mjoin (a !! Z.to_nat i).

(** ** Templates of the generated fragments

    The texts are the template literals of the source; a quotation mark
    inside one is spliced in as [dq]. *)
Definition dq : string := String (ascii_of_nat 34) EmptyString.
Definition lf : string := String (ascii_of_nat 10) EmptyString.
Fixpoint spaces (n : nat) : string :=
  match n with O => EmptyString | S m => String (ascii_of_nat 32) (spaces m) end.
Definition cat (parts : list string) : string :=
  fold_right String.append EmptyString parts.

Definition catchAssignText : string := "${variable} = __state.error;".
Definition cacheText : string := "${local} = ${node};".
Definition breakText : string :=
  Eval cbv in cat ["return ["; dq; "break"; dq; ", ${label}];"].
Definition returnValueText : string :=
  Eval cbv in cat ["return ["; dq; "return"; dq; ", ${expression}];"].
Definition returnText : string :=
  Eval cbv in cat ["return ["; dq; "return"; dq; "];"].
Definition yieldValueText : string :=
  Eval cbv in cat ["return ["; dq; "yield"; dq; ", ${expression}];"].
Definition yieldText : string :=
  Eval cbv in cat ["return ["; dq; "yield"; dq; "];"].
Definition endfinallyText : string :=
  Eval cbv in cat ["return ["; dq; "endfinally"; dq; "];"].
Definition throwText : string := "throw ${expression};".
Definition assignText : string := "${left} = ${right}".
Definition brTrueText : string := "if (${condition}) { ${statement} }".
Definition brFalseText : string := "if (!(${condition})) { ${statement} }".
Definition fixupText : string := "__state.label = ${label};".
Definition trysInitText : string := "__state.trys = [];".
Definition trysPushText : string :=
  "__state.trys.push([${startLabel},${catchLabel},${finallyLabel},${endLabel}])".
Definition caseText : string :=
  Eval cbv in cat [lf; spaces 24; "case ${label}:"; lf; spaces 28;
                   "@{statements}"].

(** [String(n)] for a natural number. *)
Definition decimal (n : nat) : string := NilZero.string_of_uint (Nat.to_uint n).

(** ** The recorder monad *)

Definition M (A : Type) : Type := State -> option (A * State).

#[global] Instance M_ret : MRet M := fun A x g => Some (x, g).
#[global] Instance M_bind : MBind M := fun A B f m g =>
  match m g with
  | Some (x, g') => f x g'
  | None => None
  end.

Definition gets {A : Type} (f : State -> A) : M A := fun g => Some (f g, g).
Definition modify (f : State -> State) : M unit := fun g => Some (tt, f g).
Definition throw {A : Type} : M A := fun _ => None.
(** [Debug.assert(b)]. *)
Definition assert (b : bool) : M unit := if b then mret tt else throw.

(** [operations.length]. *)
Definition operationCount (g : State) : Z := Z.of_nat (length (operations g)).

(** ** Node factories *)

Definition createGeneratedNode (text : string) (content : Value) : M Node :=
  gets (fun g => GeneratedNode text content (relatedLocation g)).

Definition createLabel (label : Value) : M Node :=
  gets (fun g => GeneratedLabel label (relatedLocation g)).

Definition createInlineBreak (label : Value) : M Node :=
  l ← createLabel label;
  createGeneratedNode breakText (VObject [("label", VNode l)]).

Definition createInlineReturn (expression : Value) : M Node :=
  if truthy expression
  then createGeneratedNode returnValueText
         (VObject [("expression", expression)])
  else createGeneratedNode returnText VUndefined.

Definition createYield (expression : Value) : M Node :=
  if truthy expression
  then createGeneratedNode yieldValueText
         (VObject [("expression", expression)])
  else createGeneratedNode yieldText VUndefined.

(** ** Labels *)

Definition defineLabel : M Z :=
  label ← gets nextLabelId;
  modify (set_nextLabelId (label + 1));;
  modify (fun g => set_labels (array_set (labels g) label (-1)) g);;
  mret label.

Definition markLabel (label : Z) : M unit :=
  modify (fun g => set_labels (array_set (labels g) label (operationCount g)) g).

(** ** The opcode recorder *)

(** [args[i]], [undefined] beyond the end of the argument list. *)
Definition argument (args : list Value) (i : nat) : Value :=
  nth i args VUndefined.

(** The wrapping of string arguments at the head of [emit]. *)
Definition wrapArguments (args : list Value) : M (list Value) :=
  match argument args 0 with
  | VString text =>
      node ← createGeneratedNode text (argument args 1);
      mret [VNode node]
  | _ =>
      match argument args 1 with
      | VString text =>
          node ← createGeneratedNode text (argument args 2);
          mret [argument args 0; VNode node]
      | _ => mret args
      end
  end.

(** The three operation arrays are written nowhere else, always at their
    common length: the assignment at [operationIndex] is an append. *)
Definition appendOperation (code : OpCode) (args : list Value) : M unit :=
  modify (fun g =>
    set_operationLocations (operationLocations g ++ [relatedLocation g])
      (set_operationArguments (operationArguments g ++ [args])
         (set_operations (operations g ++ [code]) g))).

Definition emit (code : OpCode) (args : list Value) : M unit :=
  args ← wrapArguments args;
  if bool_decide (code = Statement) && negb (truthy (argument args 0))
  then mret tt
  else appendOperation code args.

Definition isBlockLike (k : SyntaxKind) : bool :=
  match k with
  | Block | FunctionBlock | TryBlock | CatchBlock | FinallyBlock
  | CaseClause | DefaultClause => true
  | OtherKind => false
  end.

(** [forEach(statements, emitNode)]; [emitNode] returns nothing, so
    [forEach] visits every statement. *)
Fixpoint emitNode (node : Node) : M unit :=
  match node with
  | SourceNode k _ _ statements =>
      if isBlockLike k
      then (fix each (l : list Node) : M unit :=
              match l with
              | [] => mret tt
              | n :: rest => emitNode n;; each rest
              end) statements
      else emit Statement [VNode node]
  | _ => emit Statement [VNode node]
  end.

(** ** Symbol table and locations *)

Definition addParameter (name : Value) (flags : option Z) : M unit :=
  modify (fun g =>
    set_parameters (parameters g ++ [mkParameter name (relatedLocation g) flags]) g).

Definition addFunction (func : Value) : M unit :=
  modify (fun g => set_functions (functions g ++ [func]) g).

Definition nonEmpty (s : option string) : bool :=
  match s with
  | Some t => negb (String.eqb t EmptyString)
  | None => false
  end.

Definition declareLocal (name : option string) : M Node :=
  if nonEmpty name then
    node ← createGeneratedNode (default EmptyString name) VUndefined;
    modify (fun g => set_namedLocals (namedLocals g ++ [node]) g);;
    mret node
  else
    id ← gets nextLocalId;
    modify (set_nextLocalId (id + 1));;
    node ← createGeneratedNode
             (String.append "__l" (NilZero.string_of_int (Z.to_int id)))
             VUndefined;
    modify (fun g => set_locals (locals g ++ [node]) g);;
    mret node.

Definition cacheExpression (node : Value) : M Node :=
  local ← declareLocal None;
  statement ← createGeneratedNode cacheText
                (VObject [("local", VNode local); ("node", node)]);
  emit Statement [VNode statement];;
  mret local.

Definition setLocation (location : Location) : M unit :=
  match location with
  | Some _ => modify (set_relatedLocation location)
  | None => mret tt
  end.

(** [locationStack] has its top at the head of the list. *)
Definition pushLocation (location : Location) : M unit :=
  modify (fun g => set_locationStack (relatedLocation g :: locationStack g) g);;
  setLocation location.

Definition popLocation : M unit :=
  top ← gets (fun g => head (locationStack g));
  modify (fun g => set_locationStack (tail (locationStack g)) g);;
  setLocation (mjoin top).

(** ** The block-scope stack and the block event log

    [blockStack] has its top at the head of the list, so that the loops
    that walk it from [length - 1] down to [0] are recursions on the list.
    [blockActions], [blockOffsets] and [blocks] are written only by
    [beginBlock] and [endBlock], at their common length. *)

Definition beginBlock (block : BlockScope) : M Z :=
  index ← gets (fun g => Z.of_nat (length (blockActions g)));
  modify (fun g =>
    let ref := length (store g) in
    set_blockStack (ref :: blockStack g)
      (set_blocks (blocks g ++ [Some ref])
         (set_blockOffsets (blockOffsets g ++ [operationCount g])
            (set_blockActions (blockActions g ++ [Open])
               (set_store (store g ++ [block]) g)))));;
  mret index.

Definition endBlock : M (option BlockRef) :=
  block ← gets (fun g => head (blockStack g));
  modify (fun g => set_blockStack (tail (blockStack g)) g);;
  modify (fun g =>
    set_blocks (blocks g ++ [block])
      (set_blockOffsets (blockOffsets g ++ [operationCount g])
         (set_blockActions (blockActions g ++ [Close]) g)));;
  mret block.

Definition peekBlock (back : nat) : M (option BlockRef) :=
  gets (fun g => blockStack g !! back).

(** [block && block.kind]. *)
Definition peekBlockKind (back : nat) : M (option BlockKind) :=
  gets (fun g => r ← blockStack g !! back; b ← store g !! r; Some (kind b)).

(** Reading a field of the object behind a reference; of [undefined] it
    throws. *)
Definition deref (r : option BlockRef) : M (BlockRef * BlockScope) :=
  fun g =>
    match r with
    | Some ref =>
        match store g !! ref with
        | Some b => Some ((ref, b), g)
        | None => None
        end
    | None => None
    end.

(** Assignment to fields of a block object, seen through every alias. *)
Definition updateBlock (ref : BlockRef) (f : BlockScope -> BlockScope) : M unit :=
  modify (fun g => set_store (alter f ref (store g)) g).

(** [exception.state < bound]; [undefined < n] is false. *)
Definition stateBelow (s : option ExceptionBlockState) (bound : ExceptionBlockState)
  : bool :=
  match s with
  | Some x => stateRank x <? stateRank bound
  | None => false
  end.

(** [markLabel(l)] for a field that holds a label. *)
Definition markLabelField (label : option Z) : M unit :=
  match label with
  | Some l => markLabel l
  | None => mret tt
  end.

(** [l > 0]; [undefined > 0] is false. *)
Definition positive (label : option Z) : bool :=
  match label with
  | Some l => 0 <? l
  | None => false
  end.

Definition beginExceptionBlock : M Z :=
  startLabel ← defineLabel;
  endLabel ← defineLabel;
  markLabel startLabel;;
  beginBlock (mkBlock Exception (Some Try) (Some startLabel) None None None
                (Some endLabel) None None None None);;
  modify (set_hasProtectedRegions true);;
  mret endLabel.

Definition beginCatchBlock (variable : Value) : M unit :=
  k ← peekBlockKind 0;
  assert (bool_decide (k = Some Exception));;
  top ← peekBlock 0;
  '(ref, exception) ← deref top;
  assert (stateBelow (state exception) Catch);;
  let endLabel := endLabel exception in
  emit OpBreak [ofLabel endLabel];;
  catchLabel ← defineLabel;
  markLabel catchLabel;;
  updateBlock ref (set_blockState (Some Catch));;
  updateBlock ref (set_catchVariable (Some variable));;
  updateBlock ref (set_catchLabel (Some catchLabel));;
  emit Statement [VString catchAssignText; VObject [("variable", variable)]].

Definition beginFinallyBlock : M unit :=
  k ← peekBlockKind 0;
  assert (bool_decide (k = Some Exception));;
  top ← peekBlock 0;
  '(ref, exception) ← deref top;
  assert (stateBelow (state exception) Finally);;
  let endLabel := endLabel exception in
  emit OpBreak [ofLabel endLabel];;
  finallyLabel ← defineLabel;
  markLabel finallyLabel;;
  updateBlock ref (set_blockState (Some Finally));;
  updateBlock ref (set_finallyLabel (Some finallyLabel)).

Definition endExceptionBlock : M unit :=
  k ← peekBlockKind 0;
  assert (bool_decide (k = Some Exception));;
  popped ← endBlock;
  '(ref, exception) ← deref popped;
  (if stateBelow (state exception) Finally
   then emit OpBreak [ofLabel (endLabel exception)]
   else emit Endfinally []);;
  markLabelField (endLabel exception);;
  updateBlock ref (set_blockState (Some Done)).

Definition beginScriptContinueBlock (text : option string) : M unit :=
  beginBlock (mkBlock ScriptContinue None None None None None None
                (Some (-1)) text None (Some (-1)));;
  mret tt.

Definition endScriptContinueBlock : M unit :=
  k ← peekBlockKind 0;
  assert (bool_decide (k = Some ScriptContinue));;
  endBlock;;
  mret tt.

Definition beginScriptBreakBlock (text : option string) : M unit :=
  beginBlock (mkBlock ScriptBreak None None None None None None
                (Some (-1)) None text None);;
  mret tt.

Definition endScriptBreakBlock : M unit :=
  k ← peekBlockKind 0;
  assert (bool_decide (k = Some ScriptBreak));;
  endBlock;;
  mret tt.

Definition beginContinueBlock (continueLabel : Z) (text : option string) : M Z :=
  breakLabel ← defineLabel;
  beginBlock (mkBlock Continue None None None None None None
                (Some breakLabel) text None (Some continueLabel));;
  mret breakLabel.

Definition endContinueBlock : M unit :=
  k ← peekBlockKind 0;
  assert (bool_decide (k = Some Continue));;
  popped ← endBlock;
  '(_, block) ← deref popped;
  let breakLabel := breakLabel block in
  if positive breakLabel then markLabelField breakLabel else mret tt.

Definition beginBreakBlock (text : option string) : M Z :=
  breakLabel ← defineLabel;
  beginBlock (mkBlock Break None None None None None None
                (Some breakLabel) text None None);;
  mret breakLabel.

Definition endBreakBlock : M unit :=
  k ← peekBlockKind 0;
  assert (bool_decide (k = Some Break));;
  popped ← endBlock;
  '(_, block) ← deref popped;
  let breakLabel := breakLabel block in
  if positive breakLabel then markLabelField breakLabel else mret tt.

(** ** Break and continue targets *)

Definition supportsBreak (block : BlockScope) : bool :=
  match kind block with
  | ScriptBreak | ScriptContinue | Break | Continue => true
  | Exception => false
  end.

Definition supportsContinue (block : BlockScope) : bool :=
  match kind block with
  | ScriptContinue | Continue => true
  | _ => false
  end.

(** The objects on the live stack, top first. *)
Definition liveBlocks (g : State) : list BlockScope :=
  omap (fun r => store g !! r) (blockStack g).

(** [!labelText || block.labelText === labelText]. *)
Definition labelMatches (query : option string) (block : BlockScope) : bool :=
  negb (nonEmpty query) || bool_decide (labelText block = query).

(** The result is the JavaScript value returned: [None] is [undefined]. *)
Fixpoint findBreakTargetIn (stack : list BlockScope) (query : option string)
  : option Z :=
  match stack with
  | [] => Some 0
  | block :: below =>
      if supportsBreak block && labelMatches query block
      then breakLabel block
      else findBreakTargetIn below query
  end.

Definition findBreakTarget (g : State) (query : option string) : option Z :=
  findBreakTargetIn (liveBlocks g) query.

(** The loop of [findContinueTarget] is followed by no [return]: when it
    finds nothing the call yields [undefined]. *)
Fixpoint findContinueTargetIn (stack : list BlockScope) (query : option string)
  : option Z :=
  match stack with
  | [] => None
  | block :: below =>
      if supportsContinue block && labelMatches query block
      then continueLabel block
      else findContinueTargetIn below query
  end.

Definition findContinueTarget (g : State) (query : option string) : option Z :=
  findContinueTargetIn (liveBlocks g) query.

(** ** The generator and its recordings *)

(** The closure variables as initialised, before the entry point is marked. *)
Definition freshState : State :=
  mkState None [] 0 [] [] [] [] [] [] [] [] [] false 1 [] [] [] [] [].

Definition createCodeGenerator : State :=
  match (label ← defineLabel; markLabel label) freshState with
  | Some (_, g) => g
  | None => freshState
  end.

(** The calls a caller can make on the handle that change the generator. *)
Inductive Command : Type :=
| AddFunction (func : Value)
| AddParameter (name : Value) (flags : option Z)
| DeclareLocal (name : option string)
| DefineLabel
| MarkLabel (label : Z)
| BeginExceptionBlock
| BeginCatchBlock (variable : Value)
| BeginFinallyBlock
| EndExceptionBlock
| BeginScriptContinueBlock (text : option string)
| EndScriptContinueBlock
| BeginScriptBreakBlock (text : option string)
| EndScriptBreakBlock
| BeginContinueBlock (continueLabel : Z) (text : option string)
| EndContinueBlock
| BeginBreakBlock (text : option string)
| EndBreakBlock
| Emit (code : OpCode) (args : list Value)
| EmitNode (node : Node)
| PushLocation (location : Location)
| PopLocation
| SetLocation (location : Location)
| CacheExpression (node : Value).

Definition returnsNothing (m : M unit) : M Value := m;; mret VUndefined.
Definition returnsLabel (m : M Z) : M Value := l ← m; mret (VNumber l).
Definition returnsNode (m : M Node) : M Value := n ← m; mret (VNode n).

(** One call: the value it returns and the state it leaves, or [None] when
    it throws. *)
Definition exec (c : Command) : M Value :=
  match c with
  | AddFunction func => returnsNothing (addFunction func)
  | AddParameter name flags => returnsNothing (addParameter name flags)
  | DeclareLocal name => returnsNode (declareLocal name)
  | DefineLabel => returnsLabel defineLabel
  | MarkLabel l => returnsNothing (markLabel l)
  | BeginExceptionBlock => returnsLabel beginExceptionBlock
  | BeginCatchBlock variable => returnsNothing (beginCatchBlock variable)
  | BeginFinallyBlock => returnsNothing beginFinallyBlock
  | EndExceptionBlock => returnsNothing endExceptionBlock
  | BeginScriptContinueBlock text => returnsNothing (beginScriptContinueBlock text)
  | EndScriptContinueBlock => returnsNothing endScriptContinueBlock
  | BeginScriptBreakBlock text => returnsNothing (beginScriptBreakBlock text)
  | EndScriptBreakBlock => returnsNothing endScriptBreakBlock
  | BeginContinueBlock continueLabel text =>
      returnsLabel (beginContinueBlock continueLabel text)
  | EndContinueBlock => returnsNothing endContinueBlock
  | BeginBreakBlock text => returnsLabel (beginBreakBlock text)
  | EndBreakBlock => returnsNothing endBreakBlock
  | Emit code args => returnsNothing (emit code args)
  | EmitNode n => returnsNothing (emitNode n)
  | PushLocation location => returnsNothing (pushLocation location)
  | PopLocation => returnsNothing popLocation
  | SetLocation location => returnsNothing (setLocation location)
  | CacheExpression n => returnsNode (cacheExpression n)
  end.

(** The state after a sequence of calls, none of which threw. *)
Definition run (cs : list Command) (g : State) : option State :=
  fold_left (fun acc c => g' ← acc; snd <$> exec c g') cs (Some g).

(** [Recording cs g]: the calls [cs], made in this order on a new
    generator, leave it in state [g]. *)
Definition Recording (cs : list Command) (g : State) : Prop :=
  run cs createCodeGenerator = Some g.

(** ** The switch-body assembler

    [buildFunctionBody] replays the operation log and the block event log.
    Its local variables are the fields of [Assembler]; [exceptionStack] and
    [statementsStack] are declared in the source and never used. Of the
    closure variables the pass assigns [labelNumbers] and [relatedLocation]:
    they are the fields [numbers] and [location], everything else is read
    from the generator [g].

    A clause is the generated node [case ${label}: @{statements}]; its
    [statements] slot is the very array that [writeStatement] keeps pushing
    to. [Clause] keeps that array next to the label, and a write goes to
    the last clause. Before the first clause exists the local [statements]
    is an array that no clause holds: the field [statements]. *)
Record Clause : Type := mkClause {
  clauseLabel : Node;
  clauseStatements : list Node;
  clauseLocation : Location
}.

Definition clauseNode (c : Clause) : Node :=
  GeneratedNode caseText
    (VObject [("label", VNode (clauseLabel c));
              ("statements", VArray (map VNode (clauseStatements c)))])
    (clauseLocation c).

Record Assembler : Type := mkAssembler {
  clauses : list Clause;
  statements : list Node;
  blockIndex : nat;
  instructionWasAbrupt : bool;
  instructionWasCompletion : bool;
  numbers : list (option Z);
  location : Location
}.

Definition set_clauses (v : list Clause) (a : Assembler) : Assembler :=
  mkAssembler v (statements a) (blockIndex a) (instructionWasAbrupt a)
    (instructionWasCompletion a) (numbers a) (location a).
Definition set_statements (v : list Node) (a : Assembler) : Assembler :=
  mkAssembler (clauses a) v (blockIndex a) (instructionWasAbrupt a)
    (instructionWasCompletion a) (numbers a) (location a).
Definition set_blockIndex (v : nat) (a : Assembler) : Assembler :=
  mkAssembler (clauses a) (statements a) v (instructionWasAbrupt a)
    (instructionWasCompletion a) (numbers a) (location a).
Definition set_instructionWasAbrupt (v : bool) (a : Assembler) : Assembler :=
  mkAssembler (clauses a) (statements a) (blockIndex a) v
    (instructionWasCompletion a) (numbers a) (location a).
Definition set_instructionWasCompletion (v : bool) (a : Assembler) : Assembler :=
  mkAssembler (clauses a) (statements a) (blockIndex a)
    (instructionWasAbrupt a) v (numbers a) (location a).
Definition set_numbers (v : list (option Z)) (a : Assembler) : Assembler :=
  mkAssembler (clauses a) (statements a) (blockIndex a)
    (instructionWasAbrupt a) (instructionWasCompletion a) v (location a).
Definition set_location (v : Location) (a : Assembler) : Assembler :=
  mkAssembler (clauses a) (statements a) (blockIndex a)
    (instructionWasAbrupt a) (instructionWasCompletion a) (numbers a) v.

(** [createGeneratedNode] and [createLabel] at the location the pass has
    reached. *)
Definition generated (a : Assembler) (text : string) (content : Value) : Node :=
  GeneratedNode text content (location a).

Definition labelNode (a : Assembler) (label : Value) : Node :=
  GeneratedLabel label (location a).

(** [statements.push(node)] through the alias held by the last clause. *)
Definition pushStatement (n : Node) (a : Assembler) : Assembler :=
  match reverse (clauses a) with
  | c :: earlier =>
      set_clauses
        (reverse earlier ++
         [mkClause (clauseLabel c) (clauseStatements c ++ [n]) (clauseLocation c)])
        a
  | [] => set_statements (statements a ++ [n]) a
  end.

(** [writeStatement]. The assignment to [node.parent] is a back pointer for
    the printer and is not represented. The source reaches this function
    only with a truthy [node]: [emit] drops every other [Statement]. *)
Definition writeStatement (v : Value) (a : Assembler) : Assembler :=
  let n :=
    match v with
    | VNode n =>
        if negb (isStatement v) && negb (isGeneratedNode v)
        then ExpressionStatement v (location a)
        else n
    | _ => ExpressionStatement v (location a)
    end in
  pushStatement n a.

Definition writeGenerated (text : string) (content : Value) (a : Assembler)
  : Assembler :=
  writeStatement (VNode (generated a text content)) a.

Definition inlineBreak (a : Assembler) (label : Value) : Node :=
  generated a breakText (VObject [("label", VNode (labelNode a label))]).

Definition inlineReturn (a : Assembler) (expression : Value) : Node :=
  if truthy expression
  then generated a returnValueText (VObject [("expression", expression)])
  else generated a returnText VUndefined.

Definition inlineYield (a : Assembler) (expression : Value) : Node :=
  if truthy expression
  then generated a yieldValueText (VObject [("expression", expression)])
  else generated a yieldText VUndefined.

Definition writeAssign (left right : Value) (a : Assembler) : Assembler :=
  writeGenerated assignText (VObject [("left", left); ("right", right)]) a.

Definition writeBreak (label : Value) (a : Assembler) : Assembler :=
  let a := set_instructionWasAbrupt true a in
  writeStatement (VNode (inlineBreak a label)) a.

Definition writeBrTrue (label condition : Value) (a : Assembler) : Assembler :=
  let statement := inlineBreak a label in
  writeGenerated brTrueText
    (VObject [("condition", condition); ("statement", VNode statement)]) a.

Definition writeBrFalse (label condition : Value) (a : Assembler) : Assembler :=
  let statement := inlineBreak a label in
  writeGenerated brFalseText
    (VObject [("condition", condition); ("statement", VNode statement)]) a.

Definition writeYield (expression : Value) (a : Assembler) : Assembler :=
  let a := set_instructionWasAbrupt true a in
  writeStatement (VNode (inlineYield a expression)) a.

Definition writeReturn (expression : Value) (a : Assembler) : Assembler :=
  let a := set_instructionWasCompletion true a in
  writeStatement (VNode (inlineReturn a expression)) a.

Definition writeThrow (expression : Value) (a : Assembler) : Assembler :=
  let a := set_instructionWasCompletion true a in
  writeGenerated throwText (VObject [("expression", expression)]) a.

Definition writeEndfinally (a : Assembler) : Assembler :=
  let a := set_instructionWasAbrupt true a in
  writeGenerated endfinallyText VUndefined a.

(** The first loop of [ensureLabels], from [label] on: every label bound
    to [operationIndex] gets the number of the case about to be opened. *)
Fixpoint bindLabels (slots : list (option Z)) (label : Z) (operationIndex : Z)
    (caseNumber : Z) (numbers : list (option Z)) : list (option Z) * bool :=
  match slots with
  | [] => (numbers, false)
  | slot :: rest =>
      if bool_decide (slot = Some operationIndex)
      then
        let '(numbers', _) :=
          bindLabels rest (label + 1) operationIndex caseNumber
            (array_set numbers label caseNumber) in
        (numbers', true)
      else bindLabels rest (label + 1) operationIndex caseNumber numbers
  end.

Definition ensureLabels (g : State) (operationIndex : nat) (a : Assembler)
  : Assembler :=
  let '(numbers', createCase) :=
    bindLabels (labels g) 0 (Z.of_nat operationIndex)
      (Z.of_nat (length (clauses a))) (numbers a) in
  let a := set_numbers numbers' a in
  if createCase then
    let labelNumber := length (clauses a) in
    let labelExpression := generated a (decimal labelNumber) VUndefined in
    (* handle implicit fall-through *)
    let a :=
      if negb (instructionWasAbrupt a) && negb (instructionWasCompletion a)
         && (0 <? operationIndex)%nat
      then writeGenerated fixupText
             (VObject [("label",
                        VNode (generated a (decimal labelNumber) VUndefined))]) a
      else a in
    let a := set_instructionWasAbrupt false a in
    let a := set_instructionWasCompletion false a in
    let a := set_clauses (clauses a ++ [mkClause labelExpression [] (location a)]) a in
    if (labelNumber =? 0)%nat && hasProtectedRegions g
    then writeGenerated trysInitText VUndefined a
    else a
  else a.

(** The block event log as one list of triples. *)
Definition events (g : State) : list (BlockAction * Z * option BlockRef) :=
  zip (zip (blockActions g) (blockOffsets g)) (blocks g).

(** [catchLabel: exception.catchLabel > 0 && createLabel(exception.catchLabel)]. *)
Definition optionalLabel (a : Assembler) (label : option Z) : Value :=
  if positive label then VNode (labelNode a (ofLabel label)) else VBoolean false.

Definition trysPush (a : Assembler) (exception : BlockScope) : Node :=
  generated a trysPushText
    (VObject [("startLabel", VNode (labelNode a (ofLabel (startLabel exception))));
              ("catchLabel", optionalLabel a (catchLabel exception));
              ("finallyLabel", optionalLabel a (finallyLabel exception));
              ("endLabel", VNode (labelNode a (ofLabel (endLabel exception))))]).

(** The loop at the head of [writeOperation], over the events from
    [blockIndex] on. *)
Fixpoint writeBlocks (g : State) (operationIndex : Z)
    (pending : list (BlockAction * Z * option BlockRef)) (a : Assembler)
  : Assembler :=
  match pending with
  | [] => a
  | (action, offset, block) :: rest =>
      if offset <=? operationIndex then
        let a :=
          match action, block ≫= (fun r => store g !! r) with
          | Open, Some exception =>
              if bool_decide (kind exception = Exception)
              then writeStatement (VNode (trysPush a exception)) a
              else a
          | _, _ => a
          end in
        writeBlocks g operationIndex rest (set_blockIndex (S (blockIndex a)) a)
      else a
  end.

Definition writeOperation (g : State) (operationIndex : nat) (code : OpCode)
    (args : list Value) (a : Assembler) : Assembler :=
  let a := writeBlocks g (Z.of_nat operationIndex)
             (drop (blockIndex a) (events g)) a in
  (* early termination, nothing else to process in this label *)
  if instructionWasAbrupt a || instructionWasCompletion a then a
  else
    match code with
    | Statement => writeStatement (argument args 0) a
    | Assign => writeAssign (argument args 0) (argument args 1) a
    | OpBreak => writeBreak (argument args 0) a
    | BrTrue => writeBrTrue (argument args 0) (argument args 1) a
    | BrFalse => writeBrFalse (argument args 0) (argument args 1) a
    | Yield => writeYield (argument args 0) a
    | Return => writeReturn (argument args 0) a
    | Throw => writeThrow (argument args 0) a
    | Endfinally => writeEndfinally a
    end.

(** One turn of the main loop. *)
Definition assembleOperation (g : State) (a : Assembler) (operationIndex : nat)
  : Assembler :=
  match operations g !! operationIndex with
  | Some code =>
      let args := default [] (operationArguments g !! operationIndex) in
      let a := set_location (mjoin (operationLocations g !! operationIndex)) a in
      writeOperation g operationIndex code args (ensureLabels g operationIndex a)
  | None => a
  end.

Definition startAssembler (g : State) : Assembler :=
  mkAssembler [] [] 0 false false (labelNumbers g) (relatedLocation g).

(** The pass after the operations [0 .. count - 1]. *)
Definition assembleUpTo (g : State) (count : nat) : Assembler :=
  fold_left (assembleOperation g) (seq 0 count) (startAssembler g).

Definition assemble (g : State) : Assembler :=
  let n := length (operations g) in
  let a := ensureLabels g n (assembleUpTo g n) in
  if instructionWasCompletion a then a else writeReturn VUndefined a.

Definition buildFunctionBody (g : State) : list Clause := clauses (assemble g).

(** [labelNumbers] once the pass has run: the table through which the
    printer resolves every [GeneratedLabel]. *)
Definition resolvedLabelNumbers (g : State) : list (option Z) :=
  numbers (assemble g).

(** The state after the calls [cs] on a new generator, for closed
    examples. *)
Definition after (cs : list Command) : State :=
  default createCodeGenerator (run cs createCodeGenerator).

(** The object literals of the block scopes. *)
Definition plainBlock (k : BlockKind) (break : option Z) (text symbol : option string)
    (continue : option Z) : BlockScope :=
  mkBlock k None None None None None None break text symbol continue.

Definition exceptionBlock (s e : Z) : BlockScope :=
  mkBlock Exception (Some Try) (Some s) None None None (Some e)
    None None None None.

(** * Properties *)

(** ** Running the recorder monad *)

Ltac unfold_recorder :=
  cbv beta iota zeta delta
    [mbind M_bind mret M_ret gets modify throw assert
     returnsNothing returnsLabel returnsNode
     createGeneratedNode createLabel defineLabel markLabel markLabelField
     appendOperation beginBlock endBlock peekBlock peekBlockKind deref
     updateBlock setLocation pushLocation popLocation
     addParameter addFunction] in *.

Lemma bind_run {A B : Type} (m : M A) (f : A -> M B) (g : State) :
  (m ≫= f) g = match m g with Some (x, g') => f x g' | None => None end.
Proof. reflexivity. Qed.

Lemma wrapArguments_state args g :
  exists args', wrapArguments args g = Some (args', g)
                /\ (argument args' 0 = argument args 0
                    \/ exists n, argument args' 0 = VNode n).
Proof.
  unfold wrapArguments.
  destruct (argument args 0) eqn:E0; [..|destruct (argument args 1) eqn:E1];
    try (destruct (argument args 1) eqn:E1);
    (eexists; split; [reflexivity|]); simpl; rewrite ?E0; eauto.
Qed.

(** [emit] either leaves the generator as it is or appends one operation. *)
Lemma emit_cases code args g :
  exists args',
    wrapArguments args g = Some (args', g) /\
    (emit code args g = Some (tt, g) /\ code = Statement
       /\ truthy (argument args' 0) = false
     \/ emit code args g = appendOperation code args' g
       /\ (code = Statement -> truthy (argument args' 0) = true)).
Proof.
  destruct (wrapArguments_state args g) as (args' & Hw & _).
  exists args'. split; [exact Hw|].
  unfold emit. rewrite bind_run, Hw.
  destruct (bool_decide (code = Statement)) eqn:Hc; simpl.
  - apply bool_decide_eq_true in Hc.
    destruct (truthy (argument args' 0)) eqn:Ht; simpl.
    + right. split; [reflexivity|]. auto.
    + left. auto.
  - right. split; [reflexivity|]. apply bool_decide_eq_false in Hc. tauto.
Qed.

(** C8. [emit(OpCode.Statement, payload)] with a [null] or [undefined]
    payload returns without touching the generator: the state after the
    call is the state before it, so nothing was appended to the operation
    log and no other variable changed. *)
Theorem emit_statement_without_payload (g : State) (args : list Value) :
  argument args 0 = VUndefined \/ argument args 0 = VNull ->
  emit Statement args g = Some (tt, g)
  /\ exec (Emit Statement args) g = Some (VUndefined, g).
Proof.
  intros Hp.
  assert (He : emit Statement args g = Some (tt, g)).
  { destruct (emit_cases Statement args g) as (args' & Hw & [(He & _)|(He & Ht)]);
      [exact He|].
    exfalso. specialize (Ht eq_refl).
    destruct (wrapArguments_state args g) as (args'' & Hw' & Hhead).
    rewrite Hw in Hw'. injection Hw' as <-.
    unfold wrapArguments in Hw.
    destruct Hp as [Hp|Hp]; rewrite Hp in Hw;
      destruct (argument args 1); unfold_recorder; simplify_eq;
      simpl in Ht; try rewrite Hp in Ht; simpl in Ht; congruence. }
  split; [exact He|].
  simpl. unfold returnsNothing. rewrite bind_run, He. reflexivity.
Qed.

Lemma emit_statement_without_payload_witness :
  emit Statement [VNull; VString "x"] createCodeGenerator
    = Some (tt, createCodeGenerator)
  /\ exec (Emit Statement [VNull; VString "x"]) createCodeGenerator
    = Some (VUndefined, createCodeGenerator).
Proof.
  apply (emit_statement_without_payload createCodeGenerator [VNull; VString "x"]).
  right. reflexivity.
Defined.

(** C4. With an exception block on top of the live stack,
    [endExceptionBlock] records [Break endLabel] when the state of the
    block is below [Finally] and [Endfinally] otherwise, then binds
    [endLabel] to the operation count reached (one more than before the
    call), sets the state of the block to [Done], and pops the block. *)
Theorem endExceptionBlock_effect (g : State) (ref : BlockRef)
    (below : list BlockRef) (exception : BlockScope) (l : Z) :
  blockStack g = ref :: below ->
  store g !! ref = Some exception ->
  kind exception = Exception ->
  endLabel exception = Some l ->
  exists g',
    endExceptionBlock g = Some (tt, g')
    /\ operations g' =
         operations g ++
           [if stateBelow (state exception) Finally then OpBreak else Endfinally]
    /\ operationArguments g' =
         operationArguments g ++
           [if stateBelow (state exception) Finally then [VNumber l] else []]
    /\ operationCount g' = operationCount g + 1
    /\ labels g' = array_set (labels g) l (operationCount g')
    /\ store g' !! ref = Some (set_blockState (Some Done) exception)
    /\ blockStack g' = below.
Proof.
  intros Hstack Hstore Hkind Hend.
  unfold endExceptionBlock.
  rewrite bind_run. unfold peekBlockKind at 1, gets at 1.
  rewrite Hstack. simpl. rewrite Hstore. simpl. rewrite Hkind. simpl.
  rewrite bind_run. unfold endBlock at 1. unfold_recorder. simpl.
  rewrite Hstack. simpl. rewrite Hstore, Hend. simpl.
  assert (Hlen : forall c, operationCount (set_operations (operations g ++ [c]) g)
                           = operationCount g + 1).
  { intros c. unfold operationCount. simpl. rewrite length_app. simpl. lia. }
  destruct (stateBelow (state exception) Finally); simpl;
    (eexists; split; [reflexivity|]); simpl;
    repeat split; try reflexivity.
  - unfold operationCount. simpl. rewrite length_app. simpl. lia.
  - rewrite list_lookup_alter_eq, Hstore. reflexivity.
  - unfold operationCount. simpl. rewrite length_app. simpl. lia.
  - rewrite list_lookup_alter_eq, Hstore. reflexivity.
Qed.

Lemma endExceptionBlock_effect_witness :
  let g := after [BeginExceptionBlock] in
  let exception := exceptionBlock 2 3 in
  blockStack g = [0%nat] /\ store g !! 0%nat = Some exception
  /\ exists g',
       endExceptionBlock g = Some (tt, g')
       /\ operations g' =
            operations g ++
              [if stateBelow (state exception) Finally then OpBreak else Endfinally]
       /\ operationArguments g' =
            operationArguments g ++
              [if stateBelow (state exception) Finally then [VNumber 3] else []]
       /\ operationCount g' = operationCount g + 1
       /\ labels g' = array_set (labels g) 3 (operationCount g')
       /\ store g' !! 0%nat = Some (set_blockState (Some Done) exception)
       /\ blockStack g' = [].
Proof.
  cbv zeta. split; [vm_compute; reflexivity|]. split; [vm_compute; reflexivity|].
  apply (endExceptionBlock_effect (after [BeginExceptionBlock]) 0 []
           (exceptionBlock 2 3) 3); vm_compute; reflexivity.
Defined.

(** C5. On the generator as created, whose live stack holds no block at
    all, [findContinueTarget] falls off the end of its loop and yields
    [undefined], where [findBreakTarget] returns [0]. *)
Theorem findContinueTarget_nothing_found :
  findContinueTarget createCodeGenerator None = None
  /\ findContinueTarget createCodeGenerator None <> Some 0
  /\ findBreakTarget createCodeGenerator None = Some 0.
Proof. split; [reflexivity|]. split; [discriminate | reflexivity]. Qed.

(** Whatever the live stack, a search that matches no block yields
    [undefined]. *)
Lemma findContinueTargetIn_none (stack : list BlockScope) (query : option string) :
  Forall (fun b => supportsContinue b && labelMatches query b = false) stack ->
  findContinueTargetIn stack query = None.
Proof.
  induction 1 as [|b stack Hb _ IH]; simpl; [reflexivity|].
  rewrite Hb. exact IH.
Qed.

(** C6. After [beginScriptBreakBlock("outer")] on a new generator,
    [findBreakTarget("outer")] does not find the block and returns [0]:
    the block stores the text under [labelSymbol], and the search reads
    [labelText]. The same query finds a [Break] block and a
    [ScriptContinue] block begun with that text. *)
Theorem findBreakTarget_script_break_label :
  run [BeginScriptBreakBlock (Some "outer")] createCodeGenerator
    = Some (after [BeginScriptBreakBlock (Some "outer")])
  /\ findBreakTarget (after [BeginScriptBreakBlock (Some "outer")]) (Some "outer")
     = Some 0
  /\ (labelText <$> liveBlocks (after [BeginScriptBreakBlock (Some "outer")]))
     = [None]
  /\ findBreakTarget (after [BeginBreakBlock (Some "outer")]) (Some "outer")
     = Some 2
  /\ findBreakTarget (after [BeginScriptContinueBlock (Some "outer")]) (Some "outer")
     = Some (-1).
Proof. repeat split; reflexivity. Qed.

(** ** The assembler: what a write touches *)

Definition gated (a : Assembler) : bool :=
  instructionWasAbrupt a || instructionWasCompletion a.

(** The array that [statements] names at this point of the pass. *)
Definition currentStatements (a : Assembler) : list Node :=
  match reverse (clauses a) with
  | c :: _ => clauseStatements c
  | [] => statements a
  end.

Lemma pushStatement_snoc n a cs c :
  clauses a = cs ++ [c] ->
  clauses (pushStatement n a) =
    cs ++ [mkClause (clauseLabel c) (clauseStatements c ++ [n]) (clauseLocation c)].
Proof.
  intros H. unfold pushStatement. rewrite H, reverse_snoc. simpl.
  rewrite reverse_involutive. reflexivity.
Qed.

Lemma pushStatement_nil n a :
  clauses a = [] -> clauses (pushStatement n a) = [].
Proof. intros H. unfold pushStatement. rewrite H. simpl. exact H. Qed.

Lemma clauses_snoc_or_nil (a : Assembler) :
  clauses a = [] \/ exists cs c, clauses a = cs ++ [c].
Proof.
  destruct (clauses a) as [|c0 l] using rev_ind; [left|right]; eauto.
Qed.

Lemma pushStatement_fields n a :
  blockIndex (pushStatement n a) = blockIndex a
  /\ instructionWasAbrupt (pushStatement n a) = instructionWasAbrupt a
  /\ instructionWasCompletion (pushStatement n a) = instructionWasCompletion a
  /\ numbers (pushStatement n a) = numbers a
  /\ location (pushStatement n a) = location a
  /\ length (clauses (pushStatement n a)) = length (clauses a)
  /\ (clauseLabel <$> clauses (pushStatement n a)) = (clauseLabel <$> clauses a).
Proof.
  destruct (clauses_snoc_or_nil a) as [H|(cs & c & H)].
  - unfold pushStatement. rewrite H. simpl. rewrite H. tauto.
  - pose proof (pushStatement_snoc n a cs c H) as H'.
    rewrite H', H.
    unfold pushStatement. rewrite H, reverse_snoc. simpl.
    rewrite !length_app, !fmap_app. simpl. tauto.
Qed.

Lemma pushStatement_current n a :
  currentStatements (pushStatement n a) = currentStatements a ++ [n].
Proof.
  unfold currentStatements.
  destruct (clauses_snoc_or_nil a) as [H|(cs & c & H)].
  - rewrite (pushStatement_nil n a H), H. simpl.
    unfold pushStatement. rewrite H. reflexivity.
  - rewrite (pushStatement_snoc n a cs c H), H, !reverse_snoc. reflexivity.
Qed.

(** A write leaves every clause but the last as it is. *)
Lemma pushStatement_earlier n a (i : nat) :
  (S i < length (clauses a))%nat ->
  clauses (pushStatement n a) !! i = clauses a !! i.
Proof.
  intros Hi.
  destruct (clauses_snoc_or_nil a) as [H|(cs & c & H)].
  - rewrite H in Hi. simpl in Hi. lia.
  - rewrite (pushStatement_snoc n a cs c H), H.
    rewrite H, length_app in Hi. simpl in Hi.
    rewrite !lookup_app_l by lia. reflexivity.
Qed.

(** The node that [writeStatement] pushes for a value. *)
Definition asStatement (v : Value) (l : Location) : Node :=
  match v with
  | VNode n =>
      if negb (isStatement v) && negb (isGeneratedNode v)
      then ExpressionStatement v l
      else n
  | _ => ExpressionStatement v l
  end.

Lemma writeStatement_push v a :
  writeStatement v a = pushStatement (asStatement v (location a)) a.
Proof. reflexivity. Qed.

Lemma writeGenerated_push text content a :
  writeGenerated text content a =
    pushStatement (GeneratedNode text content (location a)) a.
Proof. reflexivity. Qed.

Definition pushAll (ns : list Node) (a : Assembler) : Assembler :=
  fold_left (fun a n => pushStatement n a) ns a.

Lemma pushAll_fields ns a :
  blockIndex (pushAll ns a) = blockIndex a
  /\ instructionWasAbrupt (pushAll ns a) = instructionWasAbrupt a
  /\ instructionWasCompletion (pushAll ns a) = instructionWasCompletion a
  /\ numbers (pushAll ns a) = numbers a
  /\ location (pushAll ns a) = location a
  /\ length (clauses (pushAll ns a)) = length (clauses a)
  /\ (clauseLabel <$> clauses (pushAll ns a)) = (clauseLabel <$> clauses a).
Proof.
  revert a. induction ns as [|n ns IH]; intros a; simpl; [tauto|].
  destruct (IH (pushStatement n a)) as (H1 & H2 & H3 & H4 & H5 & H6 & H7).
  destruct (pushStatement_fields n a) as (K1 & K2 & K3 & K4 & K5 & K6 & K7).
  unfold pushAll in *.
  rewrite H1, H2, H3, H4, H5, H6, H7, K1, K2, K3, K4, K5, K6, K7. tauto.
Qed.

Lemma pushAll_current ns a :
  currentStatements (pushAll ns a) = currentStatements a ++ ns.
Proof.
  revert a. induction ns as [|n ns IH]; intros a; simpl.
  - rewrite app_nil_r. reflexivity.
  - unfold pushAll in *. rewrite IH, pushStatement_current, <- app_assoc.
    reflexivity.
Qed.

Lemma pushAll_earlier ns a (i : nat) :
  (S i < length (clauses a))%nat ->
  clauses (pushAll ns a) !! i = clauses a !! i.
Proof.
  revert a. induction ns as [|n ns IH]; intros a Hi; simpl; [reflexivity|].
  unfold pushAll in *. rewrite IH.
  - apply pushStatement_earlier, Hi.
  - destruct (pushStatement_fields n a) as (_ & _ & _ & _ & _ & -> & _). exact Hi.
Qed.

(** *** The block loop *)

(** [trysPush] depends on the assembler through its location only. *)
Definition trysPushAt (l : Location) (exception : BlockScope) : Node :=
  trysPush (mkAssembler [] [] 0 false false [] l) exception.

(** The statement that one event makes the block loop write, if any. *)
Definition eventNodes (g : State) (l : Location)
    (event : BlockAction * Z * option BlockRef) : list Node :=
  match event with
  | (Open, _, Some r) =>
      match store g !! r with
      | Some exception =>
          if bool_decide (kind exception = Exception)
          then [trysPushAt l exception]
          else []
      | None => []
      end
  | _ => []
  end.

(** The events that the loop consumes at [operationIndex]. *)
Fixpoint dueEvents (operationIndex : Z)
    (pending : list (BlockAction * Z * option BlockRef))
  : list (BlockAction * Z * option BlockRef) :=
  match pending with
  | [] => []
  | (action, offset, block) :: rest =>
      if offset <=? operationIndex
      then (action, offset, block) :: dueEvents operationIndex rest
      else []
  end.

Lemma pushStatement_set_blockIndex n k a :
  pushStatement n (set_blockIndex k a) = set_blockIndex k (pushStatement n a).
Proof.
  unfold pushStatement. simpl. destruct (reverse (clauses a)); reflexivity.
Qed.

Lemma pushAll_set_blockIndex ns k a :
  pushAll ns (set_blockIndex k a) = set_blockIndex k (pushAll ns a).
Proof.
  revert a. induction ns as [|n ns IH]; intros a; simpl; [reflexivity|].
  unfold pushAll in *. rewrite pushStatement_set_blockIndex. apply IH.
Qed.

Lemma pushAll_app ns ms a : pushAll (ns ++ ms) a = pushAll ms (pushAll ns a).
Proof. unfold pushAll. apply fold_left_app. Qed.

Lemma writeBlocks_step g i action offset block rest a :
  (offset <=? i) = true ->
  writeBlocks g i ((action, offset, block) :: rest) a =
    writeBlocks g i rest
      (set_blockIndex (S (blockIndex a))
         (pushAll (eventNodes g (location a) (action, offset, block)) a)).
Proof.
  intros Ho. simpl. rewrite Ho.
  destruct action, block as [r|]; simpl; try reflexivity.
  destruct (store g !! r) as [exception|]; simpl; try reflexivity.
  destruct (bool_decide (kind exception = Exception)); simpl; try reflexivity.
  change (writeStatement (VNode (trysPush a exception)) a)
    with (pushStatement (trysPushAt (location a) exception) a).
  destruct (pushStatement_fields (trysPushAt (location a) exception) a) as (-> & _).
  reflexivity.
Qed.

Lemma writeBlocks_spec g i pending a :
  writeBlocks g i pending a =
    set_blockIndex (blockIndex a + length (dueEvents i pending))%nat
      (pushAll (concat (eventNodes g (location a) <$> dueEvents i pending)) a).
Proof.
  revert a. induction pending as [|[[action offset] block] rest IH]; intros a.
  - simpl. rewrite Nat.add_0_r. destruct a; reflexivity.
  - destruct (offset <=? i) eqn:Ho.
    2:{ simpl. rewrite Ho. simpl. rewrite Nat.add_0_r. destruct a; reflexivity. }
    rewrite writeBlocks_step by exact Ho. rewrite IH.
    cbn [dueEvents]. rewrite Ho. cbn [length fmap list_fmap concat].
    rewrite pushAll_app, pushAll_set_blockIndex.
    set (a1 := pushAll (eventNodes g (location a) (action, offset, block)) a).
    assert (Hl : location (set_blockIndex (S (blockIndex a)) a1) = location a).
    { simpl. unfold a1.
      destruct (pushAll_fields (eventNodes g (location a) (action, offset, block)) a)
        as (_ & _ & _ & _ & -> & _). reflexivity. }
    rewrite Hl. simpl.
    replace (S (blockIndex a + length (dueEvents i rest)))
      with (blockIndex a + S (length (dueEvents i rest)))%nat by lia.
    reflexivity.
Qed.

(** *** The dispatch on the opcode *)

Definition isAbruptCode (code : OpCode) : bool :=
  match code with
  | OpBreak | Yield | Endfinally => true
  | _ => false
  end.

Definition isCompletionCode (code : OpCode) : bool :=
  match code with
  | Return | Throw => true
  | _ => false
  end.

Definition at_ (l : Location) : Assembler :=
  mkAssembler [] [] 0 false false [] l.

(** The statement that an operation contributes when it is written. *)
Definition operationNode (code : OpCode) (args : list Value) (l : Location)
  : Node :=
  let x := argument args 0 in
  let y := argument args 1 in
  match code with
  | Statement => asStatement x l
  | Assign => generated (at_ l) assignText (VObject [("left", x); ("right", y)])
  | OpBreak => inlineBreak (at_ l) x
  | BrTrue =>
      generated (at_ l) brTrueText
        (VObject [("condition", y); ("statement", VNode (inlineBreak (at_ l) x))])
  | BrFalse =>
      generated (at_ l) brFalseText
        (VObject [("condition", y); ("statement", VNode (inlineBreak (at_ l) x))])
  | Yield => inlineYield (at_ l) x
  | Return => inlineReturn (at_ l) x
  | Throw => generated (at_ l) throwText (VObject [("expression", x)])
  | Endfinally => generated (at_ l) endfinallyText VUndefined
  end.

Definition setFlags (code : OpCode) (a : Assembler) : Assembler :=
  set_instructionWasCompletion (instructionWasCompletion a || isCompletionCode code)
    (set_instructionWasAbrupt (instructionWasAbrupt a || isAbruptCode code) a).

Lemma writeOperation_spec g i code args a :
  writeOperation g i code args a =
    let a1 := writeBlocks g (Z.of_nat i) (drop (blockIndex a) (events g)) a in
    if gated a1 then a1
    else pushStatement (operationNode code args (location a1)) (setFlags code a1).
Proof.
  unfold writeOperation, gated.
  set (a1 := writeBlocks g (Z.of_nat i) (drop (blockIndex a) (events g)) a).
  cbv zeta.
  destruct (instructionWasAbrupt a1 || instructionWasCompletion a1) eqn:Hg;
    [reflexivity|].
  apply orb_false_elim in Hg as [Ha Hc].
  destruct a1 as [cl st bi ab co nu lo]. simpl in Ha, Hc. subst ab co.
  destruct code; try reflexivity.
  - unfold writeYield, inlineYield, operationNode, inlineYield. simpl.
    destruct (truthy (argument args 0)); reflexivity.
  - unfold writeReturn, inlineReturn, operationNode, inlineReturn. simpl.
    destruct (truthy (argument args 0)); reflexivity.
Qed.

Lemma writeReturn_spec a :
  writeReturn VUndefined a =
    pushStatement (GeneratedNode returnText VUndefined (location a))
      (set_instructionWasCompletion true a).
Proof. reflexivity. Qed.

(** *** The label loop *)

Definition labelMarkedAt (g : State) (operationIndex : nat) : bool :=
  existsb (fun slot => bool_decide (slot = Some (Z.of_nat operationIndex)))
    (labels g).

Lemma bindLabels_createCase slots label i c ns :
  snd (bindLabels slots label i c ns)
  = existsb (fun slot => bool_decide (slot = Some i)) slots.
Proof.
  revert label ns. induction slots as [|s slots IH]; intros label ns; simpl;
    [reflexivity|].
  destruct (bool_decide (s = Some i)); simpl.
  - destruct (bindLabels slots (label + 1) i c (array_set ns label c)).
    reflexivity.
  - apply IH.
Qed.

Lemma bindLabels_unmarked slots label i c ns :
  existsb (fun slot => bool_decide (slot = Some i)) slots = false ->
  fst (bindLabels slots label i c ns) = ns.
Proof.
  revert label ns. induction slots as [|s slots IH]; intros label ns; simpl;
    [reflexivity|].
  destruct (bool_decide (s = Some i)); simpl; [discriminate|]. apply IH.
Qed.

Lemma set_numbers_same a : set_numbers (numbers a) a = a.
Proof. destruct a; reflexivity. Qed.

Lemma ensureLabels_unmarked g i a :
  labelMarkedAt g i = false -> ensureLabels g i a = a.
Proof.
  intros Hm. unfold ensureLabels.
  pose proof (bindLabels_createCase (labels g) 0 (Z.of_nat i)
                (Z.of_nat (length (clauses a))) (numbers a)) as Hc.
  pose proof (bindLabels_unmarked (labels g) 0 (Z.of_nat i)
                (Z.of_nat (length (clauses a))) (numbers a) Hm) as Hn.
  destruct (bindLabels (labels g) 0 (Z.of_nat i)
              (Z.of_nat (length (clauses a))) (numbers a)) as [ns cc].
  simpl in Hc, Hn. unfold labelMarkedAt in Hm. rewrite Hm in Hc. subst.
  apply set_numbers_same.
Qed.

Definition fixupNode (target : nat) (l : Location) : Node :=
  GeneratedNode fixupText
    (VObject [("label", VNode (GeneratedNode (decimal target) VUndefined l))]) l.

Definition caseLabel (number : nat) (l : Location) : Node :=
  GeneratedNode (decimal number) VUndefined l.

(** The case that [ensureLabels] opens on an assembler [a] whose labels
    were just bound: the fix-up, the reset of the flags, the new clause and
    the initialisation of [__state.trys]. *)
Definition openCase (g : State) (i : nat) (a : Assembler) : Assembler :=
  let number := length (clauses a) in
  let a1 :=
    pushAll (if negb (gated a) && (0 <? i)%nat
             then [fixupNode number (location a)] else []) a in
  let a2 :=
    set_clauses (clauses a1 ++ [mkClause (caseLabel number (location a)) []
                                  (location a)])
      (set_instructionWasCompletion false (set_instructionWasAbrupt false a1)) in
  pushAll (if (number =? 0)%nat && hasProtectedRegions g
           then [GeneratedNode trysInitText VUndefined (location a)] else []) a2.

Lemma ensureLabels_marked g i a :
  labelMarkedAt g i = true ->
  ensureLabels g i a =
    openCase g i
      (set_numbers
         (fst (bindLabels (labels g) 0 (Z.of_nat i)
                 (Z.of_nat (length (clauses a))) (numbers a))) a).
Proof.
  intros Hm. unfold ensureLabels.
  pose proof (bindLabels_createCase (labels g) 0 (Z.of_nat i)
                (Z.of_nat (length (clauses a))) (numbers a)) as Hc.
  destruct (bindLabels (labels g) 0 (Z.of_nat i)
              (Z.of_nat (length (clauses a))) (numbers a)) as [ns cc].
  simpl in Hc. unfold labelMarkedAt in Hm. rewrite Hm in Hc. subst cc.
  simpl fst. unfold openCase, gated. simpl.
  rewrite <- negb_orb.
  destruct (negb (instructionWasAbrupt a || instructionWasCompletion a)
            && (0 <? i)%nat) eqn:Hf; simpl.
  - change (writeGenerated fixupText
              (VObject [("label",
                 VNode (generated (set_numbers ns a)
                          (decimal (length (clauses a))) VUndefined))])
              (set_numbers ns a))
      with (pushStatement (fixupNode (length (clauses a)) (location a))
              (set_numbers ns a)).
    set (P := pushStatement (fixupNode (length (clauses a)) (location a))
                (set_numbers ns a)).
    assert (Hl : location P = location a).
    { unfold P.
      destruct (pushStatement_fields (fixupNode (length (clauses a)) (location a))
                  (set_numbers ns a)) as (_ & _ & _ & _ & -> & _).
      reflexivity. }
    unfold writeGenerated, generated. simpl. rewrite !Hl.
    destruct ((length (clauses a) =? 0)%nat && hasProtectedRegions g);
      reflexivity.
  - destruct ((length (clauses a) =? 0)%nat && hasProtectedRegions g) eqn:Hp;
      simpl; reflexivity.
Qed.

(** *** One turn of the main loop *)

Lemma assembleUpTo_S g k :
  assembleUpTo g (S k) = assembleOperation g (assembleUpTo g k) k.
Proof.
  unfold assembleUpTo. rewrite seq_S, fold_left_app. reflexivity.
Qed.

Lemma writeBlocks_fields g i pending a :
  instructionWasAbrupt (writeBlocks g i pending a) = instructionWasAbrupt a
  /\ instructionWasCompletion (writeBlocks g i pending a)
     = instructionWasCompletion a
  /\ numbers (writeBlocks g i pending a) = numbers a
  /\ location (writeBlocks g i pending a) = location a
  /\ length (clauses (writeBlocks g i pending a)) = length (clauses a)
  /\ (clauseLabel <$> clauses (writeBlocks g i pending a))
     = (clauseLabel <$> clauses a).
Proof.
  rewrite writeBlocks_spec. simpl.
  destruct (pushAll_fields
              (concat (eventNodes g (location a) <$> dueEvents i pending)) a)
    as (_ & H2 & H3 & H4 & H5 & H6 & H7).
  tauto.
Qed.

Lemma gated_writeBlocks g i pending a :
  gated (writeBlocks g i pending a) = gated a.
Proof.
  unfold gated.
  destruct (writeBlocks_fields g i pending a) as (-> & -> & _). reflexivity.
Qed.

(** Once a flag is set, [writeOperation] ignores the opcode and its
    arguments. *)
Lemma writeOperation_gated g i code args a :
  gated a = true ->
  writeOperation g i code args a =
    writeBlocks g (Z.of_nat i) (drop (blockIndex a) (events g)) a.
Proof.
  intros Hg. rewrite writeOperation_spec. cbv zeta.
  rewrite gated_writeBlocks, Hg. reflexivity.
Qed.

Lemma gated_writeOperation g i code args a :
  gated (writeOperation g i code args a)
  = gated a || isAbruptCode code || isCompletionCode code.
Proof.
  rewrite writeOperation_spec. cbv zeta.
  set (a1 := writeBlocks g (Z.of_nat i) (drop (blockIndex a) (events g)) a).
  assert (H1 : gated a1 = gated a) by apply gated_writeBlocks.
  rewrite <- H1.
  destruct (gated a1) eqn:Hg1; [simpl; exact Hg1|].
  unfold gated in *.
  destruct (pushStatement_fields (operationNode code args (location a1))
              (setFlags code a1)) as (_ & -> & -> & _).
  simpl. apply orb_false_elim in Hg1 as [-> ->]. simpl.
  destruct (isAbruptCode code), (isCompletionCode code); reflexivity.
Qed.

Definition endsCase (code : OpCode) : bool :=
  isAbruptCode code || isCompletionCode code.

Lemma gated_after_ending g i code :
  operations g !! i = Some code -> endsCase code = true ->
  gated (assembleUpTo g (S i)) = true.
Proof.
  intros Hop He. rewrite assembleUpTo_S. unfold assembleOperation.
  rewrite Hop. cbv zeta. rewrite gated_writeOperation.
  unfold endsCase in He. rewrite <- orb_assoc, He. apply orb_true_r.
Qed.

Lemma gated_kept g k :
  gated (assembleUpTo g k) = true -> labelMarkedAt g k = false ->
  gated (assembleUpTo g (S k)) = true.
Proof.
  intros Hg Hm. rewrite assembleUpTo_S. unfold assembleOperation.
  destruct (operations g !! k); [|exact Hg].
  cbv zeta. rewrite gated_writeOperation, (ensureLabels_unmarked _ _ _ Hm).
  change (gated (set_location _ (assembleUpTo g k))) with (gated (assembleUpTo g k)).
  rewrite Hg. reflexivity.
Qed.

(** ** Dead operations *)

(** [dead g j]: some operation before [j] is abrupt or a completion, and
    no label is marked after it up to and including [j]. *)
Definition dead (g : State) (j : nat) : bool :=
  existsb
    (fun i =>
       match operations g !! i with
       | Some code =>
           endsCase code
           && forallb (fun k => negb (labelMarkedAt g k)) (seq (S i) (j - i))
       | None => false
       end)
    (seq 0 j).

(** The log with the operation at [j] replaced by another one. *)
Definition replaceOperation (g : State) (j : nat) (code : OpCode)
    (args : list Value) : State :=
  set_operationArguments (<[j := args]> (operationArguments g))
    (set_operations (<[j := code]> (operations g)) g).

Lemma dead_gated g j :
  dead g j = true ->
  gated (assembleUpTo g j) = true /\ labelMarkedAt g j = false.
Proof.
  unfold dead. rewrite existsb_exists. intros (i & Hi & H).
  apply in_seq in Hi.
  destruct (operations g !! i) as [code|] eqn:Hop; [|discriminate].
  apply andb_true_iff in H as [He Hall].
  rewrite forallb_forall in Hall.
  assert (Hun : forall k, (i < k <= j)%nat -> labelMarkedAt g k = false).
  { intros k Hk. apply negb_true_iff, Hall, in_seq. lia. }
  split; [|apply Hun; lia].
  assert (Hgen : forall d, (S i + d <= j)%nat ->
                           gated (assembleUpTo g (S i + d)) = true).
  { induction d as [|d IH]; intros Hd.
    - rewrite Nat.add_0_r. eapply gated_after_ending; eauto.
    - replace (S i + S d)%nat with (S (S i + d)) by lia.
      apply gated_kept; [apply IH; lia | apply Hun; lia]. }
  replace j with (S i + (j - S i))%nat by lia. apply Hgen. lia.
Qed.

Lemma writeBlocks_store g g' i pending a :
  store g' = store g -> writeBlocks g' i pending a = writeBlocks g i pending a.
Proof.
  intros Hs. revert a.
  induction pending as [|[[action offset] block] rest IH]; intros a; simpl;
    [reflexivity|].
  rewrite Hs. destruct (offset <=? i); [|reflexivity]. apply IH.
Qed.

Lemma writeOperation_same_blocks g g' i code args a :
  store g' = store g -> events g' = events g ->
  writeOperation g' i code args a = writeOperation g i code args a.
Proof.
  intros Hs He. unfold writeOperation. rewrite He.
  rewrite (writeBlocks_store g g') by exact Hs. reflexivity.
Qed.

Lemma assembleOperation_replace g j code args a k :
  (k <> j \/ (gated a = true /\ labelMarkedAt g j = false)) ->
  assembleOperation (replaceOperation g j code args) a k
  = assembleOperation g a k.
Proof.
  intros Hk. unfold assembleOperation.
  set (g' := replaceOperation g j code args).
  assert (Hs : store g' = store g) by reflexivity.
  assert (He : events g' = events g) by reflexivity.
  assert (Hen : forall i b, ensureLabels g' i b = ensureLabels g i b)
    by reflexivity.
  change (operationLocations g') with (operationLocations g).
  change (operations g') with (<[j := code]> (operations g)).
  change (operationArguments g') with (<[j := args]> (operationArguments g)).
  destruct (decide (k = j)) as [->|Hne].
  - destruct Hk as [Hk|[Hg Hm]]; [congruence|].
    destruct (operations g !! j) as [c0|] eqn:Hop.
    + assert (Hlt : (j < length (operations g))%nat)
        by (eapply lookup_lt_Some; eauto).
      rewrite list_lookup_insert_eq by exact Hlt.
      cbv zeta. rewrite Hen, (writeOperation_same_blocks g g') by assumption.
      rewrite !(ensureLabels_unmarked _ _ _ Hm).
      rewrite !writeOperation_gated by exact Hg. reflexivity.
    + rewrite list_insert_ge, Hop; [reflexivity|].
      apply lookup_ge_None. exact Hop.
  - rewrite !list_lookup_insert_ne by congruence.
    destruct (operations g !! k); [|reflexivity].
    cbv zeta. rewrite Hen, (writeOperation_same_blocks g g') by assumption.
    reflexivity.
Qed.

Lemma assembleUpTo_replace g j code args :
  dead g j = true ->
  forall k, assembleUpTo (replaceOperation g j code args) k = assembleUpTo g k.
Proof.
  intros Hd. destruct (dead_gated g j Hd) as [Hg Hm].
  induction k as [|k IH]; [reflexivity|].
  rewrite !assembleUpTo_S, IH. apply assembleOperation_replace.
  destruct (decide (k = j)) as [->|]; [right|left]; auto.
Qed.

(** ** Cases and the operations written into them *)

(** The operation indices at which a case is opened, in order: those below
    [k], and all of them ([operations.length] included, for the label sync
    that follows the loop). *)
Definition caseStartsBelow (g : State) (k : nat) : list nat :=
  List.filter (labelMarkedAt g) (seq 0 k).

Definition caseStarts (g : State) : list nat :=
  caseStartsBelow g (S (length (operations g))).

(** The operations recorded from index [i] up to, not including, [j]. *)
Definition segment (g : State) (i j : nat) : list OpCode :=
  take (j - i) (drop i (operations g)).

(** The last operation of a case that is written: the first one that is
    abrupt or a completion, since what follows it is suppressed, and the
    last one of the case when there is none. *)
Definition finalWritten (ops : list OpCode) : option OpCode :=
  match List.find endsCase ops with
  | Some code => Some code
  | None => last ops
  end.

Definition isFixup (n : Node) : bool :=
  match n with
  | GeneratedNode text _ _ => String.eqb text fixupText
  | _ => false
  end.

(** The last statement of the clause is [__state.label = target;]. *)
Definition endsWithFixup (target : nat) (c : Clause) : Prop :=
  exists l, last (clauseStatements c) = Some (fixupNode target l).

Lemma caseStartsBelow_S g k :
  caseStartsBelow g (S k) =
    caseStartsBelow g k ++ (if labelMarkedAt g k then [k] else []).
Proof.
  unfold caseStartsBelow. rewrite seq_S, List.filter_app. simpl.
  destruct (labelMarkedAt g k); reflexivity.
Qed.

Lemma caseStartsBelow_lt g k i :
  i ∈ caseStartsBelow g k -> (i < k)%nat.
Proof.
  unfold caseStartsBelow. rewrite list_elem_of_In, List.filter_In, in_seq. lia.
Qed.

Lemma caseStartsBelow_increasing g k N i j :
  caseStartsBelow g k !! N = Some i -> caseStartsBelow g k !! S N = Some j ->
  (i < j < k)%nat.
Proof.
  induction k as [|k IH]; [discriminate|].
  rewrite caseStartsBelow_S. intros Hi Hj.
  destruct (decide (S N < length (caseStartsBelow g k))%nat) as [Hlt|Hge].
  - rewrite lookup_app_l in Hi, Hj by lia. specialize (IH Hi Hj). lia.
  - assert (HN : (N < length (caseStartsBelow g k))%nat).
    { apply lookup_lt_Some in Hj. rewrite length_app in Hj.
      destruct (labelMarkedAt g k); simpl in Hj; lia. }
    rewrite lookup_app_l in Hi by lia.
    rewrite lookup_app_r in Hj by lia.
    destruct (labelMarkedAt g k); [|destruct (S N - _)%nat; discriminate].
    apply list_lookup_singleton_Some in Hj as [_ <-].
    assert (i < k)%nat; [|lia].
    apply (caseStartsBelow_lt g). eapply list_elem_of_lookup_2; eauto.
Qed.

Lemma segment_S g p k code :
  (p <= k)%nat -> operations g !! k = Some code ->
  segment g p (S k) = segment g p k ++ [code].
Proof.
  intros Hp Hop. unfold segment.
  replace (S k - p)%nat with (S (k - p)) by lia.
  apply take_S_r. rewrite lookup_drop.
  replace (p + (k - p))%nat with k by lia. exact Hop.
Qed.

Lemma segment_empty g k : segment g k k = [].
Proof. unfold segment. rewrite Nat.sub_diag. reflexivity. Qed.

Lemma finalWritten_spec ops :
  ops <> [] ->
  exists code, finalWritten ops = Some code
               /\ (endsCase code = false <-> existsb endsCase ops = false).
Proof.
  intros Hne. unfold finalWritten.
  destruct (List.find endsCase ops) as [code|] eqn:Hf.
  - exists code. split; [reflexivity|].
    apply List.find_some in Hf as [Hin He].
    assert (existsb endsCase ops = true)
      by (apply existsb_exists; eauto).
    split; congruence.
  - assert (Hall : existsb endsCase ops = false).
    { apply not_true_is_false. rewrite existsb_exists. intros (c & Hin & Hc).
      pose proof (List.find_none _ _ Hf c Hin). congruence. }
    destruct (last ops) as [code|] eqn:Hl.
    + exists code. split; [reflexivity|]. split; [auto|]. intros _.
      apply not_true_is_false. intros Hc.
      apply last_Some_elem_of, list_elem_of_In in Hl.
      pose proof (List.find_none _ _ Hf code Hl). congruence.
    + apply last_None in Hl. contradiction.
Qed.

Lemma pushAll_clauses_snoc ns a cs c :
  clauses a = cs ++ [c] ->
  clauses (pushAll ns a) =
    cs ++ [mkClause (clauseLabel c) (clauseStatements c ++ ns) (clauseLocation c)].
Proof.
  revert a c. induction ns as [|n ns IH]; intros a c H; simpl.
  - rewrite app_nil_r, H. destruct c; reflexivity.
  - unfold pushAll in *.
    rewrite (IH _ _ (pushStatement_snoc n a cs c H)). simpl.
    rewrite <- app_assoc. reflexivity.
Qed.

Lemma pushAll_clauses_nil ns a :
  clauses a = [] -> clauses (pushAll ns a) = [].
Proof.
  revert a. induction ns as [|n ns IH]; intros a H; simpl; [exact H|].
  apply IH, pushStatement_nil, H.
Qed.

Lemma currentStatements_snoc a cs c :
  clauses a = cs ++ [c] -> currentStatements a = clauseStatements c.
Proof. intros H. unfold currentStatements. rewrite H, reverse_snoc. reflexivity. Qed.

Definition fixupOf (i : nat) (a : Assembler) : list Node :=
  if negb (gated a) && (0 <? i)%nat
  then [fixupNode (length (clauses a)) (location a)] else [].

Definition initOf (g : State) (a : Assembler) : list Node :=
  if (length (clauses a) =? 0)%nat && hasProtectedRegions g
  then [GeneratedNode trysInitText VUndefined (location a)] else [].

Lemma openCase_clauses g i a :
  clauses (openCase g i a) =
    clauses (pushAll (fixupOf i a) a)
    ++ [mkClause (caseLabel (length (clauses a)) (location a)) (initOf g a)
          (location a)].
Proof.
  unfold openCase. cbv zeta.
  fold (fixupOf i a). fold (initOf g a).
  erewrite pushAll_clauses_snoc; [|reflexivity]. reflexivity.
Qed.

Lemma openCase_fields g i a :
  instructionWasAbrupt (openCase g i a) = false
  /\ instructionWasCompletion (openCase g i a) = false
  /\ numbers (openCase g i a) = numbers a
  /\ location (openCase g i a) = location a
  /\ blockIndex (openCase g i a) = blockIndex a.
Proof.
  unfold openCase. cbv zeta. fold (fixupOf i a). fold (initOf g a).
  match goal with
  | |- context [pushAll (initOf g a) ?x] =>
      destruct (pushAll_fields (initOf g a) x) as (-> & -> & -> & -> & -> & _)
  end.
  simpl.
  destruct (pushAll_fields (fixupOf i a) a) as (-> & _ & _ & -> & -> & _).
  tauto.
Qed.

(** ** The fall-through fix-up *)

Record FixupInv (g : State) (starts : list nat) (k : nat) (a : Assembler)
  : Prop := {
  fi_length : length (clauses a) = length starts;
  fi_closed :
    forall N i j,
      starts !! N = Some i -> starts !! S N = Some j ->
      exists c, clauses a !! N = Some c
                /\ (endsWithFixup (S N) c
                    <-> existsb endsCase (segment g i j) = false);
  fi_open :
    forall p,
      last starts = Some p ->
      gated a = existsb endsCase (segment g p k)
      /\ (gated a = true ->
          exists n, last (currentStatements a) = Some n /\ isFixup n = false)
}.

Lemma eventNodes_not_fixup g l evs n :
  n ∈ concat (eventNodes g l <$> evs) -> isFixup n = false.
Proof.
  induction evs as [|[[action offset] block] evs IH]; simpl.
  - intros H. inversion H.
  - rewrite elem_of_app. intros [H|H]; [|auto].
    destruct action, block as [r|]; simpl in H; try (inversion H; fail).
    destruct (store g !! r) as [e|]; try (inversion H; fail).
    destruct (bool_decide (kind e = Exception)); try (inversion H; fail).
    apply list_elem_of_singleton in H. subst n. reflexivity.
Qed.

Lemma operationNode_ending code args l :
  endsCase code = true -> isFixup (operationNode code args l) = false.
Proof.
  destruct code; try discriminate; intros _; simpl; try reflexivity.
  - unfold inlineYield. destruct (truthy (argument args 0)); reflexivity.
  - unfold inlineReturn. destruct (truthy (argument args 0)); reflexivity.
Qed.

Lemma writeOperation_earlier g i code args a (N : nat) :
  (S N < length (clauses a))%nat ->
  clauses (writeOperation g i code args a) !! N = clauses a !! N.
Proof.
  intros HN. rewrite writeOperation_spec. cbv zeta.
  rewrite writeBlocks_spec.
  set (ns := concat _).
  assert (H1 : clauses (set_blockIndex
                          (blockIndex a + length (dueEvents (Z.of_nat i)
                             (drop (blockIndex a) (events g))))%nat
                          (pushAll ns a)) !! N = clauses a !! N).
  { simpl. apply pushAll_earlier, HN. }
  destruct (gated _); [exact H1|].
  rewrite pushStatement_earlier; [exact H1|].
  simpl. destruct (pushAll_fields ns a) as (_&_&_&_&_&->&_). exact HN.
Qed.

Lemma writeOperation_length g i code args a :
  length (clauses (writeOperation g i code args a)) = length (clauses a).
Proof.
  rewrite writeOperation_spec. cbv zeta.
  destruct (writeBlocks_fields g (Z.of_nat i) (drop (blockIndex a) (events g)) a)
    as (_ & _ & _ & _ & Hlen & _).
  destruct (gated _); [exact Hlen|].
  destruct (pushStatement_fields
              (operationNode code args
                 (location (writeBlocks g (Z.of_nat i)
                              (drop (blockIndex a) (events g)) a)))
              (setFlags code
                 (writeBlocks g (Z.of_nat i) (drop (blockIndex a) (events g)) a)))
    as (_&_&_&_&_&->&_).
  exact Hlen.
Qed.

Lemma FixupInv_write g starts k a code args :
  FixupInv g starts k a ->
  (forall p, last starts = Some p -> (p <= k)%nat) ->
  operations g !! k = Some code ->
  FixupInv g starts (S k) (writeOperation g k code args a).
Proof.
  intros [Hlen Hclosed Hopen] Hle Hop. split.
  - rewrite writeOperation_length. exact Hlen.
  - intros N i j Hi Hj.
    destruct (Hclosed N i j Hi Hj) as (c & Hc & Hiff). exists c.
    split; [|exact Hiff].
    rewrite writeOperation_earlier; [exact Hc|].
    rewrite Hlen. eapply lookup_lt_Some; eauto.
  - intros p Hp. destruct (Hopen p Hp) as [Hg Hlast].
    rewrite (segment_S g p k code (Hle p Hp) Hop), existsb_app. simpl.
    rewrite orb_false_r, <- Hg.
    split.
    { rewrite gated_writeOperation. unfold endsCase.
      rewrite orb_assoc. reflexivity. }
    intros Hgr. rewrite writeOperation_spec in *. cbv zeta in *.
    rewrite writeBlocks_spec in *.
    set (ns := concat (eventNodes g (location a)
                         <$> dueEvents (Z.of_nat k)
                               (drop (blockIndex a) (events g)))) in *.
    set (a1 := set_blockIndex _ (pushAll ns a)) in *.
    assert (Hcur : currentStatements a1 = currentStatements a ++ ns)
      by apply pushAll_current.
    assert (Hg1 : gated a1 = gated a).
    { unfold gated. simpl.
      destruct (pushAll_fields ns a) as (_ & -> & -> & _). reflexivity. }
    destruct (gated a1) eqn:Hga1.
    + rewrite Hcur, last_app.
      destruct (last ns) as [n0|] eqn:Hln.
      * exists n0. split; [reflexivity|].
        apply (eventNodes_not_fixup g (location a)
                 (dueEvents (Z.of_nat k) (drop (blockIndex a) (events g)))).
        apply last_Some_elem_of, Hln.
      * apply Hlast. congruence.
    + exists (operationNode code args (location a1)).
      split.
      * change (currentStatements
                  (pushStatement (operationNode code args (location a1))
                     (setFlags code a1)))
          with (currentStatements
                  (pushStatement (operationNode code args (location a1))
                     (setFlags code a1))).
        rewrite pushStatement_current, last_snoc. reflexivity.
      * apply operationNode_ending.
        unfold gated in Hgr.
        destruct (pushStatement_fields (operationNode code args (location a1))
                    (setFlags code a1)) as (_ & Hab & Hco & _).
        rewrite Hab, Hco in Hgr. simpl in Hgr.
        unfold gated in Hga1. apply orb_false_elim in Hga1 as [Ha Hc].
        simpl in Ha, Hc. rewrite Ha, Hc in Hgr. simpl in Hgr. exact Hgr.
Qed.

Lemma fixupNode_isFixup target l : isFixup (fixupNode target l) = true.
Proof. reflexivity. Qed.

Lemma FixupInv_location g starts k a l :
  FixupInv g starts k a -> FixupInv g starts k (set_location l a).
Proof. intros [H1 H2 H3]. split; assumption. Qed.

Lemma FixupInv_sync g k a :
  FixupInv g (caseStartsBelow g k) k a ->
  FixupInv g (caseStartsBelow g (S k)) k (ensureLabels g k a).
Proof.
  intros Hinv. rewrite caseStartsBelow_S.
  destruct (labelMarkedAt g k) eqn:Hm.
  2:{ rewrite app_nil_r, ensureLabels_unmarked by exact Hm. exact Hinv. }
  rewrite ensureLabels_marked by exact Hm.
  set (a0 := set_numbers _ a).
  assert (Hinv0 : FixupInv g (caseStartsBelow g k) k a0).
  { destruct Hinv as [H1 H2 H3]. split; assumption. }
  clear Hinv. destruct Hinv0 as [Hlen Hclosed Hopen].
  set (starts := caseStartsBelow g k) in *.
  assert (Hcl := openCase_clauses g k a0).
  assert (Hlenfix : length (clauses (pushAll (fixupOf k a0) a0)) = length starts).
  { destruct (pushAll_fields (fixupOf k a0) a0) as (_&_&_&_&_&->&_). exact Hlen. }
  split.
  - rewrite Hcl, !length_app, Hlenfix. reflexivity.
  - intros N i j Hi Hj.
    destruct (decide (S N < length starts)%nat) as [Hlt|Hge].
    + rewrite lookup_app_l in Hi, Hj by lia.
      destruct (Hclosed N i j Hi Hj) as (c & Hc & Hiff). exists c.
      split; [|exact Hiff].
      rewrite Hcl, lookup_app_l by lia.
      rewrite pushAll_earlier by lia. exact Hc.
    + assert (HN : (N < length starts)%nat).
      { apply lookup_lt_Some in Hj. rewrite length_app in Hj. simpl in Hj. lia. }
      assert (HSN : S N = length starts) by lia.
      rewrite lookup_app_l in Hi by lia.
      rewrite lookup_app_r in Hj by lia.
      apply list_lookup_singleton_Some in Hj as [_ <-].
      assert (Hp : last starts = Some i).
      { rewrite last_lookup, <- HSN. exact Hi. }
      destruct (Hopen i Hp) as [Hg Hlast].
      assert (Hik : (i < k)%nat).
      { apply (caseStartsBelow_lt g). eapply list_elem_of_lookup_2; eauto. }
      destruct (clauses_snoc_or_nil a0) as [Hnil|(cs & c & Hsnoc)].
      { rewrite Hnil in Hlen. simpl in Hlen. lia. }
      assert (Hcs : length cs = N).
      { rewrite Hsnoc, length_app in Hlen. simpl in Hlen. lia. }
      rewrite Hcl, (pushAll_clauses_snoc _ _ _ _ Hsnoc).
      eexists. split.
      { rewrite lookup_app_l by (rewrite length_app; simpl; lia).
        rewrite lookup_app_r by lia.
        replace (N - length cs)%nat with 0%nat by lia. reflexivity. }
      unfold endsWithFixup. simpl.
      rewrite <- Hg. unfold fixupOf.
      rewrite (currentStatements_snoc _ _ _ Hsnoc) in Hlast.
      destruct (gated a0) eqn:Hga; simpl.
      * rewrite app_nil_r. split; [|discriminate].
        intros (l & Hl). destruct (Hlast eq_refl) as (n & Hn & Hnf).
        rewrite Hn in Hl. injection Hl as ->. discriminate.
      * assert (Hk0 : (0 <? k)%nat = true) by (apply Nat.ltb_lt; lia).
        rewrite Hk0. split; [reflexivity|]. intros _.
        exists (location a). rewrite last_snoc.
        replace (length (clauses a)) with (S N); [reflexivity|].
        change (clauses a) with (clauses a0). lia.
  - intros p Hp. rewrite last_snoc in Hp. injection Hp as <-.
    rewrite segment_empty. simpl. unfold gated.
    destruct (openCase_fields g k a0) as (-> & -> & _).
    split; [reflexivity | discriminate].
Qed.

Lemma FixupInv_upTo g k :
  (k <= length (operations g))%nat ->
  FixupInv g (caseStartsBelow g k) k (assembleUpTo g k).
Proof.
  induction k as [|k IH]; intros Hk.
  - split; simpl; [reflexivity | discriminate | discriminate].
  - rewrite assembleUpTo_S. unfold assembleOperation.
    destruct (operations g !! k) as [code|] eqn:Hop.
    2:{ apply lookup_ge_None in Hop. lia. }
    cbv zeta. apply FixupInv_write; [| |exact Hop].
    + apply FixupInv_sync, FixupInv_location, IH. lia.
    + intros p Hp. apply last_Some_elem_of, caseStartsBelow_lt in Hp. lia.
Qed.

(** The assembled body has one clause for every position of the log at
    which a label is marked. *)
Lemma buildFunctionBody_length g :
  length (buildFunctionBody g) = length (caseStarts g).
Proof.
  set (n := length (operations g)).
  pose proof (FixupInv_sync g n _ (FixupInv_upTo g n (le_n _))) as [Hlen _ _].
  unfold buildFunctionBody, assemble. fold n. cbv zeta.
  destruct (instructionWasCompletion _); [exact Hlen|].
  rewrite writeReturn_spec.
  match goal with
  | |- context [pushStatement ?x ?y] =>
      destruct (pushStatement_fields x y) as (_&_&_&_&_&->&_)
  end.
  exact Hlen.
Qed.

(** C2. The cases of the assembled body are the positions of the log at
    which a label is marked, in order. For two consecutive cases [N] and
    [N + 1], opened at the operations [i] and [j], the last statement of
    case [N] is the fix-up [__state.label = N + 1;] if and only if the
    final operation written into case [N] is neither abrupt ([Break],
    [Yield], [Endfinally]) nor a completion ([Return], [Throw]). *)
Theorem fallthrough_fixup (g : State) (N i j : nat) :
  caseStarts g !! N = Some i -> caseStarts g !! S N = Some j ->
  length (buildFunctionBody g) = length (caseStarts g)
  /\ exists c code,
       buildFunctionBody g !! N = Some c
       /\ finalWritten (segment g i j) = Some code
       /\ (endsWithFixup (S N) c
           <-> isAbruptCode code = false /\ isCompletionCode code = false).
Proof.
  intros Hi Hj. split; [apply buildFunctionBody_length|].
  set (n := length (operations g)).
  pose proof (FixupInv_sync g n _ (FixupInv_upTo g n (le_n _))) as Hinv.
  set (a1 := ensureLabels g n (assembleUpTo g n)) in *.
  assert (Hbody : buildFunctionBody g =
                  clauses (if instructionWasCompletion a1 then a1
                           else writeReturn VUndefined a1)) by reflexivity.
  destruct Hinv as [Hlen Hclosed _].
  destruct (Hclosed N i j Hi Hj) as (c & Hc & Hiff).
  pose proof (caseStartsBelow_increasing g _ N i j Hi Hj) as Hij.
  destruct (finalWritten_spec (segment g i j)) as (code & Hcode & Hends).
  { intros Hnil. apply (f_equal length) in Hnil. unfold segment in Hnil.
    rewrite length_take, length_drop in Hnil. simpl in Hnil. fold n in Hnil. lia. }
  exists c, code. split; [|split; [exact Hcode|]].
  - rewrite Hbody. destruct (instructionWasCompletion a1); [exact Hc|].
    rewrite writeReturn_spec, pushStatement_earlier; [exact Hc|].
    simpl. rewrite Hlen. eapply lookup_lt_Some; eauto.
  - rewrite Hiff, <- Hends. unfold endsCase. apply orb_false_iff.
Qed.

Lemma fallthrough_fixup_witness :
  let g := after [DefineLabel; Emit BrTrue [VNumber 2; VNumber 7];
                  Emit Statement [VNumber 8]; MarkLabel 2;
                  Emit Statement [VNumber 9]] in
  caseStarts g !! 0%nat = Some 0%nat /\ caseStarts g !! 1%nat = Some 2%nat
  /\ length (buildFunctionBody g) = length (caseStarts g)
  /\ exists c code,
       buildFunctionBody g !! 0%nat = Some c
       /\ finalWritten (segment g 0 2) = Some code
       /\ (endsWithFixup 1 c
           <-> isAbruptCode code = false /\ isCompletionCode code = false).
Proof.
  cbv zeta. split; [reflexivity|]. split; [reflexivity|].
  apply (fallthrough_fixup
           (after [DefineLabel; Emit BrTrue [VNumber 2; VNumber 7];
                   Emit Statement [VNumber 8]; MarkLabel 2;
                   Emit Statement [VNumber 9]]) 0 0 2); reflexivity.
Defined.

(** ** What one call does to the generator

    The states that the recorder functions leave, written out, and the
    shapes that one call of the handle can take. *)

Definition definedState (g : State) : State :=
  set_labels (array_set (labels g) (nextLabelId g) (-1))
    (set_nextLabelId (nextLabelId g + 1) g).

Definition markedState (l : Z) (g : State) : State :=
  set_labels (array_set (labels g) l (operationCount g)) g.

Definition appendedState (code : OpCode) (args : list Value) (g : State)
  : State :=
  set_operationLocations (operationLocations g ++ [relatedLocation g])
    (set_operationArguments (operationArguments g ++ [args])
       (set_operations (operations g ++ [code]) g)).

Definition begunState (b : BlockScope) (g : State) : State :=
  set_blockStack (length (store g) :: blockStack g)
    (set_blocks (blocks g ++ [Some (length (store g))])
       (set_blockOffsets (blockOffsets g ++ [operationCount g])
          (set_blockActions (blockActions g ++ [Open])
             (set_store (store g ++ [b]) g)))).

Definition endedState (g : State) : State :=
  set_blocks (blocks g ++ [head (blockStack g)])
    (set_blockOffsets (blockOffsets g ++ [operationCount g])
       (set_blockActions (blockActions g ++ [Close])
          (set_blockStack (tail (blockStack g)) g))).

Definition updatedState (r : BlockRef) (f : BlockScope -> BlockScope)
    (g : State) : State :=
  set_store (alter f r (store g)) g.

Lemma defineLabel_run g : defineLabel g = Some (nextLabelId g, definedState g).
Proof. reflexivity. Qed.
Lemma markLabel_run l g : markLabel l g = Some (tt, markedState l g).
Proof. reflexivity. Qed.
Lemma appendOperation_run code args g :
  appendOperation code args g = Some (tt, appendedState code args g).
Proof. reflexivity. Qed.
Lemma beginBlock_run b g :
  beginBlock b g = Some (Z.of_nat (length (blockActions g)), begunState b g).
Proof. reflexivity. Qed.
Lemma endBlock_run g : endBlock g = Some (head (blockStack g), endedState g).
Proof. reflexivity. Qed.
Lemma updateBlock_run r f g : updateBlock r f g = Some (tt, updatedState r f g).
Proof. reflexivity. Qed.

Lemma emit_label_run code l g :
  code <> Statement ->
  emit code [ofLabel l] g = Some (tt, appendedState code [ofLabel l] g).
Proof.
  intros Hc. unfold emit. rewrite bind_run.
  assert (Hw : wrapArguments [ofLabel l] g = Some ([ofLabel l], g))
    by (destruct l; reflexivity).
  rewrite Hw. rewrite bool_decide_eq_false_2 by exact Hc. reflexivity.
Qed.

Lemma emit_nothing_run code g :
  code <> Statement -> emit code [] g = Some (tt, appendedState code [] g).
Proof.
  intros Hc. unfold emit. rewrite bind_run. simpl.
  rewrite bool_decide_eq_false_2 by exact Hc. reflexivity.
Qed.

Lemma emit_text_run text content g :
  emit Statement [VString text; content] g =
    Some (tt, appendedState Statement
                [VNode (GeneratedNode text content (relatedLocation g))] g).
Proof. reflexivity. Qed.

(** The variables that only the symbol table, the locations and the
    operation log touch are left out of [Kept]: a call that satisfies it
    has at most appended operations. *)
Record Kept (g g' : State) : Prop := {
  kept_store : store g' = store g;
  kept_blocks : blocks g' = blocks g;
  kept_blockStack : blockStack g' = blockStack g;
  kept_blockActions : blockActions g' = blockActions g;
  kept_blockOffsets : blockOffsets g' = blockOffsets g;
  kept_hasProtectedRegions : hasProtectedRegions g' = hasProtectedRegions g;
  kept_nextLabelId : nextLabelId g' = nextLabelId g;
  kept_labels : labels g' = labels g;
  kept_labelNumbers : labelNumbers g' = labelNumbers g;
  kept_operations : exists codes, operations g' = operations g ++ codes
}.

Lemma Kept_refl g : Kept g g.
Proof. split; try reflexivity. exists []. rewrite app_nil_r. reflexivity. Qed.

Lemma Kept_trans g1 g2 g3 : Kept g1 g2 -> Kept g2 g3 -> Kept g1 g3.
Proof.
  intros [] []. split; try congruence.
  destruct kept_operations0 as [c1 H1], kept_operations1 as [c2 H2].
  exists (c1 ++ c2). rewrite H2, H1, app_assoc. reflexivity.
Qed.

Lemma Kept_appended code args g : Kept g (appendedState code args g).
Proof. split; try reflexivity. exists [code]. reflexivity. Qed.

Lemma emit_Kept code args g g' :
  emit code args g = Some (tt, g') -> Kept g g'.
Proof.
  intros He.
  destruct (emit_cases code args g) as (args' & _ & [(H & _)|(H & _)]);
    rewrite H in He.
  - injection He as <-. apply Kept_refl.
  - rewrite appendOperation_run in He. injection He as <-. apply Kept_appended.
Qed.

(** Induction on a node of the input tree and on its children. *)
Section NodeInduction.
Variable P : Node -> Prop.
Hypothesis source_case :
  forall k st text children,
    Forall P children -> P (SourceNode k st text children).
Hypothesis generated_case : forall t c l, P (GeneratedNode t c l).
Hypothesis label_case : forall lb l, P (GeneratedLabel lb l).
Hypothesis expression_case : forall e l, P (ExpressionStatement e l).

Fixpoint Node_children_ind (n : Node) : P n :=
  match n with
  | SourceNode k st text children =>
      source_case k st text children
        ((fix all (l : list Node) : Forall P l :=
            match l with
            | [] => List.Forall_nil P
            | x :: r => @List.Forall_cons _ P x r (Node_children_ind x) (all r)
            end) children)
  | GeneratedNode t c l => generated_case t c l
  | GeneratedLabel lb l => label_case lb l
  | ExpressionStatement e l => expression_case e l
  end.
End NodeInduction.

Lemma emitNode_Kept n : forall g g', emitNode n g = Some (tt, g') -> Kept g g'.
Proof.
  induction n as [k st text children IH| | |] using Node_children_ind;
    intros g g' He; simpl in He; try (eapply emit_Kept; eauto; fail).
  destruct (isBlockLike k); [|eapply emit_Kept; eauto].
  revert g He. induction IH as [|c cs Hc _ IHcs]; intros g He.
  - injection He as <-. apply Kept_refl.
  - rewrite bind_run in He.
    destruct (emitNode c g) as [[[] g1]|] eqn:H1; [|discriminate].
    eapply Kept_trans; [apply Hc; exact H1 | apply IHcs; exact He].
Qed.

Definition markedFieldState (l : option Z) (g : State) : State :=
  match l with
  | Some x => markedState x g
  | None => g
  end.

Definition beginExceptionState (g : State) : State :=
  let s := nextLabelId g in
  set_hasProtectedRegions true
    (begunState (exceptionBlock s (s + 1))
       (markedState s (definedState (definedState g)))).

Definition beginCatchState (r : BlockRef) (b : BlockScope) (variable : Value)
    (g : State) : State :=
  let c := nextLabelId g in
  appendedState Statement
    [VNode (GeneratedNode catchAssignText (VObject [("variable", variable)])
              (relatedLocation g))]
    (updatedState r (set_catchLabel (Some c))
       (updatedState r (set_catchVariable (Some variable))
          (updatedState r (set_blockState (Some Catch))
             (markedState c
                (definedState
                   (appendedState OpBreak [ofLabel (endLabel b)] g)))))).

Definition beginFinallyState (r : BlockRef) (b : BlockScope) (g : State)
  : State :=
  let c := nextLabelId g in
  updatedState r (set_finallyLabel (Some c))
    (updatedState r (set_blockState (Some Finally))
       (markedState c
          (definedState (appendedState OpBreak [ofLabel (endLabel b)] g)))).

Definition endExceptionState (r : BlockRef) (b : BlockScope) (g : State)
  : State :=
  updatedState r (set_blockState (Some Done))
    (markedFieldState (endLabel b)
       (if stateBelow (state b) Finally
        then appendedState OpBreak [ofLabel (endLabel b)] (endedState g)
        else appendedState Endfinally [] (endedState g))).

(** [l] is the start label of an exception block. *)
Definition isStartLabel (g : State) (l : Z) : bool :=
  existsb
    (fun b => bool_decide (kind b = Exception) && bool_decide (startLabel b = Some l))
    (store g).

Definition isScriptKind (k : BlockKind) : bool :=
  match k with ScriptBreak | ScriptContinue => true | _ => false end.

Definition isLoopKind (k : BlockKind) : bool :=
  match k with Break | Continue => true | _ => false end.

(** What a call does to an exception block, for the history of a
    recording: [beginCatchBlock] or [beginFinallyBlock] called on the block
    behind [r]. *)
Inductive Footprint : Type :=
| Quiet
| CatchBegun (r : BlockRef)
| FinallyBegun (r : BlockRef).

#[global] Instance Footprint_eq_dec : EqDecision Footprint.
Proof. solve_decision. Defined.

Definition footprint (g : State) (c : Command) : Footprint :=
  match c, head (blockStack g) with
  | BeginCatchBlock _, Some r => CatchBegun r
  | BeginFinallyBlock, Some r => FinallyBegun r
  | _, _ => Quiet
  end.

(** The shapes of one call. With [strict], a label marked by the caller
    is not the start label of an exception block. *)
Inductive Step (strict : bool) (g : State) : Footprint -> State -> Prop :=
| step_kept g' : Kept g g' -> Step strict g Quiet g'
| step_define : Step strict g Quiet (definedState g)
| step_mark l :
    (strict = true -> isStartLabel g l = false) ->
    Step strict g Quiet (markedState l g)
| step_beginScript k text symbol continue :
    isScriptKind k = true ->
    Step strict g Quiet
      (begunState (plainBlock k (Some (-1)) text symbol continue) g)
| step_beginLoop k text continue :
    isLoopKind k = true ->
    Step strict g Quiet
      (begunState (plainBlock k (Some (nextLabelId g)) text None continue)
         (definedState g))
| step_endScript r b :
    head (blockStack g) = Some r -> store g !! r = Some b ->
    isScriptKind (kind b) = true ->
    Step strict g Quiet (endedState g)
| step_endLoop r b :
    head (blockStack g) = Some r -> store g !! r = Some b ->
    isLoopKind (kind b) = true ->
    Step strict g Quiet
      (if positive (breakLabel b)
       then markedFieldState (breakLabel b) (endedState g)
       else endedState g)
| step_beginException : Step strict g Quiet (beginExceptionState g)
| step_beginCatch r b variable :
    head (blockStack g) = Some r -> store g !! r = Some b ->
    kind b = Exception -> stateBelow (state b) Catch = true ->
    Step strict g (CatchBegun r) (beginCatchState r b variable g)
| step_beginFinally r b :
    head (blockStack g) = Some r -> store g !! r = Some b ->
    kind b = Exception -> stateBelow (state b) Finally = true ->
    Step strict g (FinallyBegun r) (beginFinallyState r b g)
| step_endException r b :
    head (blockStack g) = Some r -> store g !! r = Some b ->
    kind b = Exception ->
    Step strict g Quiet (endExceptionState r b g).

(** The discipline of a caller that treats labels as opaque: it never
    marks the start label of an exception block, which no call hands out. *)
Definition allowed (g : State) (c : Command) : bool :=
  match c with
  | MarkLabel l => negb (isStartLabel g l)
  | _ => true
  end.

Lemma bind_inv {A B : Type} (m : M A) (f : A -> M B) g y g' :
  (m ≫= f) g = Some (y, g') ->
  exists x g1, m g = Some (x, g1) /\ f x g1 = Some (y, g').
Proof.
  rewrite bind_run. destruct (m g) as [[x g1]|]; [eauto | discriminate].
Qed.

Lemma assert_inv b g x g' : assert b g = Some (x, g') -> b = true /\ g' = g.
Proof. destruct b; simpl; [|discriminate]. intros H. injection H as _ <-. auto. Qed.

Lemma deref_inv r g ref b g' :
  deref r g = Some ((ref, b), g') ->
  r = Some ref /\ store g !! ref = Some b /\ g' = g.
Proof.
  unfold deref. destruct r as [r0|]; [|discriminate].
  destruct (store g !! r0) eqn:E; [|discriminate].
  intros H. injection H as <- <- <-. auto.
Qed.

Lemma peekBlockKind_inv g k :
  (r ← blockStack g !! 0%nat; b ← store g !! r; Some (kind b)) = Some k ->
  exists r b, head (blockStack g) = Some r /\ store g !! r = Some b /\ kind b = k.
Proof.
  rewrite <- head_lookup. destruct (head (blockStack g)) as [r|]; [|discriminate].
  simpl. destruct (store g !! r) as [b|] eqn:E; [|discriminate]. simpl.
  intros H. injection H as <-. eauto.
Qed.

(** The top of the stack, once a call has checked its kind. *)
Ltac top_block He :=
  apply bind_inv in He as (?k & ?g1 & Hk & He);
  injection Hk as <- <-;
  apply bind_inv in He as ([] & ?g1 & Ha & He);
  apply assert_inv in Ha as [Ha ->];
  apply bool_decide_eq_true in Ha;
  apply peekBlockKind_inv in Ha as (?r & ?b & Hhead & Hstore & Hkind).

Lemma Kept_frame g g' :
  store g' = store g -> blocks g' = blocks g -> blockStack g' = blockStack g ->
  blockActions g' = blockActions g -> blockOffsets g' = blockOffsets g ->
  hasProtectedRegions g' = hasProtectedRegions g ->
  nextLabelId g' = nextLabelId g -> labels g' = labels g ->
  labelNumbers g' = labelNumbers g -> operations g' = operations g ->
  Kept g g'.
Proof.
  intros. split; try assumption. exists []. rewrite app_nil_r. assumption.
Qed.

Lemma declareLocal_Kept name g n g' :
  declareLocal name g = Some (n, g') -> Kept g g'.
Proof.
  unfold declareLocal. destruct (nonEmpty name); intros H;
    injection H as <- <-; apply Kept_frame; reflexivity.
Qed.

Lemma ret_run {A : Type} (x : A) (g : State) : (mret x : M A) g = Some (x, g).
Proof. reflexivity. Qed.

Lemma modify_run f g : modify f g = Some (tt, f g).
Proof. reflexivity. Qed.

Lemma beginExceptionBlock_run g :
  beginExceptionBlock g = Some (nextLabelId g + 1, beginExceptionState g).
Proof.
  unfold beginExceptionBlock.
  rewrite bind_run, defineLabel_run, bind_run, defineLabel_run.
  rewrite bind_run, markLabel_run, bind_run, beginBlock_run.
  rewrite bind_run, modify_run, ret_run. reflexivity.
Qed.

Lemma beginPlain_run k break text symbol continue g :
  (beginBlock (plainBlock k break text symbol continue) ;; mret tt) g
  = Some (tt, begunState (plainBlock k break text symbol continue) g).
Proof. rewrite bind_run, beginBlock_run, ret_run. reflexivity. Qed.

Lemma beginLoop_run k text continue g :
  (breakLabel ← defineLabel;
   beginBlock (plainBlock k (Some breakLabel) text None continue);;
   mret breakLabel) g
  = Some (nextLabelId g,
          begunState (plainBlock k (Some (nextLabelId g)) text None continue)
            (definedState g)).
Proof.
  rewrite bind_run, defineLabel_run, bind_run, beginBlock_run, ret_run.
  reflexivity.
Qed.

Lemma exec_Step strict c g v g' :
  exec c g = Some (v, g') ->
  (strict = true -> allowed g c = true) ->
  Step strict g (footprint g c) g'.
Proof.
  intros He Hallowed.
  assert (Hquiet : forall c', (forall x, c' <> BeginCatchBlock x) ->
                              c' <> BeginFinallyBlock ->
                              footprint g c' = Quiet).
  { intros c' H1 H2. unfold footprint.
    destruct c'; try (destruct (head (blockStack g)); reflexivity).
    - exfalso. eapply H1. reflexivity.
    - contradiction. }
  destruct c; try (rewrite Hquiet by congruence); cbn [exec] in He;
    unfold returnsNothing, returnsLabel, returnsNode in He;
    apply bind_inv in He as (x & g2 & He & Hret);
    injection Hret as <- <-.
  - injection He as <- <-. apply step_kept, Kept_frame; reflexivity.
  - injection He as <- <-. apply step_kept, Kept_frame; reflexivity.
  - apply step_kept. eapply declareLocal_Kept; eauto.
  - rewrite defineLabel_run in He. injection He as <- <-. apply step_define.
  - rewrite markLabel_run in He. injection He as <- <-. apply step_mark.
    intros Hs. specialize (Hallowed Hs). simpl in Hallowed.
    apply negb_true_iff in Hallowed. exact Hallowed.
  - rewrite beginExceptionBlock_run in He. injection He as <- <-.
    apply step_beginException.
  - unfold beginCatchBlock in He. top_block He.
    apply bind_inv in He as (top & g1 & Ht & He). injection Ht as <- <-.
    apply bind_inv in He as ([ref e] & g1 & Hd & He).
    apply deref_inv in Hd as (Href & Hst & ->).
    rewrite <- head_lookup, Hhead in Href. injection Href as <-.
    rewrite Hstore in Hst. injection Hst as <-.
    apply bind_inv in He as ([] & g1 & Ha & He).
    apply assert_inv in Ha as [Ha ->].
    rewrite bind_run, emit_label_run in He by discriminate.
    repeat (rewrite bind_run in He;
            first [rewrite updateBlock_run in He | rewrite markLabel_run in He
                  | rewrite defineLabel_run in He]).
    rewrite emit_text_run in He. injection He as _ Hg2. rewrite <- Hg2.
    unfold footprint. rewrite Hhead.
    eapply (step_beginCatch strict g r b variable); eauto.
  - unfold beginFinallyBlock in He. top_block He.
    apply bind_inv in He as (top & g1 & Ht & He). injection Ht as <- <-.
    apply bind_inv in He as ([ref e] & g1 & Hd & He).
    apply deref_inv in Hd as (Href & Hst & ->).
    rewrite <- head_lookup, Hhead in Href. injection Href as <-.
    rewrite Hstore in Hst. injection Hst as <-.
    apply bind_inv in He as ([] & g1 & Ha & He).
    apply assert_inv in Ha as [Ha ->].
    rewrite bind_run, emit_label_run in He by discriminate.
    repeat (rewrite bind_run in He;
            first [rewrite updateBlock_run in He | rewrite markLabel_run in He
                  | rewrite defineLabel_run in He]).
    rewrite updateBlock_run in He. injection He as _ Hg2. rewrite <- Hg2.
    unfold footprint. rewrite Hhead.
    eapply (step_beginFinally strict g r b); eauto.
  - unfold endExceptionBlock in He. top_block He.
    rewrite bind_run, endBlock_run in He.
    apply bind_inv in He as ([ref e] & g1 & Hd & He).
    apply deref_inv in Hd as (Href & Hst & ->).
    rewrite Hhead in Href. injection Href as <-.
    change (store (endedState g)) with (store g) in Hst.
    rewrite Hstore in Hst. injection Hst as <-.
    replace g2 with (endExceptionState r b g);
      [eapply step_endException; eauto|].
    unfold endExceptionState.
    unfold markLabelField, markedFieldState in *.
    destruct (stateBelow (state b) Finally);
      [rewrite bind_run, emit_label_run in He by discriminate
      |rewrite bind_run, emit_nothing_run in He by discriminate];
      destruct (endLabel b);
      rewrite bind_run, ?markLabel_run, ?ret_run, updateBlock_run in He;
      injection He as _ Hg2; exact Hg2.
  - unfold beginScriptContinueBlock in He.
    change (mkBlock ScriptContinue None None None None None None (Some (-1))
              text None (Some (-1)))
      with (plainBlock ScriptContinue (Some (-1)) text None (Some (-1))) in He.
    rewrite beginPlain_run in He. injection He as <- <-.
    apply step_beginScript. reflexivity.
  - unfold endScriptContinueBlock in He. top_block He.
    rewrite bind_run, endBlock_run, ret_run in He. injection He as _ <-.
    eapply step_endScript; eauto. rewrite Hkind. reflexivity.
  - unfold beginScriptBreakBlock in He.
    change (mkBlock ScriptBreak None None None None None None (Some (-1))
              None text None)
      with (plainBlock ScriptBreak (Some (-1)) None text None) in He.
    rewrite beginPlain_run in He. injection He as <- <-.
    apply step_beginScript. reflexivity.
  - unfold endScriptBreakBlock in He. top_block He.
    rewrite bind_run, endBlock_run, ret_run in He. injection He as _ <-.
    eapply step_endScript; eauto. rewrite Hkind. reflexivity.
  - unfold beginContinueBlock in He.
    rewrite (beginLoop_run Continue text (Some continueLabel0)) in He.
    injection He as <- <-. apply step_beginLoop. reflexivity.
  - unfold endContinueBlock in He. top_block He.
    rewrite bind_run, endBlock_run in He.
    apply bind_inv in He as ([ref e] & g1 & Hd & He).
    apply deref_inv in Hd as (Href & Hst & ->).
    rewrite Hhead in Href. injection Href as <-.
    change (store (endedState g)) with (store g) in Hst.
    rewrite Hstore in Hst. injection Hst as <-.
    replace g2 with (if positive (breakLabel b)
                     then markedFieldState (breakLabel b) (endedState g)
                     else endedState g);
      [eapply step_endLoop; eauto; rewrite Hkind; reflexivity|].
    unfold markLabelField, markedFieldState in *.
    destruct (positive (breakLabel b)); [destruct (breakLabel b)|];
      rewrite ?markLabel_run, ?ret_run in He;
      injection He as _ Hg2; exact Hg2.
  - unfold beginBreakBlock in He.
    rewrite (beginLoop_run Break text None) in He.
    injection He as <- <-. apply step_beginLoop. reflexivity.
  - unfold endBreakBlock in He. top_block He.
    rewrite bind_run, endBlock_run in He.
    apply bind_inv in He as ([ref e] & g1 & Hd & He).
    apply deref_inv in Hd as (Href & Hst & ->).
    rewrite Hhead in Href. injection Href as <-.
    change (store (endedState g)) with (store g) in Hst.
    rewrite Hstore in Hst. injection Hst as <-.
    replace g2 with (if positive (breakLabel b)
                     then markedFieldState (breakLabel b) (endedState g)
                     else endedState g);
      [eapply step_endLoop; eauto; rewrite Hkind; reflexivity|].
    unfold markLabelField, markedFieldState in *.
    destruct (positive (breakLabel b)); [destruct (breakLabel b)|];
      rewrite ?markLabel_run, ?ret_run in He;
      injection He as _ Hg2; exact Hg2.
  - destruct x. apply step_kept. eapply emit_Kept; eauto.
  - destruct x. apply step_kept. eapply emitNode_Kept; eauto.
  - apply step_kept.
    unfold pushLocation in He. rewrite bind_run in He. simpl in He.
    destruct location0; injection He as <- <-; apply Kept_frame; reflexivity.
  - apply step_kept.
    unfold popLocation in He. rewrite bind_run in He. simpl in He.
    rewrite bind_run in He. simpl in He.
    destruct (mjoin (head (locationStack g))); injection He as <- <-;
      apply Kept_frame; reflexivity.
  - apply step_kept.
    destruct location0; injection He as <- <-; apply Kept_frame; reflexivity.
  - apply step_kept. unfold cacheExpression in He.
    apply bind_inv in He as (local & g1 & Hl & He).
    apply declareLocal_Kept in Hl.
    apply bind_inv in He as (st & g3 & Hs & He). injection Hs as <- <-.
    apply bind_inv in He as ([] & g3 & Hem & He). injection He as <- <-.
    eapply Kept_trans; [exact Hl | eapply emit_Kept; eauto].
Qed.

(** ** Sparse arrays: reading after writing *)

Lemma array_get_set_eq {A : Type} (a : list (option A)) (i : Z) (v : A) :
  0 <= i -> array_get (array_set a i v) i = Some v.
Proof.
  intros Hi. unfold array_get, array_set.
  destruct (i <? 0) eqn:Hneg; [apply Z.ltb_lt in Hneg; lia|].
  destruct (Z.to_nat i <? length a)%nat eqn:Hlt.
  - apply Nat.ltb_lt in Hlt. rewrite list_lookup_insert_eq by exact Hlt.
    reflexivity.
  - apply Nat.ltb_ge in Hlt.
    rewrite lookup_app_r by lia.
    rewrite lookup_app_r by (rewrite length_replicate; lia).
    rewrite length_replicate.
    replace (Z.to_nat i - length a - (Z.to_nat i - length a))%nat with 0%nat by lia.
    reflexivity.
Qed.

Lemma array_get_set_ne {A : Type} (a : list (option A)) (i j : Z) (v : A) :
  i <> j -> array_get (array_set a i v) j = array_get a j.
Proof.
  intros Hne. unfold array_get, array_set.
  destruct (j <? 0) eqn:Hj; [reflexivity|]. apply Z.ltb_ge in Hj.
  destruct (i <? 0) eqn:Hi; [reflexivity|]. apply Z.ltb_ge in Hi.
  assert (Hn : Z.to_nat i <> Z.to_nat j) by lia.
  destruct (Z.to_nat i <? length a)%nat eqn:Hlt.
  - rewrite list_lookup_insert_ne by exact Hn. reflexivity.
  - apply Nat.ltb_ge in Hlt.
    destruct (decide (Z.to_nat j < length a)%nat) as [Hin|Hout].
    + rewrite lookup_app_l by exact Hin. reflexivity.
    + rewrite (lookup_ge_None_2 a) by lia.
      rewrite lookup_app_r by lia.
      destruct (decide (Z.to_nat j - length a < Z.to_nat i - length a)%nat)
        as [Hmid|Hbeyond].
      * rewrite lookup_app_l by (rewrite length_replicate; exact Hmid).
        rewrite lookup_replicate_2 by exact Hmid. reflexivity.
      * rewrite lookup_app_r by (rewrite length_replicate; lia).
        rewrite length_replicate.
        rewrite lookup_ge_None_2; [reflexivity|]. simpl. lia.
Qed.

(** ** States that a recording can reach *)

Definition runDisciplined (cs : list Command) (g : State) : option State :=
  fold_left
    (fun acc c => g' ← acc; if allowed g' c then snd <$> exec c g' else None)
    cs (Some g).

(** [DisciplinedRecording cs g]: a recording in which the caller never
    marks the start label of an exception block. *)
Definition DisciplinedRecording (cs : list Command) (g : State) : Prop :=
  runDisciplined cs createCodeGenerator = Some g.

(** The footprints of the calls of a recording, in order. *)
Fixpoint footprints (cs : list Command) (g : State) : list Footprint :=
  match cs with
  | [] => []
  | c :: rest =>
      footprint g c ::
        match exec c g with
        | Some (_, g') => footprints rest g'
        | None => []
        end
  end.

(** The history of a recording: all that happened on the exception blocks
    of a new generator. *)
Definition history (cs : list Command) : list Footprint :=
  footprints cs createCodeGenerator.

Inductive Traced (strict : bool) : list Footprint -> State -> Prop :=
| traced_new : Traced strict [] createCodeGenerator
| traced_step fs g f g' :
    Traced strict fs g -> Step strict g f g' -> Traced strict (fs ++ [f]) g'.

Lemma fold_left_none {A B : Type} (k : A -> B -> option A) (cs : list B) :
  fold_left (fun acc c => x ← acc; k x c) cs None = None.
Proof. induction cs as [|c cs IH]; [reflexivity | exact IH]. Qed.

Lemma run_cons c cs g :
  run (c :: cs) g =
    match exec c g with
    | Some (_, g') => run cs g'
    | None => None
    end.
Proof.
  unfold run. simpl. destruct (exec c g) as [[v g']|]; [reflexivity|].
  simpl. apply fold_left_none.
Qed.

Lemma run_snoc cs c g :
  run (cs ++ [c]) g = g' ← run cs g; snd <$> exec c g'.
Proof. unfold run. rewrite fold_left_app. reflexivity. Qed.

Lemma footprints_snoc cs c g g1 :
  run cs g = Some g1 ->
  footprints (cs ++ [c]) g = footprints cs g ++ [footprint g1 c].
Proof.
  revert g. induction cs as [|c0 cs IH]; intros g H.
  - injection H as <-. simpl. destruct (exec c g) as [[]|]; reflexivity.
  - rewrite run_cons in H. simpl.
    destruct (exec c0 g) as [[v g2]|]; [|discriminate].
    rewrite (IH g2 H). reflexivity.
Qed.

Lemma Recording_Traced cs g : Recording cs g -> Traced false (history cs) g.
Proof.
  unfold Recording, history. revert g.
  induction cs as [|c cs IH] using rev_ind; intros g H.
  - injection H as <-. constructor.
  - rewrite run_snoc in H.
    destruct (run cs createCodeGenerator) as [g1|] eqn:H1; [|discriminate].
    simpl in H. destruct (exec c g1) as [[v g2]|] eqn:He; [|discriminate].
    injection H as <-.
    rewrite (footprints_snoc cs c _ g1 H1).
    eapply traced_step; [apply IH; reflexivity|].
    eapply exec_Step; [exact He | discriminate].
Qed.

Lemma DisciplinedRecording_Recording cs g :
  DisciplinedRecording cs g -> Recording cs g.
Proof.
  unfold DisciplinedRecording, runDisciplined, Recording, run. revert g.
  induction cs as [|c cs IH] using rev_ind; intros g H; [exact H|].
  rewrite fold_left_app in *. simpl in *.
  destruct (fold_left _ cs (Some createCodeGenerator)) as [g1|] eqn:H1;
    [|discriminate].
  rewrite (IH g1 eq_refl). simpl in *.
  destruct (allowed g1 c); [exact H | discriminate].
Qed.

Lemma DisciplinedRecording_Traced cs g :
  DisciplinedRecording cs g -> Traced true (history cs) g.
Proof.
  unfold history. revert g.
  induction cs as [|c cs IH] using rev_ind; intros g H.
  - injection H as <-. constructor.
  - pose proof (DisciplinedRecording_Recording _ _ H) as Hrec.
    unfold DisciplinedRecording, runDisciplined in H.
    rewrite fold_left_app in H. simpl in H.
    destruct (fold_left _ cs (Some createCodeGenerator)) as [g1|] eqn:H1;
      [|discriminate].
    simpl in H. destruct (allowed g1 c) eqn:Hal; [|discriminate].
    destruct (exec c g1) as [[v g2]|] eqn:He; [|discriminate].
    injection H as <-.
    rewrite (footprints_snoc cs c _ g1
               (DisciplinedRecording_Recording cs g1 H1)).
    eapply traced_step; [apply IH; exact H1|].
    eapply exec_Step; [exact He | intros _; exact Hal].
Qed.

Lemma Step_weaken g f g' : Step true g f g' -> Step false g f g'.
Proof.
  intros H. destruct H.
  - apply step_kept; assumption.
  - apply step_define.
  - apply step_mark. discriminate.
  - apply step_beginScript; assumption.
  - apply step_beginLoop; assumption.
  - eapply step_endScript; eassumption.
  - eapply step_endLoop; eassumption.
  - apply step_beginException.
  - eapply step_beginCatch; eassumption.
  - eapply step_beginFinally; eassumption.
  - eapply step_endException; eassumption.
Qed.

Lemma Traced_weaken fs g : Traced true fs g -> Traced false fs g.
Proof.
  induction 1; [constructor|].
  eapply traced_step; eauto using Step_weaken.
Qed.

(** ** Invariants of every recording *)

Definition entryBound (slots : list (option Z)) (count : Z) : Prop :=
  exists k, array_get slots 1 = Some k /\ 0 <= k <= count.

Lemma entryBound_set slots count l v :
  entryBound slots count -> (l = 1 -> 0 <= v <= count) ->
  entryBound (array_set slots l v) count.
Proof.
  intros (k & Hk & Hr) Hv. destruct (decide (l = 1)) as [->|Hne].
  - exists v. split; [apply array_get_set_eq; lia | auto].
  - exists k. split; [rewrite array_get_set_ne by exact Hne; exact Hk | exact Hr].
Qed.

Lemma entryBound_grow slots count count' :
  entryBound slots count -> count <= count' -> entryBound slots count'.
Proof. intros (k & Hk & Hr) Hle. exists k. split; [exact Hk | lia]. Qed.

Definition protectedCovered (g : State) : Prop :=
  hasProtectedRegions g = true ->
  0 < operationCount g
  \/ exists r b, r ∈ blockStack g /\ store g !! r = Some b /\ kind b = Exception.

Record Basic (g : State) : Prop := {
  basic_next : 2 <= nextLabelId g;
  basic_entry : entryBound (labels g) (operationCount g);
  basic_script :
    forall b, b ∈ store g -> isScriptKind (kind b) = true ->
              breakLabel b = Some (-1);
  basic_protected : protectedCovered g
}.

Lemma operationCount_nonneg g : 0 <= operationCount g.
Proof. unfold operationCount. lia. Qed.

Lemma operationCount_appended code args g :
  operationCount (appendedState code args g) = operationCount g + 1.
Proof. unfold operationCount. simpl. rewrite length_app. simpl. lia. Qed.

Lemma Kept_count g g' : Kept g g' -> operationCount g <= operationCount g'.
Proof.
  intros [_ _ _ _ _ _ _ _ _ (codes & H)]. unfold operationCount.
  rewrite H, length_app. lia.
Qed.

Lemma elem_of_alter_kind (f : BlockScope -> BlockScope) r (l : list BlockScope) b :
  (forall x, kind (f x) = kind x /\ breakLabel (f x) = breakLabel x) ->
  b ∈ alter f r l ->
  exists b0, b0 ∈ l /\ kind b = kind b0 /\ breakLabel b = breakLabel b0.
Proof.
  intros Hf Hin. apply list_elem_of_lookup in Hin as (i & Hi).
  destruct (decide (i = r)) as [->|Hne].
  - rewrite list_lookup_alter_eq in Hi.
    destruct (l !! r) as [b0|] eqn:Hr; [|discriminate].
    injection Hi as <-. exists b0. destruct (Hf b0) as [-> ->].
    split; [eapply list_elem_of_lookup_2; eauto | auto].
  - rewrite list_lookup_alter_ne in Hi by congruence.
    exists b. split; [eapply list_elem_of_lookup_2; eauto | auto].
Qed.

Lemma Basic_new : Basic createCodeGenerator.
Proof.
  split.
  - simpl. lia.
  - exists 0. split; [reflexivity | unfold operationCount; simpl; lia].
  - intros b Hb. inversion Hb.
  - intros H. discriminate.
Qed.

Lemma script_store_snoc (l : list BlockScope) b :
  (forall x, x ∈ l -> isScriptKind (kind x) = true -> breakLabel x = Some (-1)) ->
  (isScriptKind (kind b) = true -> breakLabel b = Some (-1)) ->
  forall x, x ∈ l ++ [b] -> isScriptKind (kind x) = true ->
            breakLabel x = Some (-1).
Proof.
  intros Hl Hb x Hx. apply elem_of_app in Hx as [Hx|Hx]; [auto|].
  apply list_elem_of_singleton in Hx. subst. exact Hb.
Qed.

Lemma covered_pop (g : State) r0 b0 :
  head (blockStack g) = Some r0 -> store g !! r0 = Some b0 ->
  kind b0 <> Exception ->
  (exists r b, r ∈ blockStack g /\ store g !! r = Some b /\ kind b = Exception) ->
  exists r b, r ∈ tail (blockStack g) /\ store g !! r = Some b
              /\ kind b = Exception.
Proof.
  intros Hh Hs Hk (r & b & Hr & Hb & Hkb).
  exists r, b. split; [|auto].
  destruct (blockStack g) as [|t rest]; [discriminate|].
  injection Hh as ->. simpl.
  apply elem_of_cons in Hr as [->|Hr]; [|exact Hr].
  rewrite Hs in Hb. injection Hb as <-. contradiction.
Qed.

Lemma covered_grow (g g' : State) :
  protectedCovered g ->
  hasProtectedRegions g' = hasProtectedRegions g ->
  operationCount g <= operationCount g' ->
  (forall r b, store g !! r = Some b -> store g' !! r = Some b) ->
  (forall r, r ∈ blockStack g -> r ∈ blockStack g') ->
  protectedCovered g'.
Proof.
  intros Hc Hp Hn Hs Hst H. rewrite Hp in H.
  destruct (Hc H) as [Hpos|(r & b & H1 & H2 & H3)]; [left; lia|].
  right. exists r, b. auto.
Qed.

Lemma isScriptKind_not_exception k : isScriptKind k = true -> k <> Exception.
Proof. destruct k; discriminate || congruence. Qed.

Lemma isLoopKind_not_exception k : isLoopKind k = true -> k <> Exception.
Proof. destruct k; discriminate || congruence. Qed.

Lemma Basic_step g f g' : Step false g f g' -> Basic g -> Basic g'.
Proof.
  intros Hstep [Hnext Hentry Hscript Hcov].
  pose proof (operationCount_nonneg g) as Hn0.
  destruct Hstep.
  - (* kept *)
    pose proof (Kept_count _ _ H) as Hcount. destruct H. split.
    + congruence.
    + rewrite kept_labels0. eapply entryBound_grow; eauto.
    + rewrite kept_store0. exact Hscript.
    + eapply covered_grow; eauto.
      * intros r b. rewrite kept_store0. auto.
      * intros r. rewrite kept_blockStack0. auto.
  - (* defineLabel *)
    split.
    + simpl. lia.
    + apply entryBound_set; [exact Hentry | lia].
    + exact Hscript.
    + exact Hcov.
  - (* markLabel *)
    split.
    + exact Hnext.
    + apply entryBound_set;
      [exact Hentry | intros _; unfold operationCount in *; simpl; lia].
    + exact Hscript.
    + exact Hcov.
  - (* script block begun *)
    split.
    + exact Hnext.
    + exact Hentry.
    + apply script_store_snoc; [exact Hscript | reflexivity].
    + eapply covered_grow; eauto; try reflexivity; simpl.
      * intros r b Hr. apply lookup_app_l_Some. exact Hr.
      * intros r Hr. apply elem_of_cons. right. exact Hr.
  - (* loop block begun *)
    split.
    + simpl. lia.
    + apply entryBound_set; [exact Hentry | lia].
    + apply script_store_snoc; [exact Hscript|].
      destruct k; discriminate.
    + eapply covered_grow; eauto; try reflexivity; simpl.
      * intros r b Hr. apply lookup_app_l_Some. exact Hr.
      * intros r Hr. apply elem_of_cons. right. exact Hr.
  - (* script block ended *)
    split; try assumption.
    intros Hp. destruct (Hcov Hp) as [Hpos|Hex]; [left; exact Hpos|].
    right. eapply (covered_pop g); eauto using isScriptKind_not_exception.
  - (* loop block ended *)
    assert (Hpop : protectedCovered (endedState g)).
    { intros Hp. destruct (Hcov Hp) as [Hpos|Hex]; [left; exact Hpos|].
      right. eapply (covered_pop g); eauto using isLoopKind_not_exception. }
    destruct (positive (breakLabel b)); [|split; assumption].
    destruct (breakLabel b) as [l|]; [|split; assumption].
    split; try assumption.
    apply entryBound_set;
      [exact Hentry | intros _; unfold operationCount in *; simpl; lia].
  - (* exception block begun *)
    split.
    + simpl. lia.
    + simpl. apply entryBound_set; [|lia].
      apply entryBound_set; [|lia]. apply entryBound_set; [exact Hentry | lia].
    + apply script_store_snoc; [exact Hscript | discriminate].
    + intros _. right. exists (length (store g)), (exceptionBlock (nextLabelId g) (nextLabelId g + 1)).
      split; [left|]. split; [|reflexivity].
      simpl. rewrite lookup_app_r by lia. rewrite Nat.sub_diag. reflexivity.
  - (* catch begun *)
    split.
    + simpl. lia.
    + simpl. unfold operationCount. simpl. rewrite !length_app. simpl.
      apply entryBound_set; [|lia]. apply entryBound_set; [|lia].
      eapply entryBound_grow; [exact Hentry|]. unfold operationCount. lia.
    + intros x Hx. simpl in Hx.
      repeat (apply elem_of_alter_kind in Hx as (? & Hx & -> & ->);
              [|intros; split; reflexivity]).
      apply Hscript, Hx.
    + intros _. left. unfold operationCount. simpl. rewrite !length_app. simpl. lia.
  - (* finally begun *)
    split.
    + simpl. lia.
    + simpl. unfold operationCount. simpl. rewrite !length_app. simpl.
      apply entryBound_set; [|lia]. apply entryBound_set; [|lia].
      eapply entryBound_grow; [exact Hentry|]. unfold operationCount. lia.
    + intros x Hx. simpl in Hx.
      repeat (apply elem_of_alter_kind in Hx as (? & Hx & -> & ->);
              [|intros; split; reflexivity]).
      apply Hscript, Hx.
    + intros _. left. unfold operationCount. simpl. rewrite !length_app. simpl. lia.
  - (* exception block ended *)
    assert (Hops : operationCount (endExceptionState r b g) = operationCount g + 1).
    { unfold endExceptionState, markedFieldState.
      destruct (stateBelow (state b) Finally), (endLabel b);
        unfold operationCount; simpl; rewrite length_app; simpl; lia. }
    split.
    + unfold endExceptionState, markedFieldState.
      destruct (stateBelow (state b) Finally), (endLabel b); exact Hnext.
    + rewrite Hops.
      unfold endExceptionState, markedFieldState.
      destruct (stateBelow (state b) Finally), (endLabel b); simpl;
        try (apply entryBound_set;
             [|intros _; unfold operationCount; simpl; rewrite length_app;
               simpl; lia]);
        (eapply entryBound_grow; [exact Hentry | lia]).
    + intros x Hx.
      assert (Hx' : x ∈ alter (set_blockState (Some Done)) r (store g)).
      { unfold endExceptionState, markedFieldState in Hx.
        destruct (stateBelow (state b) Finally), (endLabel b); exact Hx. }
      apply elem_of_alter_kind in Hx' as (? & Hx' & -> & ->);
        [|intros; split; reflexivity].
      apply Hscript, Hx'.
    + intros _. left. lia.
Qed.

Lemma Traced_Basic fs g : Traced false fs g -> Basic g.
Proof. induction 1; [apply Basic_new | eapply Basic_step; eauto]. Qed.

Lemma Recording_Basic cs g : Recording cs g -> Basic g.
Proof. intros H. eapply Traced_Basic, Recording_Traced, H. Qed.

(** ** Break targets of script blocks *)

Lemma findBreakTargetIn_unlabelled stack query :
  nonEmpty query = false ->
  findBreakTargetIn stack query =
    match List.find supportsBreak stack with
    | Some b => breakLabel b
    | None => Some 0
    end.
Proof.
  intros Hq. induction stack as [|b stack IH]; simpl; [reflexivity|].
  unfold labelMatches. rewrite Hq. simpl. rewrite andb_true_r.
  destruct (supportsBreak b); [reflexivity | exact IH].
Qed.

Lemma liveBlocks_store g b : b ∈ liveBlocks g -> b ∈ store g.
Proof.
  unfold liveBlocks. rewrite list_elem_of_omap. intros (r & _ & Hr).
  eapply list_elem_of_lookup_2; eauto.
Qed.

(** C9. In every recording, when the nearest block of the live stack that
    supports break is a [ScriptBreak] or [ScriptContinue] block, an
    unlabelled [findBreakTarget()] returns the [breakLabel] of that block,
    which is [-1]: neither the not-found result [0] nor a label, all of
    which are at least [1]. *)
Theorem findBreakTarget_script_block (cs : list Command) (g : State)
    (b : BlockScope) (query : option string) :
  Recording cs g ->
  nonEmpty query = false ->
  List.find supportsBreak (liveBlocks g) = Some b ->
  isScriptKind (kind b) = true ->
  findBreakTarget g query = breakLabel b
  /\ breakLabel b = Some (-1)
  /\ findBreakTarget g query <> Some 0
  /\ (forall l, findBreakTarget g query = Some l -> ~ 1 <= l).
Proof.
  intros Hrec Hq Hfind Hkind.
  assert (Hb : breakLabel b = Some (-1)).
  { apply (basic_script g (Recording_Basic cs g Hrec));
      [|exact Hkind].
    apply liveBlocks_store. apply List.find_some in Hfind as [Hin _].
    apply list_elem_of_In. exact Hin. }
  unfold findBreakTarget. rewrite findBreakTargetIn_unlabelled by exact Hq.
  rewrite Hfind, Hb. repeat split; try discriminate.
  intros l Hl. injection Hl as <-. lia.
Qed.

Lemma findBreakTarget_script_block_witness :
  let cs := [BeginBreakBlock None; BeginScriptContinueBlock (Some "top")] in
  let b := plainBlock ScriptContinue (Some (-1)) (Some "top") None (Some (-1)) in
  Recording cs (after cs)
  /\ (findBreakTarget (after cs) None = breakLabel b
      /\ breakLabel b = Some (-1)
      /\ findBreakTarget (after cs) None <> Some 0
      /\ (forall l, findBreakTarget (after cs) None = Some l -> ~ 1 <= l)).
Proof.
  cbv zeta. split; [reflexivity|].
  apply (findBreakTarget_script_block
           [BeginBreakBlock None; BeginScriptContinueBlock (Some "top")]
           (after [BeginBreakBlock None; BeginScriptContinueBlock (Some "top")])
           (plainBlock ScriptContinue (Some (-1)) (Some "top") None (Some (-1)))
           None);
    reflexivity.
Defined.

(** ** The first case *)

Lemma writeOperation_labels g i code args a :
  (clauseLabel <$> clauses (writeOperation g i code args a))
  = (clauseLabel <$> clauses a).
Proof.
  rewrite writeOperation_spec. cbv zeta.
  destruct (writeBlocks_fields g (Z.of_nat i) (drop (blockIndex a) (events g)) a)
    as (_ & _ & _ & _ & _ & Hl).
  destruct (gated _); [exact Hl|].
  match goal with
  | |- context [pushStatement ?x ?y] =>
      destruct (pushStatement_fields x y) as (_&_&_&_&_&_&->)
  end.
  exact Hl.
Qed.

Lemma openCase_labels g i a :
  (clauseLabel <$> clauses (openCase g i a))
  = (clauseLabel <$> clauses a) ++ [caseLabel (length (clauses a)) (location a)].
Proof.
  rewrite openCase_clauses, fmap_app. simpl.
  destruct (pushAll_fields (fixupOf i a) a) as (_&_&_&_&_&_&->). reflexivity.
Qed.

Lemma ensureLabels_labels g i a :
  (clauseLabel <$> clauses (ensureLabels g i a))
  = (clauseLabel <$> clauses a)
    ++ (if labelMarkedAt g i
        then [caseLabel (length (clauses a)) (location a)] else []).
Proof.
  destruct (labelMarkedAt g i) eqn:Hm.
  - rewrite ensureLabels_marked by exact Hm. rewrite openCase_labels.
    reflexivity.
  - rewrite ensureLabels_unmarked by exact Hm. rewrite app_nil_r. reflexivity.
Qed.

Definition Numbered (labels : list Node) : Prop :=
  forall N lab, labels !! N = Some lab -> exists l, lab = caseLabel N l.

Lemma Numbered_snoc labels l :
  Numbered labels -> Numbered (labels ++ [caseLabel (length labels) l]).
Proof.
  intros H N lab HN. apply lookup_snoc_Some in HN as [[_ HN]|[<- <-]]; eauto.
Qed.

Lemma Numbered_ensureLabels g i a :
  Numbered (clauseLabel <$> clauses a) ->
  Numbered (clauseLabel <$> clauses (ensureLabels g i a)).
Proof.
  intros H. rewrite ensureLabels_labels.
  destruct (labelMarkedAt g i); [|rewrite app_nil_r; exact H].
  replace (length (clauses a)) with (length (clauseLabel <$> clauses a))
    by apply length_fmap.
  apply Numbered_snoc, H.
Qed.

Lemma Numbered_upTo g k : Numbered (clauseLabel <$> clauses (assembleUpTo g k)).
Proof.
  induction k as [|k IH].
  - intros N lab H. discriminate.
  - rewrite assembleUpTo_S. unfold assembleOperation.
    destruct (operations g !! k); [|exact IH].
    cbv zeta. rewrite writeOperation_labels.
    apply Numbered_ensureLabels. exact IH.
Qed.

(** Every clause of the assembled body carries its own position as its
    case number. *)
Lemma buildFunctionBody_numbered g N c :
  buildFunctionBody g !! N = Some c -> exists l, clauseLabel c = caseLabel N l.
Proof.
  intros H.
  assert (Hn : Numbered (clauseLabel <$> buildFunctionBody g)).
  { unfold buildFunctionBody, assemble. cbv zeta.
    pose proof (Numbered_ensureLabels g (length (operations g)) _
                  (Numbered_upTo g (length (operations g)))) as Hn.
    destruct (instructionWasCompletion _); [exact Hn|].
    rewrite writeReturn_spec.
    match goal with
    | |- context [pushStatement ?x ?y] =>
        destruct (pushStatement_fields x y) as (_&_&_&_&_&_&->)
    end.
    exact Hn. }
  apply (Hn N). rewrite list_lookup_fmap, H. reflexivity.
Qed.

Lemma entry_marked g :
  Basic g ->
  exists i, (i <= length (operations g))%nat /\ labelMarkedAt g i = true.
Proof.
  intros [_ (k & Hk & Hr) _ _]. exists (Z.to_nat k).
  unfold operationCount in Hr. split; [lia|].
  unfold labelMarkedAt. apply existsb_exists. exists (Some k).
  split.
  - unfold array_get in Hk. simpl in Hk.
    destruct (labels g !! Z.to_nat 1) as [slot|] eqn:Hs; [|discriminate].
    simpl in Hk. subst slot. apply list_elem_of_In.
    eapply list_elem_of_lookup_2; eauto.
  - apply bool_decide_eq_true. f_equal. lia.
Qed.

(** C10. The factory binds the entry label [1] to operation index [0].
    Whatever is recorded afterwards, the assembled body has at least one
    clause, and its first clause is [case 0]. *)
Theorem first_case_is_zero (cs : list Command) (g : State) :
  Recording cs g ->
  array_get (labels createCodeGenerator) 1 = Some 0
  /\ exists c rest l,
       buildFunctionBody g = c :: rest /\ clauseLabel c = caseLabel 0 l.
Proof.
  intros Hrec. split; [reflexivity|].
  pose proof (Recording_Basic cs g Hrec) as Hb.
  destruct (entry_marked g Hb) as (i & Hi & Hm).
  assert (Hin : i ∈ caseStarts g).
  { unfold caseStarts, caseStartsBelow.
    rewrite list_elem_of_In, List.filter_In, in_seq. split; [lia | exact Hm]. }
  pose proof (buildFunctionBody_length g) as Hlen.
  destruct (buildFunctionBody g) as [|c rest] eqn:Hbody.
  - destruct (caseStarts g); [inversion Hin | discriminate].
  - destruct (buildFunctionBody_numbered g 0 c) as (l & Hl).
    { rewrite Hbody. reflexivity. }
    exists c, rest, l. auto.
Qed.

Lemma first_case_is_zero_witness :
  Recording [] createCodeGenerator
  /\ array_get (labels createCodeGenerator) 1 = Some 0
  /\ exists c rest l,
       buildFunctionBody createCodeGenerator = c :: rest
       /\ clauseLabel c = caseLabel 0 l.
Proof.
  split; [reflexivity|].
  apply (first_case_is_zero [] createCodeGenerator). reflexivity.
Defined.

(** ** Protected regions: the statements that the pass writes *)

(** Every statement written so far, in the order of writing. *)
Definition allNodes (a : Assembler) : list Node :=
  statements a ++ concat (clauseStatements <$> clauses a).

Lemma allNodes_pushStatement n a : allNodes (pushStatement n a) = allNodes a ++ [n].
Proof.
  unfold allNodes.
  destruct (clauses_snoc_or_nil a) as [H|(cs & c & H)].
  - unfold pushStatement. rewrite H. simpl. rewrite H. simpl.
    rewrite !app_nil_r. reflexivity.
  - rewrite (pushStatement_snoc n a cs c H), H.
    replace (statements (pushStatement n a)) with (statements a)
      by (unfold pushStatement; rewrite H, reverse_snoc; reflexivity).
    rewrite !fmap_app, !concat_app. simpl. rewrite !app_nil_r, !app_assoc.
    reflexivity.
Qed.

Lemma allNodes_pushAll ns a : allNodes (pushAll ns a) = allNodes a ++ ns.
Proof.
  revert a. induction ns as [|n ns IH]; intros a; simpl.
  - rewrite app_nil_r. reflexivity.
  - unfold pushAll in *. rewrite IH, allNodes_pushStatement, <- app_assoc.
    reflexivity.
Qed.

Lemma allNodes_openCase g i a :
  allNodes (openCase g i a) = allNodes a ++ fixupOf i a ++ initOf g a.
Proof.
  unfold openCase. cbv zeta. fold (fixupOf i a). fold (initOf g a).
  rewrite allNodes_pushAll. unfold allNodes at 1. simpl.
  rewrite fmap_app, concat_app. simpl. rewrite !app_nil_r.
  fold (allNodes (pushAll (fixupOf i a) a)).
  rewrite allNodes_pushAll, app_assoc. reflexivity.
Qed.

Definition operationNodes (g : State) (i : nat) (code : OpCode)
    (args : list Value) (a : Assembler) : list Node :=
  concat (eventNodes g (location a)
            <$> dueEvents (Z.of_nat i) (drop (blockIndex a) (events g)))
  ++ (if gated a then [] else [operationNode code args (location a)]).

Lemma allNodes_writeOperation g i code args a :
  allNodes (writeOperation g i code args a)
  = allNodes a ++ operationNodes g i code args a.
Proof.
  rewrite writeOperation_spec. cbv zeta. unfold operationNodes.
  rewrite gated_writeBlocks.
  destruct (writeBlocks_fields g (Z.of_nat i) (drop (blockIndex a) (events g)) a)
    as (_ & _ & _ & Hloc & _).
  rewrite Hloc. rewrite writeBlocks_spec.
  set (ns := concat _).
  assert (H : allNodes (set_blockIndex
                          (blockIndex a + length (dueEvents (Z.of_nat i)
                             (drop (blockIndex a) (events g))))%nat
                          (pushAll ns a)) = allNodes a ++ ns)
    by apply allNodes_pushAll.
  destruct (gated a).
  - rewrite H, app_nil_r. reflexivity.
  - rewrite allNodes_pushStatement.
    change (allNodes (setFlags code ?x)) with (allNodes x).
    rewrite H, app_assoc. reflexivity.
Qed.

(** [isPushFor s n]: the statement [n] registers the protected region
    whose start label is [s]. *)
Definition startSlotIs (s : Z) (content : Value) : bool :=
  match content with
  | VObject ((key, VNode (GeneratedLabel (VNumber s') _)) :: _) =>
      String.eqb key "startLabel" && (s' =? s)
  | _ => false
  end.

Definition isPushFor (s : Z) (n : Node) : bool :=
  match n with
  | GeneratedNode text content _ =>
      String.eqb text trysPushText && startSlotIs s content
  | _ => false
  end.

Definition countPushes (s : Z) (ns : list Node) : nat :=
  length (List.filter (isPushFor s) ns).

Lemma countPushes_app s l1 l2 :
  countPushes s (l1 ++ l2) = (countPushes s l1 + countPushes s l2)%nat.
Proof. unfold countPushes. rewrite List.filter_app, length_app. reflexivity. Qed.

(** A [Statement] payload that is itself a [__state.trys.push] fragment. *)
Definition forged (v : Value) : bool :=
  match v with
  | VNode (GeneratedNode text _ _) => String.eqb text trysPushText
  | _ => false
  end.

(** No recorded [Statement] carries such a payload. *)
Definition noForgedPush (g : State) : bool :=
  forallb
    (fun i =>
       match operations g !! i with
       | Some Statement =>
           negb (forged (argument (default [] (operationArguments g !! i)) 0))
       | _ => true
       end)
    (seq 0 (length (operations g))).

Lemma isPushFor_operationNode s code args l :
  (code = Statement -> forged (argument args 0) = false) ->
  isPushFor s (operationNode code args l) = false.
Proof.
  intros Hf. destruct code; simpl; try reflexivity.
  - specialize (Hf eq_refl). unfold asStatement.
    destruct (argument args 0) as [| | | | |n| |]; try reflexivity.
    destruct n as [k st t ch|t c lo|lb lo|e lo]; simpl; try reflexivity.
    + destruct st; reflexivity.
    + simpl in Hf. rewrite Hf. reflexivity.
  - unfold inlineYield. destruct (truthy (argument args 0)); reflexivity.
  - unfold inlineReturn. destruct (truthy (argument args 0)); reflexivity.
Qed.

(** The event opens the exception block whose start label is [s]. *)
Definition opensRegion (g : State) (s : Z)
    (event : BlockAction * Z * option BlockRef) : bool :=
  match event with
  | (Open, _, Some r) =>
      match store g !! r with
      | Some b =>
          bool_decide (kind b = Exception) && bool_decide (startLabel b = Some s)
      | None => false
      end
  | _ => false
  end.

Definition openCount (g : State) (s : Z)
    (evs : list (BlockAction * Z * option BlockRef)) : nat :=
  length (List.filter (opensRegion g s) evs).

Lemma isPushFor_trysPushAt s l b :
  isPushFor s (trysPushAt l b) = bool_decide (startLabel b = Some s).
Proof.
  unfold trysPushAt, trysPush, generated, labelNode, ofLabel. simpl.
  destruct (startLabel b) as [s'|]; simpl.
  - destruct (Z.eqb_spec s' s) as [->|Hne].
    + symmetry. apply bool_decide_eq_true_2. reflexivity.
    + symmetry. apply bool_decide_eq_false_2. congruence.
  - reflexivity.
Qed.

Lemma countPushes_eventNode g s l ev :
  countPushes s (eventNodes g l ev) = if opensRegion g s ev then 1%nat else 0%nat.
Proof.
  destruct ev as [[action offset] block]. unfold eventNodes, opensRegion.
  destruct action, block as [r|]; try reflexivity.
  destruct (store g !! r) as [b|]; try reflexivity.
  destruct (bool_decide (kind b = Exception)); try reflexivity.
  unfold countPushes. cbn [List.filter andb]. rewrite isPushFor_trysPushAt.
  destruct (bool_decide (startLabel b = Some s)); reflexivity.
Qed.

Lemma countPushes_eventNodes g s l evs :
  countPushes s (concat (eventNodes g l <$> evs)) = openCount g s evs.
Proof.
  induction evs as [|ev evs IH]; [reflexivity|].
  change (concat (eventNodes g l <$> ev :: evs))
    with (eventNodes g l ev ++ concat (eventNodes g l <$> evs)).
  rewrite countPushes_app, IH, countPushes_eventNode.
  unfold openCount. cbn [List.filter].
  destruct (opensRegion g s ev); reflexivity.
Qed.

Lemma countPushes_fixupOf s i a : countPushes s (fixupOf i a) = 0%nat.
Proof. unfold fixupOf. destruct (_ && _); reflexivity. Qed.

Lemma countPushes_initOf s g a : countPushes s (initOf g a) = 0%nat.
Proof. unfold initOf. destruct (_ && _); reflexivity. Qed.

(** *** The cursor over the event log *)

Lemma dueEvents_take i evs :
  dueEvents i evs = take (length (dueEvents i evs)) evs.
Proof.
  induction evs as [|[[action offset] block] evs IH]; [reflexivity|].
  simpl. destruct (offset <=? i); [|reflexivity].
  simpl. rewrite <- IH. reflexivity.
Qed.

Lemma dueEvents_split i j evs :
  i <= j ->
  dueEvents j evs =
    dueEvents i evs ++ dueEvents j (drop (length (dueEvents i evs)) evs).
Proof.
  intros Hij. induction evs as [|[[action offset] block] evs IH]; [reflexivity|].
  simpl. destruct (offset <=? i) eqn:Hi.
  - assert (Hj : (offset <=? j) = true) by (apply Z.leb_le; apply Z.leb_le in Hi; lia).
    rewrite Hj. simpl. rewrite <- IH. reflexivity.
  - simpl. reflexivity.
Qed.

(** An event is due once every event up to it has an offset that the
    pass has reached. *)
Lemma dueEvents_reaches i evs pos :
  (pos < length evs)%nat ->
  (forall p ev, (p <= pos)%nat -> evs !! p = Some ev -> ev.1.2 <= i) ->
  (pos < length (dueEvents i evs))%nat.
Proof.
  revert pos. induction evs as [|[[action offset] block] evs IH]; intros pos Hlen Hall.
  - simpl in Hlen. lia.
  - simpl. assert (Ho : (offset <=? i) = true).
    { apply Z.leb_le. apply (Hall 0%nat (action, offset, block)); [lia | reflexivity]. }
    rewrite Ho. simpl. destruct pos as [|pos]; [lia|].
    apply -> Nat.succ_lt_mono. apply IH; [simpl in Hlen; lia|].
    intros p ev Hp Hev. apply (Hall (S p) ev); [lia | exact Hev].
Qed.

Lemma dueEvents_offsets i evs pos ev :
  dueEvents i evs !! pos = Some ev -> ev.1.2 <= i.
Proof.
  revert pos. induction evs as [|[[action offset] block] evs IH]; intros pos H.
  - discriminate.
  - simpl in H. destruct (offset <=? i) eqn:Ho; [|discriminate].
    destruct pos as [|pos]; [|eapply IH; eauto].
    injection H as <-. simpl. apply Z.leb_le, Ho.
Qed.

Lemma blockIndex_ensureLabels g i a :
  blockIndex (ensureLabels g i a) = blockIndex a.
Proof.
  destruct (labelMarkedAt g i) eqn:Hm.
  - rewrite ensureLabels_marked by exact Hm.
    match goal with
    | |- context [openCase g i ?x] =>
        destruct (openCase_fields g i x) as (_ & _ & _ & _ & ->)
    end.
    reflexivity.
  - rewrite ensureLabels_unmarked by exact Hm. reflexivity.
Qed.

Lemma blockIndex_writeOperation g i code args a :
  blockIndex (writeOperation g i code args a)
  = (blockIndex a
     + length (dueEvents (Z.of_nat i) (drop (blockIndex a) (events g))))%nat.
Proof.
  rewrite writeOperation_spec. cbv zeta. rewrite writeBlocks_spec.
  set (ns := concat _).
  destruct (gated _); simpl.
  - reflexivity.
  - match goal with
    | |- context [pushStatement ?x ?y] =>
        destruct (pushStatement_fields x y) as (-> & _)
    end.
    reflexivity.
Qed.

Lemma blockIndex_upTo g k :
  (k <= length (operations g))%nat ->
  (forall ev, ev ∈ events g -> 0 <= ev.1.2) ->
  blockIndex (assembleUpTo g k)
  = length (dueEvents (Z.of_nat k - 1) (events g)).
Proof.
  intros Hk Hpos. induction k as [|k IH].
  - simpl. destruct (events g) as [|[[action offset] block] evs] eqn:He;
      [reflexivity|].
    simpl. assert (0 <= offset) by (apply (Hpos (action, offset, block)); left).
    change (Z.of_nat 0 - 1) with (-1).
    destruct (offset <=? -1) eqn:Ho; [apply Z.leb_le in Ho; lia | reflexivity].
  - rewrite assembleUpTo_S. unfold assembleOperation.
    destruct (operations g !! k) eqn:Hop.
    2:{ apply lookup_ge_None in Hop. lia. }
    cbv zeta. rewrite blockIndex_writeOperation, blockIndex_ensureLabels.
    change (blockIndex (set_location _ ?x)) with (blockIndex x).
    rewrite IH by lia.
    replace (Z.of_nat (S k) - 1) with (Z.of_nat k) by lia.
    rewrite (dueEvents_split (Z.of_nat k - 1) (Z.of_nat k) (events g)) by lia.
    rewrite length_app. reflexivity.
Qed.

(** *** Counting the registrations *)

Lemma countPushes_ensureLabels g s i a :
  countPushes s (allNodes (ensureLabels g i a)) = countPushes s (allNodes a).
Proof.
  destruct (labelMarkedAt g i) eqn:Hm.
  - rewrite ensureLabels_marked by exact Hm.
    rewrite allNodes_openCase, !countPushes_app.
    rewrite countPushes_fixupOf, countPushes_initOf.
    change (allNodes (set_numbers _ a)) with (allNodes a). lia.
  - rewrite ensureLabels_unmarked by exact Hm. reflexivity.
Qed.

Definition CountInv (g : State) (s : Z) (a : Assembler) : Prop :=
  countPushes s (allNodes a) = openCount g s (take (blockIndex a) (events g)).

Lemma openCount_app g s l1 l2 :
  openCount g s (l1 ++ l2) = (openCount g s l1 + openCount g s l2)%nat.
Proof. unfold openCount. rewrite List.filter_app, length_app. reflexivity. Qed.

Lemma noForgedPush_at g i args :
  noForgedPush g = true ->
  operations g !! i = Some Statement ->
  args = default [] (operationArguments g !! i) ->
  forged (argument args 0) = false.
Proof.
  intros Hf Hop ->. unfold noForgedPush in Hf. rewrite forallb_forall in Hf.
  specialize (Hf i). rewrite Hop in Hf.
  apply negb_true_iff, Hf, in_seq.
  apply lookup_lt_Some in Hop. lia.
Qed.

Lemma CountInv_upTo g s k :
  noForgedPush g = true -> CountInv g s (assembleUpTo g k).
Proof.
  intros Hf. induction k as [|k IH]; [reflexivity|].
  rewrite assembleUpTo_S. unfold assembleOperation.
  destruct (operations g !! k) as [code|] eqn:Hop; [|exact IH].
  cbv zeta. unfold CountInv in *.
  rewrite allNodes_writeOperation, countPushes_app, countPushes_ensureLabels.
  change (allNodes (set_location _ ?x)) with (allNodes x). rewrite IH.
  rewrite blockIndex_writeOperation, blockIndex_ensureLabels.
  change (blockIndex (set_location _ ?x)) with (blockIndex x).
  rewrite <- take_take_drop, openCount_app.
  rewrite <- dueEvents_take. f_equal.
  unfold operationNodes. rewrite countPushes_app, countPushes_eventNodes.
  rewrite blockIndex_ensureLabels.
  change (blockIndex (set_location _ ?x)) with (blockIndex x).
  match goal with
  | |- (_ + countPushes s (if ?c then _ else _))%nat = _ => destruct c
  end.
  - change (countPushes s []) with 0%nat. apply Nat.add_0_r.
  - unfold countPushes. cbn [List.filter].
    rewrite isPushFor_operationNode; [apply Nat.add_0_r|].
    intros ->. eapply noForgedPush_at; eauto.
Qed.

(** *** Where a statement lands *)

(** Clause [c] exists and holds the statement [n]. *)
Definition Holds (a : Assembler) (c : nat) (n : Node) : Prop :=
  exists cl, clauses a !! c = Some cl /\ n ∈ clauseStatements cl.

Lemma Holds_pushStatement m a c n : Holds a c n -> Holds (pushStatement m a) c n.
Proof.
  intros (cl & Hc & Hn).
  destruct (clauses_snoc_or_nil a) as [H|(cs & c0 & H)].
  - rewrite H in Hc. discriminate.
  - unfold Holds. rewrite (pushStatement_snoc m a cs c0 H). rewrite H in Hc.
    apply lookup_snoc_Some in Hc as [[Hlt Hc]|[Hc1 Hc2]].
    + exists cl. split; [|exact Hn]. apply lookup_app_l_Some. exact Hc.
    + subst c c0. eexists. split; [apply list_lookup_middle; reflexivity|].
      simpl. apply elem_of_app. left. exact Hn.
Qed.

Lemma Holds_pushAll ns a c n : Holds a c n -> Holds (pushAll ns a) c n.
Proof.
  revert a. induction ns as [|m ns IH]; intros a H; [exact H|].
  apply IH, Holds_pushStatement, H.
Qed.

Lemma Holds_openCase g i a c n : Holds a c n -> Holds (openCase g i a) c n.
Proof.
  intros H. apply (Holds_pushAll (fixupOf i a)) in H as (cl & Hc & Hn).
  exists cl. split; [|exact Hn].
  rewrite openCase_clauses. apply lookup_app_l_Some. exact Hc.
Qed.

Lemma Holds_ensureLabels g i a c n :
  Holds a c n -> Holds (ensureLabels g i a) c n.
Proof.
  intros H. destruct (labelMarkedAt g i) eqn:Hm.
  - rewrite ensureLabels_marked by exact Hm. apply Holds_openCase. exact H.
  - rewrite ensureLabels_unmarked by exact Hm. exact H.
Qed.

Lemma Holds_writeOperation g i code args a c n :
  Holds a c n -> Holds (writeOperation g i code args a) c n.
Proof.
  intros H. rewrite writeOperation_spec. cbv zeta. rewrite writeBlocks_spec.
  set (ns := concat _).
  assert (H1 : Holds (set_blockIndex
                        (blockIndex a + length (dueEvents (Z.of_nat i)
                           (drop (blockIndex a) (events g))))%nat
                        (pushAll ns a)) c n)
    by (apply (Holds_pushAll ns) in H; exact H).
  destruct (gated _); [exact H1|].
  apply Holds_pushStatement. exact H1.
Qed.

Lemma Holds_current a n :
  clauses a <> [] -> n ∈ currentStatements a ->
  Holds a (length (clauses a) - 1) n.
Proof.
  intros Hne Hn.
  destruct (clauses_snoc_or_nil a) as [H|(cs & c0 & H)]; [contradiction|].
  rewrite (currentStatements_snoc _ _ _ H) in Hn. exists c0.
  split; [|exact Hn]. rewrite H, length_app. simpl.
  replace (length cs + 1 - 1)%nat with (length cs) by lia.
  apply list_lookup_middle. reflexivity.
Qed.

Lemma currentStatements_writeOperation g i code args a :
  currentStatements (writeOperation g i code args a)
  = currentStatements a ++ operationNodes g i code args a.
Proof.
  rewrite writeOperation_spec. cbv zeta. unfold operationNodes.
  rewrite gated_writeBlocks.
  destruct (writeBlocks_fields g (Z.of_nat i) (drop (blockIndex a) (events g)) a)
    as (_ & _ & _ & Hloc & _).
  rewrite Hloc. rewrite writeBlocks_spec.
  set (ns := concat _).
  assert (H : currentStatements
                (set_blockIndex
                   (blockIndex a + length (dueEvents (Z.of_nat i)
                      (drop (blockIndex a) (events g))))%nat
                   (pushAll ns a)) = currentStatements a ++ ns)
    by apply pushAll_current.
  destruct (gated a).
  - rewrite H, app_nil_r. reflexivity.
  - rewrite pushStatement_current.
    change (currentStatements (setFlags code ?x)) with (currentStatements x).
    rewrite H, app_assoc. reflexivity.
Qed.

(** *** The case number of a label *)

Lemma bindLabels_get slots label i c ns s :
  0 <= label ->
  array_get (fst (bindLabels slots label i c ns)) s =
    if bool_decide (label <= s /\ slots !! Z.to_nat (s - label) = Some (Some i))
    then Some c else array_get ns s.
Proof.
  revert label ns. induction slots as [|slot slots IH]; intros label ns Hl.
  - simpl. rewrite bool_decide_eq_false_2; [reflexivity|]. intros [_ H].
    discriminate.
  - simpl.
    assert (Hshift : forall x,
              label + 1 <= s ->
              (slot :: slots) !! Z.to_nat (s - label) = x
              <-> slots !! Z.to_nat (s - (label + 1)) = x).
    { intros x Hs. replace (Z.to_nat (s - label)) with (S (Z.to_nat (s - (label + 1))))
        by lia. reflexivity. }
    destruct (bool_decide (slot = Some i)) eqn:Hslot.
    + apply bool_decide_eq_true in Hslot. subst slot.
      pose proof (IH (label + 1) (array_set ns label c) ltac:(lia)) as IH'.
      destruct (bindLabels slots (label + 1) i c (array_set ns label c))
        as [ns' cc].
      simpl in *. rewrite IH'.
      destruct (decide (s = label)) as [->|Hne].
      * rewrite bool_decide_eq_false_2 by lia.
        rewrite array_get_set_eq by exact Hl.
        rewrite bool_decide_eq_true_2; [reflexivity|].
        split; [lia|]. rewrite Z.sub_diag. reflexivity.
      * rewrite array_get_set_ne by congruence.
        destruct (decide (label + 1 <= s)) as [Hs|Hs].
        -- match goal with
           | |- (if bool_decide ?A then _ else _)
                = (if bool_decide ?B then _ else _) =>
               rewrite (bool_decide_ext A B); [reflexivity|]
           end.
           rewrite (Hshift _ Hs). intuition lia.
        -- rewrite !bool_decide_eq_false_2 by lia. reflexivity.
    + apply bool_decide_eq_false in Hslot.
      rewrite (IH (label + 1) ns) by lia.
      destruct (decide (s = label)) as [->|Hne].
      * rewrite !bool_decide_eq_false_2; [reflexivity| |lia].
        intros [_ H]. rewrite Z.sub_diag in H. simpl in H. congruence.
      * destruct (decide (label + 1 <= s)) as [Hs|Hs].
        -- match goal with
           | |- (if bool_decide ?A then _ else _)
                = (if bool_decide ?B then _ else _) =>
               rewrite (bool_decide_ext A B); [reflexivity|]
           end.
           rewrite (Hshift _ Hs). intuition lia.
        -- rewrite !bool_decide_eq_false_2 by lia. reflexivity.
Qed.

Lemma array_get_Some {A : Type} (a : list (option A)) (i : Z) (v : A) :
  array_get a i = Some v <-> 0 <= i /\ a !! Z.to_nat i = Some (Some v).
Proof.
  unfold array_get. destruct (i <? 0) eqn:Hi.
  - apply Z.ltb_lt in Hi. split; [discriminate | lia].
  - apply Z.ltb_ge in Hi. destruct (a !! Z.to_nat i) as [[x|]|]; simpl;
      split; try (intros [_ H]); try intros H; try discriminate;
      try (injection H as <-); auto.
Qed.

Lemma labelMarkedAt_bound g s (k : nat) :
  array_get (labels g) s = Some (Z.of_nat k) -> labelMarkedAt g k = true.
Proof.
  intros H. apply array_get_Some in H as [_ H].
  unfold labelMarkedAt. apply existsb_exists. exists (Some (Z.of_nat k)).
  split; [|apply bool_decide_eq_true; reflexivity].
  apply list_elem_of_In. eapply list_elem_of_lookup_2; eauto.
Qed.

Lemma numbers_ensureLabels g i a s :
  array_get (numbers (ensureLabels g i a)) s =
    if bool_decide (array_get (labels g) s = Some (Z.of_nat i))
    then Some (Z.of_nat (length (clauses a)))
    else array_get (numbers a) s.
Proof.
  destruct (labelMarkedAt g i) eqn:Hm.
  - rewrite ensureLabels_marked by exact Hm.
    match goal with
    | |- context [openCase g i ?x] =>
        destruct (openCase_fields g i x) as (_ & _ & -> & _)
    end.
    simpl. rewrite bindLabels_get by lia.
    match goal with
    | |- (if bool_decide ?A then _ else _)
         = (if bool_decide ?B then _ else _) =>
        rewrite (bool_decide_ext A B); [reflexivity|]
    end.
    rewrite array_get_Some. replace (s - 0) with s by lia. intuition lia.
  - rewrite ensureLabels_unmarked by exact Hm.
    rewrite bool_decide_eq_false_2; [reflexivity|].
    intros H. apply labelMarkedAt_bound in H. congruence.
Qed.

Lemma numbers_writeOperation g i code args a :
  numbers (writeOperation g i code args a) = numbers a.
Proof.
  rewrite writeOperation_spec. cbv zeta.
  destruct (writeBlocks_fields g (Z.of_nat i) (drop (blockIndex a) (events g)) a)
    as (_ & _ & Hn & _).
  destruct (gated _); [exact Hn|].
  match goal with
  | |- context [pushStatement ?x ?y] =>
      destruct (pushStatement_fields x y) as (_&_&_&->&_)
  end.
  exact Hn.
Qed.

Lemma filter_unique {A : Type} (P : A -> bool) (l : list A) (pos : nat) (x : A) :
  l !! pos = Some x -> P x = true ->
  (forall pos' y, l !! pos' = Some y -> P y = true -> pos' = pos) ->
  length (List.filter P l) = 1%nat.
Proof.
  revert pos. induction l as [|y l IH]; intros pos Hx HP Huniq; [discriminate|].
  simpl. destruct pos as [|pos].
  - injection Hx as ->. rewrite HP. simpl. f_equal.
    assert (Hnone : List.filter P l = []).
    { clear HP IH. induction l as [|z l IHl]; [reflexivity|]. simpl.
      destruct (P z) eqn:Hz.
      - specialize (Huniq 1%nat z eq_refl Hz). discriminate.
      - apply IHl.
        + intros pos' y0 Hy0 HPy0.
          destruct pos' as [|pos']; [reflexivity|].
          specialize (Huniq (S (S pos')) y0 Hy0 HPy0). discriminate. }
    rewrite Hnone. reflexivity.
  - destruct (P y) eqn:Hy.
    + specialize (Huniq 0%nat y eq_refl Hy). discriminate.
    + apply (IH pos Hx HP). intros pos' y0 Hy0 HPy0.
      specialize (Huniq (S pos') y0 Hy0 HPy0). lia.
Qed.

Lemma Holds_counted a c n s :
  Holds a c n -> isPushFor s n = true ->
  (1 <= countPushes s (concat (clauseStatements <$> clauses a)))%nat.
Proof.
  intros (cl & Hc & Hn) Hp.
  assert (Hin : In n (List.filter (isPushFor s)
                        (concat (clauseStatements <$> clauses a)))).
  { apply List.filter_In. split; [|exact Hp].
    apply in_concat. exists (clauseStatements cl). split.
    - apply list_elem_of_In, list_elem_of_fmap. exists cl.
      split; [reflexivity | eapply list_elem_of_lookup_2; eauto].
    - apply list_elem_of_In. exact Hn. }
  unfold countPushes.
  destruct (List.filter _ _); [inversion Hin | simpl; lia].
Qed.

(** *** One protected region, from the log to the body

    The facts about a recording on which the assembler relies for the
    exception block [b], stored at [r], opened by the event at [pos] with
    offset [k], whose start label is [s]. *)
Section Region.

Variables (g : State) (pos k : nat) (r : BlockRef) (b : BlockScope) (s : Z).

Hypothesis no_forgery : noForgedPush g = true.
Hypothesis opened : events g !! pos = Some (Open, Z.of_nat k, Some r).
Hypothesis stored : store g !! r = Some b.
Hypothesis is_exception : kind b = Exception.
Hypothesis start : startLabel b = Some s.
Hypothesis offsets_nonneg : forall ev, ev ∈ events g -> 0 <= ev.1.2.
Hypothesis offsets_sorted :
  forall p p' ev ev',
    (p <= p')%nat -> events g !! p = Some ev -> events g !! p' = Some ev' ->
    ev.1.2 <= ev'.1.2.
Hypothesis followed : (k < length (operations g))%nat.
Hypothesis start_bound : array_get (labels g) s = Some (Z.of_nat k).
Hypothesis opened_once :
  forall pos' ev,
    events g !! pos' = Some ev -> opensRegion g s ev = true -> pos' = pos.

Lemma region_opens : opensRegion g s (Open, Z.of_nat k, Some r) = true.
Proof.
  unfold opensRegion. rewrite stored.
  rewrite !bool_decide_eq_true_2 by assumption. reflexivity.
Qed.

Lemma region_due (i : Z) :
  Z.of_nat k <= i -> (pos < length (dueEvents i (events g)))%nat.
Proof.
  intros Hi. apply dueEvents_reaches.
  - eapply lookup_lt_Some; eauto.
  - intros p ev Hp Hev.
    pose proof (offsets_sorted p pos ev _ Hp Hev opened) as H. simpl in H. lia.
Qed.

Lemma region_in_slice :
  (Open, Z.of_nat k, Some r)
  ∈ dueEvents (Z.of_nat k)
      (drop (length (dueEvents (Z.of_nat k - 1) (events g))) (events g)).
Proof.
  pose proof (region_due (Z.of_nat k) (Z.le_refl _)) as Hlt.
  assert (Hin : dueEvents (Z.of_nat k) (events g) !! pos
                = Some (Open, Z.of_nat k, Some r)).
  { rewrite dueEvents_take, lookup_take_lt by exact Hlt. exact opened. }
  rewrite (dueEvents_split (Z.of_nat k - 1) (Z.of_nat k)) in Hin by lia.
  destruct (decide (pos < length (dueEvents (Z.of_nat k - 1) (events g)))%nat)
    as [Hl|Hl].
  - rewrite lookup_app_l in Hin by exact Hl.
    apply dueEvents_offsets in Hin. simpl in Hin. lia.
  - rewrite lookup_app_r in Hin by lia.
    eapply list_elem_of_lookup_2; eauto.
Qed.

Lemma region_written :
  exists c l,
    Holds (assembleUpTo g (S k)) c (trysPushAt l b)
    /\ array_get (numbers (assembleUpTo g (S k))) s = Some (Z.of_nat c).
Proof.
  rewrite assembleUpTo_S. unfold assembleOperation.
  destruct (operations g !! k) as [code|] eqn:Hop.
  2:{ apply lookup_ge_None in Hop. lia. }
  cbv zeta.
  set (a0 := set_location (mjoin (operationLocations g !! k)) (assembleUpTo g k)).
  set (a1 := ensureLabels g k a0).
  set (args := default [] (operationArguments g !! k)).
  pose proof (labelMarkedAt_bound g s k start_bound) as Hm.
  assert (Hlabels : (clauseLabel <$> clauses a1)
                    = (clauseLabel <$> clauses a0)
                      ++ [caseLabel (length (clauses a0)) (location a0)]).
  { unfold a1. rewrite ensureLabels_labels, Hm. reflexivity. }
  assert (Hlen1 : length (clauses a1) = S (length (clauses a0))).
  { apply (f_equal length) in Hlabels.
    rewrite length_app, !length_fmap in Hlabels. simpl in Hlabels.
    change (clauses a0) with (clauses (assembleUpTo g k)). lia. }
  assert (Hlen : length (clauses (writeOperation g k code args a1))
                 = S (length (clauses a0))).
  { rewrite writeOperation_length. exact Hlen1. }
  exists (length (clauses a0)), (location a1). split.
  - replace (length (clauses a0))
      with (length (clauses (writeOperation g k code args a1)) - 1)%nat by lia.
    apply Holds_current.
    + intros Hnil. rewrite Hnil in Hlen. discriminate.
    + rewrite currentStatements_writeOperation. apply elem_of_app. right.
      unfold operationNodes. apply elem_of_app. left.
      apply list_elem_of_In, in_concat. exists [trysPushAt (location a1) b].
      split; [|left; reflexivity].
      apply list_elem_of_In, list_elem_of_fmap.
      exists (Open, Z.of_nat k, Some r). split.
      * unfold eventNodes. rewrite stored.
        rewrite bool_decide_eq_true_2 by exact is_exception. reflexivity.
      * unfold a1. rewrite blockIndex_ensureLabels.
        change (blockIndex a0) with (blockIndex (assembleUpTo g k)).
        rewrite blockIndex_upTo by (lia || exact offsets_nonneg).
        exact region_in_slice.
  - rewrite numbers_writeOperation. unfold a1.
    rewrite numbers_ensureLabels.
    rewrite bool_decide_eq_true_2 by exact start_bound. reflexivity.
Qed.

Lemma region_kept (j : nat) :
  (S k <= j <= length (operations g))%nat ->
  exists c l,
    Holds (assembleUpTo g j) c (trysPushAt l b)
    /\ array_get (numbers (assembleUpTo g j)) s = Some (Z.of_nat c).
Proof.
  induction j as [|j IH]; intros Hj; [lia|].
  destruct (decide (j = k)) as [->|Hne]; [exact region_written|].
  destruct IH as (c & l & Hh & Hn); [lia|].
  exists c, l. rewrite assembleUpTo_S. unfold assembleOperation.
  destruct (operations g !! j); [|auto]. cbv zeta. split.
  - apply Holds_writeOperation, Holds_ensureLabels. exact Hh.
  - rewrite numbers_writeOperation, numbers_ensureLabels.
    rewrite bool_decide_eq_false_2; [exact Hn|].
    rewrite start_bound. intros H. injection H as H. lia.
Qed.

Lemma region_counted :
  countPushes s (allNodes (assemble g)) = 1%nat.
Proof.
  set (n := length (operations g)).
  assert (Hupto : countPushes s (allNodes (assembleUpTo g n)) = 1%nat).
  { rewrite (CountInv_upTo g s n no_forgery).
    rewrite blockIndex_upTo by (lia || exact offsets_nonneg).
    rewrite <- dueEvents_take. unfold openCount.
    apply (filter_unique _ _ pos (Open, Z.of_nat k, Some r)).
    - rewrite dueEvents_take, lookup_take_lt; [exact opened|].
      apply region_due. unfold n. lia.
    - exact region_opens.
    - intros pos' ev Hev Hp. apply (opened_once pos' ev); [|exact Hp].
      rewrite dueEvents_take in Hev. apply lookup_take_Some in Hev as [Hev _].
      exact Hev. }
  unfold assemble. fold n. cbv zeta.
  destruct (instructionWasCompletion _).
  - rewrite countPushes_ensureLabels. exact Hupto.
  - rewrite writeReturn_spec, allNodes_pushStatement, countPushes_app.
    change (allNodes (set_instructionWasCompletion true ?x)) with (allNodes x).
    rewrite countPushes_ensureLabels, Hupto. reflexivity.
Qed.

Lemma region_registered :
  exists c l,
    Holds (assemble g) c (trysPushAt l b)
    /\ array_get (resolvedLabelNumbers g) s = Some (Z.of_nat c)
    /\ countPushes s (concat (clauseStatements <$> buildFunctionBody g)) = 1%nat.
Proof.
  set (n := length (operations g)).
  destruct (region_kept n ltac:(unfold n; lia)) as (c & l & Hh & Hn).
  assert (Hfinal : Holds (assemble g) c (trysPushAt l b)
                   /\ array_get (numbers (assemble g)) s = Some (Z.of_nat c)).
  { unfold assemble. fold n. cbv zeta.
    assert (H1 : Holds (ensureLabels g n (assembleUpTo g n)) c (trysPushAt l b))
      by (apply Holds_ensureLabels; exact Hh).
    assert (H2 : array_get (numbers (ensureLabels g n (assembleUpTo g n))) s
                 = Some (Z.of_nat c)).
    { rewrite numbers_ensureLabels.
      rewrite bool_decide_eq_false_2; [exact Hn|].
      rewrite start_bound. intros H. injection H as H. unfold n in H. lia. }
    destruct (instructionWasCompletion _); [auto|].
    rewrite writeReturn_spec. split.
    - apply Holds_pushStatement. exact H1.
    - match goal with
      | |- context [pushStatement ?x ?y] =>
          destruct (pushStatement_fields x y) as (_&_&_&->&_)
      end.
      exact H2. }
  destruct Hfinal as [Hh' Hn'].
  exists c, l. split; [exact Hh'|]. split; [exact Hn'|].
  pose proof region_counted as Hc. unfold allNodes in Hc.
  rewrite countPushes_app in Hc.
  assert (Hp : isPushFor s (trysPushAt l b) = true).
  { rewrite isPushFor_trysPushAt. apply bool_decide_eq_true_2. exact start. }
  pose proof (Holds_counted _ _ _ s Hh' Hp) as Hge.
  unfold buildFunctionBody. lia.
Qed.

End Region.

(** ** Exception blocks in a disciplined recording *)

Definition offsetOf (ev : BlockAction * Z * option BlockRef) : Z := ev.1.2.

Record Tracked (g : State) : Prop := {
  t_lengths :
    length (blockActions g) = length (blockOffsets g)
    /\ length (blockOffsets g) = length (blocks g);
  t_stack : forall r, r ∈ blockStack g -> (r < length (store g))%nat;
  t_events :
    forall pos a k r,
      events g !! pos = Some (a, k, Some r) -> (r < length (store g))%nat;
  t_offsets :
    forall pos ev,
      events g !! pos = Some ev -> 0 <= offsetOf ev <= operationCount g;
  t_sorted :
    forall p p' ev ev',
      (p <= p')%nat -> events g !! p = Some ev -> events g !! p' = Some ev' ->
      offsetOf ev <= offsetOf ev';
  t_once :
    forall pos pos' k k' r,
      events g !! pos = Some (Open, k, Some r) ->
      events g !! pos' = Some (Open, k', Some r) -> pos = pos';
  t_exception :
    forall r b,
      store g !! r = Some b -> kind b = Exception ->
      exists s k pos,
        startLabel b = Some s /\ 1 <= s < nextLabelId g
        /\ events g !! pos = Some (Open, k, Some r)
        /\ array_get (labels g) s = Some k
        /\ (r ∈ blockStack g \/ k < operationCount g);
  t_distinct :
    forall r r' b b' s,
      store g !! r = Some b -> store g !! r' = Some b' ->
      kind b = Exception -> kind b' = Exception ->
      startLabel b = Some s -> startLabel b' = Some s -> r = r';
  t_marks :
    forall r b l,
      store g !! r = Some b ->
      endLabel b = Some l \/ (breakLabel b = Some l /\ 0 < l) ->
      l < nextLabelId g /\ isStartLabel g l = false
}.

Lemma isStartLabel_true g l :
  isStartLabel g l = true <->
  exists r b, store g !! r = Some b /\ kind b = Exception /\ startLabel b = Some l.
Proof.
  unfold isStartLabel. rewrite existsb_exists. split.
  - intros (b & Hin & Hb). apply andb_true_iff in Hb as [H1 H2].
    apply bool_decide_eq_true in H1, H2.
    apply list_elem_of_In, list_elem_of_lookup in Hin as (r & Hr). eauto.
  - intros (r & b & Hr & H1 & H2). exists b. split.
    + apply list_elem_of_In. eapply list_elem_of_lookup_2; eauto.
    + rewrite !bool_decide_eq_true_2 by assumption. reflexivity.
Qed.

Lemma isStartLabel_false g l :
  isStartLabel g l = false <->
  forall r b, store g !! r = Some b -> kind b = Exception ->
              startLabel b <> Some l.
Proof.
  rewrite <- not_true_iff_false, isStartLabel_true. split.
  - intros H r b Hr Hk Hs. apply H. eauto.
  - intros H (r & b & Hr & Hk & Hs). eapply H; eauto.
Qed.

Lemma Tracked_start_minted g l :
  Tracked g -> nextLabelId g <= l -> isStartLabel g l = false.
Proof.
  intros T Hl. apply isStartLabel_false. intros r b Hr Hk Hs.
  destruct (t_exception g T r b Hr Hk) as (s & k & pos & Hs' & Hrange & _).
  rewrite Hs in Hs'. injection Hs' as <-. lia.
Qed.

Lemma events_snoc (A : list BlockAction) (O : list Z) (B : list (option BlockRef))
    a o b :
  length A = length O -> length O = length B ->
  zip (zip (A ++ [a]) (O ++ [o])) (B ++ [b]) = zip (zip A O) B ++ [(a, o, b)].
Proof.
  intros H1 H2. rewrite (zip_with_app pair A [a] O [o]) by exact H1.
  rewrite zip_with_app; [reflexivity|].
  rewrite length_zip_with. lia.
Qed.

Lemma Tracked_new : Tracked createCodeGenerator.
Proof.
  split; try (intros; discriminate); try (split; reflexivity).
  - intros r Hr. inversion Hr.
Qed.

Lemma Tracked_kept g g' : Kept g g' -> Tracked g -> Tracked g'.
Proof.
  intros K T. pose proof (Kept_count _ _ K) as Hc.
  destruct K as [K1 K2 K3 K4 K5 K6 K7 K8 K9 K10].
  assert (He : events g' = events g) by (unfold events; congruence).
  assert (Hs : isStartLabel g' = isStartLabel g)
    by (unfold isStartLabel; rewrite K1; reflexivity).
  destruct T. split; rewrite ?He, ?K1, ?K2, ?K3, ?K4, ?K5, ?K7, ?K8, ?Hs;
    try assumption.
  - intros pos ev Hev. specialize (t_offsets0 pos ev Hev). lia.
  - intros r b Hr Hk.
    destruct (t_exception0 r b Hr Hk) as (s & k & pos & H1 & H2 & H3 & H4 & H5).
    exists s, k, pos. repeat split; try assumption; try lia.
    destruct H5; [left; assumption | right; lia].
Qed.

Lemma Tracked_define g : Tracked g -> Tracked (definedState g).
Proof.
  intros T. destruct T. split; try assumption.
  - intros r b Hr Hk.
    destruct (t_exception0 r b Hr Hk) as (s & k & pos & H1 & H2 & H3 & H4 & H5).
    exists s, k, pos. simpl. repeat split; try assumption; try lia.
    rewrite array_get_set_ne by lia. exact H4.
  - intros r b l Hr Hl. destruct (t_marks0 r b l Hr Hl) as [H1 H2].
    split; [simpl; lia | exact H2].
Qed.

Lemma Tracked_mark l g :
  isStartLabel g l = false -> Tracked g -> Tracked (markedState l g).
Proof.
  intros Hl T. destruct T. split; try assumption.
  intros r b Hr Hk.
  destruct (t_exception0 r b Hr Hk) as (s & k & pos & H1 & H2 & H3 & H4 & H5).
  exists s, k, pos. simpl. repeat split; try assumption; try lia.
  rewrite array_get_set_ne; [exact H4|].
  intros ->. rewrite isStartLabel_false in Hl. eapply Hl; eauto.
Qed.

Lemma Tracked_flag g : Tracked g -> Tracked (set_hasProtectedRegions true g).
Proof. intros T. destruct T. split; assumption. Qed.

Lemma Tracked_update r f g :
  (forall x, kind (f x) = kind x /\ startLabel (f x) = startLabel x
             /\ endLabel (f x) = endLabel x /\ breakLabel (f x) = breakLabel x) ->
  Tracked g -> Tracked (updatedState r f g).
Proof.
  intros Hf T.
  assert (Hlook : forall i y, alter f r (store g) !! i = Some y ->
            exists x, store g !! i = Some x /\ kind y = kind x
                      /\ startLabel y = startLabel x
                      /\ endLabel y = endLabel x /\ breakLabel y = breakLabel x).
  { intros i y Hy. destruct (decide (i = r)) as [->|Hne].
    - rewrite list_lookup_alter_eq in Hy.
      destruct (store g !! r) as [x|]; [|discriminate]. injection Hy as <-.
      exists x. split; [reflexivity | apply Hf].
    - rewrite list_lookup_alter_ne in Hy by congruence. exists y. auto. }
  assert (Hstart : forall l, isStartLabel (updatedState r f g) l = isStartLabel g l).
  { intros l. apply eq_true_iff_eq. rewrite !isStartLabel_true. split.
    - intros (i & y & Hy & Hk & Hs). apply Hlook in Hy as (x & Hx & E1 & E2 & _).
      exists i, x. rewrite <- E1, <- E2. auto.
    - intros (i & x & Hx & Hk & Hs).
      destruct (decide (i = r)) as [->|Hne].
      + exists r, (f x). simpl. rewrite list_lookup_alter_eq, Hx.
        destruct (Hf x) as (-> & -> & _). auto.
      + exists i, x. simpl. rewrite list_lookup_alter_ne by congruence. auto. }
  destruct T. split; try assumption.
  - intros i Hi. simpl. rewrite length_alter. auto.
  - intros pos a k i Hev. simpl. rewrite length_alter. eauto.
  - intros i y Hy Hk. simpl in Hy. apply Hlook in Hy as (x & Hx & E1 & E2 & _).
    rewrite E1 in Hk. rewrite E2. eauto.
  - intros i i' y y' s Hy Hy' Hk Hk' Hs Hs'. simpl in Hy, Hy'.
    apply Hlook in Hy as (x & Hx & E1 & E2 & _).
    apply Hlook in Hy' as (x' & Hx' & E1' & E2' & _).
    rewrite E1 in Hk. rewrite E1' in Hk'. rewrite E2 in Hs. rewrite E2' in Hs'.
    eauto.
  - intros i y l Hy Hl. simpl in Hy.
    apply Hlook in Hy as (x & Hx & _ & _ & E3 & E4).
    rewrite E3, E4 in Hl. rewrite Hstart. eauto.
Qed.

Lemma events_begun b g :
  Tracked g ->
  events (begunState b g)
  = events g ++ [(Open, operationCount g, Some (length (store g)))].
Proof. intros T. destruct (t_lengths g T). apply events_snoc; assumption. Qed.

Lemma events_ended g :
  Tracked g ->
  events (endedState g)
  = events g ++ [(Close, operationCount g, head (blockStack g))].
Proof. intros T. destruct (t_lengths g T). apply events_snoc; assumption. Qed.

Lemma isStartLabel_begun b g l :
  isStartLabel (begunState b g) l
  = isStartLabel g l
    || (bool_decide (kind b = Exception) && bool_decide (startLabel b = Some l)).
Proof.
  unfold isStartLabel. simpl. rewrite existsb_app. simpl.
  rewrite orb_false_r. reflexivity.
Qed.

Lemma Tracked_begin b g :
  (kind b = Exception ->
   exists s,
     startLabel b = Some s /\ 1 <= s < nextLabelId g
     /\ array_get (labels g) s = Some (operationCount g)
     /\ isStartLabel g s = false
     /\ forall r x l,
          store g !! r = Some x ->
          endLabel x = Some l \/ (breakLabel x = Some l /\ 0 < l) -> l <> s) ->
  (forall l,
     endLabel b = Some l \/ (breakLabel b = Some l /\ 0 < l) ->
     l < nextLabelId g /\ isStartLabel g l = false /\ startLabel b <> Some l) ->
  Tracked g -> Tracked (begunState b g).
Proof.
  intros Hexc Hmarks T.
  pose proof (events_begun b g T) as He.
  pose proof (operationCount_nonneg g) as Hn0.
  destruct T as [Tl Tst Tev Toff Tsort Tonce Texc Tdist Tmarks]. split.
  - simpl. rewrite !length_app. simpl. lia.
  - intros r Hr. simpl in *. rewrite length_app. simpl.
    apply elem_of_cons in Hr as [->|Hr]; [lia|]. specialize (Tst r Hr). lia.
  - intros pos a k r. rewrite He. intros Hev.
    change (store (begunState b g)) with (store g ++ [b]).
    rewrite length_app. simpl.
    apply lookup_snoc_Some in Hev as [[_ Hev]|[_ Hev]].
    + specialize (Tev pos a k r Hev). lia.
    + injection Hev as <- <- <-. lia.
  - intros pos ev. rewrite He. intros Hev.
    change (operationCount (begunState b g)) with (operationCount g).
    apply lookup_snoc_Some in Hev as [[_ Hev]|[_ Hev]]; [eauto|].
    subst ev. unfold offsetOf. simpl. lia.
  - intros p p' ev ev' Hp. rewrite He. intros Hev Hev'.
    apply lookup_snoc_Some in Hev' as [[Hlt Hev']|[Hp' Hev']].
    + rewrite lookup_app_l in Hev by lia. eauto.
    + subst ev'. apply lookup_snoc_Some in Hev as [[_ Hev]|[_ Hev]].
      * destruct (Toff p ev Hev) as [_ H]. unfold offsetOf in *. simpl. exact H.
      * subst ev. lia.
  - intros pos pos' k k' r. rewrite He. intros Hev Hev'.
    apply lookup_snoc_Some in Hev as [[Hlt Hev]|[Hp Hev]];
      apply lookup_snoc_Some in Hev' as [[Hlt' Hev']|[Hp' Hev']].
    + eauto.
    + injection Hev' as _ <-. specialize (Tev pos _ _ _ Hev). lia.
    + injection Hev as _ <-. specialize (Tev pos' _ _ _ Hev'). lia.
    + lia.
  - intros r x Hr Hk. change (store (begunState b g)) with (store g ++ [b]) in Hr.
    rewrite He.
    change (blockStack (begunState b g)) with (length (store g) :: blockStack g).
    change (nextLabelId (begunState b g)) with (nextLabelId g).
    change (labels (begunState b g)) with (labels g).
    change (operationCount (begunState b g)) with (operationCount g).
    apply lookup_snoc_Some in Hr as [[Hlt Hr]|[Hr Hx]].
    + destruct (Texc r x Hr Hk) as (s & k & pos & H1 & H2 & H3 & H4 & H5).
      exists s, k, pos. repeat split; try assumption; try lia.
      * apply lookup_app_l_Some. exact H3.
      * destruct H5 as [H5|H5]; [left; apply elem_of_cons; right; exact H5
                               | right; exact H5].
    + subst x r. destruct (Hexc Hk) as (s & H1 & H2 & H3 & _).
      exists s, (operationCount g), (length (events g)).
      repeat split; try assumption; try lia.
      * apply list_lookup_middle. reflexivity.
      * left. left.
  - intros r r' x x' s.
    change (store (begunState b g)) with (store g ++ [b]).
    intros Hr Hr' Hk Hk' Hs Hs'.
    apply lookup_snoc_Some in Hr as [[Hlt Hr]|[Hr Hx]];
      apply lookup_snoc_Some in Hr' as [[Hlt' Hr']|[Hr' Hx']].
    + eauto.
    + subst x'. destruct (Hexc Hk') as (s' & H1 & _ & _ & H4 & _).
      rewrite Hs' in H1. injection H1 as <-.
      rewrite isStartLabel_false in H4. exfalso. eapply H4; eauto.
    + subst x. destruct (Hexc Hk) as (s' & H1 & _ & _ & H4 & _).
      rewrite Hs in H1. injection H1 as <-.
      rewrite isStartLabel_false in H4. exfalso. eapply H4; eauto.
    + lia.
  - intros r x l.
    change (store (begunState b g)) with (store g ++ [b]).
    change (nextLabelId (begunState b g)) with (nextLabelId g).
    intros Hr Hl. rewrite isStartLabel_begun.
    apply lookup_snoc_Some in Hr as [[Hlt Hr]|[Hr Hx]].
    + destruct (Tmarks r x l Hr Hl) as [H1 H2]. split; [exact H1|].
      rewrite H2. simpl. apply andb_false_iff.
      destruct (decide (kind b = Exception)) as [Hk|Hk].
      * right. apply bool_decide_eq_false_2.
        destruct (Hexc Hk) as (s & H3 & _ & _ & _ & H6).
        rewrite H3. intros Heq. injection Heq as ->. eapply H6; eauto.
      * left. apply bool_decide_eq_false_2. exact Hk.
    + subst x. destruct (Hmarks l Hl) as (H1 & H2 & H3). split; [exact H1|].
      rewrite H2. simpl. apply andb_false_iff. right.
      apply bool_decide_eq_false_2. exact H3.
Qed.

Lemma Tracked_pop g g' :
  Tracked g ->
  Kept (endedState g) g' ->
  (forall r b, head (blockStack g) = Some r -> store g !! r = Some b ->
               kind b = Exception -> operationCount g < operationCount g') ->
  Tracked g'.
Proof.
  intros T K Hexc.
  pose proof (events_ended g T) as He.
  pose proof (operationCount_nonneg g) as Hn0.
  assert (Hc : operationCount g <= operationCount g').
  { apply Kept_count in K. exact K. }
  destruct K as [K1 K2 K3 K4 K5 K6 K7 K8 K9 K10].
  assert (He' : events g' = events g
                  ++ [(Close, operationCount g, head (blockStack g))]).
  { rewrite <- He. unfold events. congruence. }
  assert (Hs : isStartLabel g' = isStartLabel g)
    by (unfold isStartLabel; rewrite K1; reflexivity).
  change (store (endedState g)) with (store g) in K1.
  change (blockStack (endedState g)) with (tail (blockStack g)) in K3.
  change (nextLabelId (endedState g)) with (nextLabelId g) in K7.
  change (labels (endedState g)) with (labels g) in K8.
  destruct T as [Tl Tst Tev Toff Tsort Tonce Texc Tdist Tmarks]. split;
    rewrite ?He', ?K1, ?K3, ?K7, ?K8, ?Hs; try assumption.
  - rewrite K4, K5, K2. simpl. rewrite !length_app. simpl. lia.
  - intros r Hr. apply Tst.
    destruct (blockStack g); [inversion Hr | apply elem_of_cons; right; exact Hr].
  - intros pos a k r Hev.
    apply lookup_snoc_Some in Hev as [[_ Hev]|[_ Hev]]; [eauto|].
    injection Hev as _ _ Hh. apply Tst.
    destruct (blockStack g); [discriminate|]. injection Hh as ->. left.
  - intros pos ev Hev.
    apply lookup_snoc_Some in Hev as [[_ Hev]|[_ Hev]].
    + specialize (Toff pos ev Hev). lia.
    + subst ev. unfold offsetOf. simpl. lia.
  - intros p p' ev ev' Hp Hev Hev'.
    apply lookup_snoc_Some in Hev' as [[Hlt Hev']|[Hp' Hev']].
    + rewrite lookup_app_l in Hev by lia. eauto.
    + subst ev'. apply lookup_snoc_Some in Hev as [[_ Hev]|[_ Hev]].
      * destruct (Toff p ev Hev) as [_ H]. unfold offsetOf in *. simpl. exact H.
      * subst ev. lia.
  - intros pos pos' k k' r Hev Hev'.
    apply lookup_snoc_Some in Hev as [[Hlt Hev]|[Hp Hev]];
      apply lookup_snoc_Some in Hev' as [[Hlt' Hev']|[Hp' Hev']];
      try discriminate.
    eauto.
  - intros r x Hr Hk.
    destruct (Texc r x Hr Hk) as (s & k & pos & H1 & H2 & H3 & H4 & H5).
    exists s, k, pos. repeat split; try assumption; try lia.
    + apply lookup_app_l_Some. exact H3.
    + destruct H5 as [H5|H5]; [|right; lia].
      destruct (blockStack g) as [|top rest] eqn:Hst; [inversion H5|].
      apply elem_of_cons in H5 as [->|H5]; [|left; exact H5].
      right.
      assert (operationCount g < operationCount g')
        by (eapply Hexc; eauto).
      destruct (Toff pos _ H3) as [_ Hk']. unfold offsetOf in Hk'. simpl in Hk'.
      lia.
Qed.

Lemma setter_keeps_labels_state v x :
  kind (set_blockState v x) = kind x
  /\ startLabel (set_blockState v x) = startLabel x
  /\ endLabel (set_blockState v x) = endLabel x
  /\ breakLabel (set_blockState v x) = breakLabel x.
Proof. repeat split. Qed.

Lemma setter_keeps_labels_variable v x :
  kind (set_catchVariable v x) = kind x
  /\ startLabel (set_catchVariable v x) = startLabel x
  /\ endLabel (set_catchVariable v x) = endLabel x
  /\ breakLabel (set_catchVariable v x) = breakLabel x.
Proof. repeat split. Qed.

Lemma setter_keeps_labels_catch v x :
  kind (set_catchLabel v x) = kind x
  /\ startLabel (set_catchLabel v x) = startLabel x
  /\ endLabel (set_catchLabel v x) = endLabel x
  /\ breakLabel (set_catchLabel v x) = breakLabel x.
Proof. repeat split. Qed.

Lemma setter_keeps_labels_finally v x :
  kind (set_finallyLabel v x) = kind x
  /\ startLabel (set_finallyLabel v x) = startLabel x
  /\ endLabel (set_finallyLabel v x) = endLabel x
  /\ breakLabel (set_finallyLabel v x) = breakLabel x.
Proof. repeat split. Qed.

Lemma Tracked_beginPlain k break text symbol continue g :
  k <> Exception ->
  (forall l, break = Some l -> 0 < l ->
             l < nextLabelId g /\ isStartLabel g l = false) ->
  Tracked g ->
  Tracked (begunState (plainBlock k break text symbol continue) g).
Proof.
  intros Hk Hb T. apply Tracked_begin; [contradiction| |exact T].
  intros l [Hl|[Hl Hpos]]; [discriminate|].
  simpl in Hl. destruct (Hb l Hl Hpos) as [H1 H2].
  repeat split; try assumption. discriminate.
Qed.

Lemma Tracked_step g f g' :
  Step true g f g' -> Basic g -> Tracked g -> Tracked g'.
Proof.
  intros Hstep B T. pose proof (basic_next g B) as Hnext.
  destruct Hstep.
  - eapply Tracked_kept; eauto.
  - apply Tracked_define, T.
  - apply Tracked_mark; auto.
  - apply Tracked_beginPlain; [destruct k; discriminate | | exact T].
    intros l Hl Hpos. injection Hl as <-. lia.
  - apply Tracked_beginPlain;
      [destruct k; discriminate | | apply Tracked_define, T].
    intros l Hl _. injection Hl as <-. split; [simpl; lia|].
    apply (Tracked_start_minted g _ T). lia.
  - apply (Tracked_pop g); [exact T | apply Kept_refl|].
    intros r0 b0 Hh Hs Hk. rewrite H in Hh. injection Hh as <-.
    rewrite H0 in Hs. injection Hs as <-. rewrite Hk in H1. discriminate.
  - assert (Tp : Tracked (endedState g)).
    { apply (Tracked_pop g); [exact T | apply Kept_refl|].
      intros r0 b0 Hh Hs Hk. rewrite H in Hh. injection Hh as <-.
      rewrite H0 in Hs. injection Hs as <-. rewrite Hk in H1. discriminate. }
    destruct (positive (breakLabel b)) eqn:Hp; [|exact Tp].
    destruct (breakLabel b) as [l|] eqn:Hl; [|exact Tp].
    simpl. apply Tracked_mark; [|exact Tp].
    simpl in Hp. apply Z.ltb_lt in Hp.
    apply (t_marks g T r b l H0). right. auto.
  - unfold beginExceptionState. cbv zeta. apply Tracked_flag.
    set (s := nextLabelId g).
    assert (T2 : Tracked (definedState (definedState g)))
      by (apply Tracked_define, Tracked_define, T).
    assert (Hs2 : isStartLabel (definedState (definedState g)) s = false)
      by (apply (Tracked_start_minted g _ T); unfold s; lia).
    assert (T3 : Tracked (markedState s (definedState (definedState g))))
      by (apply Tracked_mark; assumption).
    apply Tracked_begin; [| |exact T3].
    + intros _. exists s. split; [reflexivity|]. split; [simpl; unfold s; lia|].
      split; [apply array_get_set_eq; unfold s; lia|].
      split; [exact Hs2|].
      intros r x l Hr Hl. destruct (t_marks g T r x l Hr Hl) as [Hlt _].
      unfold s. lia.
    + intros l [Hl|[Hl _]]; [|discriminate]. injection Hl as <-.
      split; [simpl; unfold s; lia|]. split.
      * apply (Tracked_start_minted g _ T). unfold s. lia.
      * simpl. intros Heq. injection Heq as Heq. lia.
  - unfold beginCatchState. cbv zeta.
    eapply Tracked_kept; [apply Kept_appended|].
    apply Tracked_update; [apply setter_keeps_labels_catch|].
    apply Tracked_update; [apply setter_keeps_labels_variable|].
    apply Tracked_update; [apply setter_keeps_labels_state|].
    assert (T1 : Tracked (appendedState OpBreak [ofLabel (endLabel b)] g))
      by (eapply Tracked_kept; [apply Kept_appended | exact T]).
    apply Tracked_mark; [|apply Tracked_define, T1].
    apply (Tracked_start_minted g _ T). lia.
  - unfold beginFinallyState. cbv zeta.
    apply Tracked_update; [apply setter_keeps_labels_finally|].
    apply Tracked_update; [apply setter_keeps_labels_state|].
    assert (T1 : Tracked (appendedState OpBreak [ofLabel (endLabel b)] g))
      by (eapply Tracked_kept; [apply Kept_appended | exact T]).
    apply Tracked_mark; [|apply Tracked_define, T1].
    apply (Tracked_start_minted g _ T). lia.
  - unfold endExceptionState.
    apply Tracked_update; [apply setter_keeps_labels_state|].
    assert (Tp : forall code args,
               Tracked (appendedState code args (endedState g))).
    { intros code args. apply (Tracked_pop g); [exact T | apply Kept_appended|].
      intros _ _ _ _ _. rewrite operationCount_appended.
      change (operationCount (endedState g)) with (operationCount g). lia. }
    assert (Tq : Tracked (if stateBelow (state b) Finally
                          then appendedState OpBreak [ofLabel (endLabel b)]
                                 (endedState g)
                          else appendedState Endfinally [] (endedState g)))
      by (destruct (stateBelow (state b) Finally); apply Tp).
    destruct (endLabel b) as [l|] eqn:Hl; [|exact Tq].
    simpl. apply Tracked_mark; [|exact Tq].
    assert (Hsl : isStartLabel g l = false)
      by (apply (t_marks g T r b l H0); left; exact Hl).
    destruct (stateBelow (state b) Finally); exact Hsl.
Qed.

Lemma Traced_Tracked fs g : Traced true fs g -> Tracked g.
Proof.
  induction 1 as [|fs g f g' Ht IH Hs]; [apply Tracked_new|].
  eapply Tracked_step; [exact Hs | | exact IH].
  eapply Traced_Basic, Traced_weaken, Ht.
Qed.

(** ** The catch and finally slots of an exception block *)

(** The block behind [r] holds a positive label in [slot]. *)
Definition slotBegun (slot : BlockScope -> option Z) (g : State) (r : BlockRef)
  : bool :=
  match store g !! r with
  | Some b => positive (slot b)
  | None => false
  end.

(** The slots of the blocks tell which of them had [beginCatchBlock] and
    [beginFinallyBlock] called on it. *)
Record Slots (fs : list Footprint) (g : State) : Prop := {
  slots_catch :
    forall r, slotBegun catchLabel g r = true <-> CatchBegun r ∈ fs;
  slots_finally :
    forall r, slotBegun finallyLabel g r = true <-> FinallyBegun r ∈ fs
}.

Lemma slotBegun_store slot g g' r :
  store g' = store g -> slotBegun slot g' r = slotBegun slot g r.
Proof. unfold slotBegun. intros ->. reflexivity. Qed.

Lemma slotBegun_snoc slot g g' b r :
  store g' = store g ++ [b] -> slot b = None ->
  slotBegun slot g' r = slotBegun slot g r.
Proof.
  unfold slotBegun. intros -> Hb.
  destruct (store g !! r) as [x|] eqn:Hx.
  - rewrite (lookup_app_l_Some _ _ _ _ Hx). reflexivity.
  - apply lookup_ge_None in Hx.
    destruct (decide (r = length (store g))) as [->|Hne].
    + rewrite list_lookup_middle by reflexivity. rewrite Hb. reflexivity.
    + rewrite lookup_ge_None_2; [reflexivity|]. rewrite length_app. simpl. lia.
Qed.

Lemma slotBegun_alter slot f r0 g g' r :
  store g' = alter f r0 (store g) ->
  (r = r0 -> forall x, slot (f x) = slot x) ->
  slotBegun slot g' r = slotBegun slot g r.
Proof.
  unfold slotBegun. intros -> Hf. rewrite list_lookup_alter.
  destruct (decide (r0 = r)) as [->|]; [|reflexivity].
  destruct (store g !! r); simpl; [rewrite Hf|]; reflexivity.
Qed.

Lemma slotBegun_set slot f r g g' b l :
  store g' = alter f r (store g) -> store g !! r = Some b ->
  slot (f b) = Some l -> 0 < l -> slotBegun slot g' r = true.
Proof.
  unfold slotBegun. intros -> Hb Hl Hpos.
  rewrite list_lookup_alter_eq, Hb. simpl. rewrite Hl. simpl.
  apply Z.ltb_lt. exact Hpos.
Qed.

Lemma Slots_new : Slots [] createCodeGenerator.
Proof.
  split; intros r; (split; [discriminate | intros H; inversion H]).
Qed.

Lemma Slots_quiet fs g g' :
  (forall r, slotBegun catchLabel g' r = slotBegun catchLabel g r) ->
  (forall r, slotBegun finallyLabel g' r = slotBegun finallyLabel g r) ->
  Slots fs g -> Slots (fs ++ [Quiet]) g'.
Proof.
  intros Hc Hf [Sc Sf]. split; intros r;
    rewrite elem_of_app, list_elem_of_singleton.
  - rewrite Hc, Sc. split; [left; assumption | intros [H|H]; [exact H|discriminate]].
  - rewrite Hf, Sf. split; [left; assumption | intros [H|H]; [exact H|discriminate]].
Qed.

Lemma Slots_same_store fs g g' :
  store g' = store g -> Slots fs g -> Slots (fs ++ [Quiet]) g'.
Proof.
  intros Hs. apply Slots_quiet; intros r; apply slotBegun_store; exact Hs.
Qed.

Lemma Slots_begun fs g g' b :
  store g' = store g ++ [b] -> catchLabel b = None -> finallyLabel b = None ->
  Slots fs g -> Slots (fs ++ [Quiet]) g'.
Proof.
  intros Hs Hc Hf.
  apply Slots_quiet; intros r; eapply slotBegun_snoc; eassumption.
Qed.

Lemma store_beginCatchState r b variable g :
  store (beginCatchState r b variable g)
  = alter (set_catchLabel (Some (nextLabelId g))
             ∘ set_catchVariable (Some variable)
             ∘ set_blockState (Some Catch)) r (store g).
Proof. rewrite <- !list_alter_alter_eq. reflexivity. Qed.

Lemma store_beginFinallyState r b g :
  store (beginFinallyState r b g)
  = alter (set_finallyLabel (Some (nextLabelId g))
             ∘ set_blockState (Some Finally)) r (store g).
Proof. rewrite <- !list_alter_alter_eq. reflexivity. Qed.

Lemma store_endExceptionState r b g :
  store (endExceptionState r b g)
  = alter (set_blockState (Some Done)) r (store g).
Proof.
  unfold endExceptionState.
  destruct (endLabel b), (stateBelow (state b) Finally); reflexivity.
Qed.

Lemma Slots_step strict fs g f g' :
  Step strict g f g' -> 0 < nextLabelId g -> Slots fs g -> Slots (fs ++ [f]) g'.
Proof.
  intros Hstep Hnext S. destruct Hstep.
  - apply (Slots_same_store fs g); [apply kept_store; assumption | exact S].
  - apply (Slots_same_store fs g); [reflexivity | exact S].
  - apply (Slots_same_store fs g); [reflexivity | exact S].
  - eapply (Slots_begun fs g); [reflexivity | reflexivity | reflexivity | exact S].
  - eapply (Slots_begun fs g); [reflexivity | reflexivity | reflexivity | exact S].
  - apply (Slots_same_store fs g); [reflexivity | exact S].
  - apply (Slots_same_store fs g); [|exact S].
    destruct (positive (breakLabel b)); [|reflexivity].
    destruct (breakLabel b); reflexivity.
  - eapply (Slots_begun fs g); [reflexivity | reflexivity | reflexivity | exact S].
  - destruct S as [Sc Sf]. split; intros r';
      rewrite elem_of_app, list_elem_of_singleton.
    + destruct (decide (r' = r)) as [->|Hne].
      * split; [right; reflexivity | intros _].
        eapply slotBegun_set;
          [apply store_beginCatchState | eassumption | reflexivity | exact Hnext].
      * rewrite <- Sc.
        rewrite (slotBegun_alter _ _ _ g _ r' (store_beginCatchState _ _ _ _))
          by contradiction.
        split; [left; assumption | intros [Hx|Hx]; [exact Hx | congruence]].
    + rewrite <- Sf.
      rewrite (slotBegun_alter _ _ _ g _ r' (store_beginCatchState _ _ _ _))
        by reflexivity.
      split; [left; assumption | intros [Hx|Hx]; [exact Hx | discriminate]].
  - destruct S as [Sc Sf]. split; intros r';
      rewrite elem_of_app, list_elem_of_singleton.
    + rewrite <- Sc.
      rewrite (slotBegun_alter _ _ _ g _ r' (store_beginFinallyState _ _ _))
        by reflexivity.
      split; [left; assumption | intros [Hx|Hx]; [exact Hx | discriminate]].
    + destruct (decide (r' = r)) as [->|Hne].
      * split; [right; reflexivity | intros _].
        eapply slotBegun_set;
          [apply store_beginFinallyState | eassumption | reflexivity | exact Hnext].
      * rewrite <- Sf.
        rewrite (slotBegun_alter _ _ _ g _ r' (store_beginFinallyState _ _ _))
          by contradiction.
        split; [left; assumption | intros [Hx|Hx]; [exact Hx | congruence]].
  - apply (Slots_quiet fs g); [| |exact S]; intros r';
      apply (slotBegun_alter _ _ _ g _ r' (store_endExceptionState _ _ _));
      reflexivity.
Qed.

Lemma Traced_Slots fs g : Traced false fs g -> Slots fs g.
Proof.
  induction 1 as [|fs g f g' Ht IH Hs]; [apply Slots_new|].
  eapply Slots_step; [exact Hs | | exact IH].
  pose proof (basic_next g (Traced_Basic _ _ Ht)). lia.
Qed.

(** ** The protected-region table *)

(** The statement [__state.trys.push([start, catch, finally, end]);] with
    the four slots of its argument. *)
Definition registration (start catch finally_ end_ : Value) (l : Location)
  : Node :=
  GeneratedNode trysPushText
    (VObject [("startLabel", VNode (GeneratedLabel start l));
              ("catchLabel", catch);
              ("finallyLabel", finally_);
              ("endLabel", VNode (GeneratedLabel end_ l))]) l.

Lemma trysPushAt_registration l b :
  trysPushAt l b
  = registration (ofLabel (startLabel b))
      (optionalLabel (mkAssembler [] [] 0 false false [] l) (catchLabel b))
      (optionalLabel (mkAssembler [] [] 0 false false [] l) (finallyLabel b))
      (ofLabel (endLabel b)) l.
Proof. reflexivity. Qed.

Lemma truthy_optionalLabel a label :
  truthy (optionalLabel a label) = positive label.
Proof. unfold optionalLabel. destruct (positive label); reflexivity. Qed.

(** C1. In a recording whose caller treats labels as opaque and none of
    whose statements is itself a [__state.trys.push] fragment, every
    exception block that was ended, so that it is no longer on the live
    stack, has a start label [s] ([beginExceptionBlock] alone creates such
    blocks, and creates them in the [Try] state), and the assembled body
    holds exactly one
    statement [__state.trys.push([start, catch, finally, end]);] whose
    start slot is [s]. That statement lies in the clause [case c:] with
    [c = labelNumbers[s]]. Its catch slot holds a label if and only if
    [beginCatchBlock] was called on the block, and its finally slot holds a
    label if and only if [beginFinallyBlock] was called on it; otherwise the
    slot holds [false]. *)
Theorem protected_region_registered
    (cs : list Command) (g : State) (r : BlockRef) (b : BlockScope) :
  DisciplinedRecording cs g ->
  noForgedPush g = true ->
  store g !! r = Some b ->
  kind b = Exception ->
  r ∉ blockStack g ->
  exists s c l l' catch finally_ clause,
    startLabel b = Some s
    /\ array_get (resolvedLabelNumbers g) s = Some (Z.of_nat c)
    /\ buildFunctionBody g !! c = Some clause
    /\ clauseLabel clause = caseLabel c l'
    /\ registration (VNumber s) catch finally_ (ofLabel (endLabel b)) l
       ∈ clauseStatements clause
    /\ countPushes s (concat (clauseStatements <$> buildFunctionBody g)) = 1%nat
    /\ (truthy catch = true <-> CatchBegun r ∈ history cs)
    /\ (truthy finally_ = true <-> FinallyBegun r ∈ history cs).
Proof.
  intros Hrec Hforge Hb Hk Hended.
  pose proof (DisciplinedRecording_Traced cs g Hrec) as Ht.
  pose proof (Traced_Tracked _ _ Ht) as T.
  pose proof (Traced_Slots _ _ (Traced_weaken _ _ Ht)) as [Sc Sf].
  destruct (t_exception g T r b Hb Hk)
    as (s & k & pos & Hs & Hrange & Hev & Hlab & Hlive).
  assert (Hk1 : k < operationCount g).
  { destruct Hlive as [Hin|Hlt]; [contradiction | exact Hlt]. }
  pose proof (t_offsets g T pos _ Hev) as Hoff.
  unfold offsetOf in Hoff. simpl in Hoff.
  assert (Hkn : Z.of_nat (Z.to_nat k) = k) by lia.
  destruct (region_registered g pos (Z.to_nat k) r b s Hforge)
    as (c & l & (clause & Hclause & Hin) & Hn & Hc).
  - rewrite Hkn. exact Hev.
  - exact Hb.
  - exact Hk.
  - exact Hs.
  - intros ev Hin. apply list_elem_of_lookup in Hin as [p Hp].
    pose proof (t_offsets g T p ev Hp) as H. unfold offsetOf in H. lia.
  - intros p p' ev ev'. apply (t_sorted g T).
  - unfold operationCount in Hk1. lia.
  - rewrite Hkn. exact Hlab.
  - intros pos' ev Hev' Hopen. unfold opensRegion in Hopen.
    destruct ev as [[[] k'] [r'|]]; try discriminate.
    destruct (store g !! r') as [b'|] eqn:Hb'; [|discriminate].
    apply andb_true_iff in Hopen as [H1 H2].
    apply bool_decide_eq_true in H1, H2.
    assert (r' = r) by (apply (t_distinct g T r' r b' b s); assumption).
    subst r'. apply (t_once g T pos' pos k' k r); assumption.
  - destruct (buildFunctionBody_numbered g c clause Hclause) as [l' Hl'].
    rewrite trysPushAt_registration, Hs in Hin.
    exists s, c, l, l',
      (optionalLabel (mkAssembler [] [] 0 false false [] l) (catchLabel b)),
      (optionalLabel (mkAssembler [] [] 0 false false [] l) (finallyLabel b)),
      clause.
    split; [exact Hs|]. split; [exact Hn|]. split; [exact Hclause|].
    split; [exact Hl'|]. split; [exact Hin|]. split; [exact Hc|].
    rewrite !truthy_optionalLabel, <- Sc, <- Sf.
    unfold slotBegun. rewrite Hb. split; reflexivity.
Qed.

(** A [try] with a [yield], a [catch] with a [yield], and no [finally]. *)
Definition tryCatchRecording : list Command :=
  [BeginExceptionBlock; Emit Yield []; BeginCatchBlock (VString "e");
   Emit Yield []; EndExceptionBlock].

Definition tryCatchBlock : BlockScope :=
  mkBlock Exception (Some Done) (Some 2) (Some (VString "e")) (Some 4) None
    (Some 3) None None None None.

Lemma protected_region_registered_witness :
  DisciplinedRecording tryCatchRecording (after tryCatchRecording)
  /\ noForgedPush (after tryCatchRecording) = true
  /\ store (after tryCatchRecording) !! 0%nat = Some tryCatchBlock
  /\ kind tryCatchBlock = Exception
  /\ (0%nat ∉ blockStack (after tryCatchRecording))
  /\ exists s c l l' catch finally_ clause,
       startLabel tryCatchBlock = Some s
       /\ array_get (resolvedLabelNumbers (after tryCatchRecording)) s
          = Some (Z.of_nat c)
       /\ buildFunctionBody (after tryCatchRecording) !! c = Some clause
       /\ clauseLabel clause = caseLabel c l'
       /\ registration (VNumber s) catch finally_
            (ofLabel (endLabel tryCatchBlock)) l
          ∈ clauseStatements clause
       /\ countPushes s
            (concat (clauseStatements
                       <$> buildFunctionBody (after tryCatchRecording)))
          = 1%nat
       /\ (truthy catch = true <-> CatchBegun 0%nat ∈ history tryCatchRecording)
       /\ (truthy finally_ = true
           <-> FinallyBegun 0%nat ∈ history tryCatchRecording).
Proof.
  assert (Hended : 0%nat ∉ blockStack (after tryCatchRecording)).
  { change (blockStack (after tryCatchRecording)) with (@nil BlockRef).
    apply not_elem_of_nil. }
  split; [vm_compute; reflexivity|].
  split; [vm_compute; reflexivity|].
  split; [vm_compute; reflexivity|].
  split; [vm_compute; reflexivity|].
  split; [exact Hended|].
  apply (protected_region_registered tryCatchRecording
           (after tryCatchRecording) 0%nat tryCatchBlock);
    try exact Hended; vm_compute; reflexivity.
Defined.

(** * Further properties of the pass *)

(** ** How labels resolve *)

Lemma numbers_assembleOperation g a i code s :
  operations g !! i = Some code ->
  array_get (numbers (assembleOperation g a i)) s =
    if bool_decide (array_get (labels g) s = Some (Z.of_nat i))
    then Some (Z.of_nat (length (clauses a)))
    else array_get (numbers a) s.
Proof.
  intros Hop. unfold assembleOperation. rewrite Hop. cbv zeta.
  rewrite numbers_writeOperation, numbers_ensureLabels. reflexivity.
Qed.

Lemma numbers_upTo_unbound g s j :
  (j <= length (operations g))%nat ->
  (forall k, (k < j)%nat -> array_get (labels g) s <> Some (Z.of_nat k)) ->
  array_get (numbers (assembleUpTo g j)) s = array_get (labelNumbers g) s.
Proof.
  induction j as [|j IH]; intros Hj Hfree; [reflexivity|].
  rewrite assembleUpTo_S.
  destruct (lookup_lt_is_Some_2 (operations g) j) as [code Hop]; [lia|].
  rewrite (numbers_assembleOperation _ _ _ code _ Hop).
  rewrite bool_decide_eq_false_2 by (apply Hfree; lia).
  apply IH; [lia|]. intros k Hk. apply Hfree. lia.
Qed.

Lemma numbers_upTo_bound g s k j :
  array_get (labels g) s = Some (Z.of_nat k) ->
  (k < j <= length (operations g))%nat ->
  array_get (numbers (assembleUpTo g j)) s
  = Some (Z.of_nat (length (caseStartsBelow g k))).
Proof.
  intros Hs. induction j as [|j IH]; intros Hj; [lia|].
  rewrite assembleUpTo_S.
  destruct (lookup_lt_is_Some_2 (operations g) j) as [code Hop]; [lia|].
  rewrite (numbers_assembleOperation _ _ _ code _ Hop).
  destruct (decide (j = k)) as [->|Hne].
  - rewrite bool_decide_eq_true_2 by exact Hs.
    rewrite (fi_length _ _ _ _ (FixupInv_upTo g k ltac:(lia))). reflexivity.
  - rewrite bool_decide_eq_false_2; [apply IH; lia|].
    rewrite Hs. intros H. injection H as H. lia.
Qed.

Lemma numbers_assemble g s :
  array_get (resolvedLabelNumbers g) s
  = array_get
      (numbers (ensureLabels g (length (operations g))
                  (assembleUpTo g (length (operations g))))) s.
Proof.
  unfold resolvedLabelNumbers, assemble. cbv zeta.
  destruct (instructionWasCompletion _); [reflexivity|].
  rewrite writeReturn_spec.
  match goal with
  | |- context [pushStatement ?x ?y] =>
      destruct (pushStatement_fields x y) as (_&_&_&->&_)
  end.
  reflexivity.
Qed.

(** A label bound to the position [k] of the log resolves to the number of
    positions before [k] at which a label is bound. *)
Lemma resolved_bound g s k :
  array_get (labels g) s = Some (Z.of_nat k) ->
  (k <= length (operations g))%nat ->
  array_get (resolvedLabelNumbers g) s
  = Some (Z.of_nat (length (caseStartsBelow g k))).
Proof.
  intros Hs Hk. rewrite numbers_assemble, numbers_ensureLabels.
  destruct (decide (k = length (operations g))) as [->|Hne].
  - rewrite bool_decide_eq_true_2 by exact Hs.
    rewrite (fi_length _ _ _ _ (FixupInv_upTo g _ (le_n _))). reflexivity.
  - rewrite bool_decide_eq_false_2.
    + apply numbers_upTo_bound; [exact Hs | lia].
    + rewrite Hs. intros H. injection H as H. lia.
Qed.

(** A label bound to no position of the log keeps the number it had. *)
Lemma resolved_unbound g s :
  (forall k, (k <= length (operations g))%nat ->
             array_get (labels g) s <> Some (Z.of_nat k)) ->
  array_get (resolvedLabelNumbers g) s = array_get (labelNumbers g) s.
Proof.
  intros Hfree. rewrite numbers_assemble, numbers_ensureLabels.
  rewrite bool_decide_eq_false_2 by (apply Hfree; lia).
  apply numbers_upTo_unbound; [lia|]. intros k Hk. apply Hfree. lia.
Qed.

Lemma caseStartsBelow_app g k j :
  (k <= j)%nat ->
  caseStartsBelow g j
  = caseStartsBelow g k ++ List.filter (labelMarkedAt g) (seq k (j - k)).
Proof.
  intros Hkj. unfold caseStartsBelow.
  replace j with (k + (j - k))%nat at 1 by lia.
  rewrite seq_app, List.filter_app. reflexivity.
Qed.

Lemma caseStarts_at g k :
  labelMarkedAt g k = true -> (k <= length (operations g))%nat ->
  caseStarts g !! length (caseStartsBelow g k) = Some k.
Proof.
  intros Hm Hk. unfold caseStarts.
  rewrite (caseStartsBelow_app g k (S (length (operations g)))) by lia.
  rewrite lookup_app_r by lia. rewrite Nat.sub_diag.
  replace (S (length (operations g)) - k)%nat
    with (S (length (operations g) - k)) by lia.
  simpl. rewrite Hm. reflexivity.
Qed.

Lemma caseStartsBelow_length_le g k j :
  (k <= j)%nat ->
  (length (caseStartsBelow g k) <= length (caseStartsBelow g j))%nat.
Proof.
  intros Hkj. rewrite (caseStartsBelow_app g k j Hkj), length_app. lia.
Qed.

Lemma caseStartsBelow_length_lt g k j :
  labelMarkedAt g k = true -> (k < j)%nat ->
  (length (caseStartsBelow g k) < length (caseStartsBelow g j))%nat.
Proof.
  intros Hm Hkj.
  pose proof (caseStartsBelow_length_le g (S k) j ltac:(lia)) as Hle.
  rewrite caseStartsBelow_S, Hm, length_app in Hle. simpl in Hle. lia.
Qed.

(** X1. Whatever the state of the generator, a label bound to a position
    [k] of the operation log (the end of the log included) is resolved by
    [buildFunctionBody]: [labelNumbers] maps it to the index [c] of a
    clause that exists, that clause is [case c:], and it is the case opened
    at position [k]. *)
Theorem bound_label_resolves (g : State) (s : Z) (k : nat) :
  array_get (labels g) s = Some (Z.of_nat k) ->
  (k <= length (operations g))%nat ->
  exists c clause l,
    array_get (resolvedLabelNumbers g) s = Some (Z.of_nat c)
    /\ caseStarts g !! c = Some k
    /\ buildFunctionBody g !! c = Some clause
    /\ clauseLabel clause = caseLabel c l.
Proof.
  intros Hs Hk.
  pose proof (labelMarkedAt_bound g s k Hs) as Hm.
  pose proof (caseStarts_at g k Hm Hk) as Hc.
  set (c := length (caseStartsBelow g k)) in *.
  destruct (lookup_lt_is_Some_2 (buildFunctionBody g) c) as [clause Hcl].
  { rewrite buildFunctionBody_length. eapply lookup_lt_Some, Hc. }
  destruct (buildFunctionBody_numbered g c clause Hcl) as [l Hl].
  exists c, clause, l. split; [|auto].
  apply resolved_bound; assumption.
Qed.

Lemma bound_label_resolves_witness :
  let g := after [DefineLabel; Emit Yield []; MarkLabel 2] in
  array_get (labels g) 2 = Some (Z.of_nat 1)
  /\ (1 <= length (operations g))%nat
  /\ exists c clause l,
       array_get (resolvedLabelNumbers g) 2 = Some (Z.of_nat c)
       /\ caseStarts g !! c = Some 1%nat
       /\ buildFunctionBody g !! c = Some clause
       /\ clauseLabel clause = caseLabel c l.
Proof.
  cbv zeta.
  split; [vm_compute; reflexivity|].
  split; [vm_compute; lia|].
  apply (bound_label_resolves (after [DefineLabel; Emit Yield []; MarkLabel 2])
           2 1%nat); [vm_compute; reflexivity | vm_compute; lia].
Defined.

(** X2. Case numbers follow the order of the log: of two labels bound to
    positions of the log, the one bound to the earlier position resolves to
    the smaller case number, and two labels bound to the same position
    resolve to the same case. *)
Theorem label_numbers_follow_positions (g : State) (s1 s2 : Z) (k1 k2 : nat) :
  array_get (labels g) s1 = Some (Z.of_nat k1) ->
  array_get (labels g) s2 = Some (Z.of_nat k2) ->
  (k1 <= length (operations g))%nat ->
  (k2 <= length (operations g))%nat ->
  exists c1 c2,
    array_get (resolvedLabelNumbers g) s1 = Some (Z.of_nat c1)
    /\ array_get (resolvedLabelNumbers g) s2 = Some (Z.of_nat c2)
    /\ ((k1 < k2)%nat <-> (c1 < c2)%nat)
    /\ (k1 = k2 <-> c1 = c2).
Proof.
  intros H1 H2 Hk1 Hk2.
  exists (length (caseStartsBelow g k1)), (length (caseStartsBelow g k2)).
  split; [apply resolved_bound; assumption|].
  split; [apply resolved_bound; assumption|].
  pose proof (labelMarkedAt_bound g s1 k1 H1) as Hm1.
  pose proof (labelMarkedAt_bound g s2 k2 H2) as Hm2.
  assert (Hlt12 : (k1 < k2)%nat ->
                  (length (caseStartsBelow g k1)
                   < length (caseStartsBelow g k2))%nat)
    by (apply caseStartsBelow_length_lt; exact Hm1).
  assert (Hlt21 : (k2 < k1)%nat ->
                  (length (caseStartsBelow g k2)
                   < length (caseStartsBelow g k1))%nat)
    by (apply caseStartsBelow_length_lt; exact Hm2).
  split; split; intros H.
  - auto.
  - destruct (Nat.lt_trichotomy k1 k2) as [Hc|[Hc|Hc]]; [exact Hc | subst | ]; lia.
  - subst. reflexivity.
  - destruct (Nat.lt_trichotomy k1 k2) as [Hc|[Hc|Hc]]; [|exact Hc|]; lia.
Qed.

Lemma label_numbers_follow_positions_witness :
  let g := after [DefineLabel; Emit Yield []; MarkLabel 2] in
  array_get (labels g) 1 = Some (Z.of_nat 0)
  /\ array_get (labels g) 2 = Some (Z.of_nat 1)
  /\ (0 <= length (operations g))%nat
  /\ (1 <= length (operations g))%nat
  /\ exists c1 c2,
       array_get (resolvedLabelNumbers g) 1 = Some (Z.of_nat c1)
       /\ array_get (resolvedLabelNumbers g) 2 = Some (Z.of_nat c2)
       /\ ((0 < 1)%nat <-> (c1 < c2)%nat)
       /\ (0%nat = 1%nat <-> c1 = c2).
Proof.
  cbv zeta.
  split; [vm_compute; reflexivity|].
  split; [vm_compute; reflexivity|].
  split; [vm_compute; lia|].
  split; [vm_compute; lia|].
  apply (label_numbers_follow_positions
           (after [DefineLabel; Emit Yield []; MarkLabel 2]) 1 2 0%nat 1%nat);
    [vm_compute; reflexivity | vm_compute; reflexivity
     | vm_compute; lia | vm_compute; lia].
Defined.

(** ** Label slots in a recording *)

(** The recorder never writes [labelNumbers]; every slot of [labels] holds
    [-1] or a position of the log; every label handed out has a slot. *)
Record Slotted (g : State) : Prop := {
  slotted_numbers : labelNumbers g = [];
  slotted_range :
    forall l k, array_get (labels g) l = Some k -> -1 <= k <= operationCount g;
  slotted_allocated :
    forall l, 1 <= l < nextLabelId g -> is_Some (array_get (labels g) l)
}.

Lemma array_get_set_inv {A : Type} (a : list (option A)) (i l : Z) (v k : A) :
  array_get (array_set a i v) l = Some k ->
  (l = i /\ k = v) \/ array_get a l = Some k.
Proof.
  intros H. destruct (decide (i = l)) as [->|Hne].
  - destruct (decide (0 <= l)) as [Hl|Hl].
    + rewrite array_get_set_eq in H by exact Hl. injection H as <-. auto.
    + right. unfold array_get in *.
      destruct (l <? 0) eqn:Hneg; [discriminate|].
      apply Z.ltb_ge in Hneg. lia.
  - rewrite array_get_set_ne in H by exact Hne. auto.
Qed.

Lemma Slotted_new : Slotted createCodeGenerator.
Proof.
  split.
  - reflexivity.
  - intros l k H. apply array_get_Some in H as [Hl H].
    change (labels createCodeGenerator) with [@None Z; Some 0] in H.
    unfold operationCount. simpl.
    destruct (Z.to_nat l) as [|[|n]]; simpl in H; try discriminate.
    injection H as <-. lia.
  - intros l Hl. change (nextLabelId createCodeGenerator) with 2 in Hl.
    replace l with 1 by lia. exists 0. reflexivity.
Qed.

Lemma Slotted_same g g' :
  labelNumbers g' = labelNumbers g -> labels g' = labels g ->
  nextLabelId g' = nextLabelId g -> operationCount g <= operationCount g' ->
  Slotted g -> Slotted g'.
Proof.
  intros Hn Hl Hid Hc [S1 S2 S3]. split.
  - congruence.
  - intros l k H. rewrite Hl in H. specialize (S2 l k H). lia.
  - intros l H. rewrite Hl. apply S3. lia.
Qed.

Lemma Slotted_define g : 1 <= nextLabelId g -> Slotted g -> Slotted (definedState g).
Proof.
  intros Hnext [S1 S2 S3]. pose proof (operationCount_nonneg g) as Hc.
  split.
  - exact S1.
  - intros l k H. simpl in H.
    apply array_get_set_inv in H as [[_ ->]|H];
      [change (operationCount (definedState g)) with (operationCount g); lia|].
    apply (S2 l k H).
  - intros l Hl. simpl in *.
    destruct (decide (l = nextLabelId g)) as [->|Hne].
    + rewrite array_get_set_eq by lia. eauto.
    + rewrite array_get_set_ne by congruence. apply S3. lia.
Qed.

Lemma Slotted_mark l g : Slotted g -> Slotted (markedState l g).
Proof.
  intros [S1 S2 S3]. pose proof (operationCount_nonneg g) as Hc.
  split.
  - exact S1.
  - intros l' k H. simpl in H.
    change (operationCount (markedState l g)) with (operationCount g).
    apply array_get_set_inv in H as [[_ ->]|H]; [lia|].
    apply (S2 l' k H).
  - intros l' Hl. simpl in *.
    destruct (decide (l' = l)) as [->|Hne].
    + rewrite array_get_set_eq by lia. eauto.
    + rewrite array_get_set_ne by congruence. apply S3. lia.
Qed.

Lemma Slotted_markField l g : Slotted g -> Slotted (markedFieldState l g).
Proof. destruct l; [apply Slotted_mark | auto]. Qed.

Lemma Slotted_appended code args g :
  Slotted g -> Slotted (appendedState code args g).
Proof.
  apply Slotted_same; try reflexivity. rewrite operationCount_appended. lia.
Qed.

Lemma Slotted_updated r f g : Slotted g -> Slotted (updatedState r f g).
Proof. apply Slotted_same; reflexivity. Qed.

Lemma Slotted_begun b g : Slotted g -> Slotted (begunState b g).
Proof. apply Slotted_same; reflexivity. Qed.

Lemma Slotted_ended g : Slotted g -> Slotted (endedState g).
Proof. apply Slotted_same; reflexivity. Qed.

Lemma Slotted_flag v g : Slotted g -> Slotted (set_hasProtectedRegions v g).
Proof. apply Slotted_same; reflexivity. Qed.

Lemma Slotted_step strict g f g' :
  Step strict g f g' -> 1 <= nextLabelId g -> Slotted g -> Slotted g'.
Proof.
  intros Hstep Hnext S. destruct Hstep.
  - pose proof (Kept_count _ _ H) as Hcount. destruct H.
    eapply Slotted_same; eauto.
  - apply Slotted_define; assumption.
  - apply Slotted_mark; assumption.
  - apply Slotted_begun, S.
  - apply Slotted_begun, Slotted_define; assumption.
  - apply Slotted_ended, S.
  - destruct (positive (breakLabel b)); [|apply Slotted_ended, S].
    apply Slotted_markField, Slotted_ended, S.
  - unfold beginExceptionState. cbv zeta.
    apply Slotted_flag, Slotted_begun, Slotted_mark, Slotted_define;
      [simpl; lia|].
    apply Slotted_define; assumption.
  - unfold beginCatchState. cbv zeta.
    apply Slotted_appended.
    do 3 apply Slotted_updated.
    apply Slotted_mark, Slotted_define; [exact Hnext|].
    apply Slotted_appended, S.
  - unfold beginFinallyState. cbv zeta.
    do 2 apply Slotted_updated.
    apply Slotted_mark, Slotted_define; [exact Hnext|].
    apply Slotted_appended, S.
  - unfold endExceptionState.
    apply Slotted_updated, Slotted_markField.
    destruct (stateBelow (state b) Finally);
      apply Slotted_appended, Slotted_ended, S.
Qed.

Lemma Traced_Slotted fs g : Traced false fs g -> Slotted g.
Proof.
  induction 1 as [|fs g f g' Ht IH Hs]; [apply Slotted_new|].
  eapply Slotted_step; [exact Hs | | exact IH].
  pose proof (basic_next g (Traced_Basic _ _ Ht)). lia.
Qed.

Lemma Recording_Slotted cs g : Recording cs g -> Slotted g.
Proof. intros H. eapply Traced_Slotted, Recording_Traced, H. Qed.



(** ** The block event log of a recording *)

Definition countAction (x : BlockAction) (actions : list BlockAction) : nat :=
  length (List.filter (fun a => bool_decide (a = x)) actions).

(** What the assembler relies on when it replays the event log of a
    recording: the three arrays of the log have one length, the offsets are
    positions of the operation log in increasing order, an [Open] event
    names a block of the store, and the start label of an exception block
    is bound at or after the offset at which the block was opened. The
    [Close] events never outnumber the [Open] events, and the blocks
    opened and not yet closed are those of the live stack. *)
Record Replayable (g : State) : Prop := {
  rp_lengths :
    length (blockActions g) = length (blockOffsets g)
    /\ length (blockOffsets g) = length (blocks g);
  rp_offsets :
    forall pos ev,
      events g !! pos = Some ev -> 0 <= offsetOf ev <= operationCount g;
  rp_sorted :
    forall p p' ev ev',
      (p <= p')%nat -> events g !! p = Some ev -> events g !! p' = Some ev' ->
      offsetOf ev <= offsetOf ev';
  rp_opened :
    forall pos k r,
      events g !! pos = Some (Open, k, Some r) -> (r < length (store g))%nat;
  rp_start :
    forall pos k r b,
      events g !! pos = Some (Open, k, Some r) ->
      store g !! r = Some b -> kind b = Exception ->
      exists s k',
        startLabel b = Some s /\ s < nextLabelId g
        /\ array_get (labels g) s = Some k' /\ k <= k';
  rp_balance :
    countAction Open (blockActions g)
    = (countAction Close (blockActions g) + length (blockStack g))%nat;
  rp_prefix :
    forall n,
      (countAction Close (take n (blockActions g))
       <= countAction Open (take n (blockActions g)))%nat
}.

Lemma countAction_snoc x actions a :
  countAction x (actions ++ [a])
  = (countAction x actions + if bool_decide (a = x) then 1 else 0)%nat.
Proof.
  unfold countAction. rewrite List.filter_app, length_app. simpl.
  destruct (bool_decide (a = x)); reflexivity.
Qed.

Lemma Replayable_new : Replayable createCodeGenerator.
Proof.
  split; try (intros; discriminate); try (split; reflexivity);
    try reflexivity.
  intros n. change (blockActions createCodeGenerator) with (@nil BlockAction).
  rewrite take_nil. reflexivity.
Qed.

Lemma events_snoc_lengths g a o b :
  length (blockActions g) = length (blockOffsets g) ->
  length (blockOffsets g) = length (blocks g) ->
  zip (zip (blockActions g ++ [a]) (blockOffsets g ++ [o])) (blocks g ++ [b])
  = events g ++ [(a, o, b)].
Proof. intros H1 H2. apply events_snoc; assumption. Qed.

(** A call that leaves the event log, the store and the labels alone. *)
Lemma Replayable_same g g' :
  store g' = store g -> blocks g' = blocks g ->
  blockStack g' = blockStack g -> blockActions g' = blockActions g ->
  blockOffsets g' = blockOffsets g -> nextLabelId g' = nextLabelId g ->
  labels g' = labels g -> operationCount g <= operationCount g' ->
  Replayable g -> Replayable g'.
Proof.
  intros K1 K2 K3 K4 K5 K7 K8 Hc R.
  assert (He : events g' = events g) by (unfold events; congruence).
  destruct R. split; rewrite ?He, ?K1, ?K2, ?K3, ?K4, ?K5, ?K7, ?K8;
    try assumption.
  intros pos ev Hev. specialize (rp_offsets0 pos ev Hev). lia.
Qed.

Lemma Replayable_kept g g' : Kept g g' -> Replayable g -> Replayable g'.
Proof.
  intros K. pose proof (Kept_count _ _ K) as Hc. destruct K.
  apply Replayable_same; assumption.
Qed.

Lemma Replayable_appended code args g :
  Replayable g -> Replayable (appendedState code args g).
Proof. apply Replayable_kept, Kept_appended. Qed.

Lemma Replayable_flag v g :
  Replayable g -> Replayable (set_hasProtectedRegions v g).
Proof. apply Replayable_same; reflexivity. Qed.

Lemma Replayable_define g : Replayable g -> Replayable (definedState g).
Proof.
  intros R. destruct R. split; try assumption.
  intros pos k r b Hev Hr Hk.
  destruct (rp_start0 pos k r b Hev Hr Hk) as (s & k' & H1 & H2 & H3 & H4).
  exists s, k'. simpl. repeat split; try assumption; try lia.
  rewrite array_get_set_ne by lia. exact H3.
Qed.

Lemma Replayable_mark l g : Replayable g -> Replayable (markedState l g).
Proof.
  intros R. destruct R. split; try assumption.
  intros pos k r b Hev Hr Hk.
  destruct (rp_start0 pos k r b Hev Hr Hk) as (s & k' & H1 & H2 & H3 & H4).
  destruct (decide (l = s)) as [->|Hne].
  - exists s, (operationCount g). simpl. repeat split; try assumption.
    + apply array_get_set_eq. apply array_get_Some in H3 as [H3 _]. exact H3.
    + destruct (rp_offsets0 pos _ Hev) as [_ H]. exact H.
  - exists s, k'. simpl. repeat split; try assumption.
    rewrite array_get_set_ne by exact Hne. exact H3.
Qed.

Lemma Replayable_markField l g :
  Replayable g -> Replayable (markedFieldState l g).
Proof. destruct l; [apply Replayable_mark | auto]. Qed.

Lemma Replayable_update r f g :
  (forall x, kind (f x) = kind x /\ startLabel (f x) = startLabel x) ->
  Replayable g -> Replayable (updatedState r f g).
Proof.
  intros Hf R. destruct R. split; try assumption.
  - intros pos k i Hev. simpl. rewrite length_alter. eauto.
  - intros pos k i y Hev Hy Hk. simpl in Hy.
    destruct (decide (i = r)) as [->|Hne].
    + rewrite list_lookup_alter_eq in Hy.
      destruct (store g !! r) as [x|] eqn:Hx; [|discriminate].
      injection Hy as <-. destruct (Hf x) as [E1 E2].
      rewrite E1 in Hk. rewrite E2. eauto.
    + rewrite list_lookup_alter_ne in Hy by congruence. eauto.
Qed.

Lemma take_snoc_cases {A : Type} (l : list A) (x : A) (n : nat) :
  take n (l ++ [x]) = take n l \/ take n (l ++ [x]) = l ++ [x].
Proof.
  destruct (decide (n <= length l)%nat) as [Hle|Hgt].
  - left. rewrite take_app_le by exact Hle. reflexivity.
  - right. apply take_ge. rewrite length_app. simpl. lia.
Qed.

Lemma Replayable_begin b g :
  (kind b = Exception ->
   exists s,
     startLabel b = Some s /\ s < nextLabelId g
     /\ array_get (labels g) s = Some (operationCount g)) ->
  Replayable g -> Replayable (begunState b g).
Proof.
  intros Hexc R.
  pose proof (operationCount_nonneg g) as Hn0.
  destruct R as [Rl Roff Rsort Ropen Rstart Rbal Rpre].
  assert (He : events (begunState b g)
               = events g ++ [(Open, operationCount g, Some (length (store g)))])
    by (destruct Rl; apply events_snoc_lengths; assumption).
  split.
  - simpl. rewrite !length_app. simpl. lia.
  - intros pos ev. rewrite He. intros Hev.
    change (operationCount (begunState b g)) with (operationCount g).
    apply lookup_snoc_Some in Hev as [[_ Hev]|[_ Hev]]; [eauto|].
    subst ev. unfold offsetOf. simpl. lia.
  - intros p p' ev ev' Hp. rewrite He. intros Hev Hev'.
    apply lookup_snoc_Some in Hev' as [[Hlt Hev']|[Hp' Hev']].
    + rewrite lookup_app_l in Hev by lia. eauto.
    + subst ev'. apply lookup_snoc_Some in Hev as [[_ Hev]|[_ Hev]].
      * destruct (Roff p ev Hev) as [_ H]. unfold offsetOf in *. simpl. exact H.
      * subst ev. lia.
  - intros pos k r. rewrite He. intros Hev.
    change (store (begunState b g)) with (store g ++ [b]).
    rewrite length_app. simpl.
    apply lookup_snoc_Some in Hev as [[_ Hev]|[_ Hev]].
    + specialize (Ropen pos k r Hev). lia.
    + injection Hev as _ <-. lia.
  - intros pos k r x. rewrite He.
    change (store (begunState b g)) with (store g ++ [b]).
    change (nextLabelId (begunState b g)) with (nextLabelId g).
    change (labels (begunState b g)) with (labels g).
    intros Hev Hr Hk.
    apply lookup_snoc_Some in Hev as [[_ Hev]|[_ Hev]].
    + pose proof (Ropen pos k r Hev) as Hlt.
      rewrite lookup_app_l in Hr by exact Hlt. eauto.
    + injection Hev as <- <-.
      rewrite list_lookup_middle in Hr by reflexivity. injection Hr as <-.
      destruct (Hexc Hk) as (s & H1 & H2 & H3).
      exists s, (operationCount g). repeat split; try assumption. lia.
  - change (blockActions (begunState b g)) with (blockActions g ++ [Open]).
    change (blockStack (begunState b g))
      with (length (store g) :: blockStack g).
    rewrite !countAction_snoc. simpl. lia.
  - intros n.
    change (blockActions (begunState b g)) with (blockActions g ++ [Open]).
    destruct (take_snoc_cases (blockActions g) Open n) as [->| ->]; [apply Rpre|].
    rewrite !countAction_snoc. simpl. lia.
Qed.

Lemma Replayable_end g r :
  head (blockStack g) = Some r -> Replayable g -> Replayable (endedState g).
Proof.
  intros Hhead R.
  pose proof (operationCount_nonneg g) as Hn0.
  destruct R as [Rl Roff Rsort Ropen Rstart Rbal Rpre].
  assert (He : events (endedState g)
               = events g ++ [(Close, operationCount g, head (blockStack g))])
    by (destruct Rl; apply events_snoc_lengths; assumption).
  assert (Hlen : length (blockStack g) = S (length (tail (blockStack g))))
    by (destruct (blockStack g); [discriminate | reflexivity]).
  split.
  - simpl. rewrite !length_app. simpl. lia.
  - intros pos ev. rewrite He. intros Hev.
    change (operationCount (endedState g)) with (operationCount g).
    apply lookup_snoc_Some in Hev as [[_ Hev]|[_ Hev]]; [eauto|].
    subst ev. unfold offsetOf. simpl. lia.
  - intros p p' ev ev' Hp. rewrite He. intros Hev Hev'.
    apply lookup_snoc_Some in Hev' as [[Hlt Hev']|[Hp' Hev']].
    + rewrite lookup_app_l in Hev by lia. eauto.
    + subst ev'. apply lookup_snoc_Some in Hev as [[_ Hev]|[_ Hev]].
      * destruct (Roff p ev Hev) as [_ H]. unfold offsetOf in *. simpl. exact H.
      * subst ev. lia.
  - intros pos k i. rewrite He. intros Hev.
    change (store (endedState g)) with (store g).
    apply lookup_snoc_Some in Hev as [[_ Hev]|[_ Hev]]; [eauto | discriminate].
  - intros pos k i x. rewrite He.
    change (store (endedState g)) with (store g).
    change (nextLabelId (endedState g)) with (nextLabelId g).
    change (labels (endedState g)) with (labels g).
    intros Hev Hr Hk.
    apply lookup_snoc_Some in Hev as [[_ Hev]|[_ Hev]]; [eauto | discriminate].
  - change (blockActions (endedState g)) with (blockActions g ++ [Close]).
    change (blockStack (endedState g)) with (tail (blockStack g)).
    rewrite !countAction_snoc. simpl. lia.
  - intros n.
    change (blockActions (endedState g)) with (blockActions g ++ [Close]).
    destruct (take_snoc_cases (blockActions g) Close n) as [->| ->]; [apply Rpre|].
    rewrite !countAction_snoc. simpl. lia.
Qed.

Lemma Replayable_step strict g f g' :
  Step strict g f g' -> 1 <= nextLabelId g -> Replayable g -> Replayable g'.
Proof.
  intros Hstep Hnext R. destruct Hstep.
  - eapply Replayable_kept; eauto.
  - apply Replayable_define, R.
  - apply Replayable_mark, R.
  - apply Replayable_begin; [destruct k; discriminate | exact R].
  - apply Replayable_begin;
      [destruct k; discriminate | apply Replayable_define, R].
  - eapply Replayable_end; eauto.
  - destruct (positive (breakLabel b));
      [apply Replayable_markField|]; eapply Replayable_end; eauto.
  - unfold beginExceptionState. cbv zeta.
    apply Replayable_flag, Replayable_begin.
    + intros _. exists (nextLabelId g). split; [reflexivity|].
      split; [simpl; lia|]. apply array_get_set_eq. lia.
    + apply Replayable_mark, Replayable_define, Replayable_define, R.
  - unfold beginCatchState. cbv zeta.
    apply Replayable_appended.
    apply Replayable_update; [intros; split; reflexivity|].
    apply Replayable_update; [intros; split; reflexivity|].
    apply Replayable_update; [intros; split; reflexivity|].
    apply Replayable_mark, Replayable_define, Replayable_appended, R.
  - unfold beginFinallyState. cbv zeta.
    apply Replayable_update; [intros; split; reflexivity|].
    apply Replayable_update; [intros; split; reflexivity|].
    apply Replayable_mark, Replayable_define, Replayable_appended, R.
  - unfold endExceptionState.
    apply Replayable_update; [intros; split; reflexivity|].
    apply Replayable_markField.
    destruct (stateBelow (state b) Finally);
      apply Replayable_appended; eapply Replayable_end; eauto.
Qed.

Lemma Traced_Replayable fs g : Traced false fs g -> Replayable g.
Proof.
  induction 1 as [|fs g f g' Ht IH Hs]; [apply Replayable_new|].
  eapply Replayable_step; [exact Hs | | exact IH].
  pose proof (basic_next g (Traced_Basic _ _ Ht)). lia.
Qed.

Lemma Recording_Replayable cs g : Recording cs g -> Replayable g.
Proof. intros H. eapply Traced_Replayable, Recording_Traced, H. Qed.

(** X4. In every recording the three arrays of the block event log have
    one length; no prefix of the log holds more [Close] events than [Open]
    events; and the [Open] events outnumber the [Close] events by the depth
    of the live stack, so that a recording which leaves the stack empty has
    logged as many [Close] events as [Open] events. *)
Theorem block_events_balanced (cs : list Command) (g : State) :
  Recording cs g ->
  length (blockActions g) = length (blockOffsets g)
  /\ length (blockOffsets g) = length (blocks g)
  /\ countAction Open (blockActions g)
     = (countAction Close (blockActions g) + length (blockStack g))%nat
  /\ (forall n,
        (countAction Close (take n (blockActions g))
         <= countAction Open (take n (blockActions g)))%nat)
  /\ (blockStack g = [] ->
      countAction Open (blockActions g) = countAction Close (blockActions g)).
Proof.
  intros Hrec. destruct (Recording_Replayable cs g Hrec) as [[H1 H2] _ _ _ _ H3 H4].
  repeat split; try assumption.
  intros Hs. rewrite H3, Hs. simpl. lia.
Qed.

Lemma block_events_balanced_witness :
  let cs := [BeginBreakBlock None; BeginExceptionBlock; EndExceptionBlock] in
  Recording cs (after cs)
  /\ length (blockActions (after cs)) = length (blockOffsets (after cs))
  /\ length (blockOffsets (after cs)) = length (blocks (after cs))
  /\ countAction Open (blockActions (after cs))
     = (countAction Close (blockActions (after cs))
        + length (blockStack (after cs)))%nat
  /\ (forall n,
        (countAction Close (take n (blockActions (after cs)))
         <= countAction Open (take n (blockActions (after cs))))%nat)
  /\ (blockStack (after cs) = [] ->
      countAction Open (blockActions (after cs))
      = countAction Close (blockActions (after cs))).
Proof.
  cbv zeta. split; [vm_compute; reflexivity|].
  apply (block_events_balanced
           [BeginBreakBlock None; BeginExceptionBlock; EndExceptionBlock]
           (after [BeginBreakBlock None; BeginExceptionBlock; EndExceptionBlock])).
  vm_compute; reflexivity.
Defined.

(** ** How the assembled body ends *)

(** A statement that completes the state machine: [return ["return"];],
    [return ["return", e];] or [throw e;]. *)
Definition isCompletionNode (n : Node) : bool :=
  match n with
  | GeneratedNode text _ _ =>
      String.eqb text returnText || String.eqb text returnValueText
      || String.eqb text throwText
  | _ => false
  end.

Lemma operationNode_completion code args l :
  isCompletionCode code = true ->
  isCompletionNode (operationNode code args l) = true.
Proof.
  destruct code; try discriminate; intros _; simpl; [|reflexivity].
  unfold inlineReturn. destruct (truthy (argument args 0)); reflexivity.
Qed.

Lemma completion_writeOperation g i code args a :
  instructionWasCompletion (writeOperation g i code args a)
  = if gated a then instructionWasCompletion a else isCompletionCode code.
Proof.
  rewrite writeOperation_spec. cbv zeta.
  rewrite gated_writeBlocks.
  destruct (writeBlocks_fields g (Z.of_nat i) (drop (blockIndex a) (events g)) a)
    as (_ & Hc & _).
  destruct (gated a) eqn:Hg; [exact Hc|].
  match goal with
  | |- context [pushStatement ?x ?y] =>
      destruct (pushStatement_fields x y) as (_&_&->&_)
  end.
  unfold setFlags. simpl. rewrite Hc.
  unfold gated in Hg. apply orb_false_iff in Hg as [_ ->]. reflexivity.
Qed.

Lemma dueEvents_stop i evs ev :
  evs !! length (dueEvents i evs) = Some ev -> i < offsetOf ev.
Proof.
  induction evs as [|[[action offset] block] evs IH]; simpl; [discriminate|].
  destruct (offset <=? i) eqn:Hle; simpl.
  - exact IH.
  - intros H. injection H as <-. unfold offsetOf. simpl.
    apply Z.leb_gt in Hle. exact Hle.
Qed.

(** In the event log of a recording, the events that the block loop meets
    at the operation [k] are those logged at the offset [k]. *)
Lemma due_now g k ev :
  Replayable g -> (k <= length (operations g))%nat ->
  ev ∈ dueEvents (Z.of_nat k)
         (drop (length (dueEvents (Z.of_nat k - 1) (events g))) (events g)) ->
  ev ∈ events g /\ offsetOf ev = Z.of_nat k.
Proof.
  intros R Hk Hin.
  set (m := length (dueEvents (Z.of_nat k - 1) (events g))) in *.
  apply list_elem_of_lookup in Hin as (j & Hj).
  pose proof (dueEvents_offsets _ _ _ _ Hj) as Hle.
  rewrite dueEvents_take in Hj. apply lookup_take_Some in Hj as [Hj _].
  rewrite lookup_drop in Hj.
  split; [eapply list_elem_of_lookup_2; eauto|].
  destruct (lookup_lt_is_Some_2 (events g) m) as [first Hfirst].
  { apply lookup_lt_Some in Hj. lia. }
  pose proof (dueEvents_stop _ _ _ Hfirst) as Hgt.
  pose proof (rp_sorted g R m (m + j)%nat first ev ltac:(lia) Hfirst Hj) as Hs.
  unfold offsetOf in *. lia.
Qed.

Lemma eventNodes_opening g l evs n :
  n ∈ concat (eventNodes g l <$> evs) ->
  exists k r b,
    (Open, k, Some r) ∈ evs /\ store g !! r = Some b /\ kind b = Exception.
Proof.
  induction evs as [|[[action offset] block] evs IH]; simpl.
  - intros H. inversion H.
  - rewrite elem_of_app. intros [H|H].
    + destruct action, block as [r|]; simpl in H; try (inversion H; fail).
      destruct (store g !! r) as [e|] eqn:He; try (inversion H; fail).
      destruct (bool_decide (kind e = Exception)) eqn:Hk;
        try (inversion H; fail).
      apply bool_decide_eq_true in Hk.
      exists offset, r, e. split; [left | auto].
    + destruct (IH H) as (k & r & b & Hin & Hb).
      exists k, r, b. split; [right; exact Hin | exact Hb].
Qed.

(** The pass after [k] operations of a recording: when the completion flag
    is set, the last statement written completes the state machine, unless
    a label is bound further on, where a new case will open. *)
Definition Completed (g : State) (k : nat) (a : Assembler) : Prop :=
  instructionWasCompletion a = true ->
  (exists n, last (currentStatements a) = Some n /\ isCompletionNode n = true)
  \/ (exists k', (k <= k' <= length (operations g))%nat
                 /\ labelMarkedAt g k' = true).

Lemma Completed_upTo g k :
  Replayable g -> Slotted g -> (k <= length (operations g))%nat ->
  Completed g k (assembleUpTo g k).
Proof.
  intros R Sl. induction k as [|k IH]; intros Hk; [discriminate|].
  specialize (IH ltac:(lia)).
  rewrite assembleUpTo_S. unfold assembleOperation.
  destruct (operations g !! k) as [code|] eqn:Hop.
  2:{ apply lookup_ge_None in Hop. lia. }
  cbv zeta.
  set (a0 := set_location (mjoin (operationLocations g !! k)) (assembleUpTo g k)).
  set (a1 := ensureLabels g k a0).
  set (args := default [] (operationArguments g !! k)).
  intros Hdone. rewrite completion_writeOperation in Hdone.
  rewrite currentStatements_writeOperation. unfold operationNodes.
  destruct (gated a1) eqn:Hg1.
  - (* the operation is dead: only the block loop may write *)
    assert (Hm : labelMarkedAt g k = false).
    { destruct (labelMarkedAt g k) eqn:Hm; [|reflexivity].
      unfold a1 in Hdone. rewrite ensureLabels_marked in Hdone by exact Hm.
      destruct (openCase_fields g k
                  (set_numbers
                     (fst (bindLabels (labels g) 0 (Z.of_nat k)
                             (Z.of_nat (length (clauses a0))) (numbers a0))) a0))
        as (_ & Hc & _).
      rewrite Hc in Hdone. discriminate. }
    assert (Ha1 : a1 = a0) by (apply ensureLabels_unmarked; exact Hm).
    rewrite app_nil_r.
    set (nodes := concat _).
    assert (Hlater : forall k', (k <= k' <= length (operations g))%nat ->
               labelMarkedAt g k' = true ->
               exists k'', (S k <= k'' <= length (operations g))%nat
                           /\ labelMarkedAt g k'' = true).
    { intros k' Hr Hk'. exists k'. split; [|exact Hk'].
      destruct (decide (k' = k)) as [->|]; [congruence | lia]. }
    destruct nodes as [|n0 nodes0] eqn:Hnodes.
    + rewrite app_nil_r. rewrite Ha1 in *.
      destruct (IH Hdone) as [Hlast|(k' & Hr & Hk')]; [left; exact Hlast|].
      right. eauto.
    + right.
      assert (Hin : n0 ∈ nodes) by (rewrite Hnodes; left).
      apply eventNodes_opening in Hin as (o & r & b & Hev & Hb & Hkind).
      unfold a1 in Hev. rewrite blockIndex_ensureLabels in Hev.
      change (blockIndex a0) with (blockIndex (assembleUpTo g k)) in Hev.
      rewrite blockIndex_upTo in Hev;
        [|lia|intros ev Hi; apply list_elem_of_lookup in Hi as [p Hp];
              apply (rp_offsets g R p ev Hp)].
      apply due_now in Hev as [Hev Ho]; [|exact R|lia].
      apply list_elem_of_lookup in Hev as (pos & Hpos).
      destruct (rp_start g R pos o r b Hpos Hb Hkind)
        as (s & k' & _ & _ & Hs & Hle).
      pose proof (slotted_range g Sl s k' Hs) as Hrange.
      unfold offsetOf in Ho. simpl in Ho. unfold operationCount in Hrange.
      apply (Hlater (Z.to_nat k')); [lia|].
      apply (labelMarkedAt_bound g s). rewrite Hs. f_equal. lia.
  - (* the operation is written, and it is a completion *)
    left. exists (operationNode code args (location a1)).
    rewrite app_assoc, last_snoc. split; [reflexivity|].
    apply operationNode_completion. exact Hdone.
Qed.

Lemma clauses_last_current a :
  clauses a <> [] ->
  exists earlier c,
    clauses a = earlier ++ [c] /\ clauseStatements c = currentStatements a.
Proof.
  intros Hne. destruct (clauses_snoc_or_nil a) as [H|(cs & c & H)];
    [contradiction|].
  exists cs, c. split; [exact H|]. symmetry.
  apply (currentStatements_snoc _ _ _ H).
Qed.

(** The body of a recording is a non-empty list of clauses whose last
    statement completes the state machine. *)
Lemma body_completed g :
  Basic g -> Replayable g -> Slotted g ->
  exists earlier clause n,
    buildFunctionBody g = earlier ++ [clause]
    /\ last (clauseStatements clause) = Some n
    /\ isCompletionNode n = true.
Proof.
  intros B R Sl.
  set (count := length (operations g)).
  pose proof (Completed_upTo g count R Sl (le_n _)) as Hdone.
  pose proof (FixupInv_sync g count _ (FixupInv_upTo g count (le_n _)))
    as [Hlen _ _].
  assert (Hstarts : caseStartsBelow g (S count) <> []).
  { destruct (entry_marked g B) as (i & Hi & Hm). intros Hnil.
    assert (Hin : i ∈ caseStartsBelow g (S count)).
    { unfold caseStartsBelow.
      rewrite list_elem_of_In, List.filter_In, in_seq. split; [lia | exact Hm]. }
    rewrite Hnil in Hin. inversion Hin. }
  unfold buildFunctionBody, assemble. fold count. cbv zeta.
  set (a := ensureLabels g count (assembleUpTo g count)) in *.
  assert (Hne : clauses a <> []).
  { intros Hnil. rewrite Hnil in Hlen. simpl in Hlen.
    destruct (caseStartsBelow g (S count)); [contradiction | discriminate]. }
  destruct (instructionWasCompletion a) eqn:Hc.
  - destruct (clauses_last_current a Hne) as (earlier & c & Hcl & Hst).
    assert (Hm : labelMarkedAt g count = false).
    { destruct (labelMarkedAt g count) eqn:Hm; [|reflexivity].
      unfold a in Hc. rewrite ensureLabels_marked in Hc by exact Hm.
      match type of Hc with
      | instructionWasCompletion (openCase ?g0 ?i ?x) = _ =>
          destruct (openCase_fields g0 i x) as (_ & Hf & _)
      end.
      rewrite Hf in Hc. discriminate. }
    assert (Ha : a = assembleUpTo g count)
      by (apply ensureLabels_unmarked; exact Hm).
    rewrite Ha in *.
    destruct (Hdone Hc) as [(n & Hn & Hcn)|(k' & Hr & Hk')].
    + exists earlier, c, n. rewrite Hst. auto.
    + replace k' with count in Hk' by (unfold count in *; lia). congruence.
  - destruct (clauses_snoc_or_nil a) as [H|(cs & c & H)]; [contradiction|].
    rewrite writeReturn_spec.
    rewrite (pushStatement_snoc _ _ cs c)
      by (change (clauses (set_instructionWasCompletion true a)) with (clauses a);
          exact H).
    eexists cs, _, _. split; [reflexivity|]. simpl.
    rewrite last_snoc. split; reflexivity.
Qed.

(** X5. Completion coverage. In every recording the assembled body is a
    non-empty list of clauses, and the last statement of its last clause is
    [return ["return"];], [return ["return", e];] or [throw e;]: the state
    machine never falls off the end of the switch. *)
Theorem body_ends_with_completion (cs : list Command) (g : State) :
  Recording cs g ->
  exists earlier clause n,
    buildFunctionBody g = earlier ++ [clause]
    /\ last (clauseStatements clause) = Some n
    /\ isCompletionNode n = true.
Proof.
  intros Hrec. apply body_completed.
  - exact (Recording_Basic cs g Hrec).
  - exact (Recording_Replayable cs g Hrec).
  - exact (Recording_Slotted cs g Hrec).
Qed.

Lemma body_ends_with_completion_witness :
  let cs := [Emit Return [VNumber 1]; BeginExceptionBlock; Emit Yield []] in
  Recording cs (after cs)
  /\ exists earlier clause n,
       buildFunctionBody (after cs) = earlier ++ [clause]
       /\ last (clauseStatements clause) = Some n
       /\ isCompletionNode n = true.
Proof.
  cbv zeta. split; [vm_compute; reflexivity|].
  apply (body_ends_with_completion
           [Emit Return [VNumber 1]; BeginExceptionBlock; Emit Yield []]
           (after [Emit Return [VNumber 1]; BeginExceptionBlock; Emit Yield []])).
  vm_compute; reflexivity.
Defined.

(** ** The protected-region stack is initialised first *)

(** Once an exception block exists, [hasProtectedRegions] is set. *)
Definition Flagged (g : State) : Prop :=
  (exists r b, store g !! r = Some b /\ kind b = Exception) ->
  hasProtectedRegions g = true.

Lemma Flagged_same g g' :
  store g' = store g -> hasProtectedRegions g' = hasProtectedRegions g ->
  Flagged g -> Flagged g'.
Proof. unfold Flagged. intros -> ->. auto. Qed.

Lemma Flagged_define g : Flagged g -> Flagged (definedState g).
Proof. apply Flagged_same; reflexivity. Qed.

Lemma Flagged_mark l g : Flagged g -> Flagged (markedState l g).
Proof. apply Flagged_same; reflexivity. Qed.

Lemma Flagged_markField l g : Flagged g -> Flagged (markedFieldState l g).
Proof. destruct l; [apply Flagged_mark | auto]. Qed.

Lemma Flagged_appended code args g :
  Flagged g -> Flagged (appendedState code args g).
Proof. apply Flagged_same; reflexivity. Qed.

Lemma Flagged_ended g : Flagged g -> Flagged (endedState g).
Proof. apply Flagged_same; reflexivity. Qed.

Lemma Flagged_begun b g :
  kind b <> Exception -> Flagged g -> Flagged (begunState b g).
Proof.
  intros Hk F (r & x & Hr & Hx). apply F.
  change (store (begunState b g)) with (store g ++ [b]) in Hr.
  apply lookup_snoc_Some in Hr as [[_ Hr]|[_ Hr]]; [eauto|].
  subst x. contradiction.
Qed.

Lemma Flagged_update r f g :
  (forall x, kind (f x) = kind x) -> Flagged g -> Flagged (updatedState r f g).
Proof.
  intros Hf F (i & y & Hy & Hk). apply F. simpl in Hy.
  destruct (decide (i = r)) as [->|Hne].
  - rewrite list_lookup_alter_eq in Hy.
    destruct (store g !! r) as [x|] eqn:Hx; [|discriminate].
    injection Hy as <-. rewrite Hf in Hk. eauto.
  - rewrite list_lookup_alter_ne in Hy by congruence. eauto.
Qed.

Lemma Flagged_step strict g f g' : Step strict g f g' -> Flagged g -> Flagged g'.
Proof.
  intros Hstep F. destruct Hstep.
  - destruct H. eapply Flagged_same; eauto.
  - apply Flagged_define, F.
  - apply Flagged_mark, F.
  - apply Flagged_begun; [destruct k; discriminate | exact F].
  - apply Flagged_begun; [destruct k; discriminate | apply Flagged_define, F].
  - apply Flagged_ended, F.
  - destruct (positive (breakLabel b));
      [apply Flagged_markField|]; apply Flagged_ended, F.
  - intros _. reflexivity.
  - unfold beginCatchState. cbv zeta.
    apply Flagged_appended.
    do 3 (apply Flagged_update; [reflexivity|]).
    apply Flagged_mark, Flagged_define, Flagged_appended, F.
  - unfold beginFinallyState. cbv zeta.
    do 2 (apply Flagged_update; [reflexivity|]).
    apply Flagged_mark, Flagged_define, Flagged_appended, F.
  - unfold endExceptionState.
    apply Flagged_update; [reflexivity|]. apply Flagged_markField.
    destruct (stateBelow (state b) Finally);
      apply Flagged_appended, Flagged_ended, F.
Qed.

Lemma Recording_Flagged cs g : Recording cs g -> Flagged g.
Proof.
  intros H. apply Recording_Traced in H.
  induction H as [|fs g f g' Ht IH Hs].
  - intros (r & b & Hr & _). discriminate.
  - eapply Flagged_step; eauto.
Qed.

(** The first clause, once there is one, starts with [__state.trys = [];]
    when the generator has protected regions. *)
Definition Initialised (g : State) (a : Assembler) : Prop :=
  hasProtectedRegions g = true ->
  forall c, head (clauses a) = Some c ->
    exists l, head (clauseStatements c)
              = Some (GeneratedNode trysInitText VUndefined l).

Lemma Initialised_pushStatement g n a :
  Initialised g a -> Initialised g (pushStatement n a).
Proof.
  intros I Hp c Hc.
  destruct (clauses_snoc_or_nil a) as [Hnil|(cs & c0 & Hsnoc)].
  - rewrite (pushStatement_nil n a Hnil) in Hc. discriminate.
  - rewrite (pushStatement_snoc n a cs c0 Hsnoc) in Hc.
    destruct cs as [|c1 cs].
    + simpl in Hc. injection Hc as <-. simpl.
      destruct (I Hp c0) as [l Hl]; [rewrite Hsnoc; reflexivity|].
      exists l. destruct (clauseStatements c0); [discriminate | exact Hl].
    + simpl in Hc. injection Hc as <-. apply (I Hp). rewrite Hsnoc. reflexivity.
Qed.

Lemma Initialised_pushAll g ns a :
  Initialised g a -> Initialised g (pushAll ns a).
Proof.
  revert a. induction ns as [|n ns IH]; intros a I; [exact I|].
  simpl. apply IH, Initialised_pushStatement, I.
Qed.

Lemma Initialised_openCase g i a :
  Initialised g a -> Initialised g (openCase g i a).
Proof.
  intros I Hp c Hc. rewrite openCase_clauses in Hc.
  pose proof (Initialised_pushAll g (fixupOf i a) a I) as I1.
  destruct (clauses_snoc_or_nil a) as [Hnil|(cs & c0 & Hsnoc)].
  - rewrite (pushAll_clauses_nil _ _ Hnil) in Hc. simpl in Hc.
    injection Hc as <-. simpl. unfold initOf. rewrite Hnil, Hp. simpl. eauto.
  - apply (I1 Hp).
    destruct (clauses (pushAll (fixupOf i a) a)) as [|c1 rest] eqn:Hcl.
    + rewrite (pushAll_clauses_snoc _ _ _ _ Hsnoc) in Hcl.
      destruct cs; discriminate.
    + exact Hc.
Qed.

Lemma Initialised_ensureLabels g i a :
  Initialised g a -> Initialised g (ensureLabels g i a).
Proof.
  intros I. destruct (labelMarkedAt g i) eqn:Hm.
  - rewrite ensureLabels_marked by exact Hm. apply Initialised_openCase.
    exact I.
  - rewrite ensureLabels_unmarked by exact Hm. exact I.
Qed.

Lemma Initialised_writeOperation g i code args a :
  Initialised g a -> Initialised g (writeOperation g i code args a).
Proof.
  intros I. rewrite writeOperation_spec. cbv zeta. rewrite writeBlocks_spec.
  set (ns := concat _).
  assert (I1 : Initialised g (pushAll ns a)) by apply Initialised_pushAll, I.
  destruct (gated _); [exact I1|].
  apply Initialised_pushStatement. exact I1.
Qed.

Lemma Initialised_upTo g k : Initialised g (assembleUpTo g k).
Proof.
  induction k as [|k IH]; [intros _ c Hc; discriminate|].
  rewrite assembleUpTo_S. unfold assembleOperation.
  destruct (operations g !! k); [|exact IH]. cbv zeta.
  apply Initialised_writeOperation, Initialised_ensureLabels. exact IH.
Qed.

Lemma Initialised_assemble g : Initialised g (assemble g).
Proof.
  unfold assemble. cbv zeta.
  pose proof (Initialised_ensureLabels g (length (operations g)) _
                (Initialised_upTo g (length (operations g)))) as I.
  destruct (instructionWasCompletion _); [exact I|].
  rewrite writeReturn_spec. apply Initialised_pushStatement. exact I.
Qed.

(** X6. In every recording in which an exception block was begun, the
    assembled body has a first clause and the first statement of that
    clause is [__state.trys = [];]: the stack of protected regions is
    initialised before any region is pushed. *)
Theorem protected_regions_initialised
    (cs : list Command) (g : State) (r : BlockRef) (b : BlockScope) :
  Recording cs g ->
  store g !! r = Some b ->
  kind b = Exception ->
  exists c rest l,
    buildFunctionBody g = c :: rest
    /\ head (clauseStatements c)
       = Some (GeneratedNode trysInitText VUndefined l).
Proof.
  intros Hrec Hb Hk.
  assert (Hp : hasProtectedRegions g = true)
    by (apply (Recording_Flagged cs g Hrec); eauto).
  destruct (body_completed g (Recording_Basic cs g Hrec)
              (Recording_Replayable cs g Hrec) (Recording_Slotted cs g Hrec))
    as (earlier & clause & _ & Hbody & _).
  destruct (buildFunctionBody g) as [|c rest] eqn:Hcl.
  { destruct earlier; discriminate. }
  destruct (Initialised_assemble g Hp c) as [l Hl].
  { unfold buildFunctionBody in Hcl. rewrite Hcl. reflexivity. }
  exists c, rest, l. split; [reflexivity | exact Hl].
Qed.

Lemma protected_regions_initialised_witness :
  let cs := [Emit Yield []; BeginExceptionBlock] in
  Recording cs (after cs)
  /\ store (after cs) !! 0%nat = Some (exceptionBlock 2 3)
  /\ kind (exceptionBlock 2 3) = Exception
  /\ exists c rest l,
       buildFunctionBody (after cs) = c :: rest
       /\ head (clauseStatements c)
          = Some (GeneratedNode trysInitText VUndefined l).
Proof.
  cbv zeta. split; [vm_compute; reflexivity|].
  split; [vm_compute; reflexivity|].
  split; [reflexivity|].
  apply (protected_regions_initialised
           [Emit Yield []; BeginExceptionBlock]
           (after [Emit Yield []; BeginExceptionBlock]) 0%nat
           (exceptionBlock 2 3));
    vm_compute; reflexivity.
Defined.

(** * Properties of the recorder *)

(** ** Which calls throw *)

(** The block on top of the live stack. *)
Definition topBlock (g : State) : option BlockScope :=
  r ← head (blockStack g); store g !! r.

Definition topIs (g : State) (k : BlockKind) : bool :=
  bool_decide (kind <$> topBlock g = Some k).

(** The condition under which a call returns. *)
Definition ready (g : State) (c : Command) : bool :=
  match c with
  | BeginCatchBlock _ =>
      topIs g Exception && stateBelow (topBlock g ≫= state) Catch
  | BeginFinallyBlock =>
      topIs g Exception && stateBelow (topBlock g ≫= state) Finally
  | EndExceptionBlock => topIs g Exception
  | EndScriptContinueBlock => topIs g ScriptContinue
  | EndScriptBreakBlock => topIs g ScriptBreak
  | EndContinueBlock => topIs g Continue
  | EndBreakBlock => topIs g Break
  | _ => true
  end.

(** A computation that returns in every state. *)
Definition Total {A : Type} (m : M A) : Prop := forall g, is_Some (m g).

Lemma Total_ret {A : Type} (x : A) : Total (mret x : M A).
Proof. intros g. eexists. reflexivity. Qed.

Lemma Total_gets {A : Type} (f : State -> A) : Total (gets f).
Proof. intros g. eexists. reflexivity. Qed.

Lemma Total_modify f : Total (modify f).
Proof. intros g. eexists. reflexivity. Qed.

Lemma Total_bind {A B : Type} (m : M A) (f : A -> M B) :
  Total m -> (forall x, Total (f x)) -> Total (m ≫= f).
Proof.
  intros Hm Hf g. rewrite bind_run.
  destruct (Hm g) as [[x g1] ->]. apply Hf.
Qed.

Lemma Total_emit code args : Total (emit code args).
Proof.
  intros g.
  destruct (emit_cases code args g) as (args' & _ & [(H & _)|(H & _)]);
    rewrite H; eexists; reflexivity.
Qed.

Lemma Total_emitNode n : Total (emitNode n).
Proof.
  induction n as [k st text children IH| | |] using Node_children_ind;
    simpl; try apply Total_emit.
  destruct (isBlockLike k); [|apply Total_emit].
  induction IH as [|c cs Hc _ IHcs]; [apply Total_ret|].
  apply Total_bind; [exact Hc | intros _; exact IHcs].
Qed.

Lemma Total_defineLabel : Total defineLabel.
Proof. intros g. rewrite defineLabel_run. eauto. Qed.

Lemma Total_markLabel l : Total (markLabel l).
Proof. intros g. rewrite markLabel_run. eauto. Qed.

Lemma Total_markLabelField l : Total (markLabelField l).
Proof. destruct l; [apply Total_markLabel | apply Total_ret]. Qed.

Lemma Total_updateBlock r f : Total (updateBlock r f).
Proof. intros g. rewrite updateBlock_run. eauto. Qed.

Lemma Total_beginBlock b : Total (beginBlock b).
Proof. intros g. rewrite beginBlock_run. eauto. Qed.

Lemma Total_declareLocal name : Total (declareLocal name).
Proof.
  intros g. unfold declareLocal. destruct (nonEmpty name); eexists; reflexivity.
Qed.

Lemma Total_setLocation l : Total (setLocation l).
Proof. destruct l; [apply Total_modify | apply Total_ret]. Qed.

Create HintDb total.
#[local] Hint Resolve Total_ret Total_gets Total_modify Total_emit Total_emitNode
  Total_defineLabel Total_markLabel Total_markLabelField Total_updateBlock
  Total_beginBlock Total_declareLocal Total_setLocation : total.

Ltac total :=
  repeat first
    [ solve [auto with total]
    | apply Total_bind; [|intros ?] ].

(** The check at the head of a call that needs a block of kind [k0] on
    top of the stack. *)
Lemma guard_run {A : Type} (k0 : BlockKind) (rest : M A) (g : State) :
  (k ← peekBlockKind 0; assert (bool_decide (k = Some k0));; rest) g
  = if topIs g k0 then rest g else None.
Proof.
  rewrite bind_run.
  change (peekBlockKind 0 g)
    with (Some (r ← blockStack g !! 0%nat; b ← store g !! r; Some (kind b), g)).
  cbv beta iota. rewrite bind_run. unfold topIs, topBlock.
  rewrite <- head_lookup.
  destruct (head (blockStack g)) as [r|]; simpl; [|reflexivity].
  destruct (store g !! r) as [b|]; simpl; [|reflexivity].
  destruct (decide (kind b = k0)) as [->|Hne].
  - rewrite !bool_decide_eq_true_2 by reflexivity. reflexivity.
  - rewrite !bool_decide_eq_false_2 by congruence. reflexivity.
Qed.

Lemma topIs_true g k :
  topIs g k = true ->
  exists r b, head (blockStack g) = Some r /\ store g !! r = Some b
              /\ kind b = k /\ topBlock g = Some b.
Proof.
  unfold topIs, topBlock. intros H. apply bool_decide_eq_true in H.
  destruct (head (blockStack g)) as [r|] eqn:Hh; [|discriminate]. simpl in *.
  destruct (store g !! r) as [b|] eqn:Hb; [|discriminate].
  injection H as H. exists r, b. auto.
Qed.

Lemma endPlain_returns k g :
  is_Some ((k' ← peekBlockKind 0; assert (bool_decide (k' = Some k));;
            endBlock;; mret tt) g)
  <-> topIs g k = true.
Proof.
  rewrite guard_run. destruct (topIs g k).
  - split; [reflexivity | intros _].
    rewrite bind_run, endBlock_run, ret_run. eauto.
  - split; [intros [x Hx]; discriminate | discriminate].
Qed.

Lemma endLoop_returns k g :
  is_Some ((k' ← peekBlockKind 0; assert (bool_decide (k' = Some k));;
            popped ← endBlock;
            '(_, block) ← deref popped;
            let breakLabel := breakLabel block in
            if positive breakLabel then markLabelField breakLabel else mret tt) g)
  <-> topIs g k = true.
Proof.
  rewrite guard_run. destruct (topIs g k) eqn:Ht.
  - split; [reflexivity | intros _].
    apply topIs_true in Ht as (r & b & Hh & Hb & _ & _).
    rewrite bind_run, endBlock_run, bind_run, Hh.
    unfold deref. change (store (endedState g)) with (store g). rewrite Hb.
    cbv zeta. destruct (positive (breakLabel b));
      [apply Total_markLabelField | apply Total_ret].
  - split; [intros [x Hx]; discriminate | discriminate].
Qed.

Lemma is_Some_returns {A B : Type} (m : M A) (f : A -> B) g :
  is_Some ((x ← m; mret (f x)) g) <-> is_Some (m g).
Proof.
  rewrite bind_run. destruct (m g) as [[x g1]|].
  - split; intros _; eauto.
  - split; intros [x Hx]; discriminate.
Qed.

Lemma is_Some_returnsNothing (m : M unit) g :
  is_Some (returnsNothing m g) <-> is_Some (m g).
Proof. apply (is_Some_returns m (fun _ => VUndefined)). Qed.

Lemma beginCatchBlock_returns variable g :
  is_Some (beginCatchBlock variable g)
  <-> topIs g Exception && stateBelow (topBlock g ≫= state) Catch = true.
Proof.
  unfold beginCatchBlock. rewrite guard_run.
  destruct (topIs g Exception) eqn:Ht; simpl.
  2:{ split; [intros [x Hx]; discriminate | discriminate]. }
  apply topIs_true in Ht as (r & b & Hh & Hb & _ & Htop).
  rewrite Htop. simpl. rewrite bind_run.
  change (peekBlock 0 g) with (Some (blockStack g !! 0%nat, g)).
  cbv beta iota. rewrite <- head_lookup, Hh, bind_run.
  unfold deref at 1. rewrite Hb. cbv beta iota.
  rewrite bind_run.
  destruct (stateBelow (state b) Catch); simpl.
  - split; [reflexivity | intros _]. revert g Hh Hb Htop. 
    intros g _ _ _. generalize g. change (Total
      (emit OpBreak [ofLabel (endLabel b)];;
       catchLabel ← defineLabel;
       markLabel catchLabel;;
       updateBlock r (set_blockState (Some Catch));;
       updateBlock r (set_catchVariable (Some variable));;
       updateBlock r (set_catchLabel (Some catchLabel));;
       emit Statement
         [VString catchAssignText; VObject [("variable", variable)]])).
    total.
  - split; [intros [x Hx]; discriminate | discriminate].
Qed.

Lemma beginFinallyBlock_returns g :
  is_Some (beginFinallyBlock g)
  <-> topIs g Exception && stateBelow (topBlock g ≫= state) Finally = true.
Proof.
  unfold beginFinallyBlock. rewrite guard_run.
  destruct (topIs g Exception) eqn:Ht; simpl.
  2:{ split; [intros [x Hx]; discriminate | discriminate]. }
  apply topIs_true in Ht as (r & b & Hh & Hb & _ & Htop).
  rewrite Htop. simpl. rewrite bind_run.
  change (peekBlock 0 g) with (Some (blockStack g !! 0%nat, g)).
  cbv beta iota. rewrite <- head_lookup, Hh, bind_run.
  unfold deref at 1. rewrite Hb. cbv beta iota.
  rewrite bind_run.
  destruct (stateBelow (state b) Finally); simpl.
  - split; [reflexivity | intros _].
    generalize g. change (Total
      (emit OpBreak [ofLabel (endLabel b)];;
       finallyLabel ← defineLabel;
       markLabel finallyLabel;;
       updateBlock r (set_blockState (Some Finally));;
       updateBlock r (set_finallyLabel (Some finallyLabel)))).
    total.
  - split; [intros [x Hx]; discriminate | discriminate].
Qed.

Lemma endExceptionBlock_returns g :
  is_Some (endExceptionBlock g) <-> topIs g Exception = true.
Proof.
  unfold endExceptionBlock. rewrite guard_run.
  destruct (topIs g Exception) eqn:Ht.
  - split; [reflexivity | intros _].
    apply topIs_true in Ht as (r & b & Hh & Hb & _ & _).
    rewrite bind_run, endBlock_run, bind_run, Hh.
    unfold deref at 1. change (store (endedState g)) with (store g).
    rewrite Hb. cbv beta iota.
    generalize (endedState g). change (Total
      ((if stateBelow (state b) Finally
        then emit OpBreak [ofLabel (endLabel b)]
        else emit Endfinally []);;
       markLabelField (endLabel b);;
       updateBlock r (set_blockState (Some Done)))).
    apply Total_bind; [destruct (stateBelow (state b) Finally); auto with total|].
    intros ?. total.
  - split; [intros [x Hx]; discriminate | discriminate].
Qed.

(** X7. Which calls of the recorder throw. [beginCatchBlock] returns
    exactly when the top of the live stack is an exception block whose
    state is below [Catch], [beginFinallyBlock] exactly when it is an
    exception block whose state is below [Finally], and each of the five
    [end...Block] calls exactly when the top of the stack is a block of its
    own kind; on an empty stack all seven throw. Every other call returns
    in every state. *)
Theorem call_returns_iff_ready (c : Command) (g : State) :
  is_Some (exec c g) <-> ready g c = true.
Proof.
  assert (Hyes : forall m : M Value, Total m -> is_Some (m g) <-> true = true).
  { intros m Hm. split; [reflexivity | intros _; apply Hm]. }
  destruct c; cbn [exec ready];
    unfold returnsNothing, returnsLabel, returnsNode.
  - apply Hyes. unfold addFunction. total.
  - apply Hyes. unfold addParameter. total.
  - apply Hyes. total.
  - apply Hyes. total.
  - apply Hyes. total.
  - apply Hyes. unfold beginExceptionBlock. total.
  - rewrite is_Some_returns. apply beginCatchBlock_returns.
  - rewrite is_Some_returns. apply beginFinallyBlock_returns.
  - rewrite is_Some_returns. apply endExceptionBlock_returns.
  - apply Hyes. unfold beginScriptContinueBlock. total.
  - rewrite is_Some_returns. apply endPlain_returns.
  - apply Hyes. unfold beginScriptBreakBlock. total.
  - rewrite is_Some_returns. apply endPlain_returns.
  - apply Hyes. unfold beginContinueBlock. total.
  - rewrite is_Some_returns. apply endLoop_returns.
  - apply Hyes. unfold beginBreakBlock. total.
  - rewrite is_Some_returns. apply endLoop_returns.
  - apply Hyes. total.
  - apply Hyes. total.
  - apply Hyes. unfold pushLocation. total.
  - apply Hyes. unfold popLocation. total.
  - apply Hyes. total.
  - apply Hyes. unfold cacheExpression, createGeneratedNode. total.
Qed.

(** ** Frame reasoning for the recorder

    The states that the primitives of the recorder leave, and a rule: a
    relation between the state before and the state after that every
    primitive write keeps is kept by every call. *)

Definition declaredNode (name : option string) (g : State) : Node :=
  if nonEmpty name
  then GeneratedNode (default EmptyString name) VUndefined (relatedLocation g)
  else GeneratedNode
         (String.append "__l" (NilZero.string_of_int (Z.to_int (nextLocalId g))))
         VUndefined (relatedLocation g).

Definition declaredState (name : option string) (g : State) : State :=
  if nonEmpty name
  then set_namedLocals (namedLocals g ++ [declaredNode name g]) g
  else set_locals (locals g ++ [declaredNode name g])
         (set_nextLocalId (nextLocalId g + 1) g).

Definition locatedState (l : Location) (g : State) : State :=
  match l with
  | Some _ => set_relatedLocation l g
  | None => g
  end.

Definition pushedState (l : Location) (g : State) : State :=
  locatedState l (set_locationStack (relatedLocation g :: locationStack g) g).

Definition poppedState (g : State) : State :=
  locatedState (mjoin (head (locationStack g)))
    (set_locationStack (tail (locationStack g)) g).

Lemma declareLocal_run name g :
  declareLocal name g = Some (declaredNode name g, declaredState name g).
Proof.
  unfold declareLocal, declaredState, declaredNode.
  destruct (nonEmpty name); reflexivity.
Qed.

Lemma setLocation_run l g : setLocation l g = Some (tt, locatedState l g).
Proof. destruct l; reflexivity. Qed.

Lemma pushLocation_run l g : pushLocation l g = Some (tt, pushedState l g).
Proof.
  unfold pushLocation. rewrite bind_run, modify_run. apply setLocation_run.
Qed.

Lemma popLocation_run g : popLocation g = Some (tt, poppedState g).
Proof.
  unfold popLocation. rewrite bind_run.
  change (gets (fun g0 => head (locationStack g0)) g)
    with (Some (head (locationStack g), g)).
  cbv beta iota. rewrite bind_run, modify_run. apply setLocation_run.
Qed.

(** The calls that add to [parameters], [functions], [locals] or
    [namedLocals]. *)
Definition addsSymbol (c : Command) : bool :=
  match c with
  | AddFunction _ | AddParameter _ _ | DeclareLocal _ | CacheExpression _ =>
      true
  | _ => false
  end.

(** The call that sets [hasProtectedRegions]. *)
Definition beginsException (c : Command) : bool :=
  match c with BeginExceptionBlock => true | _ => false end.

(** The calls that assign [relatedLocation] or [locationStack]. *)
Definition touchesLocation (c : Command) : bool :=
  match c with
  | PushLocation _ | PopLocation | SetLocation _ => true
  | _ => false
  end.

Section Frames.

Variable R : State -> State -> Prop.
Hypothesis R_refl : forall g, R g g.
Hypothesis R_trans : forall g1 g2 g3, R g1 g2 -> R g2 g3 -> R g1 g3.

Hypothesis W_parameters : forall v g, R g (set_parameters v g).
Hypothesis W_functions : forall v g, R g (set_functions v g).
Hypothesis W_declared : forall name g, R g (declaredState name g).
Hypothesis W_defined : forall g, R g (definedState g).
Hypothesis W_marked : forall l g, R g (markedState l g).
Hypothesis W_appended : forall code args g, R g (appendedState code args g).
Hypothesis W_located : forall l g, R g (set_relatedLocation l g).
Hypothesis W_stack : forall v g, R g (set_locationStack v g).
Hypothesis W_begun : forall b g, R g (begunState b g).
Hypothesis W_ended : forall g, R g (endedState g).
Hypothesis W_updated : forall r f g, R g (updatedState r f g).
Hypothesis W_protected : forall g, R g (set_hasProtectedRegions true g).

Definition Keeps {A : Type} (m : M A) : Prop :=
  forall g x g', m g = Some (x, g') -> R g g'.

Lemma Keeps_ret {A : Type} (x : A) : Keeps (mret x : M A).
Proof. intros g y g' H. injection H as _ <-. apply R_refl. Qed.

Lemma Keeps_gets {A : Type} (f : State -> A) : Keeps (gets f).
Proof. intros g y g' H. injection H as _ <-. apply R_refl. Qed.

Lemma Keeps_assert b : Keeps (assert b).
Proof. intros g y g' H. apply assert_inv in H as [_ ->]. apply R_refl. Qed.

Lemma Keeps_deref r : Keeps (deref r).
Proof.
  intros g [ref b] g' H. apply deref_inv in H as (_ & _ & ->). apply R_refl.
Qed.

Lemma Keeps_bind {A B : Type} (m : M A) (f : A -> M B) :
  Keeps m -> (forall x, Keeps (f x)) -> Keeps (m ≫= f).
Proof.
  intros Hm Hf g y g' H. apply bind_inv in H as (x & g1 & H1 & H2).
  eapply R_trans; [eapply Hm | eapply Hf]; eauto.
Qed.

Lemma Keeps_located l g : R g (locatedState l g).
Proof. destruct l; [apply W_located | apply R_refl]. Qed.

Lemma Keeps_addParameter name flags : Keeps (addParameter name flags).
Proof. intros g x g' H. injection H as _ <-. apply W_parameters. Qed.

Lemma Keeps_addFunction func : Keeps (addFunction func).
Proof. intros g x g' H. injection H as _ <-. apply W_functions. Qed.

Lemma Keeps_declareLocal name : Keeps (declareLocal name).
Proof.
  intros g x g' H. rewrite declareLocal_run in H. injection H as _ <-.
  apply W_declared.
Qed.

Lemma Keeps_defineLabel : Keeps defineLabel.
Proof.
  intros g x g' H. rewrite defineLabel_run in H. injection H as _ <-.
  apply W_defined.
Qed.

Lemma Keeps_markLabel l : Keeps (markLabel l).
Proof.
  intros g x g' H. rewrite markLabel_run in H. injection H as _ <-.
  apply W_marked.
Qed.

Lemma Keeps_appendOperation code args : Keeps (appendOperation code args).
Proof.
  intros g x g' H. rewrite appendOperation_run in H. injection H as _ <-.
  apply W_appended.
Qed.

Lemma Keeps_setLocation l : Keeps (setLocation l).
Proof.
  intros g x g' H. rewrite setLocation_run in H. injection H as _ <-.
  apply Keeps_located.
Qed.

Lemma Keeps_pushLocation l : Keeps (pushLocation l).
Proof.
  intros g x g' H. rewrite pushLocation_run in H. injection H as _ <-.
  eapply R_trans; [apply W_stack | apply Keeps_located].
Qed.

Lemma Keeps_popLocation : Keeps popLocation.
Proof.
  intros g x g' H. rewrite popLocation_run in H. injection H as _ <-.
  eapply R_trans; [apply W_stack | apply Keeps_located].
Qed.

Lemma Keeps_beginBlock b : Keeps (beginBlock b).
Proof.
  intros g x g' H. rewrite beginBlock_run in H. injection H as _ <-.
  apply W_begun.
Qed.

Lemma Keeps_endBlock : Keeps endBlock.
Proof.
  intros g x g' H. rewrite endBlock_run in H. injection H as _ <-.
  apply W_ended.
Qed.

Lemma Keeps_updateBlock r f : Keeps (updateBlock r f).
Proof.
  intros g x g' H. rewrite updateBlock_run in H. injection H as _ <-.
  apply W_updated.
Qed.

Lemma Keeps_protect : Keeps (modify (set_hasProtectedRegions true)).
Proof. intros g x g' H. injection H as _ <-. apply W_protected. Qed.

Lemma Keeps_markLabelField l : Keeps (markLabelField l).
Proof. destruct l; [apply Keeps_markLabel | apply Keeps_ret]. Qed.

Lemma Keeps_emit code args : Keeps (emit code args).
Proof.
  intros g y g' H.
  destruct (emit_cases code args g) as (args' & _ & [(He & _)|(He & _)]);
    rewrite He in H.
  - injection H as _ <-. apply R_refl.
  - eapply Keeps_appendOperation, H.
Qed.

Lemma Keeps_emitNode n : Keeps (emitNode n).
Proof.
  induction n as [k st text children IH| | |] using Node_children_ind;
    simpl; try apply Keeps_emit.
  destruct (isBlockLike k); [|apply Keeps_emit].
  induction IH as [|c cs Hc _ IHcs]; [apply Keeps_ret|].
  apply Keeps_bind; [exact Hc | intros _; exact IHcs].
Qed.

Ltac keeps_step :=
  lazymatch goal with
  | |- Keeps (mret _) => apply Keeps_ret
  | |- Keeps (gets _) => apply Keeps_gets
  | |- Keeps (assert _) => apply Keeps_assert
  | |- Keeps (deref _) => apply Keeps_deref
  | |- Keeps (emit _ _) => apply Keeps_emit
  | |- Keeps (emitNode _) => apply Keeps_emitNode
  | |- Keeps (markLabelField _) => apply Keeps_markLabelField
  | |- Keeps (addParameter _ _) => apply Keeps_addParameter
  | |- Keeps (addFunction _) => apply Keeps_addFunction
  | |- Keeps (declareLocal _) => apply Keeps_declareLocal
  | |- Keeps defineLabel => apply Keeps_defineLabel
  | |- Keeps (markLabel _) => apply Keeps_markLabel
  | |- Keeps (setLocation _) => apply Keeps_setLocation
  | |- Keeps (pushLocation _) => apply Keeps_pushLocation
  | |- Keeps popLocation => apply Keeps_popLocation
  | |- Keeps (beginBlock _) => apply Keeps_beginBlock
  | |- Keeps endBlock => apply Keeps_endBlock
  | |- Keeps (updateBlock _ _) => apply Keeps_updateBlock
  | |- Keeps (modify (set_hasProtectedRegions true)) => apply Keeps_protect
  | |- Keeps (_ ≫= _) => apply Keeps_bind; [|intros ?]
  | |- Keeps (let '(_, _) := ?x in _) => destruct x
  | |- Keeps (if ?b then _ else _) => destruct b
  end.

Ltac keeps := repeat keeps_step.

Lemma Keeps_exec c : Keeps (exec c).
Proof.
  destruct c; cbn [exec]; unfold returnsNothing, returnsLabel, returnsNode;
    unfold beginExceptionBlock, beginCatchBlock, beginFinallyBlock,
      endExceptionBlock, beginScriptContinueBlock, endScriptContinueBlock,
      beginScriptBreakBlock, endScriptBreakBlock, beginContinueBlock,
      endContinueBlock, beginBreakBlock, endBreakBlock, cacheExpression,
      peekBlockKind, peekBlock, createGeneratedNode;
    keeps.
Qed.

Lemma Keeps_run cs : forall g g', run cs g = Some g' -> R g g'.
Proof.
  induction cs as [|c cs IH]; intros g g' H.
  - injection H as <-. apply R_refl.
  - rewrite run_cons in H.
    destruct (exec c g) as [[v g1]|] eqn:He; [|discriminate].
    eapply R_trans; [eapply Keeps_exec; eauto | eapply IH; eauto].
Qed.

(** The calls other than [setLocation], [pushLocation] and [popLocation]
    need nothing of the writes to the location variables. *)
Lemma Keeps_exec_plain c : touchesLocation c = false -> Keeps (exec c).
Proof.
  intros Hc.
  destruct c; try discriminate; cbn [exec];
    unfold returnsNothing, returnsLabel, returnsNode;
    unfold beginExceptionBlock, beginCatchBlock, beginFinallyBlock,
      endExceptionBlock, beginScriptContinueBlock, endScriptContinueBlock,
      beginScriptBreakBlock, endScriptBreakBlock, beginContinueBlock,
      endContinueBlock, beginBreakBlock, endBreakBlock, cacheExpression,
      peekBlockKind, peekBlock, createGeneratedNode;
    keeps.
Qed.

Lemma Keeps_run_plain cs :
  Forall (fun c => touchesLocation c = false) cs ->
  forall g g', run cs g = Some g' -> R g g'.
Proof.
  induction 1 as [|c cs Hc _ IH]; intros g g' H.
  - injection H as <-. apply R_refl.
  - rewrite run_cons in H.
    destruct (exec c g) as [[v g1]|] eqn:He; [|discriminate].
    eapply R_trans; [eapply Keeps_exec_plain; eauto | eapply IH; eauto].
Qed.

(** The calls other than [addFunction], [addParameter], [declareLocal]
    and [cacheExpression] need nothing of the writes to the symbol
    tables. *)
Lemma Keeps_exec_other c : addsSymbol c = false -> Keeps (exec c).
Proof.
  intros Hc.
  destruct c; try discriminate; cbn [exec];
    unfold returnsNothing, returnsLabel, returnsNode;
    unfold beginExceptionBlock, beginCatchBlock, beginFinallyBlock,
      endExceptionBlock, beginScriptContinueBlock, endScriptContinueBlock,
      beginScriptBreakBlock, endScriptBreakBlock, beginContinueBlock,
      endContinueBlock, beginBreakBlock, endBreakBlock,
      peekBlockKind, peekBlock, createGeneratedNode;
    keeps.
Qed.

(** The calls other than [beginExceptionBlock] need nothing of the write
    to [hasProtectedRegions]. *)
Lemma Keeps_exec_unprotected c : beginsException c = false -> Keeps (exec c).
Proof.
  intros Hc.
  destruct c; try discriminate; cbn [exec];
    unfold returnsNothing, returnsLabel, returnsNode;
    unfold beginCatchBlock, beginFinallyBlock,
      endExceptionBlock, beginScriptContinueBlock, endScriptContinueBlock,
      beginScriptBreakBlock, endScriptBreakBlock, beginContinueBlock,
      endContinueBlock, beginBreakBlock, endBreakBlock, cacheExpression,
      peekBlockKind, peekBlock, createGeneratedNode;
    keeps.
Qed.

End Frames.

(** ** The operation log is append-only *)

(** From [g] to [g'] the three arrays of the operation log have grown by
    the same number of entries. *)
Definition LogGrows (g g' : State) : Prop :=
  exists codes args locs,
    operations g' = operations g ++ codes
    /\ operationArguments g' = operationArguments g ++ args
    /\ operationLocations g' = operationLocations g ++ locs
    /\ length args = length codes /\ length locs = length codes.

Lemma LogGrows_same g g' :
  operations g' = operations g ->
  operationArguments g' = operationArguments g ->
  operationLocations g' = operationLocations g ->
  LogGrows g g'.
Proof.
  intros H1 H2 H3. exists [], [], []. rewrite !app_nil_r. auto.
Qed.

Lemma LogGrows_refl g : LogGrows g g.
Proof. apply LogGrows_same; reflexivity. Qed.

Lemma LogGrows_trans g1 g2 g3 : LogGrows g1 g2 -> LogGrows g2 g3 -> LogGrows g1 g3.
Proof.
  intros (c1 & a1 & l1 & H1 & H2 & H3 & H4 & H5)
         (c2 & a2 & l2 & H6 & H7 & H8 & H9 & H10).
  exists (c1 ++ c2), (a1 ++ a2), (l1 ++ l2).
  rewrite H6, H7, H8, H1, H2, H3, !app_assoc, !length_app. repeat split; lia.
Qed.

Lemma LogGrows_appended code args g : LogGrows g (appendedState code args g).
Proof. exists [code], [args], [relatedLocation g]. repeat split. Qed.

Lemma LogGrows_declared name g : LogGrows g (declaredState name g).
Proof.
  unfold declaredState. destruct (nonEmpty name); apply LogGrows_same; reflexivity.
Qed.

Lemma run_LogGrows cs g g' : run cs g = Some g' -> LogGrows g g'.
Proof.
  apply (Keeps_run LogGrows LogGrows_refl LogGrows_trans);
    try (intros; apply LogGrows_same; reflexivity).
  - apply LogGrows_declared.
  - apply LogGrows_appended.
Qed.

(** X8. The operation log is append-only and its three arrays stay in
    step. When calls [cs'] follow a recording [cs], the arrays
    [operations], [operationArguments] and [operationLocations] still have
    one length, and every index recorded by [cs] holds the opcode, the
    arguments and the location it held: no call rewrites or removes a
    recorded operation. *)
Theorem operation_log_append_only (cs cs' : list Command) (g g' : State) :
  Recording cs g ->
  run cs' g = Some g' ->
  length (operationArguments g') = length (operations g')
  /\ length (operationLocations g') = length (operations g')
  /\ forall i, (i < length (operations g))%nat ->
       operations g' !! i = operations g !! i
       /\ operationArguments g' !! i = operationArguments g !! i
       /\ operationLocations g' !! i = operationLocations g !! i.
Proof.
  intros Hrec Hrun.
  destruct (run_LogGrows cs createCodeGenerator g Hrec)
    as (c0 & a0 & l0 & H1 & H2 & H3 & H4 & H5).
  simpl in H1, H2, H3.
  destruct (run_LogGrows cs' g g' Hrun)
    as (c1 & a1 & l1 & H6 & H7 & H8 & H9 & H10).
  assert (Ha : length (operationArguments g) = length (operations g))
    by (rewrite H1, H2; exact H4).
  assert (Hl : length (operationLocations g) = length (operations g))
    by (rewrite H1, H3; exact H5).
  rewrite H6, H7, H8, !length_app. repeat split; try lia.
  - apply lookup_app_l. lia.
  - apply lookup_app_l. lia.
  - apply lookup_app_l. lia.
Qed.

Lemma operation_log_append_only_witness :
  let cs := [Emit Yield [VNumber 1]] in
  let cs' := [BeginExceptionBlock; Emit Return []; EndExceptionBlock] in
  Recording cs (after cs)
  /\ run cs' (after cs) = Some (after (cs ++ cs'))
  /\ length (operationArguments (after (cs ++ cs')))
     = length (operations (after (cs ++ cs')))
  /\ length (operationLocations (after (cs ++ cs')))
     = length (operations (after (cs ++ cs')))
  /\ forall i, (i < length (operations (after cs)))%nat ->
       operations (after (cs ++ cs')) !! i = operations (after cs) !! i
       /\ operationArguments (after (cs ++ cs')) !! i
          = operationArguments (after cs) !! i
       /\ operationLocations (after (cs ++ cs')) !! i
          = operationLocations (after cs) !! i.
Proof.
  cbv zeta. split; [vm_compute; reflexivity|].
  split; [vm_compute; reflexivity|].
  apply (operation_log_append_only
           [Emit Yield [VNumber 1]]
           [BeginExceptionBlock; Emit Return []; EndExceptionBlock]
           (after [Emit Yield [VNumber 1]])
           (after ([Emit Yield [VNumber 1]]
                   ++ [BeginExceptionBlock; Emit Return []; EndExceptionBlock])));
    vm_compute; reflexivity.
Defined.

(** ** Anonymous locals *)

(** The name ["__l" + n] of the [n]-th anonymous local. *)
Definition anonymousName (n : Z) : string :=
  String.append "__l" (NilZero.string_of_int (Z.to_int n)).

Definition generatedText (n : Node) : option string :=
  match n with
  | GeneratedNode text _ _ => Some text
  | _ => None
  end.

Lemma to_int_not_nil (z : Z) :
  Z.to_int z <> Decimal.Pos Decimal.Nil /\ Z.to_int z <> Decimal.Neg Decimal.Nil.
Proof.
  destruct z as [|p|p]; simpl; split; try discriminate; intros H;
    injection H as H; exact (DecimalPos.Unsigned.to_uint_nonnil p H).
Qed.

Lemma anonymousName_inj (n m : Z) : anonymousName n = anonymousName m -> n = m.
Proof.
  unfold anonymousName. intros H.
  cbv beta iota delta [String.append] in H. injection H as H.
  apply DecimalZ.to_int_inj.
  destruct (to_int_not_nil n) as [Hn1 Hn2], (to_int_not_nil m) as [Hm1 Hm2].
  pose proof (NilZero.isi _ Hn1 Hn2) as H1.
  pose proof (NilZero.isi _ Hm1 Hm2) as H2.
  rewrite H in H1. rewrite H1 in H2. injection H2 as H2. exact H2.
Qed.

(** [nextLocalId] counts the anonymous locals, and the [i]-th of them is
    the generated node ["__l" + i]. *)
Definition LocalsNamed (g : State) : Prop :=
  nextLocalId g = Z.of_nat (length (locals g))
  /\ forall i n, locals g !! i = Some n ->
       exists l, n = GeneratedNode (anonymousName (Z.of_nat i)) VUndefined l.

Lemma LocalsNamed_declared name g :
  LocalsNamed g -> LocalsNamed (declaredState name g).
Proof.
  intros [Hid Hnames]. unfold declaredState, declaredNode.
  destruct (nonEmpty name); [split; assumption|]. split.
  - simpl. rewrite length_app. simpl. lia.
  - intros i n Hi. simpl in Hi.
    apply lookup_snoc_Some in Hi as [[_ Hi]|[Hi <-]]; [eauto|].
    exists (relatedLocation g). unfold anonymousName.
    rewrite Hid, Hi. reflexivity.
Qed.

Lemma run_LocalsNamed cs g g' :
  run cs g = Some g' -> LocalsNamed g -> LocalsNamed g'.
Proof.
  apply (Keeps_run (fun g g' => LocalsNamed g -> LocalsNamed g'));
    try (intros; assumption).
  - intros g1 g2 g3 H1 H2 H. auto.
  - apply LocalsNamed_declared.
Qed.

(** X9. In every recording [nextLocalId] is the number of anonymous
    locals, the [i]-th anonymous local is the generated node named
    ["__l" + i], whichever calls were made in between, and no two
    anonymous locals have the same name. *)
Theorem anonymous_locals_named (cs : list Command) (g : State) :
  Recording cs g ->
  nextLocalId g = Z.of_nat (length (locals g))
  /\ (forall i n, locals g !! i = Some n ->
        exists l, n = GeneratedNode (anonymousName (Z.of_nat i)) VUndefined l)
  /\ (forall i j n m,
        locals g !! i = Some n -> locals g !! j = Some m ->
        generatedText n = generatedText m -> i = j).
Proof.
  intros Hrec.
  destruct (run_LocalsNamed cs createCodeGenerator g Hrec) as [Hid Hnames].
  { split; [reflexivity | intros i n H; discriminate]. }
  split; [exact Hid|]. split; [exact Hnames|].
  intros i j n m Hi Hj Htext.
  destruct (Hnames i n Hi) as [l ->], (Hnames j m Hj) as [l' ->].
  cbn [generatedText] in Htext.
  assert (Hname : anonymousName (Z.of_nat i) = anonymousName (Z.of_nat j))
    by congruence.
  apply anonymousName_inj in Hname. lia.
Qed.

Lemma anonymous_locals_named_witness :
  let cs := [DeclareLocal None; DeclareLocal (Some "x");
             CacheExpression (VNumber 1)] in
  Recording cs (after cs)
  /\ nextLocalId (after cs) = Z.of_nat (length (locals (after cs)))
  /\ (forall i n, locals (after cs) !! i = Some n ->
        exists l, n = GeneratedNode (anonymousName (Z.of_nat i)) VUndefined l)
  /\ (forall i j n m,
        locals (after cs) !! i = Some n -> locals (after cs) !! j = Some m ->
        generatedText n = generatedText m -> i = j).
Proof.
  cbv zeta. split; [vm_compute; reflexivity|].
  apply (anonymous_locals_named
           [DeclareLocal None; DeclareLocal (Some "x");
            CacheExpression (VNumber 1)]
           (after [DeclareLocal None; DeclareLocal (Some "x");
                   CacheExpression (VNumber 1)])).
  vm_compute; reflexivity.
Defined.

(** ** Block objects only advance *)

(** The numeric value of [state], [-1] standing for a block without the
    field. *)
Definition rankOf (s : option ExceptionBlockState) : Z :=
  match s with
  | Some x => stateRank x
  | None => -1
  end.

(** From [g] to [g'] every block object is still there, with its kind and
    its labels, and its exception state has not gone back. *)
Definition Evolves (g g' : State) : Prop :=
  forall r b,
    store g !! r = Some b ->
    exists b',
      store g' !! r = Some b'
      /\ kind b' = kind b /\ startLabel b' = startLabel b
      /\ endLabel b' = endLabel b /\ breakLabel b' = breakLabel b
      /\ continueLabel b' = continueLabel b /\ labelText b' = labelText b
      /\ rankOf (state b) <= rankOf (state b').

Lemma Evolves_same g g' : store g' = store g -> Evolves g g'.
Proof.
  intros Hs r b Hb. exists b. rewrite Hs. repeat split; try assumption. lia.
Qed.

Lemma Evolves_refl g : Evolves g g.
Proof. apply Evolves_same. reflexivity. Qed.

Lemma Evolves_trans g1 g2 g3 : Evolves g1 g2 -> Evolves g2 g3 -> Evolves g1 g3.
Proof.
  intros H1 H2 r b Hb.
  destruct (H1 r b Hb) as (b1 & Hb1 & E1 & E2 & E3 & E4 & E5 & E6 & E7).
  destruct (H2 r b1 Hb1) as (b2 & Hb2 & F1 & F2 & F3 & F4 & F5 & F6 & F7).
  exists b2. repeat split; try congruence. lia.
Qed.

Lemma Evolves_snoc g g' b : store g' = store g ++ [b] -> Evolves g g'.
Proof.
  intros Hs r x Hx. exists x. rewrite Hs. split.
  - apply lookup_app_l_Some. exact Hx.
  - repeat split. lia.
Qed.

Lemma Evolves_alter g g' r b (f : BlockScope -> BlockScope) :
  store g' = alter f r (store g) ->
  store g !! r = Some b ->
  kind (f b) = kind b -> startLabel (f b) = startLabel b ->
  endLabel (f b) = endLabel b -> breakLabel (f b) = breakLabel b ->
  continueLabel (f b) = continueLabel b -> labelText (f b) = labelText b ->
  rankOf (state b) <= rankOf (state (f b)) ->
  Evolves g g'.
Proof.
  intros Hs Hb E1 E2 E3 E4 E5 E6 E7 i x Hx. rewrite Hs.
  destruct (decide (i = r)) as [->|Hne].
  - rewrite Hb in Hx. injection Hx as <-. exists (f b).
    rewrite list_lookup_alter_eq, Hb. repeat split; assumption.
  - exists x. rewrite list_lookup_alter_ne by congruence.
    repeat split; try assumption. lia.
Qed.

Lemma rankOf_below s bound :
  stateBelow s bound = true -> rankOf s <= stateRank bound.
Proof.
  destruct s as [x|]; simpl; [|discriminate]. intros H.
  apply Z.ltb_lt in H. lia.
Qed.

Lemma rankOf_done s : rankOf s <= stateRank Done.
Proof. destruct s as [[]|]; simpl; lia. Qed.

Lemma Step_Evolves strict g f g' : Step strict g f g' -> Evolves g g'.
Proof.
  intros Hstep. destruct Hstep.
  - apply Evolves_same, kept_store. assumption.
  - apply Evolves_same. reflexivity.
  - apply Evolves_same. reflexivity.
  - eapply Evolves_snoc. reflexivity.
  - eapply Evolves_snoc. reflexivity.
  - apply Evolves_same. reflexivity.
  - apply Evolves_same.
    destruct (positive (breakLabel b)); [|reflexivity].
    destruct (breakLabel b); reflexivity.
  - eapply Evolves_snoc. reflexivity.
  - eapply (Evolves_alter g _ r b); [apply store_beginCatchState | eassumption
      | reflexivity | reflexivity | reflexivity | reflexivity | reflexivity
      | reflexivity |].
    apply (rankOf_below _ Catch). assumption.
  - eapply (Evolves_alter g _ r b); [apply store_beginFinallyState | eassumption
      | reflexivity | reflexivity | reflexivity | reflexivity | reflexivity
      | reflexivity |].
    apply (rankOf_below _ Finally). assumption.
  - eapply (Evolves_alter g _ r b); [apply store_endExceptionState | eassumption
      | reflexivity | reflexivity | reflexivity | reflexivity | reflexivity
      | reflexivity |].
    apply rankOf_done.
Qed.

Lemma run_Evolves cs : forall g g', run cs g = Some g' -> Evolves g g'.
Proof.
  induction cs as [|c cs IH]; intros g g' H.
  - injection H as <-. apply Evolves_refl.
  - rewrite run_cons in H.
    destruct (exec c g) as [[v g1]|] eqn:He; [|discriminate].
    eapply Evolves_trans; [|eapply IH; eauto].
    eapply (Step_Evolves false), exec_Step; [exact He | discriminate].
Qed.

(** X10. Block objects only advance. Whatever calls follow, a block
    object of the store is still there with the kind, the start, end,
    break and continue labels and the label text it had, and the [state]
    of an exception block never goes back along
    [Try < Catch < Finally < Done]. *)
Theorem blocks_only_advance (cs : list Command) (g g' : State)
    (r : BlockRef) (b : BlockScope) :
  run cs g = Some g' ->
  store g !! r = Some b ->
  exists b',
    store g' !! r = Some b'
    /\ kind b' = kind b /\ startLabel b' = startLabel b
    /\ endLabel b' = endLabel b /\ breakLabel b' = breakLabel b
    /\ continueLabel b' = continueLabel b /\ labelText b' = labelText b
    /\ rankOf (state b) <= rankOf (state b').
Proof. intros Hrun Hb. exact (run_Evolves cs g g' Hrun r b Hb). Qed.

Lemma blocks_only_advance_witness :
  let g := after [BeginExceptionBlock] in
  let cs := [BeginFinallyBlock; EndExceptionBlock] in
  run cs g = Some (after ([BeginExceptionBlock] ++ cs))
  /\ store g !! 0%nat = Some (exceptionBlock 2 3)
  /\ exists b',
       store (after ([BeginExceptionBlock] ++ cs)) !! 0%nat = Some b'
       /\ kind b' = kind (exceptionBlock 2 3)
       /\ startLabel b' = startLabel (exceptionBlock 2 3)
       /\ endLabel b' = endLabel (exceptionBlock 2 3)
       /\ breakLabel b' = breakLabel (exceptionBlock 2 3)
       /\ continueLabel b' = continueLabel (exceptionBlock 2 3)
       /\ labelText b' = labelText (exceptionBlock 2 3)
       /\ rankOf (state (exceptionBlock 2 3)) <= rankOf (state b').
Proof.
  cbv zeta. split; [vm_compute; reflexivity|].
  split; [vm_compute; reflexivity|].
  apply (blocks_only_advance
           [BeginFinallyBlock; EndExceptionBlock]
           (after [BeginExceptionBlock])
           (after ([BeginExceptionBlock]
                   ++ [BeginFinallyBlock; EndExceptionBlock]))
           0%nat (exceptionBlock 2 3));
    vm_compute; reflexivity.
Defined.

(** ** A block and the label it hands out *)

Lemma topIs_intro g r b :
  head (blockStack g) = Some r -> store g !! r = Some b ->
  topIs g (kind b) = true.
Proof.
  intros Hh Hb. unfold topIs, topBlock. rewrite Hh. simpl. rewrite Hb.
  apply bool_decide_eq_true_2. reflexivity.
Qed.

Lemma endLoop_run k g r b :
  head (blockStack g) = Some r -> store g !! r = Some b -> kind b = k ->
  (k' ← peekBlockKind 0; assert (bool_decide (k' = Some k));;
   popped ← endBlock;
   '(_, block) ← deref popped;
   let breakLabel := breakLabel block in
   if positive breakLabel then markLabelField breakLabel else mret tt) g
  = Some (tt, if positive (breakLabel b)
              then markedFieldState (breakLabel b) (endedState g)
              else endedState g).
Proof.
  intros Hh Hb <-. rewrite guard_run, (topIs_intro g r b Hh Hb).
  rewrite bind_run, endBlock_run, bind_run, Hh.
  unfold deref. change (store (endedState g)) with (store g). rewrite Hb.
  cbv zeta. destruct (positive (breakLabel b)); [|reflexivity].
  destruct (breakLabel b); reflexivity.
Qed.

Lemma endBreakBlock_run g r b :
  head (blockStack g) = Some r -> store g !! r = Some b -> kind b = Break ->
  endBreakBlock g
  = Some (tt, if positive (breakLabel b)
              then markedFieldState (breakLabel b) (endedState g)
              else endedState g).
Proof. apply endLoop_run. Qed.

Lemma endContinueBlock_run g r b :
  head (blockStack g) = Some r -> store g !! r = Some b -> kind b = Continue ->
  endContinueBlock g
  = Some (tt, if positive (breakLabel b)
              then markedFieldState (breakLabel b) (endedState g)
              else endedState g).
Proof. apply endLoop_run. Qed.

Lemma endExceptionBlock_run g r b :
  head (blockStack g) = Some r -> store g !! r = Some b ->
  kind b = Exception ->
  endExceptionBlock g = Some (tt, endExceptionState r b g).
Proof.
  intros Hh Hb Hk. unfold endExceptionBlock.
  rewrite guard_run, <- Hk, (topIs_intro g r b Hh Hb).
  rewrite bind_run, endBlock_run, bind_run, Hh.
  unfold deref at 1. change (store (endedState g)) with (store g). rewrite Hb.
  cbv beta iota. unfold endExceptionState, markLabelField, markedFieldState.
  destruct (stateBelow (state b) Finally);
    [rewrite bind_run, emit_label_run by discriminate
    |rewrite bind_run, emit_nothing_run by discriminate];
    destruct (endLabel b);
    rewrite bind_run, ?markLabel_run, ?ret_run, updateBlock_run; reflexivity.
Qed.

(** The call that closes the block a call opens. *)
Definition closing (c : Command) : option Command :=
  match c with
  | BeginBreakBlock _ => Some EndBreakBlock
  | BeginContinueBlock _ _ => Some EndContinueBlock
  | BeginExceptionBlock => Some EndExceptionBlock
  | _ => None
  end.

Lemma labels_marked_get l g :
  0 <= l -> array_get (labels (markedState l g)) l = Some (operationCount g).
Proof. intros Hl. simpl. apply array_get_set_eq. exact Hl. Qed.

(** The block that a call opens, and the label the call returns. *)
Lemma opening_block c e g l g1 :
  closing c = Some e ->
  exec c g = Some (VNumber l, g1) ->
  0 < nextLabelId g ->
  exists b,
    store g1 !! length (store g) = Some b /\ 0 < l
    /\ ((e = EndBreakBlock /\ kind b = Break /\ breakLabel b = Some l)
        \/ (e = EndContinueBlock /\ kind b = Continue /\ breakLabel b = Some l)
        \/ (e = EndExceptionBlock /\ kind b = Exception /\ endLabel b = Some l)).
Proof.
  intros Hc He Hnext.
  destruct c; try discriminate; injection Hc as <-; cbn [exec] in He;
    unfold returnsLabel in He; rewrite bind_run in He.
  - rewrite beginExceptionBlock_run in He. rewrite ret_run in He.
    injection He as <- <-.
    exists (exceptionBlock (nextLabelId g) (nextLabelId g + 1)).
    split; [|split; [lia | right; right; auto]].
    change (store (beginExceptionState g))
      with (store g ++ [exceptionBlock (nextLabelId g) (nextLabelId g + 1)]).
    apply list_lookup_middle. reflexivity.
  - unfold beginContinueBlock in He.
    rewrite (beginLoop_run Continue text (Some continueLabel0)) in He.
    rewrite ret_run in He. injection He as <- <-.
    eexists. split; [apply list_lookup_middle; reflexivity|].
    split; [lia | right; left; auto].
  - unfold beginBreakBlock in He.
    rewrite (beginLoop_run Break text None) in He.
    rewrite ret_run in He. injection He as <- <-.
    eexists. split; [apply list_lookup_middle; reflexivity|].
    split; [lia | left; auto].
Qed.

(** X11. A block binds the label that opening it returned.
    [beginBreakBlock], [beginContinueBlock] and [beginExceptionBlock]
    return a label; whatever is recorded in between, when the block they
    pushed is on top of the live stack again, the matching
    [endBreakBlock], [endContinueBlock] or [endExceptionBlock] returns,
    pops that block and leaves the label bound to the end of the
    operation log: the position right after everything recorded for the
    block. *)
Theorem block_binds_its_label (c e : Command) (cs : list Command)
    (g g1 g2 : State) (l : Z) :
  closing c = Some e ->
  0 < nextLabelId g ->
  exec c g = Some (VNumber l, g1) ->
  run cs g1 = Some g2 ->
  head (blockStack g2) = Some (length (store g)) ->
  exists g3,
    exec e g2 = Some (VUndefined, g3)
    /\ array_get (labels g3) l = Some (operationCount g3)
    /\ blockStack g3 = tail (blockStack g2).
Proof.
  intros Hc Hnext He Hrun Htop.
  destruct (opening_block c e g l g1 Hc He Hnext) as (b & Hb & Hl & Hcase).
  destruct (run_Evolves cs g1 g2 Hrun _ b Hb)
    as (b2 & Hb2 & Ek & _ & Eend & Ebreak & _).
  destruct Hcase as [(-> & Hk & Hlab)|[(-> & Hk & Hlab)|(-> & Hk & Hlab)]];
    cbn [exec]; unfold returnsNothing; rewrite bind_run.
  - rewrite (endBreakBlock_run g2 _ b2 Htop Hb2) by congruence.
    rewrite Ebreak, Hlab. simpl.
    apply Z.ltb_lt in Hl as Hpos. rewrite Hpos. rewrite ret_run.
    eexists. split; [reflexivity|]. split; [|reflexivity].
    apply array_get_set_eq. lia.
  - rewrite (endContinueBlock_run g2 _ b2 Htop Hb2) by congruence.
    rewrite Ebreak, Hlab. simpl.
    apply Z.ltb_lt in Hl as Hpos. rewrite Hpos. rewrite ret_run.
    eexists. split; [reflexivity|]. split; [|reflexivity].
    apply array_get_set_eq. lia.
  - rewrite (endExceptionBlock_run g2 _ b2 Htop Hb2) by congruence.
    rewrite ret_run. eexists. split; [reflexivity|].
    unfold endExceptionState. rewrite Eend, Hlab.
    split.
    + destruct (stateBelow (state b2) Finally); simpl;
        apply array_get_set_eq; lia.
    + destruct (stateBelow (state b2) Finally); reflexivity.
Qed.

Lemma block_binds_its_label_witness :
  let g := createCodeGenerator in
  let cs := [Emit Yield []; BeginBreakBlock None; EndBreakBlock] in
  closing BeginExceptionBlock = Some EndExceptionBlock
  /\ 0 < nextLabelId g
  /\ exec BeginExceptionBlock g
     = Some (VNumber 3, after [BeginExceptionBlock])
  /\ run cs (after [BeginExceptionBlock])
     = Some (after (BeginExceptionBlock :: cs))
  /\ head (blockStack (after (BeginExceptionBlock :: cs)))
     = Some (length (store g))
  /\ exists g3,
       exec EndExceptionBlock (after (BeginExceptionBlock :: cs))
       = Some (VUndefined, g3)
       /\ array_get (labels g3) 3 = Some (operationCount g3)
       /\ blockStack g3 = tail (blockStack (after (BeginExceptionBlock :: cs))).
Proof.
  cbv zeta. split; [reflexivity|]. split; [vm_compute; reflexivity|].
  split; [vm_compute; reflexivity|]. split; [vm_compute; reflexivity|].
  split; [vm_compute; reflexivity|].
  apply (block_binds_its_label BeginExceptionBlock EndExceptionBlock
           [Emit Yield []; BeginBreakBlock None; EndBreakBlock]
           createCodeGenerator (after [BeginExceptionBlock])
           (after [BeginExceptionBlock; Emit Yield []; BeginBreakBlock None;
                   EndBreakBlock]) 3);
    vm_compute; reflexivity.
Defined.

(** ** Break and continue targets after a block is pushed *)

(** Every reference on the live stack names a block of the store. *)
Definition Grounded (g : State) : Prop :=
  forall r, r ∈ blockStack g -> (r < length (store g))%nat.

Lemma Grounded_same g g' :
  length (store g') = length (store g) -> blockStack g' = blockStack g ->
  Grounded g -> Grounded g'.
Proof. unfold Grounded. intros -> ->. auto. Qed.

Lemma Grounded_begun b g : Grounded g -> Grounded (begunState b g).
Proof.
  intros G r Hr. simpl in *. rewrite length_app. simpl.
  apply elem_of_cons in Hr as [->|Hr]; [lia|]. specialize (G r Hr). lia.
Qed.

Lemma Grounded_ended g : Grounded g -> Grounded (endedState g).
Proof.
  intros G r Hr. apply G. simpl in Hr.
  destruct (blockStack g); [inversion Hr | right; exact Hr].
Qed.

Lemma Grounded_updated r f g : Grounded g -> Grounded (updatedState r f g).
Proof. apply Grounded_same; [apply length_alter | reflexivity]. Qed.

Lemma Grounded_define g : Grounded g -> Grounded (definedState g).
Proof. apply Grounded_same; reflexivity. Qed.

Lemma Grounded_mark l g : Grounded g -> Grounded (markedState l g).
Proof. apply Grounded_same; reflexivity. Qed.

Lemma Grounded_markField l g : Grounded g -> Grounded (markedFieldState l g).
Proof. destruct l; [apply Grounded_mark | auto]. Qed.

Lemma Grounded_appended code args g :
  Grounded g -> Grounded (appendedState code args g).
Proof. apply Grounded_same; reflexivity. Qed.

Lemma Grounded_flag v g : Grounded g -> Grounded (set_hasProtectedRegions v g).
Proof. apply Grounded_same; reflexivity. Qed.

Lemma Grounded_step strict g f g' : Step strict g f g' -> Grounded g -> Grounded g'.
Proof.
  intros Hstep G. destruct Hstep.
  - destruct H as [K1 _ K3 _ _ _ _ _ _ _].
    apply (Grounded_same g); [rewrite K1; reflexivity | exact K3 | exact G].
  - apply Grounded_define, G.
  - apply Grounded_mark, G.
  - apply Grounded_begun, G.
  - apply Grounded_begun, Grounded_define, G.
  - apply Grounded_ended, G.
  - destruct (positive (breakLabel b));
      [apply Grounded_markField|]; apply Grounded_ended, G.
  - unfold beginExceptionState. cbv zeta.
    apply Grounded_flag, Grounded_begun, Grounded_mark, Grounded_define,
      Grounded_define, G.
  - unfold beginCatchState. cbv zeta.
    apply Grounded_appended. do 3 apply Grounded_updated.
    apply Grounded_mark, Grounded_define, Grounded_appended, G.
  - unfold beginFinallyState. cbv zeta.
    do 2 apply Grounded_updated.
    apply Grounded_mark, Grounded_define, Grounded_appended, G.
  - unfold endExceptionState.
    apply Grounded_updated, Grounded_markField.
    destruct (stateBelow (state b) Finally);
      apply Grounded_appended, Grounded_ended, G.
Qed.

Lemma Recording_Grounded cs g : Recording cs g -> Grounded g.
Proof.
  intros H. apply Recording_Traced in H.
  induction H as [|fs g f g' Ht IH Hs].
  - intros r Hr. inversion Hr.
  - eapply Grounded_step; eauto.
Qed.

Lemma liveBlocks_snoc g g' b :
  Grounded g -> store g' = store g ++ [b] -> blockStack g' = blockStack g ->
  liveBlocks g' = liveBlocks g.
Proof.
  intros G Hs Hst. unfold liveBlocks. rewrite Hs, Hst.
  apply list_omap_ext, Forall_Forall2_diag, Forall_forall.
  intros r Hr. apply lookup_app_l, G, Hr.
Qed.

Lemma liveBlocks_begun b g :
  Grounded g -> liveBlocks (begunState b g) = b :: liveBlocks g.
Proof.
  intros G. unfold liveBlocks at 1.
  change (blockStack (begunState b g)) with (length (store g) :: blockStack g).
  change (store (begunState b g)) with (store g ++ [b]).
  simpl. rewrite list_lookup_middle by reflexivity. f_equal.
  apply (liveBlocks_snoc g (set_store (store g ++ [b]) g) b G);
    reflexivity.
Qed.

Lemma liveBlocks_same g g' :
  store g' = store g -> blockStack g' = blockStack g ->
  liveBlocks g' = liveBlocks g.
Proof. unfold liveBlocks. intros -> ->. reflexivity. Qed.

Lemma liveBlocks_flag v g :
  liveBlocks (set_hasProtectedRegions v g) = liveBlocks g.
Proof. reflexivity. Qed.

Lemma liveBlocks_marked l g : liveBlocks (markedState l g) = liveBlocks g.
Proof. reflexivity. Qed.

Lemma liveBlocks_defined g : liveBlocks (definedState g) = liveBlocks g.
Proof. reflexivity. Qed.

(** X12. Break and continue targets after a loop block is pushed. On a
    recording, after [beginBreakBlock(text)] returned the label [l],
    [findBreakTarget(q)] returns [l] when [q] is empty or equal to [text]
    and otherwise what it returned before, and [findContinueTarget] is
    unchanged: a break block is no continue target. After
    [beginContinueBlock(c, text)] returned [l], the same holds for
    [findBreakTarget], and [findContinueTarget(q)] returns [c] when [q] is
    empty or equal to [text] and otherwise what it returned before. *)
Theorem targets_after_loop_block (cs : list Command) (g g' : State)
    (text q : option string) (c l : Z) :
  Recording cs g ->
  (beginBreakBlock text g = Some (l, g') ->
   findBreakTarget g' q
   = (if negb (nonEmpty q) || bool_decide (text = q)
      then Some l else findBreakTarget g q)
   /\ findContinueTarget g' q = findContinueTarget g q)
  /\ (beginContinueBlock c text g = Some (l, g') ->
      findBreakTarget g' q
      = (if negb (nonEmpty q) || bool_decide (text = q)
         then Some l else findBreakTarget g q)
      /\ findContinueTarget g' q
         = (if negb (nonEmpty q) || bool_decide (text = q)
            then Some c else findContinueTarget g q)).
Proof.
  intros Hrec. pose proof (Recording_Grounded cs g Hrec) as G.
  assert (Gd : Grounded (definedState g)) by apply Grounded_define, G.
  assert (Hlive : forall b, liveBlocks (begunState b (definedState g))
                            = b :: liveBlocks g).
  { intros b. rewrite (liveBlocks_begun b _ Gd), liveBlocks_defined.
    reflexivity. }
  split; intros He.
  - unfold beginBreakBlock in He.
    rewrite (beginLoop_run Break text None) in He. injection He as <- <-.
    unfold findBreakTarget, findContinueTarget. rewrite Hlive.
    split; reflexivity.
  - unfold beginContinueBlock in He.
    rewrite (beginLoop_run Continue text (Some c)) in He.
    injection He as <- <-.
    unfold findBreakTarget, findContinueTarget. rewrite Hlive.
    split; reflexivity.
Qed.

Lemma targets_after_loop_block_witness :
  let cs := [BeginBreakBlock (Some "outer")] in
  Recording cs (after cs)
  /\ (beginBreakBlock None (after cs)
      = Some (3, after (cs ++ [BeginBreakBlock None])) ->
      findBreakTarget (after (cs ++ [BeginBreakBlock None])) (Some "outer")
      = (if negb (nonEmpty (Some "outer")) || bool_decide (None = Some "outer")
         then Some 3 else findBreakTarget (after cs) (Some "outer"))
      /\ findContinueTarget (after (cs ++ [BeginBreakBlock None])) (Some "outer")
         = findContinueTarget (after cs) (Some "outer"))
  /\ (beginContinueBlock 1 None (after cs)
      = Some (3, after (cs ++ [BeginBreakBlock None])) ->
      findBreakTarget (after (cs ++ [BeginBreakBlock None])) (Some "outer")
      = (if negb (nonEmpty (Some "outer")) || bool_decide (None = Some "outer")
         then Some 3 else findBreakTarget (after cs) (Some "outer"))
      /\ findContinueTarget (after (cs ++ [BeginBreakBlock None])) (Some "outer")
         = (if negb (nonEmpty (Some "outer"))
               || bool_decide (None = Some "outer")
            then Some 1 else findContinueTarget (after cs) (Some "outer"))).
Proof.
  cbv zeta. split; [vm_compute; reflexivity|].
  apply (targets_after_loop_block
           [BeginBreakBlock (Some "outer")]
           (after [BeginBreakBlock (Some "outer")])
           (after ([BeginBreakBlock (Some "outer")] ++ [BeginBreakBlock None]))
           None (Some "outer") 1 3).
  vm_compute; reflexivity.
Defined.

(** X13. An exception block is transparent to break and continue
    resolution: on a recording, [findBreakTarget] and [findContinueTarget]
    return after [beginExceptionBlock] what they returned before it, for
    every label text. *)
Theorem targets_through_exception_block (cs : list Command) (g g' : State)
    (q : option string) (l : Z) :
  Recording cs g ->
  beginExceptionBlock g = Some (l, g') ->
  findBreakTarget g' q = findBreakTarget g q
  /\ findContinueTarget g' q = findContinueTarget g q.
Proof.
  intros Hrec He. pose proof (Recording_Grounded cs g Hrec) as G.
  rewrite beginExceptionBlock_run in He. injection He as <- <-.
  assert (Hlive : liveBlocks (beginExceptionState g)
                  = exceptionBlock (nextLabelId g) (nextLabelId g + 1)
                    :: liveBlocks g).
  { unfold beginExceptionState. cbv zeta.
    rewrite liveBlocks_flag, liveBlocks_begun
      by (apply Grounded_mark, Grounded_define, Grounded_define, G).
    rewrite liveBlocks_marked, !liveBlocks_defined. reflexivity. }
  unfold findBreakTarget, findContinueTarget. rewrite Hlive.
  split; reflexivity.
Qed.

Lemma targets_through_exception_block_witness :
  let cs := [BeginContinueBlock 1 (Some "loop")] in
  Recording cs (after cs)
  /\ beginExceptionBlock (after cs)
     = Some (4, after (cs ++ [BeginExceptionBlock]))
  /\ findBreakTarget (after (cs ++ [BeginExceptionBlock])) (Some "loop")
     = findBreakTarget (after cs) (Some "loop")
  /\ findContinueTarget (after (cs ++ [BeginExceptionBlock])) (Some "loop")
     = findContinueTarget (after cs) (Some "loop").
Proof.
  cbv zeta. split; [vm_compute; reflexivity|].
  split; [vm_compute; reflexivity|].
  apply (targets_through_exception_block
           [BeginContinueBlock 1 (Some "loop")]
           (after [BeginContinueBlock 1 (Some "loop")])
           (after ([BeginContinueBlock 1 (Some "loop")] ++ [BeginExceptionBlock]))
           (Some "loop") 4);
    vm_compute; reflexivity.
Defined.

(** ** The scope of a location *)

(** From [g] to [g'] the location variables are as they were, and every
    operation recorded was stamped with [relatedLocation]. *)
Definition Stamped (g g' : State) : Prop :=
  relatedLocation g' = relatedLocation g
  /\ locationStack g' = locationStack g
  /\ exists n,
       operationLocations g'
       = operationLocations g ++ replicate n (relatedLocation g).

Lemma Stamped_same g g' :
  relatedLocation g' = relatedLocation g ->
  locationStack g' = locationStack g ->
  operationLocations g' = operationLocations g ->
  Stamped g g'.
Proof.
  intros H1 H2 H3. split; [exact H1|]. split; [exact H2|].
  exists 0%nat. rewrite H3, app_nil_r. reflexivity.
Qed.

Lemma Stamped_trans g1 g2 g3 : Stamped g1 g2 -> Stamped g2 g3 -> Stamped g1 g3.
Proof.
  intros (H1 & H2 & n & H3) (H4 & H5 & m & H6).
  split; [congruence|]. split; [congruence|].
  exists (n + m)%nat. rewrite H6, H3, H1, replicate_add, app_assoc. reflexivity.
Qed.

Lemma run_Stamped cs g g' :
  Forall (fun c => touchesLocation c = false) cs ->
  run cs g = Some g' -> Stamped g g'.
Proof.
  intros Hcs. revert g g'.
  apply (Keeps_run_plain Stamped); try exact Hcs;
    try (intros; apply Stamped_same; reflexivity).
  - exact Stamped_trans.
  - intros name g. unfold declaredState.
    destruct (nonEmpty name); apply Stamped_same; reflexivity.
  - intros code args g. split; [reflexivity|]. split; [reflexivity|].
    exists 1%nat. reflexivity.
Qed.

(** X14. The scope of a location. Between [pushLocation(l)] and
    [popLocation()], with calls in between that do not touch the location,
    every operation recorded is stamped with [l] (with the location
    current before the push when [l] is [undefined]). The pop restores
    [locationStack]; it restores [relatedLocation] when one was set before
    the push, and otherwise leaves [l] in place, since [setLocation] ignores
    the [undefined] that was saved. *)
Theorem location_scope (l : Location) (cs : list Command)
    (g g1 g2 g3 : State) :
  forallb (fun c => negb (touchesLocation c)) cs = true ->
  pushLocation l g = Some (tt, g1) ->
  run cs g1 = Some g2 ->
  popLocation g2 = Some (tt, g3) ->
  locationStack g3 = locationStack g
  /\ relatedLocation g3
     = match relatedLocation g with Some _ => relatedLocation g | None => l end
  /\ exists n,
       operationLocations g2
       = operationLocations g
         ++ replicate n (match l with Some _ => l | None => relatedLocation g end).
Proof.
  intros Hplain Hpush Hrun Hpop.
  assert (Hcs : Forall (fun c => touchesLocation c = false) cs).
  { apply Forall_forall. intros c Hc.
    rewrite forallb_forall in Hplain. apply negb_true_iff, Hplain.
    apply list_elem_of_In. exact Hc. }
  rewrite pushLocation_run in Hpush. injection Hpush as <-.
  rewrite popLocation_run in Hpop. injection Hpop as <-.
  destruct (run_Stamped cs _ g2 Hcs Hrun) as (H1 & H2 & n & H3).
  assert (Hstack : locationStack g2 = relatedLocation g :: locationStack g)
    by (rewrite H2; destruct l; reflexivity).
  assert (Hrel : relatedLocation g2
                 = match l with Some _ => l | None => relatedLocation g end)
    by (rewrite H1; destruct l; reflexivity).
  assert (Hlocs : operationLocations (pushedState l g) = operationLocations g)
    by (destruct l; reflexivity).
  unfold poppedState. rewrite Hstack. simpl.
  split; [|split].
  - destruct (relatedLocation g); reflexivity.
  - destruct (relatedLocation g) as [x|] eqn:Hx; simpl; [reflexivity|].
    rewrite Hrel. destruct l; reflexivity.
  - exists n. rewrite H3, Hlocs. f_equal. f_equal.
    destruct l; reflexivity.
Qed.

Lemma location_scope_witness :
  let cs := [Emit Yield []; BeginBreakBlock None; Emit Return []] in
  let g := createCodeGenerator in
  forallb (fun c => negb (touchesLocation c)) cs = true
  /\ pushLocation (Some (1, 5)) g = Some (tt, after [PushLocation (Some (1, 5))])
  /\ run cs (after [PushLocation (Some (1, 5))])
     = Some (after (PushLocation (Some (1, 5)) :: cs))
  /\ popLocation (after (PushLocation (Some (1, 5)) :: cs))
     = Some (tt, after (PushLocation (Some (1, 5)) :: cs ++ [PopLocation]))
  /\ locationStack (after (PushLocation (Some (1, 5)) :: cs ++ [PopLocation]))
     = locationStack g
  /\ relatedLocation (after (PushLocation (Some (1, 5)) :: cs ++ [PopLocation]))
     = match relatedLocation g with
       | Some _ => relatedLocation g
       | None => Some (1, 5)
       end
  /\ exists n,
       operationLocations (after (PushLocation (Some (1, 5)) :: cs))
       = operationLocations g ++ replicate n (Some (1, 5)).
Proof.
  cbv zeta.
  split; [reflexivity|].
  split; [vm_compute; reflexivity|].
  split; [vm_compute; reflexivity|].
  split; [vm_compute; reflexivity|].
  apply (location_scope (Some (1, 5))
           [Emit Yield []; BeginBreakBlock None; Emit Return []]
           createCodeGenerator
           (after [PushLocation (Some (1, 5))])
           (after (PushLocation (Some (1, 5))
                   :: [Emit Yield []; BeginBreakBlock None; Emit Return []]))
           (after (PushLocation (Some (1, 5))
                   :: [Emit Yield []; BeginBreakBlock None; Emit Return []]
                      ++ [PopLocation])));
    [reflexivity | vm_compute; reflexivity | vm_compute; reflexivity
     | vm_compute; reflexivity].
Defined.

(** ** What [emitNode] records *)

(** The statements of a tree in order, block-like nodes being replaced by
    their statements. *)
Fixpoint leaves (n : Node) : list Node :=
  match n with
  | SourceNode k _ _ statements =>
      if isBlockLike k
      then (fix each (l : list Node) : list Node :=
              match l with
              | [] => []
              | x :: rest => leaves x ++ each rest
              end) statements
      else [n]
  | _ => [n]
  end.

(** The state after [Statement] operations for the nodes [ns]. *)
Definition recordedStatements (ns : list Node) (g : State) : State :=
  fold_left (fun g n => appendedState Statement [VNode n] g) ns g.

Lemma emit_node_run n g :
  emit Statement [VNode n] g = Some (tt, appendedState Statement [VNode n] g).
Proof. reflexivity. Qed.

Lemma emitNode_run n :
  forall g, emitNode n g = Some (tt, recordedStatements (leaves n) g).
Proof.
  induction n as [k st text children IH| | |] using Node_children_ind;
    intros g; simpl; try apply emit_node_run.
  destruct (isBlockLike k); [|apply emit_node_run].
  revert g. induction IH as [|c cs Hc _ IHcs]; intros g; [reflexivity|].
  rewrite bind_run, Hc, IHcs. unfold recordedStatements.
  rewrite fold_left_app. reflexivity.
Qed.

Lemma recordedStatements_log ns :
  forall g,
    operations (recordedStatements ns g)
    = operations g ++ replicate (length ns) Statement
    /\ operationArguments (recordedStatements ns g)
       = operationArguments g ++ ((fun n => [VNode n]) <$> ns)
    /\ operationLocations (recordedStatements ns g)
       = operationLocations g ++ replicate (length ns) (relatedLocation g).
Proof.
  induction ns as [|n ns IH]; intros g.
  - simpl. rewrite !app_nil_r. auto.
  - destruct (IH (appendedState Statement [VNode n] g)) as (H1 & H2 & H3).
    change (recordedStatements (n :: ns) g)
      with (recordedStatements ns (appendedState Statement [VNode n] g)).
    rewrite H1, H2, H3. simpl. rewrite <- !app_assoc. auto.
Qed.

(** X15. [emitNode] flattens block-like nodes. Whatever the tree, the
    call returns, and it appends one [Statement] operation for every
    statement of the tree that is not itself a block, function block, try,
    catch or finally block or a case or default clause, in source order,
    with that node as only argument and the current location; an empty
    block records nothing. *)
Theorem emitNode_flattens (n : Node) (g : State) :
  exists g',
    emitNode n g = Some (tt, g')
    /\ operations g' = operations g ++ replicate (length (leaves n)) Statement
    /\ operationArguments g'
       = operationArguments g ++ ((fun x => [VNode x]) <$> leaves n)
    /\ operationLocations g'
       = operationLocations g
         ++ replicate (length (leaves n)) (relatedLocation g).
Proof.
  exists (recordedStatements (leaves n) g).
  split; [apply emitNode_run | apply recordedStatements_log].
Qed.

(** ** The shape of the assembled body *)

(** A node that may stand in a statement list: a statement of the input
    tree, an expression statement or a generated fragment. *)
Definition statementLike (n : Node) : bool :=
  isStatement (VNode n) || isGeneratedNode (VNode n).

Lemma asStatement_statementLike v l : statementLike (asStatement v l) = true.
Proof.
  unfold asStatement, statementLike.
  destruct v as [| | | | |n| |]; try reflexivity.
  destruct n as [k st text children| | |]; try reflexivity.
  destruct st; reflexivity.
Qed.

Lemma operationNode_statementLike code args l :
  statementLike (operationNode code args l) = true.
Proof.
  destruct code; simpl; try reflexivity.
  - apply asStatement_statementLike.
  - unfold inlineYield. destruct (truthy (argument args 0)); reflexivity.
  - unfold inlineReturn. destruct (truthy (argument args 0)); reflexivity.
Qed.

Lemma eventNodes_statementLike g l evs :
  Forall (fun n => statementLike n = true) (concat (eventNodes g l <$> evs)).
Proof.
  induction evs as [|[[action offset] block] evs IH]; simpl; [constructor|].
  apply Forall_app. split; [|exact IH].
  destruct action, block as [r|]; simpl; try constructor.
  destruct (store g !! r); try constructor.
  destruct (bool_decide _); repeat constructor.
Qed.

Lemma allNodes_ensureLabels g i a :
  allNodes (ensureLabels g i a)
  = allNodes a ++ (if labelMarkedAt g i then fixupOf i a ++ initOf g a else []).
Proof.
  destruct (labelMarkedAt g i) eqn:Hm.
  - rewrite ensureLabels_marked by exact Hm. rewrite allNodes_openCase.
    reflexivity.
  - rewrite ensureLabels_unmarked by exact Hm. rewrite app_nil_r. reflexivity.
Qed.

Lemma ensureLabels_statementLike g i a :
  Forall (fun n => statementLike n = true) (allNodes a) ->
  Forall (fun n => statementLike n = true) (allNodes (ensureLabels g i a)).
Proof.
  intros H. rewrite allNodes_ensureLabels. apply Forall_app. split; [exact H|].
  destruct (labelMarkedAt g i); [|constructor].
  apply Forall_app. split.
  - unfold fixupOf. destruct (_ && _); repeat constructor.
  - unfold initOf. destruct (_ && _); repeat constructor.
Qed.

Lemma assembleUpTo_statementLike g k :
  Forall (fun n => statementLike n = true) (allNodes (assembleUpTo g k)).
Proof.
  induction k as [|k IH]; [constructor|].
  rewrite assembleUpTo_S. unfold assembleOperation.
  destruct (operations g !! k) as [code|]; [|exact IH]. cbv zeta.
  rewrite allNodes_writeOperation. apply Forall_app. split.
  - apply ensureLabels_statementLike. exact IH.
  - unfold operationNodes. apply Forall_app. split.
    + apply eventNodes_statementLike.
    + destruct (gated _); repeat constructor.
      apply operationNode_statementLike.
Qed.

Lemma assemble_statementLike g :
  Forall (fun n => statementLike n = true) (allNodes (assemble g)).
Proof.
  unfold assemble. cbv zeta.
  pose proof (ensureLabels_statementLike g (length (operations g)) _
                (assembleUpTo_statementLike g (length (operations g)))) as H.
  destruct (instructionWasCompletion _); [exact H|].
  rewrite writeReturn_spec, allNodes_pushStatement.
  apply Forall_app. split; [exact H | repeat constructor].
Qed.

(** X16. Whatever was recorded, every node of every clause of the
    assembled body is a statement of the input tree, an expression
    statement or a generated fragment: [writeStatement] wraps every other
    payload of a [Statement] operation in an expression statement before
    it reaches a clause. *)
Theorem body_holds_statements (g : State) (clause : Clause) (n : Node) :
  clause ∈ buildFunctionBody g ->
  n ∈ clauseStatements clause ->
  statementLike n = true.
Proof.
  intros Hc Hn.
  pose proof (assemble_statementLike g) as H.
  rewrite Forall_forall in H. apply H.
  unfold allNodes. apply elem_of_app. right.
  apply list_elem_of_In, in_concat. exists (clauseStatements clause). split.
  - apply list_elem_of_In, list_elem_of_fmap. exists clause. auto.
  - apply list_elem_of_In. exact Hn.
Qed.

Lemma body_holds_statements_witness :
  let g := after [Emit Statement [VNumber 7]] in
  let clause :=
    mkClause (caseLabel 0 None)
      [ExpressionStatement (VNumber 7) None;
       GeneratedNode returnText VUndefined None] None in
  clause ∈ buildFunctionBody g
  /\ ExpressionStatement (VNumber 7) None ∈ clauseStatements clause
  /\ statementLike (ExpressionStatement (VNumber 7) None) = true.
Proof.
  cbv zeta.
  assert (H1 : mkClause (caseLabel 0 None)
                 [ExpressionStatement (VNumber 7) None;
                  GeneratedNode returnText VUndefined None] None
               ∈ buildFunctionBody (after [Emit Statement [VNumber 7]]))
    by (vm_compute; left).
  assert (H2 : ExpressionStatement (VNumber 7) None
               ∈ clauseStatements
                   (mkClause (caseLabel 0 None)
                      [ExpressionStatement (VNumber 7) None;
                       GeneratedNode returnText VUndefined None] None))
    by (simpl; left).
  split; [exact H1|]. split; [exact H2|].
  exact (body_holds_statements _ _ _ H1 H2).
Defined.

(** X17. The clauses of the assembled body are numbered from [0] in
    steps of one: there is one clause for every position of the operation
    log, the end of the log included, to which some label is bound, and
    the clause at index [N] is [case N:]. *)
Theorem switch_cases_numbered (g : State) :
  length (buildFunctionBody g) = length (caseStarts g)
  /\ forall N c,
       buildFunctionBody g !! N = Some c ->
       exists l, clauseLabel c = caseLabel N l.
Proof.
  split; [apply buildFunctionBody_length|].
  intros N c Hc. exact (buildFunctionBody_numbered g N c Hc).
Qed.

(** ** Labels are handed out once *)

Lemma run_nextLabelId cs g g' :
  run cs g = Some g' -> nextLabelId g <= nextLabelId g'.
Proof.
  apply (Keeps_run (fun g g' => nextLabelId g <= nextLabelId g'));
    try (intros; apply Z.le_refl).
  - intros g1 g2 g3. apply Z.le_trans.
  - intros name g0. unfold declaredState.
    destruct (nonEmpty name); apply Z.le_refl.
  - intros g0. simpl. lia.
Qed.

(** The calls that return a label. *)
Definition returnsFreshLabel (c : Command) : bool :=
  match c with
  | DefineLabel | BeginExceptionBlock | BeginContinueBlock _ _
  | BeginBreakBlock _ => true
  | _ => false
  end.

Lemma fresh_label_range c g l g' :
  returnsFreshLabel c = true ->
  exec c g = Some (VNumber l, g') ->
  nextLabelId g <= l < nextLabelId g'.
Proof.
  intros Hc He.
  destruct c; try discriminate; cbn [exec] in He;
    unfold returnsLabel in He; rewrite bind_run in He.
  - rewrite defineLabel_run, ret_run in He. injection He as <- <-. simpl. lia.
  - rewrite beginExceptionBlock_run, ret_run in He. injection He as <- <-.
    change (nextLabelId (beginExceptionState g)) with (nextLabelId g + 1 + 1).
    lia.
  - unfold beginContinueBlock in He.
    rewrite (beginLoop_run Continue text (Some continueLabel0)), ret_run in He.
    injection He as <- <-. simpl. lia.
  - unfold beginBreakBlock in He.
    rewrite (beginLoop_run Break text None), ret_run in He.
    injection He as <- <-. simpl. lia.
Qed.

(** X18. Labels are handed out once, in increasing order. When
    [defineLabel], [beginBreakBlock], [beginContinueBlock] or
    [beginExceptionBlock] returns a label and, after any further calls, one
    of them returns a label again, the second label is greater than the
    first; and the label a call returns lies between [nextLabelId] before
    the call and [nextLabelId] after it. *)
Theorem labels_handed_out_once (c1 c2 : Command) (cs : list Command)
    (g g1 g2 g3 : State) (l1 l2 : Z) :
  returnsFreshLabel c1 = true ->
  returnsFreshLabel c2 = true ->
  exec c1 g = Some (VNumber l1, g1) ->
  run cs g1 = Some g2 ->
  exec c2 g2 = Some (VNumber l2, g3) ->
  l1 < l2
  /\ nextLabelId g <= l1 < nextLabelId g1
  /\ nextLabelId g2 <= l2 < nextLabelId g3.
Proof.
  intros Hc1 Hc2 He1 Hrun He2.
  pose proof (fresh_label_range c1 g l1 g1 Hc1 He1) as H1.
  pose proof (fresh_label_range c2 g2 l2 g3 Hc2 He2) as H2.
  pose proof (run_nextLabelId cs g1 g2 Hrun) as H3.
  repeat split; lia.
Qed.

Lemma labels_handed_out_once_witness :
  let g := createCodeGenerator in
  returnsFreshLabel BeginExceptionBlock = true
  /\ returnsFreshLabel (BeginBreakBlock None) = true
  /\ exec BeginExceptionBlock g = Some (VNumber 3, after [BeginExceptionBlock])
  /\ run [Emit Yield []] (after [BeginExceptionBlock])
     = Some (after [BeginExceptionBlock; Emit Yield []])
  /\ exec (BeginBreakBlock None) (after [BeginExceptionBlock; Emit Yield []])
     = Some (VNumber 4,
             after [BeginExceptionBlock; Emit Yield []; BeginBreakBlock None])
  /\ 3 < 4
  /\ nextLabelId g <= 3 < nextLabelId (after [BeginExceptionBlock])
  /\ nextLabelId (after [BeginExceptionBlock; Emit Yield []]) <= 4
     < nextLabelId
         (after [BeginExceptionBlock; Emit Yield []; BeginBreakBlock None]).
Proof.
  cbv zeta. split; [reflexivity|]. split; [reflexivity|].
  split; [vm_compute; reflexivity|]. split; [vm_compute; reflexivity|].
  split; [vm_compute; reflexivity|].
  apply (labels_handed_out_once BeginExceptionBlock (BeginBreakBlock None)
           [Emit Yield []] createCodeGenerator
           (after [BeginExceptionBlock])
           (after [BeginExceptionBlock; Emit Yield []])
           (after [BeginExceptionBlock; Emit Yield []; BeginBreakBlock None])
           3 4);
    try reflexivity; vm_compute; reflexivity.
Defined.

(** ** Entering a handler *)

Lemma beginCatchBlock_run variable g r b :
  head (blockStack g) = Some r -> store g !! r = Some b ->
  kind b = Exception -> stateBelow (state b) Catch = true ->
  beginCatchBlock variable g = Some (tt, beginCatchState r b variable g).
Proof.
  intros Hh Hb Hk Hs. unfold beginCatchBlock.
  rewrite guard_run, <- Hk, (topIs_intro g r b Hh Hb).
  rewrite bind_run.
  change (peekBlock 0 g) with (Some (blockStack g !! 0%nat, g)).
  cbv beta iota. rewrite <- head_lookup, Hh, bind_run.
  unfold deref at 1. rewrite Hb. cbv beta iota.
  rewrite bind_run, Hs.
  change (assert true g) with (Some (tt, g)). cbv beta iota.
  rewrite bind_run, emit_label_run by discriminate.
  repeat (rewrite bind_run;
          first [rewrite updateBlock_run | rewrite markLabel_run
                | rewrite defineLabel_run]).
  rewrite emit_text_run. reflexivity.
Qed.

Lemma beginFinallyBlock_run g r b :
  head (blockStack g) = Some r -> store g !! r = Some b ->
  kind b = Exception -> stateBelow (state b) Finally = true ->
  beginFinallyBlock g = Some (tt, beginFinallyState r b g).
Proof.
  intros Hh Hb Hk Hs. unfold beginFinallyBlock.
  rewrite guard_run, <- Hk, (topIs_intro g r b Hh Hb).
  rewrite bind_run.
  change (peekBlock 0 g) with (Some (blockStack g !! 0%nat, g)).
  cbv beta iota. rewrite <- head_lookup, Hh, bind_run.
  unfold deref at 1. rewrite Hb. cbv beta iota.
  rewrite bind_run, Hs.
  change (assert true g) with (Some (tt, g)). cbv beta iota.
  rewrite bind_run, emit_label_run by discriminate.
  repeat (rewrite bind_run;
          first [rewrite updateBlock_run | rewrite markLabel_run
                | rewrite defineLabel_run]).
  rewrite updateBlock_run. reflexivity.
Qed.

(** X19. Entering a [catch] handler. With an exception block in the
    [Try] state on top of the live stack, [beginCatchBlock(variable)]
    returns; it appends [Break endLabel], which skips the handler when the
    [try] body completes, and then the statement
    [${variable} = __state.error;]; it allocates the catch label, binds it
    to the position of that statement, and stores label and variable in
    the block, whose state becomes [Catch]. The live stack is unchanged. *)
Theorem beginCatchBlock_effect (g : State) (r : BlockRef) (b : BlockScope)
    (variable : Value) :
  head (blockStack g) = Some r ->
  store g !! r = Some b ->
  kind b = Exception ->
  state b = Some Try ->
  0 <= nextLabelId g ->
  exists g',
    beginCatchBlock variable g = Some (tt, g')
    /\ operations g' = operations g ++ [OpBreak; Statement]
    /\ operationArguments g'
       = operationArguments g
         ++ [[ofLabel (endLabel b)];
             [VNode (GeneratedNode catchAssignText
                       (VObject [("variable", variable)]) (relatedLocation g))]]
    /\ array_get (labels g') (nextLabelId g) = Some (operationCount g + 1)
    /\ nextLabelId g' = nextLabelId g + 1
    /\ store g' !! r
       = Some (set_catchLabel (Some (nextLabelId g))
                 (set_catchVariable (Some variable)
                    (set_blockState (Some Catch) b)))
    /\ blockStack g' = blockStack g.
Proof.
  intros Hh Hb Hk Hs Hnext.
  exists (beginCatchState r b variable g).
  split; [apply beginCatchBlock_run; try assumption; rewrite Hs; reflexivity|].
  split; [simpl; rewrite <- app_assoc; reflexivity|].
  split; [simpl; rewrite <- app_assoc; reflexivity|].
  split.
  { simpl. rewrite array_get_set_eq by exact Hnext.
    unfold operationCount. simpl. rewrite length_app. simpl. f_equal. lia. }
  split; [reflexivity|].
  split; [|reflexivity].
  rewrite store_beginCatchState, list_lookup_alter_eq, Hb. reflexivity.
Qed.

Lemma beginCatchBlock_effect_witness :
  let g := after [BeginExceptionBlock; Emit Yield []] in
  let b := exceptionBlock 2 3 in
  head (blockStack g) = Some 0%nat
  /\ store g !! 0%nat = Some b
  /\ kind b = Exception /\ state b = Some Try /\ 0 <= nextLabelId g
  /\ exists g',
       beginCatchBlock (VString "e") g = Some (tt, g')
       /\ operations g' = operations g ++ [OpBreak; Statement]
       /\ operationArguments g'
          = operationArguments g
            ++ [[ofLabel (endLabel b)];
                [VNode (GeneratedNode catchAssignText
                          (VObject [("variable", VString "e")])
                          (relatedLocation g))]]
       /\ array_get (labels g') (nextLabelId g) = Some (operationCount g + 1)
       /\ nextLabelId g' = nextLabelId g + 1
       /\ store g' !! 0%nat
          = Some (set_catchLabel (Some (nextLabelId g))
                    (set_catchVariable (Some (VString "e"))
                       (set_blockState (Some Catch) b)))
       /\ blockStack g' = blockStack g.
Proof.
  cbv zeta. split; [vm_compute; reflexivity|].
  split; [vm_compute; reflexivity|]. split; [reflexivity|].
  split; [reflexivity|]. split; [vm_compute; discriminate|].
  apply (beginCatchBlock_effect (after [BeginExceptionBlock; Emit Yield []])
           0%nat (exceptionBlock 2 3) (VString "e"));
    try reflexivity; try (vm_compute; reflexivity); vm_compute; discriminate.
Defined.

(** X20. Entering a [finally] handler. With an exception block in the
    [Try] or [Catch] state on top of the live stack, [beginFinallyBlock()]
    returns; it appends [Break endLabel], allocates the finally label and
    binds it to the position after that operation, and stores the label in
    the block, whose state becomes [Finally]; the catch label and the
    live stack are unchanged. *)
Theorem beginFinallyBlock_effect (g : State) (r : BlockRef) (b : BlockScope) :
  head (blockStack g) = Some r ->
  store g !! r = Some b ->
  kind b = Exception ->
  stateBelow (state b) Finally = true ->
  0 <= nextLabelId g ->
  exists g',
    beginFinallyBlock g = Some (tt, g')
    /\ operations g' = operations g ++ [OpBreak]
    /\ operationArguments g' = operationArguments g ++ [[ofLabel (endLabel b)]]
    /\ array_get (labels g') (nextLabelId g) = Some (operationCount g')
    /\ nextLabelId g' = nextLabelId g + 1
    /\ store g' !! r
       = Some (set_finallyLabel (Some (nextLabelId g))
                 (set_blockState (Some Finally) b))
    /\ blockStack g' = blockStack g.
Proof.
  intros Hh Hb Hk Hs Hnext.
  exists (beginFinallyState r b g).
  split; [apply beginFinallyBlock_run; assumption|].
  split; [reflexivity|]. split; [reflexivity|].
  split; [simpl; apply array_get_set_eq; exact Hnext|].
  split; [reflexivity|].
  split; [|reflexivity].
  rewrite store_beginFinallyState, list_lookup_alter_eq, Hb. reflexivity.
Qed.

Lemma beginFinallyBlock_effect_witness :
  let g := after [BeginExceptionBlock; Emit Yield []] in
  let b := exceptionBlock 2 3 in
  head (blockStack g) = Some 0%nat
  /\ store g !! 0%nat = Some b
  /\ kind b = Exception /\ stateBelow (state b) Finally = true
  /\ 0 <= nextLabelId g
  /\ exists g',
       beginFinallyBlock g = Some (tt, g')
       /\ operations g' = operations g ++ [OpBreak]
       /\ operationArguments g'
          = operationArguments g ++ [[ofLabel (endLabel b)]]
       /\ array_get (labels g') (nextLabelId g) = Some (operationCount g')
       /\ nextLabelId g' = nextLabelId g + 1
       /\ store g' !! 0%nat
          = Some (set_finallyLabel (Some (nextLabelId g))
                    (set_blockState (Some Finally) b))
       /\ blockStack g' = blockStack g.
Proof.
  cbv zeta. split; [vm_compute; reflexivity|].
  split; [vm_compute; reflexivity|]. split; [reflexivity|].
  split; [reflexivity|]. split; [vm_compute; discriminate|].
  apply (beginFinallyBlock_effect (after [BeginExceptionBlock; Emit Yield []])
           0%nat (exceptionBlock 2 3));
    try reflexivity; try (vm_compute; reflexivity); vm_compute; discriminate.
Defined.

(** * The output builder *)

Definition localsText : string := "var ${locals};".

Definition generatorText : string :=
  Eval cbv in
    cat [lf; spaces 16; "${locals}";
         lf; spaces 16; "@{functions}";
         lf; spaces 16; "return __generator(function (__state) {";
         lf; spaces 20; "switch (__state.label) {";
         lf; spaces 24; "@{body}";
         lf; spaces 20; "}";
         lf; spaces 16; "});"].

Definition asyncText : string :=
  Eval cbv in
    cat [lf; spaces 16; "${locals}";
         lf; spaces 16; "@{functions}";
         lf; spaces 16; "return new ${promise}(function (__resolve) {";
         lf; spaces 20; "__resolve(__awaiter(__generator(function (__state) {";
         lf; spaces 24; "switch (__state.label) {";
         lf; spaces 28; "@{body}";
         lf; spaces 24; "}";
         lf; spaces 20; "})));";
         lf; spaces 16; "});"].

(** Modelled from the spec: [types.ts] is absent. Of [SyntaxKind] these are
    the members that [buildFunction] tells apart; any other kind is [None]
    where a kind is expected. *)
Inductive FunctionForm : Type :=
| FunctionDeclaration | Method | GetAccessor | FunctionExpression
| ArrowFunction.

(** Modelled from the spec: [factory.ts] is absent. [FunctionBlockNode] is what
    [factory.createFunctionBlock(statements, location)] builds and
    [FunctionLike] what the five [factory.create...] calls of
    [buildFunction] build from a name, a block, the parameters and a
    location; an arrow function has no name. *)
Record FunctionBlockNode : Type := mkFunctionBlock {
  blockBody : list Node;
  blockLocation : Location
}.

Record FunctionLike : Type := mkFunction {
  functionForm : FunctionForm;
  functionName : option Value;
  functionBlock : FunctionBlockNode;
  functionParameters : list ParameterDeclaration;
  functionLocation : Location
}.

(** [buildLocals]; without locals the function falls off its end and
    yields [undefined]. *)
Definition buildLocals : M Value :=
  named ← gets namedLocals;
  anonymous ← gets locals;
  if (0 <? length named)%nat || (0 <? length anonymous)%nat
  then
    node ← createGeneratedNode localsText
              (VObject [("locals", VArray (VNode <$> (named ++ anonymous)))]);
    mret (VNode node)
  else mret VUndefined.

(** [buildFunctionBody] as a call on the generator: besides returning the
    clauses it leaves [labelNumbers] resolved and [relatedLocation] at the
    location of the last operation. *)
Definition finalizeBody : M (list Clause) :=
  fun g =>
    let a := assemble g in
    Some (clauses a,
          set_relatedLocation (location a) (set_labelNumbers (numbers a) g)).

Definition buildFunction (kind : option FunctionForm) (name : Value)
    (body : Node) (location : Location) : M (option FunctionLike) :=
  related ← gets relatedLocation;
  params ← gets parameters;
  let block := mkFunctionBlock [body] related in
  mret (match kind with
        | Some ArrowFunction =>
            Some (mkFunction ArrowFunction None block params location)
        | Some form => Some (mkFunction form (Some name) block params location)
        | None => None
        end).

Definition buildGeneratorFunction (kind : option FunctionForm) (name : Value)
    (location : Location) : M (option FunctionLike) :=
  pushLocation location;;
  locals ← buildLocals;
  functions ← gets functions;
  clauses ← finalizeBody;
  body ← createGeneratedNode generatorText
            (VObject [("locals", locals);
                      ("functions", VArray functions);
                      ("body", VArray (VNode ∘ clauseNode <$> clauses))]);
  node ← buildFunction kind name body location;
  popLocation;;
  mret node.

Definition buildAsyncFunction (kind : option FunctionForm) (name : Value)
    (promiseConstructor : Value) (location : Location)
  : M (option FunctionLike) :=
  pushLocation location;;
  locals ← buildLocals;
  functions ← gets functions;
  clauses ← finalizeBody;
  body ← createGeneratedNode asyncText
            (VObject [("locals", locals);
                      ("functions", VArray functions);
                      ("promise", promiseConstructor);
                      ("body", VArray (VNode ∘ clauseNode <$> clauses))]);
  node ← buildFunction kind name body location;
  popLocation;;
  mret node.

(** ** Properties of the output builder *)

(** The declaration of the locals that [buildLocals] returns in [g]. *)
Definition localsOf (g : State) : Value :=
  if (0 <? length (namedLocals g))%nat || (0 <? length (locals g))%nat
  then VNode (GeneratedNode localsText
                (VObject [("locals",
                           VArray (VNode <$> (namedLocals g ++ locals g)))])
                (relatedLocation g))
  else VUndefined.

Lemma buildLocals_run g : buildLocals g = Some (localsOf g, g).
Proof.
  unfold buildLocals, localsOf. rewrite bind_run.
  change (gets namedLocals g) with (Some (namedLocals g, g)). cbv beta iota.
  rewrite bind_run.
  change (gets locals g) with (Some (locals g, g)). cbv beta iota.
  destruct (_ || _); reflexivity.
Qed.

(** The state in which a builder leaves the generator. *)
Definition finalizedState (range : Location) (g : State) : State :=
  let g1 := pushedState range g in
  poppedState
    (set_relatedLocation (location (assemble g1))
       (set_labelNumbers (numbers (assemble g1)) g1)).

(** The function node that a builder makes of the body fragment [body]. *)
Definition functionOf (kind : option FunctionForm) (name : Value) (body : Node)
    (range : Location) (g : State) : option FunctionLike :=
  let g1 := pushedState range g in
  let block := mkFunctionBlock [body] (location (assemble g1)) in
  match kind with
  | Some ArrowFunction =>
      Some (mkFunction ArrowFunction None block (parameters g) range)
  | Some form =>
      Some (mkFunction form (Some name) block (parameters g) range)
  | None => None
  end.

(** The fragment that each builder wraps the clauses in. *)
Definition generatorBody (range : Location) (g : State) : Node :=
  let g1 := pushedState range g in
  GeneratedNode generatorText
    (VObject [("locals", localsOf g1);
              ("functions", VArray (functions g1));
              ("body", VArray (VNode ∘ clauseNode <$> buildFunctionBody g1))])
    (location (assemble g1)).

Definition asyncBody (promiseConstructor : Value) (range : Location)
    (g : State) : Node :=
  let g1 := pushedState range g in
  GeneratedNode asyncText
    (VObject [("locals", localsOf g1);
              ("functions", VArray (functions g1));
              ("promise", promiseConstructor);
              ("body", VArray (VNode ∘ clauseNode <$> buildFunctionBody g1))])
    (location (assemble g1)).

Lemma pushedState_tables l g :
  parameters (pushedState l g) = parameters g
  /\ functions (pushedState l g) = functions g
  /\ locals (pushedState l g) = locals g
  /\ namedLocals (pushedState l g) = namedLocals g
  /\ operations (pushedState l g) = operations g
  /\ labels (pushedState l g) = labels g
  /\ blockStack (pushedState l g) = blockStack g
  /\ locationStack (pushedState l g) = relatedLocation g :: locationStack g.
Proof. destruct l; repeat split. Qed.

Lemma poppedState_fields g :
  locationStack (poppedState g) = tail (locationStack g)
  /\ labelNumbers (poppedState g) = labelNumbers g
  /\ operations (poppedState g) = operations g
  /\ labels (poppedState g) = labels g
  /\ blockStack (poppedState g) = blockStack g.
Proof.
  unfold poppedState. destruct (mjoin (head (locationStack g))); repeat split.
Qed.

Lemma buildFunction_run kind name body range g :
  buildFunction kind name body range g
  = Some (match kind with
          | Some ArrowFunction =>
              Some (mkFunction ArrowFunction None
                      (mkFunctionBlock [body] (relatedLocation g))
                      (parameters g) range)
          | Some form =>
              Some (mkFunction form (Some name)
                      (mkFunctionBlock [body] (relatedLocation g))
                      (parameters g) range)
          | None => None
          end, g).
Proof. reflexivity. Qed.

Lemma buildGeneratorFunction_run kind name range g :
  buildGeneratorFunction kind name range g
  = Some (functionOf kind name (generatorBody range g) range g,
          finalizedState range g).
Proof.
  unfold buildGeneratorFunction.
  rewrite bind_run, pushLocation_run, bind_run, buildLocals_run.
  set (g1 := pushedState range g).
  rewrite bind_run.
  change (gets functions g1) with (Some (functions g1, g1)). cbv beta iota.
  rewrite bind_run.
  change (finalizeBody g1)
    with (Some (clauses (assemble g1),
                set_relatedLocation (location (assemble g1))
                  (set_labelNumbers (numbers (assemble g1)) g1))).
  cbv beta iota. set (g2 := set_relatedLocation _ _).
  rewrite bind_run.
  change (createGeneratedNode generatorText ?c g2)
    with (Some (GeneratedNode generatorText c (relatedLocation g2), g2)).
  cbv beta iota. rewrite bind_run, buildFunction_run, bind_run, popLocation_run.
  rewrite ret_run. unfold functionOf, finalizedState, generatorBody.
  cbv zeta. fold g1. fold g2.
  destruct (pushedState_tables range g) as (Hp & _).
  change (parameters g2) with (parameters g1). fold g1 in Hp. rewrite Hp.
  reflexivity.
Qed.

Lemma buildAsyncFunction_run kind name promiseConstructor range g :
  buildAsyncFunction kind name promiseConstructor range g
  = Some (functionOf kind name (asyncBody promiseConstructor range g) range g,
          finalizedState range g).
Proof.
  unfold buildAsyncFunction.
  rewrite bind_run, pushLocation_run, bind_run, buildLocals_run.
  set (g1 := pushedState range g).
  rewrite bind_run.
  change (gets functions g1) with (Some (functions g1, g1)). cbv beta iota.
  rewrite bind_run.
  change (finalizeBody g1)
    with (Some (clauses (assemble g1),
                set_relatedLocation (location (assemble g1))
                  (set_labelNumbers (numbers (assemble g1)) g1))).
  cbv beta iota. set (g2 := set_relatedLocation _ _).
  rewrite bind_run.
  change (createGeneratedNode asyncText ?c g2)
    with (Some (GeneratedNode asyncText c (relatedLocation g2), g2)).
  cbv beta iota. rewrite bind_run, buildFunction_run, bind_run, popLocation_run.
  rewrite ret_run. unfold functionOf, finalizedState, asyncBody.
  cbv zeta. fold g1. fold g2.
  destruct (pushedState_tables range g) as (Hp & _).
  change (parameters g2) with (parameters g1). fold g1 in Hp. rewrite Hp.
  reflexivity.
Qed.

(** *** Where the pass leaves [relatedLocation] *)

Lemma location_ensureLabels g i a :
  location (ensureLabels g i a) = location a.
Proof.
  destruct (labelMarkedAt g i) eqn:Hm.
  - rewrite (ensureLabels_marked g i a Hm).
    destruct (openCase_fields g i
                (set_numbers
                   (fst (bindLabels (labels g) 0 (Z.of_nat i)
                           (Z.of_nat (length (clauses a))) (numbers a))) a))
      as (_ & _ & _ & -> & _).
    reflexivity.
  - rewrite (ensureLabels_unmarked g i a Hm). reflexivity.
Qed.

Lemma location_writeOperation g i code args a :
  location (writeOperation g i code args a) = location a.
Proof.
  rewrite writeOperation_spec. cbv zeta.
  destruct (writeBlocks_fields g (Z.of_nat i) (drop (blockIndex a) (events g)) a)
    as (_ & _ & _ & Hl & _).
  destruct (gated _); [exact Hl|].
  match goal with
  | |- context [pushStatement ?x ?y] =>
      destruct (pushStatement_fields x y) as (_ & _ & _ & _ & -> & _)
  end.
  exact Hl.
Qed.

Lemma location_assembleOperation g a i code :
  operations g !! i = Some code ->
  location (assembleOperation g a i) = mjoin (operationLocations g !! i).
Proof.
  intros Hop. unfold assembleOperation. rewrite Hop. cbv zeta.
  rewrite location_writeOperation, location_ensureLabels. reflexivity.
Qed.

(** The location that the pass has reached at its end: that of the last
    operation, or the one it started at when the log is empty. *)
Definition lastLocation (g : State) : Location :=
  match operations g with
  | [] => relatedLocation g
  | _ :: _ => mjoin (operationLocations g !! (length (operations g) - 1)%nat)
  end.

Lemma location_assemble g : location (assemble g) = lastLocation g.
Proof.
  assert (H : location (ensureLabels g (length (operations g))
                          (assembleUpTo g (length (operations g))))
              = lastLocation g).
  { rewrite location_ensureLabels. unfold lastLocation.
    destruct (operations g) as [|code ops] eqn:Hops; [reflexivity|].
    change (length (code :: ops)) with (S (length ops)).
    rewrite assembleUpTo_S.
    destruct (lookup_lt_is_Some_2 (operations g) (length ops)) as [c Hc].
    { rewrite Hops. simpl. lia. }
    rewrite (location_assembleOperation g _ _ c Hc).
    replace (S (length ops) - 1)%nat with (length ops) by lia. reflexivity. }
  unfold assemble. cbv zeta.
  destruct (instructionWasCompletion _); [exact H|].
  rewrite writeReturn_spec.
  match goal with
  | |- context [pushStatement ?x ?y] =>
      destruct (pushStatement_fields x y) as (_ & _ & _ & _ & -> & _)
  end.
  exact H.
Qed.

(** *** What the pass reads of the generator *)

Lemma assembleOperation_located l g a i :
  assembleOperation (set_relatedLocation l g) a i = assembleOperation g a i.
Proof.
  unfold assembleOperation.
  change (operations (set_relatedLocation l g)) with (operations g).
  destruct (operations g !! i); [|reflexivity]. cbv zeta.
  apply writeOperation_same_blocks; reflexivity.
Qed.

Lemma assembleOperation_stack v g a i :
  assembleOperation (set_locationStack v g) a i = assembleOperation g a i.
Proof.
  unfold assembleOperation.
  change (operations (set_locationStack v g)) with (operations g).
  destruct (operations g !! i); [|reflexivity]. cbv zeta.
  apply writeOperation_same_blocks; reflexivity.
Qed.

Lemma assembleUpTo_stack v g k :
  assembleUpTo (set_locationStack v g) k = assembleUpTo g k.
Proof.
  induction k as [|k IH]; [reflexivity|].
  rewrite !assembleUpTo_S, assembleOperation_stack, IH. reflexivity.
Qed.

Lemma assemble_stack v g : assemble (set_locationStack v g) = assemble g.
Proof.
  unfold assemble. cbv zeta.
  change (operations (set_locationStack v g)) with (operations g).
  rewrite assembleUpTo_stack. reflexivity.
Qed.

Lemma ensureLabels_located l g i a :
  ensureLabels (set_relatedLocation l g) i a = ensureLabels g i a.
Proof. reflexivity. Qed.

Lemma assembleUpTo_located l g k :
  (k < length (operations g))%nat ->
  assembleUpTo (set_relatedLocation l g) (S k) = assembleUpTo g (S k).
Proof.
  intros Hk. induction k as [|k IH].
  - rewrite !assembleUpTo_S, assembleOperation_located.
    destruct (lookup_lt_is_Some_2 (operations g) 0) as [code Hop]; [lia|].
    unfold assembleOperation. rewrite Hop. reflexivity.
  - rewrite (assembleUpTo_S _ (S k)), (assembleUpTo_S g (S k)).
    rewrite assembleOperation_located, IH by lia. reflexivity.
Qed.

Lemma assemble_located l g :
  operations g <> [] -> assemble (set_relatedLocation l g) = assemble g.
Proof.
  intros Hne. unfold assemble. cbv zeta.
  change (operations (set_relatedLocation l g)) with (operations g).
  destruct (operations g) as [|code ops] eqn:Hops; [congruence|].
  change (length (code :: ops)) with (S (length ops)).
  rewrite ensureLabels_located, assembleUpTo_located; [reflexivity|].
  rewrite Hops. simpl. lia.
Qed.

Lemma assemble_pushed range g :
  operations g <> [] -> assemble (pushedState range g) = assemble g.
Proof.
  intros Hne. unfold pushedState, locatedState. destruct range.
  - rewrite assemble_located by exact Hne. apply assemble_stack.
  - apply assemble_stack.
Qed.

Lemma resolved_same g g' s :
  labels g' = labels g -> operations g' = operations g ->
  labelNumbers g' = labelNumbers g ->
  array_get (resolvedLabelNumbers g') s = array_get (resolvedLabelNumbers g) s.
Proof.
  intros Hl Ho Hn.
  assert (Hfree :
    (forall k, (k <= length (operations g))%nat ->
               array_get (labels g) s <> Some (Z.of_nat k)) ->
    array_get (resolvedLabelNumbers g') s = array_get (resolvedLabelNumbers g) s).
  { intros H. rewrite !resolved_unbound; [congruence | exact H |].
    rewrite Hl, Ho. exact H. }
  destruct (array_get (labels g) s) as [z|] eqn:Hz;
    [|apply Hfree; intros; discriminate].
  destruct (decide (0 <= z <= Z.of_nat (length (operations g)))) as [Hin|Hout].
  - assert (Hb : array_get (labels g) s = Some (Z.of_nat (Z.to_nat z)))
      by (rewrite Hz; f_equal; lia).
    rewrite (resolved_bound g s (Z.to_nat z)) by (exact Hb || lia).
    rewrite (resolved_bound g' s (Z.to_nat z))
      by (rewrite ?Hl, ?Ho; exact Hb || lia).
    unfold caseStartsBelow, labelMarkedAt. rewrite Hl. reflexivity.
  - apply Hfree. intros k Hk H. injection H as ->. lia.
Qed.

(** The location to which a builder sets [relatedLocation] while it runs
    the pass: [range] when it is given, the current one otherwise. *)
Definition bodyLocation (range : Location) (g : State) : Location :=
  match operations g with
  | [] => match range with Some _ => range | None => relatedLocation g end
  | _ :: _ => mjoin (operationLocations g !! (length (operations g) - 1)%nat)
  end.

Lemma location_pushed range g :
  location (assemble (pushedState range g)) = bodyLocation range g.
Proof.
  rewrite location_assemble. unfold lastLocation, bodyLocation.
  destruct range; reflexivity.
Qed.

Lemma finalizedState_frame range g :
  set_relatedLocation (relatedLocation g)
    (set_labelNumbers (labelNumbers g) (finalizedState range g)) = g.
Proof.
  unfold finalizedState. cbv zeta.
  generalize (location (assemble (pushedState range g))).
  generalize (numbers (assemble (pushedState range g))).
  intros ns l. unfold poppedState, pushedState, locatedState.
  destruct g as [related stack]. destruct range, related; reflexivity.
Qed.

Lemma finalizedState_related range g :
  relatedLocation (finalizedState range g)
  = match relatedLocation g with
    | Some r => Some r
    | None => bodyLocation range g
    end.
Proof.
  rewrite <- location_pushed. unfold finalizedState. cbv zeta.
  generalize (location (assemble (pushedState range g))).
  generalize (numbers (assemble (pushedState range g))).
  intros ns l. unfold poppedState, pushedState, locatedState.
  destruct g as [related stack]. destruct range, related; reflexivity.
Qed.

Lemma finalizedState_numbers range g :
  labelNumbers (finalizedState range g)
  = resolvedLabelNumbers (pushedState range g).
Proof.
  unfold finalizedState. cbv zeta.
  match goal with
  | |- context [poppedState ?x] =>
      destruct (poppedState_fields x) as (_ & -> & _)
  end.
  reflexivity.
Qed.

(** X21. Whatever the kind, the name and the range, each of the two
    builders returns and both leave the generator in the same state. That
    state is the one they were called in but for two fields:
    [labelNumbers] now resolves every label as the pass does, and
    [relatedLocation] is restored only when it was set, a generator
    without location being left at the location of its last operation (or
    at [range] when nothing was recorded). *)
Theorem builders_restore_generator (kind : option FunctionForm)
    (name promiseConstructor : Value) (range : Location) (g : State) :
  exists g',
    snd <$> buildGeneratorFunction kind name range g = Some g'
    /\ snd <$> buildAsyncFunction kind name promiseConstructor range g = Some g'
    /\ set_relatedLocation (relatedLocation g)
         (set_labelNumbers (labelNumbers g) g') = g
    /\ relatedLocation g'
       = match relatedLocation g with
         | Some r => Some r
         | None => bodyLocation range g
         end
    /\ forall l,
         array_get (labelNumbers g') l = array_get (resolvedLabelNumbers g) l.
Proof.
  exists (finalizedState range g).
  rewrite buildGeneratorFunction_run, buildAsyncFunction_run.
  split; [reflexivity|]. split; [reflexivity|].
  split; [apply finalizedState_frame|].
  split; [apply finalizedState_related|].
  intros l. rewrite finalizedState_numbers.
  destruct (pushedState_tables range g) as (_ & _ & _ & _ & Ho & Hl & _).
  apply resolved_same; [exact Hl | exact Ho |].
  destruct range; reflexivity.
Qed.

(** X22. For each of the five kinds of function the two builders return
    nodes that differ only in the text of their body fragment and in its
    promise entry: same kind, name (none for an arrow function),
    parameters and range, and one block of one fragment with the same
    locals, functions and clauses. The block and the fragment lie at the
    location of the last operation, not at [range], unless nothing was
    recorded; the clauses are those of [buildFunctionBody] and, once
    something was recorded, do not depend on [range]. For any other kind
    the builders return no node. *)
Theorem built_function_shape (form : FunctionForm)
    (name promiseConstructor : Value) (range : Location) (g : State) :
  exists g' localsValue body,
    let functionName :=
      match form with ArrowFunction => None | _ => Some name end in
    let at_ := bodyLocation range g in
    buildLocals (pushedState range g)
      = Some (localsValue, pushedState range g)
    /\ body = buildFunctionBody (pushedState range g)
    /\ (operations g <> [] -> body = buildFunctionBody g)
    /\ buildGeneratorFunction (Some form) name range g
       = Some (Some (mkFunction form functionName
                 (mkFunctionBlock
                    [GeneratedNode generatorText
                       (VObject [("locals", localsValue);
                                 ("functions", VArray (functions g));
                                 ("body", VArray (VNode ∘ clauseNode <$> body))])
                       at_] at_)
                 (parameters g) range), g')
    /\ buildAsyncFunction (Some form) name promiseConstructor range g
       = Some (Some (mkFunction form functionName
                 (mkFunctionBlock
                    [GeneratedNode asyncText
                       (VObject [("locals", localsValue);
                                 ("functions", VArray (functions g));
                                 ("promise", promiseConstructor);
                                 ("body", VArray (VNode ∘ clauseNode <$> body))])
                       at_] at_)
                 (parameters g) range), g')
    /\ fst <$> buildGeneratorFunction None name range g = Some None
    /\ fst <$> buildAsyncFunction None name promiseConstructor range g
       = Some None.
Proof.
  exists (finalizedState range g), (localsOf (pushedState range g)),
    (buildFunctionBody (pushedState range g)).
  cbv zeta. rewrite !buildGeneratorFunction_run, !buildAsyncFunction_run.
  split; [apply buildLocals_run|]. split; [reflexivity|].
  split.
  { intros Hne. unfold buildFunctionBody.
    rewrite assemble_pushed by exact Hne. reflexivity. }
  unfold functionOf, generatorBody, asyncBody. cbv zeta.
  rewrite location_pushed.
  destruct (pushedState_tables range g) as (_ & -> & _).
  repeat split; destruct form; reflexivity.
Qed.

(** *** Declared locals reach the output *)

(** The calls that declare a local. *)
Definition declares (c : Command) : bool :=
  match c with
  | DeclareLocal _ | CacheExpression _ => true
  | _ => false
  end.

(** From [g] to [g'] no local was dropped. *)
Definition LocalsKept (g g' : State) : Prop :=
  forall n, n ∈ namedLocals g ++ locals g -> n ∈ namedLocals g' ++ locals g'.

Lemma LocalsKept_declared name g : LocalsKept g (declaredState name g).
Proof.
  intros n. unfold declaredState. destruct (nonEmpty name); simpl;
    rewrite !elem_of_app; tauto.
Qed.

Lemma declaredNode_declared name g :
  declaredNode name g
  ∈ namedLocals (declaredState name g) ++ locals (declaredState name g).
Proof.
  unfold declaredState. destruct (nonEmpty name); simpl;
    rewrite !elem_of_app, list_elem_of_singleton; tauto.
Qed.

Lemma run_LocalsKept cs g g' : run cs g = Some g' -> LocalsKept g g'.
Proof.
  apply (Keeps_run LocalsKept); try (intros g0 **; intros n Hn; exact Hn).
  - intros g1 g2 g3 H1 H2 n Hn. auto.
  - apply LocalsKept_declared.
Qed.

Lemma emit_LocalsKept code args g x g' :
  emit code args g = Some (x, g') -> LocalsKept g g'.
Proof.
  apply (Keeps_emit LocalsKept); try (intros g0 **; intros n Hn; exact Hn).
Qed.

(** X23. The node that [declareLocal] or [cacheExpression] returns is
    declared in the output: whatever calls follow, [buildLocals] then
    returns a [var] declaration, and the node is among its locals. The
    declaration lists the named locals before the anonymous ones. *)
Theorem declared_local_is_output (c : Command) (cs : list Command)
    (g g1 g2 : State) (v : Value) :
  declares c = true ->
  exec c g = Some (v, g1) ->
  run cs g1 = Some g2 ->
  exists n,
    v = VNode n
    /\ n ∈ namedLocals g2 ++ locals g2
    /\ buildLocals g2
       = Some (VNode (GeneratedNode localsText
                        (VObject [("locals",
                           VArray (VNode <$> (namedLocals g2 ++ locals g2)))])
                        (relatedLocation g2)), g2).
Proof.
  intros Hc Hexec Hrun.
  assert (Hn : exists n, v = VNode n /\ n ∈ namedLocals g1 ++ locals g1).
  { destruct c; try discriminate; cbn [exec] in Hexec;
      unfold returnsNode in Hexec;
      apply bind_inv in Hexec as (n & ga & H & Hret);
      injection Hret as <- <-; exists n; (split; [reflexivity|]).
    - rewrite declareLocal_run in H. injection H as <- <-.
      apply declaredNode_declared.
    - unfold cacheExpression in H.
      apply bind_inv in H as (local & gb & H1 & H2).
      rewrite declareLocal_run in H1. injection H1 as <- <-.
      apply bind_inv in H2 as (statement & gc & H3 & H4).
      injection H3 as _ <-.
      apply bind_inv in H4 as (u & gd & H5 & H6).
      injection H6 as <- <-.
      eapply emit_LocalsKept; [exact H5|]. apply declaredNode_declared. }
  destruct Hn as (n & -> & Hn). exists n. split; [reflexivity|].
  pose proof (run_LocalsKept cs g1 g2 Hrun n Hn) as Hin.
  split; [exact Hin|].
  rewrite buildLocals_run. unfold localsOf.
  destruct (namedLocals g2) as [|a named]; [|reflexivity].
  destruct (locals g2) as [|b anonymous]; [|reflexivity].
  apply elem_of_nil in Hin. destruct Hin.
Qed.

Lemma declared_local_is_output_witness :
  let c := CacheExpression (VNumber 1) in
  let cs := [DeclareLocal (Some "x"); Emit Return []] in
  let g1 := after [c] in
  let g2 := after (c :: cs) in
  let n := GeneratedNode (anonymousName 0) VUndefined None in
  declares c = true
  /\ exec c createCodeGenerator = Some (VNode n, g1)
  /\ run cs g1 = Some g2
  /\ exists n,
       VNode (GeneratedNode (anonymousName 0) VUndefined None) = VNode n
       /\ n ∈ namedLocals g2 ++ locals g2
       /\ buildLocals g2
          = Some (VNode (GeneratedNode localsText
                           (VObject [("locals",
                              VArray (VNode <$> (namedLocals g2 ++ locals g2)))])
                           (relatedLocation g2)), g2).
Proof.
  cbv zeta. split; [reflexivity|].
  split; [vm_compute; reflexivity|].
  split; [vm_compute; reflexivity|].
  apply (declared_local_is_output (CacheExpression (VNumber 1))
           [DeclareLocal (Some "x"); Emit Return []]
           createCodeGenerator
           (after [CacheExpression (VNumber 1)])
           (after [CacheExpression (VNumber 1); DeclareLocal (Some "x");
                   Emit Return []]));
    vm_compute; reflexivity.
Defined.

(** *** The symbol tables follow the calls *)

Definition addedFunction (c : Command) : option Value :=
  match c with AddFunction func => Some func | _ => None end.

Definition addedParameter (c : Command) : option (Value * option Z) :=
  match c with AddParameter name flags => Some (name, flags) | _ => None end.

Definition parameterSignature (p : ParameterDeclaration)
  : Value * option Z :=
  (parameterName p, parameterFlags p).

Definition symbolCount (g : State) : nat :=
  length (namedLocals g ++ locals g).

Definition SameSymbols (g g' : State) : Prop :=
  parameters g' = parameters g /\ functions g' = functions g
  /\ namedLocals g' = namedLocals g /\ locals g' = locals g.

Lemma SameSymbols_refl g : SameSymbols g g.
Proof. repeat split. Qed.

Lemma SameSymbols_trans g1 g2 g3 :
  SameSymbols g1 g2 -> SameSymbols g2 g3 -> SameSymbols g1 g3.
Proof.
  intros (A1 & A2 & A3 & A4) (B1 & B2 & B3 & B4).
  repeat split; congruence.
Qed.

Lemma exec_SameSymbols c g v g' :
  addsSymbol c = false -> exec c g = Some (v, g') -> SameSymbols g g'.
Proof.
  intros Hc. revert g v g'.
  apply (Keeps_exec_other SameSymbols SameSymbols_refl SameSymbols_trans);
    try exact Hc; intros; repeat split.
Qed.

Lemma exec_symbols c g v g' :
  exec c g = Some (v, g') ->
  functions g' = functions g ++ option_list (addedFunction c)
  /\ parameterSignature <$> parameters g'
     = (parameterSignature <$> parameters g) ++ option_list (addedParameter c)
  /\ symbolCount g' = (symbolCount g + if declares c then 1 else 0)%nat.
Proof.
  intros H. destruct (addsSymbol c) eqn:Hc.
  - destruct c; try discriminate; cbn [exec] in H.
    + injection H as _ <-. unfold symbolCount. simpl.
      rewrite app_nil_r, Nat.add_0_r. auto.
    + injection H as _ <-. unfold symbolCount. simpl.
      rewrite fmap_app, app_nil_r, Nat.add_0_r. auto.
    + unfold returnsNode in H. rewrite bind_run, declareLocal_run in H.
      injection H as _ <-. unfold symbolCount, declaredState.
      destruct (nonEmpty name); simpl; rewrite !app_nil_r, !length_app;
        simpl; repeat split; lia.
    + unfold returnsNode in H.
      apply bind_inv in H as (n & ga & H & Hret). injection Hret as _ <-.
      unfold cacheExpression in H.
      apply bind_inv in H as (local & gb & H1 & H2).
      rewrite declareLocal_run in H1. injection H1 as _ <-.
      apply bind_inv in H2 as (statement & gc & H3 & H4).
      injection H3 as _ <-.
      apply bind_inv in H4 as (u & gd & H5 & H6).
      injection H6 as _ <-.
      assert (Hs : SameSymbols (declaredState None g) gd).
      { revert H5.
        apply (Keeps_emit SameSymbols SameSymbols_refl); intros;
          repeat split. }
      destruct Hs as (-> & -> & Hn & Hl). unfold symbolCount.
      rewrite Hn, Hl. unfold declaredState. simpl.
      rewrite !app_nil_r, !length_app. simpl. repeat split; lia.
  - destruct (exec_SameSymbols c g v g' Hc H) as (-> & -> & Hn & Hl).
    unfold symbolCount. rewrite Hn, Hl.
    destruct c; try discriminate; simpl;
      rewrite !app_nil_r, Nat.add_0_r; auto.
Qed.

(** X24. The symbol tables hold what the calls put there, in the order of
    the calls, and nothing else: after the calls [cs], [functions] has
    grown by the arguments of the [addFunction] calls, [parameters] by
    one declaration per [addParameter] call with its name and flags, and
    the two lists of locals together by one node per call of
    [declareLocal] or [cacheExpression]. No other call touches them. *)
Theorem symbol_tables_follow_calls (cs : list Command) (g g' : State) :
  run cs g = Some g' ->
  functions g' = functions g ++ omap addedFunction cs
  /\ parameterSignature <$> parameters g'
     = (parameterSignature <$> parameters g) ++ omap addedParameter cs
  /\ symbolCount g' = (symbolCount g + length (List.filter declares cs))%nat.
Proof.
  revert g. induction cs as [|c cs IH]; intros g H.
  - injection H as <-. simpl. rewrite !app_nil_r, Nat.add_0_r. auto.
  - rewrite run_cons in H.
    destruct (exec c g) as [[v g1]|] eqn:He; [|discriminate].
    destruct (exec_symbols c g v g1 He) as (Hf & Hp & Hn).
    destruct (IH g1 H) as (-> & -> & ->). rewrite Hf, Hp, Hn.
    rewrite <- !app_assoc. cbn [omap list_omap List.filter].
    repeat split.
    + destruct (addedFunction c); reflexivity.
    + destruct (addedParameter c); reflexivity.
    + destruct (declares c); simpl; lia.
Qed.

Lemma symbol_tables_follow_calls_witness :
  let cs := [AddFunction (VString "f"); DeclareLocal None;
             AddParameter (VString "a") None; Emit Return [];
             CacheExpression (VNumber 1); AddFunction (VString "g")] in
  let g := createCodeGenerator in
  let g' := after cs in
  run cs g = Some g'
  /\ functions g' = functions g ++ omap addedFunction cs
  /\ parameterSignature <$> parameters g'
     = (parameterSignature <$> parameters g) ++ omap addedParameter cs
  /\ symbolCount g' = (symbolCount g + length (List.filter declares cs))%nat.
Proof.
  cbv zeta. split; [vm_compute; reflexivity|].
  apply (symbol_tables_follow_calls
           [AddFunction (VString "f"); DeclareLocal None;
            AddParameter (VString "a") None; Emit Return [];
            CacheExpression (VNumber 1); AddFunction (VString "g")]
           createCodeGenerator).
  vm_compute; reflexivity.
Defined.

(** * What each turn of the pass writes *)

(** The statements that turn [j] of the main loop of [buildFunctionBody]
    appends to those written before it, and the statements that the code
    after the loop appends. *)
Definition written (g : State) (j : nat) : list Node :=
  drop (length (allNodes (assembleUpTo g j))) (allNodes (assembleUpTo g (S j))).

Definition writtenAfter (g : State) : list Node :=
  drop (length (allNodes (assembleUpTo g (length (operations g)))))
    (allNodes (assemble g)).

Lemma allNodes_assembleOperation g a j :
  allNodes (assembleOperation g a j)
  = allNodes a
    ++ match operations g !! j with
       | Some code =>
           let a1 := set_location (mjoin (operationLocations g !! j)) a in
           (if labelMarkedAt g j then fixupOf j a1 ++ initOf g a1 else [])
           ++ operationNodes g j code
                (default [] (operationArguments g !! j)) (ensureLabels g j a1)
       | None => []
       end.
Proof.
  unfold assembleOperation.
  destruct (operations g !! j) as [code|]; [|rewrite app_nil_r; reflexivity].
  cbv zeta. rewrite allNodes_writeOperation, allNodes_ensureLabels.
  rewrite <- app_assoc. reflexivity.
Qed.

Lemma allNodes_turn g j :
  allNodes (assembleUpTo g (S j)) = allNodes (assembleUpTo g j) ++ written g j.
Proof.
  unfold written. rewrite assembleUpTo_S, allNodes_assembleOperation.
  rewrite drop_app_length. reflexivity.
Qed.

Lemma allNodes_upTo g k :
  allNodes (assembleUpTo g k) = concat (written g <$> seq 0 k).
Proof.
  induction k as [|k IH]; [reflexivity|].
  rewrite allNodes_turn, IH, seq_S, fmap_app, concat_app. simpl.
  rewrite app_nil_r. reflexivity.
Qed.

Lemma allNodes_assemble g :
  allNodes (assemble g)
  = concat (written g <$> seq 0 (length (operations g))) ++ writtenAfter g.
Proof.
  rewrite <- allNodes_upTo. unfold writtenAfter.
  assert (H : exists ns,
             allNodes (assemble g)
             = allNodes (assembleUpTo g (length (operations g))) ++ ns).
  { unfold assemble. cbv zeta.
    destruct (instructionWasCompletion _).
    - rewrite allNodes_ensureLabels. eauto.
    - rewrite writeReturn_spec, allNodes_pushStatement.
      change (allNodes (set_instructionWasCompletion true ?a))
        with (allNodes a).
      rewrite allNodes_ensureLabels, <- app_assoc. eauto. }
  destruct H as [ns ->]. rewrite drop_app_length. reflexivity.
Qed.

Lemma pushStatement_set_location n l a :
  pushStatement n (set_location l a) = set_location l (pushStatement n a).
Proof.
  unfold pushStatement. simpl. destruct (reverse (clauses a)); reflexivity.
Qed.

Lemma pushAll_set_location ns l a :
  pushAll ns (set_location l a) = set_location l (pushAll ns a).
Proof.
  revert a. induction ns as [|n ns IH]; intros a; [reflexivity|].
  simpl. rewrite pushStatement_set_location. apply IH.
Qed.

Lemma eventNodes_registrations g l evs :
  Forall (fun n => exists b, b ∈ store g /\ kind b = Exception
                             /\ n = trysPushAt l b)
    (concat (eventNodes g l <$> evs)).
Proof.
  induction evs as [|[[action offset] block] evs IH]; simpl; [constructor|].
  apply Forall_app. split; [|exact IH].
  destruct action, block as [r|]; simpl; try constructor.
  destruct (store g !! r) as [b|] eqn:Hb; try constructor.
  destruct (bool_decide (kind b = Exception)) eqn:Hk; repeat constructor.
  exists b. apply bool_decide_eq_true in Hk.
  split; [eapply list_elem_of_lookup_2; exact Hb | auto].
Qed.

(** In a recording whose caller never marks the start label of an
    exception block, the opening of such a block is replayed at a turn at
    which its start label opens a case: never at the turn of a dead
    operation. *)
Lemma disciplined_dead_turn cs g j l :
  DisciplinedRecording cs g ->
  labelMarkedAt g j = false ->
  (j <= length (operations g))%nat ->
  concat (eventNodes g l
            <$> dueEvents (Z.of_nat j)
                  (drop (blockIndex (assembleUpTo g j)) (events g))) = [].
Proof.
  intros Hrec Hm Hj.
  pose proof (Traced_Tracked _ _ (DisciplinedRecording_Traced cs g Hrec)) as T.
  assert (Hpos : forall ev, ev ∈ events g -> 0 <= ev.1.2).
  { intros ev Hin. apply list_elem_of_lookup in Hin as [p Hp].
    pose proof (t_offsets g T p ev Hp) as H. unfold offsetOf in H. lia. }
  rewrite (blockIndex_upTo g j Hj Hpos).
  set (bi := length (dueEvents (Z.of_nat j - 1) (events g))).
  destruct (concat _) as [|n ns] eqn:Hns; [reflexivity|]. exfalso.
  assert (Hin : n ∈ concat (eventNodes g l
                    <$> dueEvents (Z.of_nat j) (drop bi (events g))))
    by (rewrite Hns; left).
  apply eventNodes_opening in Hin as (k & r & b & Hev & Hb & Hk).
  apply list_elem_of_lookup in Hev as [p Hp].
  pose proof (dueEvents_offsets _ _ _ _ Hp) as Hle. simpl in Hle.
  rewrite dueEvents_take in Hp. apply lookup_take_Some in Hp as [Hp _].
  rewrite lookup_drop in Hp.
  assert (Hge : Z.of_nat j - 1 < k).
  { destruct (decide (k <= Z.of_nat j - 1)) as [Hlow|]; [|lia]. exfalso.
    assert (Hlt : (bi + p < bi)%nat); [|lia].
    apply dueEvents_reaches; [eapply lookup_lt_Some; exact Hp|].
    intros q ev Hq Hev.
    pose proof (t_sorted g T q (bi + p)%nat ev _ Hq Hev Hp) as H.
    unfold offsetOf in H. simpl in H. lia. }
  destruct (t_exception g T r b Hb Hk) as (s & k0 & pos & Hs & _ & Hopen & Hl & _).
  pose proof (t_once g T pos (bi + p)%nat k0 k r Hopen Hp) as ->.
  assert (k0 = k) by congruence. subst k0.
  assert (k = Z.of_nat j) by lia. subst k.
  rewrite (labelMarkedAt_bound g s j Hl) in Hm. discriminate.
Qed.

(** C3. An operation recorded after an abrupt operation or a completion,
    with no label marked in between or at it, contributes no statement.
    The statements of the output are those that the turns of the main
    loop write, in order, followed by those of the code after the loop.
    The turn of such an operation writes nothing for the operation: all it
    writes are the [__state.trys.push] registrations of the exception
    blocks whose opening is replayed at that turn, which are no opcodes.
    When the caller never marks the start label of an exception block,
    there is none, and the turn leaves the written statements as they
    were. Accordingly, whatever opcode and arguments stand at the place of
    the operation in the log, the clauses that the pass assembles, and the
    case numbers of the labels, are the same. *)
Theorem dead_operation_contributes_nothing (g : State) (j : nat) :
  dead g j = true ->
  (j < length (operations g))%nat ->
  let a := assembleUpTo g j in
  let l := mjoin (operationLocations g !! j) in
  let registrations :=
    concat (eventNodes g l
              <$> dueEvents (Z.of_nat j) (drop (blockIndex a) (events g))) in
  statements (assemble g) ++ concat (clauseStatements <$> buildFunctionBody g)
  = concat (written g <$> seq 0 (length (operations g))) ++ writtenAfter g
  /\ written g j = registrations
  /\ Forall (fun n => exists b, b ∈ store g /\ kind b = Exception
                                /\ n = trysPushAt l b) registrations
  /\ clauses (assembleUpTo g (S j)) = clauses (pushAll registrations a)
  /\ (forall cs, DisciplinedRecording cs g ->
        written g j = []
        /\ clauses (assembleUpTo g (S j)) = clauses (assembleUpTo g j))
  /\ forall code args,
       buildFunctionBody (replaceOperation g j code args) = buildFunctionBody g
       /\ resolvedLabelNumbers (replaceOperation g j code args)
          = resolvedLabelNumbers g.
Proof.
  intros Hd Hj. cbv zeta.
  destruct (dead_gated g j Hd) as [Hg Hm].
  destruct (lookup_lt_is_Some_2 (operations g) j Hj) as [code Hop].
  set (a1 := set_location (mjoin (operationLocations g !! j)) (assembleUpTo g j)).
  assert (Hturn : assembleUpTo g (S j)
                  = writeBlocks g (Z.of_nat j)
                      (drop (blockIndex (assembleUpTo g j)) (events g)) a1).
  { rewrite assembleUpTo_S. unfold assembleOperation. rewrite Hop. cbv zeta.
    rewrite (ensureLabels_unmarked _ _ _ Hm).
    fold a1. apply (writeOperation_gated g j code _ a1 Hg). }
  assert (Hw : written g j
               = concat (eventNodes g (mjoin (operationLocations g !! j))
                           <$> dueEvents (Z.of_nat j)
                                 (drop (blockIndex (assembleUpTo g j))
                                    (events g)))).
  { unfold written. rewrite Hturn, writeBlocks_spec.
    change (allNodes (set_blockIndex ?k ?x)) with (allNodes x).
    rewrite allNodes_pushAll.
    change (allNodes a1) with (allNodes (assembleUpTo g j)).
    rewrite drop_app_length. reflexivity. }
  assert (Hcl : clauses (assembleUpTo g (S j))
                = clauses
                    (pushAll
                       (concat (eventNodes g (mjoin (operationLocations g !! j))
                                  <$> dueEvents (Z.of_nat j)
                                        (drop (blockIndex (assembleUpTo g j))
                                           (events g))))
                       (assembleUpTo g j))).
  { rewrite Hturn, writeBlocks_spec.
    change (clauses (set_blockIndex ?k ?x)) with (clauses x).
    change (location a1) with (mjoin (operationLocations g !! j)).
    unfold a1. rewrite pushAll_set_location. reflexivity. }
  split; [apply allNodes_assemble|].
  split; [exact Hw|].
  split; [apply eventNodes_registrations|].
  split; [exact Hcl|].
  split.
  { intros cs Hrec. rewrite Hw, Hcl.
    rewrite (disciplined_dead_turn cs g j _ Hrec Hm) by lia.
    split; reflexivity. }
  intros code' args'.
  assert (H : assemble (replaceOperation g j code' args') = assemble g).
  { unfold assemble.
    replace (length (operations (replaceOperation g j code' args')))
      with (length (operations g))
      by (unfold replaceOperation; simpl; rewrite length_insert; reflexivity).
    rewrite assembleUpTo_replace by exact Hd. reflexivity. }
  unfold buildFunctionBody, resolvedLabelNumbers. rewrite H. split; reflexivity.
Qed.

(** A [return], then an exception block whose start label the caller
    binds again after the next statement: the statement at index [1] is
    dead, and the opening of the block is replayed at its turn. *)
Definition deadRecording : list Command :=
  [Emit Return []; BeginExceptionBlock; Emit Statement [VNumber 2];
   MarkLabel 2].

Lemma dead_operation_contributes_nothing_witness :
  let g := after deadRecording in
  dead g 1 = true
  /\ (1 < length (operations g))%nat
  /\ statements (assemble g)
     ++ concat (clauseStatements <$> buildFunctionBody g)
     = concat (written g <$> seq 0 (length (operations g))) ++ writtenAfter g
  /\ written g 1 = [trysPushAt None (exceptionBlock 2 3)]
  /\ forall code args,
       buildFunctionBody (replaceOperation g 1 code args) = buildFunctionBody g
       /\ resolvedLabelNumbers (replaceOperation g 1 code args)
          = resolvedLabelNumbers g.
Proof.
  cbv zeta.
  assert (Hd : dead (after deadRecording) 1 = true) by reflexivity.
  assert (Hj : (1 < length (operations (after deadRecording)))%nat)
    by (vm_compute; lia).
  split; [exact Hd|]. split; [exact Hj|].
  destruct (dead_operation_contributes_nothing (after deadRecording) 1 Hd Hj)
    as (H1 & H2 & _ & _ & _ & H5).
  split; [exact H1|]. split; [|exact H5].
  rewrite H2. vm_compute. reflexivity.
Defined.

(** * The empty generator *)

Lemma run_protected cs :
  forall g g',
    run cs g = Some g' ->
    hasProtectedRegions g'
    = hasProtectedRegions g || existsb beginsException cs.
Proof.
  induction cs as [|c cs IH]; intros g g' H.
  - injection H as <-. rewrite orb_false_r. reflexivity.
  - rewrite run_cons in H.
    destruct (exec c g) as [[v g1]|] eqn:He; [|discriminate].
    rewrite (IH g1 g' H). cbn [existsb]. rewrite orb_assoc. f_equal.
    destruct (beginsException c) eqn:Hc.
    + destruct c; try discriminate. cbn [exec] in He.
      unfold returnsLabel in He.
      rewrite bind_run, beginExceptionBlock_run in He.
      injection He as _ <-. rewrite orb_true_r. reflexivity.
    + rewrite orb_false_r. revert He.
      apply (Keeps_exec_unprotected
               (fun g g' => hasProtectedRegions g' = hasProtectedRegions g));
        try exact Hc; try reflexivity.
      * intros g2 g3 g4 H1 H2. congruence.
      * intros name g2. unfold declaredState.
        destruct (nonEmpty name); reflexivity.
Qed.

(** C7. When no operation was recorded, the assembled body is the single
    clause [case 0:]. Its only statement is [return ["return"];], unless
    [beginExceptionBlock] was called: then [hasProtectedRegions] is set and
    the statement [__state.trys = [];] precedes the [return]. *)
Theorem empty_generator_body (cs : list Command) (g : State) :
  Recording cs g ->
  operations g = [] ->
  hasProtectedRegions g = existsb beginsException cs
  /\ buildFunctionBody g =
       [mkClause (caseLabel 0 (relatedLocation g))
          ((if existsb beginsException cs
            then [GeneratedNode trysInitText VUndefined (relatedLocation g)]
            else [])
           ++ [GeneratedNode returnText VUndefined (relatedLocation g)])
          (relatedLocation g)].
Proof.
  intros Hrec Hops.
  pose proof (Recording_Basic cs g Hrec) as Hb.
  destruct (entry_marked g Hb) as (i & Hi & Hm).
  rewrite Hops in Hi. simpl in Hi. assert (i = 0%nat) by lia. subst i.
  pose proof (run_protected cs createCodeGenerator g Hrec) as Hp.
  change (hasProtectedRegions createCodeGenerator) with false in Hp.
  rewrite orb_false_l in Hp. split; [exact Hp|]. rewrite <- Hp.
  unfold buildFunctionBody, assemble. rewrite Hops. cbv zeta.
  change (assembleUpTo g (length [])) with (startAssembler g).
  change (length (@nil OpCode)) with 0%nat.
  rewrite ensureLabels_marked by exact Hm.
  unfold openCase, startAssembler. simpl.
  destruct (hasProtectedRegions g); reflexivity.
Qed.

Lemma empty_generator_body_witness :
  let cs := [BeginBreakBlock (Some "l"); EndBreakBlock; Emit Statement []] in
  let g := after cs in
  Recording cs g
  /\ operations g = []
  /\ hasProtectedRegions g = existsb beginsException cs
  /\ buildFunctionBody g =
       [mkClause (caseLabel 0 (relatedLocation g))
          ((if existsb beginsException cs
            then [GeneratedNode trysInitText VUndefined (relatedLocation g)]
            else [])
           ++ [GeneratedNode returnText VUndefined (relatedLocation g)])
          (relatedLocation g)].
Proof.
  cbv zeta.
  split; [vm_compute; reflexivity|].
  split; [vm_compute; reflexivity|].
  apply (empty_generator_body
           [BeginBreakBlock (Some "l"); EndBreakBlock; Emit Statement []]
           (after [BeginBreakBlock (Some "l"); EndBreakBlock; Emit Statement []]));
    vm_compute; reflexivity.
Defined.

(** C7, as the claim states it, fails once an exception block was begun:
    after the one call [beginExceptionBlock()] no operation is recorded,
    and the single clause holds [__state.trys = [];] before the
    [return], so that the [return] is not its only statement. *)
Lemma empty_generator_body_counterexample :
  let cs := [BeginExceptionBlock] in
  let g := after cs in
  Recording cs g
  /\ operations g = []
  /\ buildFunctionBody g
     = [mkClause (caseLabel 0 None)
          [GeneratedNode trysInitText VUndefined None;
           GeneratedNode returnText VUndefined None] None]
  /\ forall l l' l'',
       buildFunctionBody g
       <> [mkClause (caseLabel 0 l) [GeneratedNode returnText VUndefined l'] l''].
Proof.
  cbv zeta. split; [vm_compute; reflexivity|].
  split; [vm_compute; reflexivity|].
  split; [vm_compute; reflexivity|].
  intros l l' l'' H. vm_compute in H. discriminate H.
Qed.

(** * Protected regions outside the discipline of the caller *)

(** C1, as the claim states it, fails on three recordings, one for each
    of the three conditions under which it is proved.
    - A block that is still open, with no operation recorded after its
      opening, is never replayed: its registration is missing from the
      body.
    - When the caller marks the start label of a block again, the
      registration stays in the case in which the block was opened, which
      is no longer the case [labelNumbers[startLabel]].
    - A statement of the caller that is itself a registration for the
      same start label is written like any other statement: the body then
      holds two of them. *)
Lemma protected_region_registered_counterexample :
  (let cs := [Emit Yield []; BeginExceptionBlock] in
   let g := after cs in
   DisciplinedRecording cs g
   /\ noForgedPush g = true
   /\ store g !! 0%nat = Some (exceptionBlock 2 3)
   /\ blockStack g = [0%nat]
   /\ countPushes 2 (concat (clauseStatements <$> buildFunctionBody g)) = 0%nat)
  /\ (let cs := [BeginExceptionBlock; Emit Statement [VNumber 1]; MarkLabel 2;
                 EndExceptionBlock] in
      let g := after cs in
      Recording cs g
      /\ blockStack g = []
      /\ noForgedPush g = true
      /\ (exists b, store g !! 0%nat = Some b /\ kind b = Exception
                    /\ startLabel b = Some 2)
      /\ array_get (resolvedLabelNumbers g) 2 = Some 1
      /\ (countPushes 2 <$> (clauseStatements <$> buildFunctionBody g))
         = [1%nat; 0%nat; 0%nat])
  /\ (let cs := [BeginExceptionBlock;
                 Emit Statement
                   [VNode (registration (VNumber 2) (VBoolean false)
                             (VBoolean false) (VNumber 3) None)];
                 EndExceptionBlock] in
      let g := after cs in
      DisciplinedRecording cs g
      /\ blockStack g = []
      /\ (exists b, store g !! 0%nat = Some b /\ kind b = Exception
                    /\ startLabel b = Some 2)
      /\ countPushes 2 (concat (clauseStatements <$> buildFunctionBody g))
         = 2%nat).
Proof.
  cbv zeta. split; [|split].
  - split; [vm_compute; reflexivity|]. split; [vm_compute; reflexivity|].
    split; [vm_compute; reflexivity|]. split; vm_compute; reflexivity.
  - split; [vm_compute; reflexivity|]. split; [vm_compute; reflexivity|].
    split; [vm_compute; reflexivity|].
    split; [eexists; split; [vm_compute; reflexivity|]; split; reflexivity|].
    split; vm_compute; reflexivity.
  - split; [vm_compute; reflexivity|]. split; [vm_compute; reflexivity|].
    split; [eexists; split; [vm_compute; reflexivity|]; split; reflexivity|].
    vm_compute; reflexivity.
Qed.
